(** * DARV autograd core: tensors, the backward engine and the optimizers

    A shallow embedding of [core/darv_tensor.hpp] and
    [core/darv_optimizer.hpp].

    - A [std::shared_ptr<Tensor>] is an index into a store (the heap of
      tensor objects, in allocation order); two pointers are the same tensor
      exactly when the indices are equal.
    - [double] is a carrier [F] with the operations the code uses
      (class [Scalar]); [binary64] instantiates it with the kernel's IEEE 754
      binary64 numbers, [exactZ] with exact integer arithmetic.
    - [size_t] is [N] with the wrap-around modulo [2^64] written out.
    - [std::vector<double>] is [list F]; [v[i]] outside the vector is
      undefined behaviour in C++ and is the default value / no update here;
      the invariant [tensor_ok] keeps every index the code uses in range.
    - [throw std::runtime_error(msg)] is the result [inl (runtime_error msg)]
      together with the store as it is at the throw. *)

From Stdlib Require Import Floats ZArith NArith.
From stdpp Require Import base option list gmap strings.

Local Open Scope N_scope.

(** ** Scalars: the operations on [double] used by the code *)

Class Scalar (F : Type) := {
  fzero : F;                 (* 0.0 *)
  fone : F;                  (* 1.0 *)
  fadd : F → F → F;
  fsub : F → F → F;
  fmul : F → F → F;
  fdiv : F → F → F;
  fopp : F → F;              (* unary minus *)
  flt : F → F → bool;        (* a < b *)
  fsqrt : F → F;             (* std::sqrt *)
  fpow : F → F → F;          (* std::pow *)
  fexp : F → F;              (* std::exp *)
  ftanh : F → F;             (* std::tanh *)
  of_size_t : N → F;         (* conversion size_t -> double *)
  of_int : Z → F;            (* conversion int -> double *)
}.

(** IEEE 754 binary64, the [double] of the target; [std::pow], [std::exp] and
    [std::tanh] come from the C library and are parameters. Integers are
    converted with round-to-nearest-even. *)
Definition Z2float (z : Z) : float :=
  SF2Prim (binary_normalize FloatOps.prec FloatOps.emax z 0 false).

Definition binary64 (libm_pow : float → float → float)
    (libm_exp libm_tanh : float → float) : Scalar float := {|
  fzero := PrimFloat.zero;
  fone := PrimFloat.one;
  fadd := PrimFloat.add;
  fsub := PrimFloat.sub;
  fmul := PrimFloat.mul;
  fdiv := PrimFloat.div;
  fopp := PrimFloat.opp;
  flt := PrimFloat.ltb;
  fsqrt := PrimFloat.sqrt;
  fpow := libm_pow;
  fexp := libm_exp;
  ftanh := libm_tanh;
  of_size_t := λ n, Z2float (Z.of_N n);
  of_int := Z2float;
|}.

(** Exact integer arithmetic: an instance in which [+] is associative and
    commutative with unit [0], used to run the model on small graphs. *)
Definition exactZ : Scalar Z := {|
  fzero := 0%Z;
  fone := 1%Z;
  fadd := Z.add;
  fsub := Z.sub;
  fmul := Z.mul;
  fdiv := Z.div;
  fopp := Z.opp;
  flt := Z.ltb;
  fsqrt := Z.sqrt;
  fpow := Z.pow;
  fexp := λ x, Z.pow 3 x;
  ftanh := Z.sgn;
  of_size_t := Z.of_N;
  of_int := λ z, z;
|}.

(** ** [size_t] and shapes *)

Definition size_t_modulus : N := 2 ^ 64.
Definition wrap (n : N) : N := n mod size_t_modulus.

(** [using Shape = std::vector<size_t>] *)
Abbreviation Shape := (list N) (only parsing).

(** [compute_size]: [std::accumulate] with [std::multiplies<size_t>], hence a
    product modulo [2^64]; an empty shape has size [0]. *)
Definition compute_size (shape : Shape) : N :=
  match shape with
  | [] => 0
  | _ => fold_left (λ acc d, wrap (acc * d)) shape 1
  end.

Fixpoint shapes_compatible (s1 s2 : Shape) : bool :=
  match s1, s2 with
  | [], [] => true
  | a :: s1', b :: s2' => (a =? b) && shapes_compatible s1' s2'
  | _, _ => false
  end.

(** [for (size_t i = 0; i < n; i++) body(i)] *)
Fixpoint for_ {S : Type} (n : nat) (body : nat → S → S) (s : S) : S :=
  match n with
  | O => s
  | S n' => body n' (for_ n' body s)
  end.

(** A [std::shared_ptr<Tensor>] (or the raw [Tensor*] behind it). *)
Abbreviation ptr := nat (only parsing).

(** What ends a call without a result: a [std::runtime_error] thrown by the
    code, the [std::length_error] of a [std::vector] asked for more elements
    than it can hold, or an access to an element outside a vector, to which
    C++ gives no meaning. *)
Inductive exception :=
  | runtime_error (what : string)
  | length_error
  | undefined_behaviour.

(** [std::vector<double>::max_size()]: with 64-bit pointers,
    [PTRDIFF_MAX / sizeof(double)]. *)
Definition vector_max_size : N := (2 ^ 63 - 1) / 8.

Section Autograd.
Context {F : Type} `{Scalar F}.

(** [v[i]] as an rvalue and [v[i] = x]. *)
Definition vget (v : list F) (i : nat) : F := default fzero (v !! i).
Definition vset (v : list F) (i : nat) (x : F) : list F := <[i := x]> v.

(** The [backward_fn_] closures, one constructor per lambda of the source,
    with the values the lambda captures. *)
Inductive Closure :=
  | BwNoop
  | BwAdd (this other result : ptr)
  | BwMultiply (this other result : ptr)
  | BwMultiplyScalar (this : ptr) (scalar : F) (result : ptr)
  | BwPow (this : ptr) (exponent : F) (result : ptr)
  | BwMatmul (this other result : ptr) (m k n : N)
  | BwSum (this result : ptr)
  | BwRelu (this result : ptr)
  | BwSigmoid (this result : ptr)
  | BwTanh (this result : ptr)
  | BwReshape (this result : ptr).

(** The fields of [class Tensor] ([name_] is a debug label and is left out). *)
Record Tensor := mkTensor {
  data_ : list F;
  grad_ : list F;
  shape_ : Shape;
  size_ : N;
  requires_grad_ : bool;
  inputs_ : list ptr;
  backward_fn_ : Closure;
}.

Definition set_data (t : Tensor) (d : list F) : Tensor :=
  mkTensor d (grad_ t) (shape_ t) (size_ t) (requires_grad_ t) (inputs_ t) (backward_fn_ t).
Definition set_grad (t : Tensor) (g : list F) : Tensor :=
  mkTensor (data_ t) g (shape_ t) (size_ t) (requires_grad_ t) (inputs_ t) (backward_fn_ t).
Definition set_graph (t : Tensor) (ins : list ptr) (bw : Closure) : Tensor :=
  mkTensor (data_ t) (grad_ t) (shape_ t) (size_ t) (requires_grad_ t) ins bw.

(** [Tensor(const Shape&, bool)] *)
Definition Tensor_of_shape (shape : Shape) (requires_grad : bool) : Tensor :=
  let size := compute_size shape in
  {| data_ := replicate (N.to_nat size) fzero;
     grad_ := if requires_grad then replicate (N.to_nat size) fzero else [];
     shape_ := shape; size_ := size; requires_grad_ := requires_grad;
     inputs_ := []; backward_fn_ := BwNoop |}.

(** [Tensor(const std::vector<double>&, const Shape&, bool)] *)
Definition Tensor_of_data (data : list F) (shape : Shape) (requires_grad : bool)
    : exception + Tensor :=
  let size := compute_size shape in
  if negb (N.of_nat (length data) =? size)
  then inl (runtime_error "Data size doesn't match shape")
  else inr {| data_ := data;
              grad_ := if requires_grad then replicate (N.to_nat size) fzero else [];
              shape_ := shape; size_ := size; requires_grad_ := requires_grad;
              inputs_ := []; backward_fn_ := BwNoop |}.

(** The heap of tensor objects. *)
Abbreviation store := (list Tensor) (only parsing).

Definition null_tensor : Tensor := Tensor_of_shape [] false.
#[export] Instance Tensor_inhabited : Inhabited Tensor := populate null_tensor.

(** [p->...]: the object a pointer refers to. *)
Definition deref (s : store) (p : ptr) : Tensor := s !!! p.

(** Operations that may throw and that allocate: the result or the exception,
    and the store afterwards. *)
Definition M (A : Type) : Type := store → (exception + A) * store.

Definition throw {A} (e : exception) : M A := λ s, (inl e, s).

(** [std::make_shared<Tensor>(...)]: a new object, distinct from all others. *)
Definition make_shared (t : Tensor) : M ptr := λ s, (inr (length s), s ++ [t]).

(** *** Primitive operations (forward pass)

    Each operation builds its result in a fresh object: the loops read only
    the operands and write only [result], which no other pointer refers to
    before the operation returns, so the object is completed first and then
    placed in the store. *)

Definition add (this other : ptr) : M ptr := λ s,
  let t := deref s this in
  let o := deref s other in
  if negb (shapes_compatible (shape_ t) (shape_ o))
  then throw (runtime_error "Shape mismatch in addition") s
  else
    let result := length s in
    let r := Tensor_of_shape (shape_ t) (requires_grad_ t || requires_grad_ o) in
    let d := for_ (N.to_nat (size_ t))
               (λ i d, vset d i (fadd (vget (data_ t) i) (vget (data_ o) i))) (data_ r) in
    make_shared (set_graph (set_data r d) [this; other] (BwAdd this other result)) s.

Definition multiply (this other : ptr) : M ptr := λ s,
  let t := deref s this in
  let o := deref s other in
  if negb (shapes_compatible (shape_ t) (shape_ o))
  then throw (runtime_error "Shape mismatch in multiplication") s
  else
    let result := length s in
    let r := Tensor_of_shape (shape_ t) (requires_grad_ t || requires_grad_ o) in
    let d := for_ (N.to_nat (size_ t))
               (λ i d, vset d i (fmul (vget (data_ t) i) (vget (data_ o) i))) (data_ r) in
    make_shared (set_graph (set_data r d) [this; other] (BwMultiply this other result)) s.

(** The shape-preserving unary operations share one pattern: a fresh tensor
    of the operand's shape, filled element by element. *)
Definition elementwise (this : ptr) (f : F → F) (bw : ptr → Closure) : M ptr := λ s,
  let t := deref s this in
  let result := length s in
  let r := Tensor_of_shape (shape_ t) (requires_grad_ t) in
  let d := for_ (N.to_nat (size_ t)) (λ i d, vset d i (f (vget (data_ t) i))) (data_ r) in
  make_shared (set_graph (set_data r d) [this] (bw result)) s.

Definition multiply_scalar (this : ptr) (scalar : F) : M ptr :=
  elementwise this (λ x, fmul x scalar) (BwMultiplyScalar this scalar).

Definition pow (this : ptr) (exponent : F) : M ptr :=
  elementwise this (λ x, fpow x exponent) (BwPow this exponent).

(** [std::max(0.0, x)] is [(0.0 < x) ? x : 0.0]. *)
Definition relu (this : ptr) : M ptr :=
  elementwise this (λ x, if flt fzero x then x else fzero) (BwRelu this).

Definition sigmoid (this : ptr) : M ptr :=
  elementwise this (λ x, fdiv fone (fadd fone (fexp (fopp x)))) (BwSigmoid this).

Definition tanh_ (this : ptr) : M ptr :=
  elementwise this ftanh (BwTanh this).

(** [i * stride + j] in [size_t] arithmetic. *)
Definition index2 (i : nat) (stride : N) (j : nat) : nat :=
  N.to_nat (wrap (wrap (N.of_nat i * stride) + N.of_nat j)).

(** [v[i] = x] where [i] need not be an index of [v]: outside the vector the
    access has no defined behaviour. *)
Definition checked_vset (v : list F) (i : nat) (x : F) : option (list F) :=
  if (i <? length v)%nat then Some (<[i := x]> v) else None.

(** The innermost loop of [matmul]: [sum += a[i*k+l] * b[l*n+j]] for [l < k],
    [None] when an element is read outside [a] or [b]. *)
Definition matmul_sum (a b : list F) (k n : N) (i j : nat) : option F :=
  for_ (N.to_nat k)
    (λ l sum, sum ≫= λ sum,
       x ← a !! index2 i k l; y ← b !! index2 l n j;
       Some (fadd sum (fmul x y)))
    (Some fzero).

(** The three loops of [matmul] over the buffer [d] of the result. *)
Definition matmul_data (a b : list F) (m k n : N) (d : list F) : option (list F) :=
  for_ (N.to_nat m) (λ i d, d ≫= λ d,
    for_ (N.to_nat n) (λ j d, d ≫= λ d,
      sum ← matmul_sum a b k n i j;
      checked_vset d (index2 i n j) sum) (Some d)) (Some d).


(** [matmul]. The result is allocated by [Tensor(Shape{m, n}, ...)], whose
    [resize] throws when the size exceeds what a vector can hold. *)
Definition matmul (this other : ptr) : M ptr := λ s,
  let t := deref s this in
  let o := deref s other in
  match shape_ t, shape_ o with
  | [m; k], [k'; n] =>
      if negb (k =? k')
      then throw (runtime_error "Incompatible dimensions for matmul") s
      else if vector_max_size <? compute_size [m; n]
      then throw length_error s
      else
        let result := length s in
        let r := Tensor_of_shape [m; n] (requires_grad_ t || requires_grad_ o) in
        match matmul_data (data_ t) (data_ o) m k n (data_ r) with
        | None => throw undefined_behaviour s
        | Some d =>
            make_shared (set_graph (set_data r d) [this; other]
                           (BwMatmul this other result m k n)) s
        end
  | _, _ => throw (runtime_error "matmul requires 2D tensors") s
  end.

Definition sum (this : ptr) : M ptr := λ s,
  let t := deref s this in
  let result := length s in
  let r := Tensor_of_shape [1] (requires_grad_ t) in
  let sum_val := fold_left fadd (data_ t) fzero in
  make_shared (set_graph (set_data r (vset (data_ r) 0 sum_val)) [this]
                 (BwSum this result)) s.

Definition mean (this : ptr) : M ptr := λ s,
  match sum this s with
  | (inr sum_tensor, s') =>
      multiply_scalar sum_tensor (fdiv fone (of_size_t (size_ (deref s' this)))) s'
  | (inl e, s') => (inl e, s')
  end.

Definition reshape (this : ptr) (new_shape : Shape) : M ptr := λ s,
  let t := deref s this in
  if negb (compute_size new_shape =? size_ t)
  then throw (runtime_error "New shape size doesn't match tensor size") s
  else
    match Tensor_of_data (data_ t) new_shape (requires_grad_ t) with
    | inl e => throw e s
    | inr r =>
        let result := length s in
        make_shared (set_graph r [this] (BwReshape this result)) s
    end.

Definition flatten (this : ptr) : M ptr := λ s,
  reshape this [size_ (deref s this)] s.

(** The factories. [randn] overwrites every element with a Box-Muller sample;
    [sample i] stands for the value drawn for element [i]. *)
Definition zeros (shape : Shape) (requires_grad : bool) : M ptr :=
  make_shared (Tensor_of_shape shape requires_grad).

Definition ones (shape : Shape) (requires_grad : bool) : M ptr :=
  let t := Tensor_of_shape shape requires_grad in
  make_shared (set_data t (replicate (length (data_ t)) fone)).

Definition randn (sample : nat → F) (shape : Shape) (requires_grad : bool) : M ptr :=
  let t := Tensor_of_shape shape requires_grad in
  make_shared (set_data t (imap (λ i _, sample i) (data_ t))).

(** [std::make_shared<Tensor>(data, shape, requires_grad)] *)
Definition from_data (data : list F) (shape : Shape) (requires_grad : bool) : M ptr := λ s,
  match Tensor_of_data data shape requires_grad with
  | inl e => throw e s
  | inr t => make_shared t s
  end.

(** *** Backward closures *)

(** [p->grad_[i] += d] *)
Definition grad_add (p : ptr) (i : nat) (d : F) (s : store) : store :=
  let t := deref s p in
  <[p := set_grad t (vset (grad_ t) i (fadd (vget (grad_ t) i) d))]> s.

Definition rgrad (s : store) (p : ptr) (i : nat) : F := vget (grad_ (deref s p)) i.
Definition rdata (s : store) (p : ptr) (i : nat) : F := vget (data_ (deref s p)) i.

(** [if (this->requires_grad_) for (i < this->size_) this->grad_[i] += term(i)],
    where [term] is evaluated in the store of iteration [i]. *)
Definition accumulate (this : ptr) (term : store → nat → F) (s : store) : store :=
  if requires_grad_ (deref s this)
  then for_ (N.to_nat (size_ (deref s this))) (λ i s, grad_add this i (term s i) s) s
  else s.

Definition run_closure (c : Closure) (s : store) : store :=
  match c with
  | BwNoop => s
  | BwAdd this other result =>
      let s := accumulate this (λ s i, rgrad s result i) s in
      accumulate other (λ s i, rgrad s result i) s
  | BwMultiply this other result =>
      let s := accumulate this (λ s i, fmul (rdata s other i) (rgrad s result i)) s in
      accumulate other (λ s i, fmul (rdata s this i) (rgrad s result i)) s
  | BwMultiplyScalar this scalar result =>
      accumulate this (λ s i, fmul scalar (rgrad s result i)) s
  | BwPow this exponent result =>
      accumulate this (λ s i,
        fmul (fmul exponent (fpow (rdata s this i) (fsub exponent fone)))
             (rgrad s result i)) s
  | BwMatmul this other result m k n =>
      let s :=
        if requires_grad_ (deref s this)
        then for_ (N.to_nat m) (λ i s,
               for_ (N.to_nat k) (λ j s,
                 let grad_sum := for_ (N.to_nat n) (λ l acc,
                   fadd acc (fmul (rgrad s result (index2 i n l))
                                  (rdata s other (index2 j n l)))) fzero in
                 grad_add this (index2 i k j) grad_sum s) s) s
        else s in
      if requires_grad_ (deref s other)
      then for_ (N.to_nat k) (λ i s,
             for_ (N.to_nat n) (λ j s,
               let grad_sum := for_ (N.to_nat m) (λ l acc,
                 fadd acc (fmul (rdata s this (index2 l k i))
                                (rgrad s result (index2 l n j)))) fzero in
               grad_add other (index2 i n j) grad_sum s) s) s
      else s
  | BwSum this result =>
      accumulate this (λ s _, rgrad s result 0) s
  | BwRelu this result =>
      accumulate this (λ s i,
        if flt fzero (rdata s this i) then rgrad s result i else fzero) s
  | BwSigmoid this result =>
      accumulate this (λ s i,
        let sg := rdata s result i in
        fmul (fmul sg (fsub fone sg)) (rgrad s result i)) s
  | BwTanh this result =>
      accumulate this (λ s i,
        let th := rdata s result i in
        fmul (fsub fone (fmul th th)) (rgrad s result i)) s
  | BwReshape this result =>
      accumulate this (λ s i, rgrad s result i) s
  end.

(** *** The backward engine *)

(** [build_topo]: the recursive lambda of [backward]. [visited] is the
    [std::set] of pointers, [topo] the vector built by [push_back]. The
    recursion of the source is bounded by [fuel] here; [None] means that the
    bound was too small. *)
Fixpoint build_topo (fuel : nat) (s : store) (t : ptr)
    (st : gset ptr * list ptr) : option (gset ptr * list ptr) :=
  match fuel with
  | O => None
  | S fuel' =>
      let '(visited, topo) := st in
      if decide (t ∈ visited) then Some st
      else
        st' ← foldl (λ acc input, acc ≫= build_topo fuel' s input)
                    (Some ({[t]} ∪ visited, topo)) (inputs_ (deref s t));
        Some (st'.1, st'.2 ++ [t])
  end.

(** [std::fill(grad_.begin(), grad_.end(), x)] on the tensor at [p]. *)
Definition fill_grad (p : ptr) (x : F) (s : store) : store :=
  let t := deref s p in
  <[p := set_grad t (replicate (length (grad_ t)) x)]> s.

(** The last loop of [backward]: the [backward_fn_] of every element of
    [topo], from [topo.rbegin()] to [topo.rend()]. *)
Definition run_reverse (topo : list ptr) (s : store) : store :=
  foldl (λ s t, run_closure (backward_fn_ (deref s t)) s) s (reverse topo).

Definition backward (fuel : nat) (this : ptr) (s : store) : option store :=
  st ← build_topo fuel s this (∅, []);
  Some (run_reverse st.2 (fill_grad this fone s)).

(** [zero_grad]: plain recursion over [inputs_], without a visited set. *)
Fixpoint zero_grad (fuel : nat) (this : ptr) (s : store) : option store :=
  match fuel with
  | O => None
  | S fuel' =>
      foldl (λ acc input, acc ≫= zero_grad fuel' input)
            (Some (fill_grad this fzero s)) (inputs_ (deref s this))
  end.

(** ** Optimizers ([darv_optimizer.hpp]) *)

(** [class Optimizer]: the fields shared by all optimizers. *)
Record Optimizer := mkOptimizer {
  parameters_ : list ptr;
  learning_rate_ : F;
}.

(** [class SGD]. [velocity_] is the [unordered_map] from the parameter's
    address to its velocity vector. *)
Record SGD := mkSGD {
  sgd_base : Optimizer;
  momentum_ : F;
  nesterov_ : bool;
  velocity_ : gmap nat (list F);
}.

(** [map[key].resize(n, 0.0)] for every parameter, [operator[]] creating an
    empty vector for a new key. *)
Definition init_state (parameters : list ptr) (s : store) : gmap nat (list F) :=
  foldl (λ st param,
           <[param := resize (N.to_nat (size_ (deref s param))) fzero
                             (default [] (st !! param))]> st)
        ∅ parameters.

(** The constructor of [SGD]. *)
Definition SGD_new (parameters : list ptr) (lr momentum : F) (nesterov : bool)
    (s : store) : SGD :=
  {| sgd_base := mkOptimizer parameters lr;
     momentum_ := momentum;
     nesterov_ := nesterov;
     velocity_ := if flt fzero momentum then init_state parameters s else ∅ |}.

(** The body of the loop over [parameters_] in [SGD::step], for one
    parameter: [v], [data] and [grad] are three distinct vectors. *)
Definition SGD_update (lr momentum : F) (nesterov : bool) (param : ptr)
    (st : gmap nat (list F) * list Tensor) : gmap nat (list F) * list Tensor :=
  let '(velocity, s) := st in
  let t := deref s param in
  if negb (requires_grad_ t) then st
  else
    let grad := grad_ t in
    if flt fzero momentum then
      let '(v, data) :=
        for_ (N.to_nat (size_ t)) (λ i '(v, data),
          let v := vset v i (fadd (fmul momentum (vget v i))
                                  (fmul lr (vget grad i))) in
          let data :=
            if nesterov
            then vset data i (fsub (vget data i)
                   (fadd (fmul momentum (vget v i)) (fmul lr (vget grad i))))
            else vset data i (fsub (vget data i) (vget v i)) in
          (v, data))
          (default [] (velocity !! param), data_ t) in
      (<[param := v]> velocity, <[param := set_data t data]> s)
    else
      let data :=
        for_ (N.to_nat (size_ t)) (λ i data,
          vset data i (fsub (vget data i) (fmul lr (vget grad i)))) (data_ t) in
      (velocity, <[param := set_data t data]> s).

Definition SGD_step (opt : SGD) (s : store) : SGD * list Tensor :=
  let '(velocity, s') :=
    foldl (λ st param,
             SGD_update (learning_rate_ (sgd_base opt)) (momentum_ opt)
                        (nesterov_ opt) param st)
          (velocity_ opt, s) (parameters_ (sgd_base opt)) in
  (mkSGD (sgd_base opt) (momentum_ opt) (nesterov_ opt) velocity, s').

(** [class Adam]. The timestep [t_] is an [int]; it is a [Z] here, the
    increment of the source overflowing only after [2^31 - 1] steps. *)
Record Adam := mkAdam {
  adam_base : Optimizer;
  beta1_ : F;
  beta2_ : F;
  epsilon_ : F;
  t_ : Z;
  m_ : gmap nat (list F);
  v_ : gmap nat (list F);
}.

Definition Adam_new (parameters : list ptr) (lr beta1 beta2 epsilon : F)
    (s : store) : Adam :=
  {| adam_base := mkOptimizer parameters lr;
     beta1_ := beta1; beta2_ := beta2; epsilon_ := epsilon; t_ := 0;
     m_ := init_state parameters s;
     v_ := init_state parameters s |}.

(** The body of the loop over [parameters_] in [Adam::step]. *)
Definition Adam_update (lr beta1 beta2 epsilon : F) (t : Z) (param : ptr)
    (st : gmap nat (list F) * gmap nat (list F) * list Tensor)
    : gmap nat (list F) * gmap nat (list F) * list Tensor :=
  let '(ms, vs, s) := st in
  let p := deref s param in
  if negb (requires_grad_ p) then st
  else
    let grad := grad_ p in
    let '(m, v, data) :=
      for_ (N.to_nat (size_ p)) (λ i '(m, v, data),
        let m := vset m i (fadd (fmul beta1 (vget m i))
                                (fmul (fsub fone beta1) (vget grad i))) in
        let v := vset v i (fadd (fmul beta2 (vget v i))
                                (fmul (fmul (fsub fone beta2) (vget grad i))
                                      (vget grad i))) in
        let m_hat := fdiv (vget m i) (fsub fone (fpow beta1 (of_int t))) in
        let v_hat := fdiv (vget v i) (fsub fone (fpow beta2 (of_int t))) in
        let data := vset data i
          (fsub (vget data i)
                (fdiv (fmul lr m_hat) (fadd (fsqrt v_hat) epsilon))) in
        (m, v, data))
        (default [] (ms !! param), default [] (vs !! param), data_ p) in
    (<[param := m]> ms, <[param := v]> vs, <[param := set_data p data]> s).

Definition Adam_step (opt : Adam) (s : store) : Adam * list Tensor :=
  let t := (t_ opt + 1)%Z in
  let '(ms, vs, s') :=
    foldl (λ st param,
             Adam_update (learning_rate_ (adam_base opt)) (beta1_ opt) (beta2_ opt)
                         (epsilon_ opt) t param st)
          (m_ opt, v_ opt, s) (parameters_ (adam_base opt)) in
  (mkAdam (adam_base opt) (beta1_ opt) (beta2_ opt) (epsilon_ opt) t ms vs, s').

(** ** Invariants of tensors and stores *)

(** The size as the specification defines it: the product of the dimensions,
    and 0 for an empty shape (no wrap-around). *)
Definition spec_size (shape : Shape) : N :=
  match shape with
  | [] => 0
  | _ => foldr N.mul 1 shape
  end.

Lemma wrap_mul_l (a d : N) : wrap (wrap a * d) = wrap (a * d).
Proof. unfold wrap. by rewrite N.Div0.mul_mod_idemp_l. Qed.

Lemma fold_wrap_product (rest : Shape) (a : N) :
  fold_left (λ acc d, wrap (acc * d)) rest (wrap a) = wrap (a * foldr N.mul 1 rest).
Proof.
  revert a. induction rest as [|d rest IH]; intros a; simpl.
  - by rewrite N.mul_1_r.
  - rewrite wrap_mul_l, IH. f_equal. lia.
Qed.

Lemma compute_size_spec (shape : Shape) :
  compute_size shape = wrap (spec_size shape).
Proof.
  destruct shape as [|d rest]; [done|].
  unfold compute_size, spec_size. simpl fold_left.
  rewrite fold_wrap_product. f_equal. simpl. lia.
Qed.

Lemma compute_size_no_overflow (shape : Shape) :
  spec_size shape < size_t_modulus → compute_size shape = spec_size shape.
Proof.
  intros Hlt. rewrite compute_size_spec. unfold wrap. by apply N.mod_small.
Qed.

Lemma compute_size_lt (shape : Shape) : compute_size shape < size_t_modulus.
Proof. rewrite compute_size_spec. unfold wrap. by apply N.mod_lt. Qed.

Lemma shapes_compatible_eq (s1 s2 : Shape) :
  shapes_compatible s1 s2 = true ↔ s1 = s2.
Proof.
  revert s2. induction s1 as [|a s1 IH]; intros [|b s2]; simpl; try done.
  rewrite andb_true_iff, N.eqb_eq, IH. split; [by intros [-> ->]|by intros [= -> ->]].
Qed.

Definition tensor_ok (t : Tensor) : Prop :=
  size_ t = compute_size (shape_ t) ∧
  length (data_ t) = N.to_nat (size_ t) ∧
  length (grad_ t) = if requires_grad_ t then N.to_nat (size_ t) else 0%nat.

Definition store_ok (s : store) : Prop := Forall tensor_ok s.

Lemma length_for_vset (n : nat) (f : nat → list F → F) (d : list F) :
  length (for_ n (λ i d, vset d i (f i d)) d) = length d.
Proof.
  induction n as [|n IH]; simpl; [done|].
  unfold vset at 1. by rewrite length_insert.
Qed.

Lemma lookup_for_vset (n : nat) (f : nat → F) (d : list F) (i : nat) :
  (n ≤ length d)%nat →
  for_ n (λ i d, vset d i (f i)) d !! i =
    if decide (i < n)%nat then Some (f i) else d !! i.
Proof.
  induction n as [|n IH]; intros Hn; simpl.
  - destruct (decide (i < 0)%nat); [lia|done].
  - unfold vset at 1.
    destruct (decide (i = n)) as [->|Hne].
    + rewrite list_lookup_insert_eq; [|rewrite length_for_vset; lia].
      destruct (decide (n < S n)%nat); [done|lia].
    + rewrite list_lookup_insert_ne by done.
      rewrite IH by lia.
      destruct (decide (i < n)%nat), (decide (i < S n)%nat); try done; lia.
Qed.

Lemma Tensor_of_shape_ok (shape : Shape) (rg : bool) :
  tensor_ok (Tensor_of_shape shape rg).
Proof.
  unfold tensor_ok, Tensor_of_shape; simpl.
  rewrite length_replicate. destruct rg; simpl; by rewrite ?length_replicate.
Qed.

Lemma Tensor_of_data_inr (data : list F) (shape : Shape) (rg : bool) (t : Tensor) :
  Tensor_of_data data shape rg = inr t →
  N.of_nat (length data) = compute_size shape ∧
  t = mkTensor data (if rg then replicate (N.to_nat (compute_size shape)) fzero else [])
        shape (compute_size shape) rg [] BwNoop.
Proof.
  unfold Tensor_of_data.
  destruct (N.eqb_spec (N.of_nat (length data)) (compute_size shape)); simpl; [|done].
  by intros [= <-].
Qed.

Lemma Tensor_of_data_ok (data : list F) (shape : Shape) (rg : bool) (t : Tensor) :
  Tensor_of_data data shape rg = inr t → tensor_ok t.
Proof.
  intros [Hlen ->]%Tensor_of_data_inr. unfold tensor_ok; simpl.
  split_and!; [done|lia|]. destruct rg; simpl; by rewrite ?length_replicate.
Qed.

Lemma tensor_ok_set_graph (t : Tensor) ins bw :
  tensor_ok t → tensor_ok (set_graph t ins bw).
Proof. done. Qed.

Lemma tensor_ok_set_data (t : Tensor) (d : list F) :
  tensor_ok t → length d = length (data_ t) → tensor_ok (set_data t d).
Proof. intros (?&?&?) Hd. unfold tensor_ok; simpl. split_and!; [done|congruence|done]. Qed.

Lemma tensor_ok_set_grad (t : Tensor) (g : list F) :
  tensor_ok t → length g = length (grad_ t) → tensor_ok (set_grad t g).
Proof. intros (?&?&?) Hd. unfold tensor_ok; simpl. split_and!; [done|done|congruence]. Qed.

Lemma store_ok_snoc (s : store) (t : Tensor) :
  store_ok s → tensor_ok t → store_ok (s ++ [t]).
Proof. intros Hs Ht. apply Forall_app. split; [done|by constructor]. Qed.

Lemma deref_snoc (s : store) (t : Tensor) : deref (s ++ [t]) (length s) = t.
Proof.
  unfold deref. apply list_lookup_total_correct.
  by rewrite lookup_app_r, Nat.sub_diag.
Qed.

Lemma deref_snoc_lt (s : store) (t : Tensor) (p : ptr) :
  (p < length s)%nat → deref (s ++ [t]) p = deref s p.
Proof.
  intros Hp. unfold deref. rewrite !list_lookup_total_alt.
  by rewrite lookup_app_l.
Qed.

Lemma deref_ok (s : store) (p : ptr) : store_ok s → tensor_ok (deref s p).
Proof.
  intros Hs. unfold deref. rewrite list_lookup_total_alt.
  destruct (s !! p) as [t|] eqn:Hp; simpl.
  - by eapply Forall_lookup_1.
  - apply Tensor_of_shape_ok.
Qed.

(** ** Every way to produce a tensor *)

Inductive factory :=
  | FZeros (shape : Shape) (requires_grad : bool)
  | FOnes (shape : Shape) (requires_grad : bool)
  | FRandn (sample : nat → F) (shape : Shape) (requires_grad : bool)
  | FFromData (data : list F) (shape : Shape) (requires_grad : bool).

Definition run_factory (f : factory) : M ptr :=
  match f with
  | FZeros shape rg => zeros shape rg
  | FOnes shape rg => ones shape rg
  | FRandn sample shape rg => randn sample shape rg
  | FFromData data shape rg => from_data data shape rg
  end.

Inductive primitive :=
  | PAdd (a b : ptr)
  | PMultiply (a b : ptr)
  | PMultiplyScalar (a : ptr) (scalar : F)
  | PPow (a : ptr) (exponent : F)
  | PMatmul (a b : ptr)
  | PSum (a : ptr)
  | PMean (a : ptr)
  | PReshape (a : ptr) (new_shape : Shape)
  | PRelu (a : ptr)
  | PSigmoid (a : ptr)
  | PTanh (a : ptr).

Definition run_primitive (op : primitive) : M ptr :=
  match op with
  | PAdd a b => add a b
  | PMultiply a b => multiply a b
  | PMultiplyScalar a c => multiply_scalar a c
  | PPow a e => pow a e
  | PMatmul a b => matmul a b
  | PSum a => sum a
  | PMean a => mean a
  | PReshape a shape => reshape a shape
  | PRelu a => relu a
  | PSigmoid a => sigmoid a
  | PTanh a => tanh_ a
  end.

Definition operands (op : primitive) : list ptr :=
  match op with
  | PAdd a b | PMultiply a b | PMatmul a b => [a; b]
  | PMultiplyScalar a _ | PPow a _ | PSum a | PMean a | PReshape a _
  | PRelu a | PSigmoid a | PTanh a => [a]
  end.

Lemma for_invariant {S : Type} (P : S → Prop) (n : nat) (body : nat → S → S) (s : S) :
  P s → (∀ i s, (i < n)%nat → P s → P (body i s)) → P (for_ n body s).
Proof.
  intros Hs Hbody. induction n as [|n IH]; simpl; [done|].
  apply Hbody; [lia|]. apply IH. intros i s' Hi. apply Hbody. lia.
Qed.






Lemma for_option_invariant {S : Type} (P : S → Prop) (n : nat)
    (f : nat → S → option S) (x y : S) :
  P x → (∀ i a b, (i < n)%nat → P a → f i a = Some b → P b) →
  for_ n (λ i st, st ≫= f i) (Some x) = Some y → P y.
Proof.
  intros Hx Hstep. revert y. induction n as [|n IH]; simpl; intros y Hy.
  - by injection Hy as <-.
  - destruct (for_ n _ (Some x)) as [a|] eqn:Ha; [|done]. simpl in Hy.
    eapply (Hstep n a y); [lia| |done].
    apply IH; [|done]. intros i a' b' Hi. apply Hstep. lia.
Qed.

Lemma checked_vset_length (v : list F) (i : nat) (x : F) (v' : list F) :
  checked_vset v i x = Some v' → length v' = length v.
Proof.
  unfold checked_vset. destruct (_ <? _)%nat; [|done].
  intros [= <-]. by rewrite length_insert.
Qed.

(** The loops of [matmul] keep the length of the buffer. *)
Lemma matmul_data_length (a b : list F) (m k n : N) (d d' : list F) :
  matmul_data a b m k n d = Some d' → length d' = length d.
Proof.
  unfold matmul_data.
  apply (for_option_invariant (λ v, length v = length d)); [done|].
  intros i v v' _ Hv.
  apply (for_option_invariant (λ w, length w = length d)); [done|].
  intros j w w' _ Hw Hset.
  destruct (matmul_sum a b k n i j) as [x|]; [|done]. simpl in Hset.
  by rewrite (checked_vset_length _ _ _ _ Hset).
Qed.

(** The successful runs of [matmul]. *)
Lemma matmul_inv (this other : ptr) (s s' : store) (r : ptr) :
  matmul this other s = (inr r, s') →
  ∃ m k n d,
    shape_ (deref s this) = [m; k] ∧ shape_ (deref s other) = [k; n] ∧
    compute_size [m; n] ≤ vector_max_size ∧
    matmul_data (data_ (deref s this)) (data_ (deref s other)) m k n
      (replicate (N.to_nat (compute_size [m; n])) fzero) = Some d ∧
    r = length s ∧
    s' = s ++ [set_graph
                 (set_data (Tensor_of_shape [m; n]
                              (requires_grad_ (deref s this) ||
                               requires_grad_ (deref s other))) d)
                 [this; other] (BwMatmul this other (length s) m k n)].
Proof.
  unfold matmul, throw, make_shared. intros Hrun.
  destruct (shape_ (deref s this)) as [|m [|k [|]]]; try done.
  destruct (shape_ (deref s other)) as [|k' [|n [|]]]; try done.
  destruct (N.eqb_spec k k') as [<-|]; [|done]. cbn [negb] in Hrun.
  destruct (N.ltb_spec vector_max_size (compute_size [m; n])) as [|Hmax]; [done|].
  cbn [Tensor_of_shape data_] in Hrun.
  destruct (matmul_data _ _ m k n _) as [d|] eqn:Hd; [|done].
  injection Hrun as <- <-. by exists m, k, n, d.
Qed.


Lemma elementwise_ok (this : ptr) (f : F → F) (bw : ptr → Closure) (s : store) :
  store_ok s → store_ok (elementwise this f bw s).2.
Proof.
  intros Hs. unfold elementwise, make_shared; simpl.
  apply store_ok_snoc; [done|]. apply tensor_ok_set_graph, tensor_ok_set_data.
  - apply Tensor_of_shape_ok.
  - by rewrite (length_for_vset _ (λ i _, f (vget (data_ (deref s this)) i))).
Qed.

Lemma binary_ok (this other : ptr) (g : F → F → F) (rg : bool) (ins : list ptr)
    (bw : Closure) (s : store) :
  store_ok s →
  store_ok (s ++ [set_graph (set_data (Tensor_of_shape (shape_ (deref s this)) rg)
    (for_ (N.to_nat (size_ (deref s this)))
       (λ i d, vset d i (g (vget (data_ (deref s this)) i) (vget (data_ (deref s other)) i)))
       (data_ (Tensor_of_shape (shape_ (deref s this)) rg)))) ins bw]).
Proof.
  intros Hs. apply store_ok_snoc; [done|].
  apply tensor_ok_set_graph, tensor_ok_set_data; [apply Tensor_of_shape_ok|].
  by rewrite (length_for_vset _
    (λ i _, g (vget (data_ (deref s this)) i) (vget (data_ (deref s other)) i))).
Qed.

Lemma primitive_ok (op : primitive) (s s' : store) (r : ptr) :
  store_ok s → run_primitive op s = (inr r, s') → store_ok s'.
Proof.
  intros Hs Hrun.
  assert (Hel : ∀ this f bw, elementwise this f bw s = (inr r, s') → store_ok s').
  { intros this f bw Heq. pose proof (elementwise_ok this f bw s Hs) as Hok.
    by rewrite Heq in Hok. }
  destruct op; simpl in Hrun; try (by eapply Hel).
  - unfold add, throw, make_shared in Hrun.
    destruct (shapes_compatible _ _); simpl in Hrun; [|done].
    injection Hrun as <- <-. by apply binary_ok.
  - unfold multiply, throw, make_shared in Hrun.
    destruct (shapes_compatible _ _); simpl in Hrun; [|done].
    injection Hrun as <- <-. by apply binary_ok.
  - apply matmul_inv in Hrun as (m & k & n & d & _ & _ & _ & Hd & -> & ->).
    apply store_ok_snoc; [done|].
    apply tensor_ok_set_graph, tensor_ok_set_data; [apply Tensor_of_shape_ok|].
    by eapply matmul_data_length.
  - unfold sum, make_shared in Hrun. injection Hrun as <- <-.
    apply store_ok_snoc; [done|].
    apply tensor_ok_set_graph, tensor_ok_set_data; [apply Tensor_of_shape_ok|].
    reflexivity.
  - unfold mean in Hrun. unfold sum at 1, make_shared in Hrun. simpl in Hrun.
    unfold multiply_scalar in Hrun.
    match type of Hrun with elementwise ?p ?f ?bw ?s1 = _ =>
      assert (Hs1 : store_ok s1);
      [|pose proof (elementwise_ok p f bw s1 Hs1) as Hok; by rewrite Hrun in Hok]
    end.
    apply store_ok_snoc; [done|].
    apply tensor_ok_set_graph, tensor_ok_set_data; [apply Tensor_of_shape_ok|done].
  - unfold reshape, throw in Hrun.
    destruct (compute_size new_shape =? size_ (deref s a)); simpl in Hrun; [|done].
    destruct (Tensor_of_data _ _ _) as [e|t] eqn:Ht; [done|].
    unfold make_shared in Hrun. injection Hrun as <- <-.
    apply store_ok_snoc; [done|]. apply tensor_ok_set_graph.
    by eapply Tensor_of_data_ok.
Qed.

Lemma primitive_requires_grad (op : primitive) (s s' : store) (r : ptr) :
  run_primitive op s = (inr r, s') →
  requires_grad_ (deref s' r) =
    existsb (λ p, requires_grad_ (deref s p)) (operands op).
Proof.
  intros Hrun.
  assert (Hel : ∀ this f bw, elementwise this f bw s = (inr r, s') →
    requires_grad_ (deref s' r) = requires_grad_ (deref s this) || false).
  { intros this f bw Heq. unfold elementwise, make_shared in Heq.
    injection Heq as <- <-. rewrite deref_snoc. simpl. by rewrite orb_false_r. }
  destruct op; simpl in Hrun; simpl operands; simpl existsb; try (by eapply Hel).
  - unfold add, throw, make_shared in Hrun.
    destruct (shapes_compatible _ _); simpl in Hrun; [|done].
    injection Hrun as <- <-. rewrite deref_snoc. simpl. by rewrite orb_false_r.
  - unfold multiply, throw, make_shared in Hrun.
    destruct (shapes_compatible _ _); simpl in Hrun; [|done].
    injection Hrun as <- <-. rewrite deref_snoc. simpl. by rewrite orb_false_r.
  - apply matmul_inv in Hrun as (m & k & n & d & _ & _ & _ & Hd & -> & ->).
    rewrite deref_snoc. simpl. by rewrite orb_false_r.
  - unfold sum, make_shared in Hrun. injection Hrun as <- <-.
    rewrite deref_snoc. simpl. by rewrite orb_false_r.
  - unfold mean in Hrun. unfold sum at 1, make_shared in Hrun. simpl in Hrun.
    unfold multiply_scalar, elementwise, make_shared in Hrun.
    injection Hrun as <- <-. rewrite deref_snoc. simpl.
    rewrite deref_snoc. simpl. by rewrite orb_false_r.
  - unfold reshape, throw in Hrun.
    destruct (compute_size new_shape =? size_ (deref s a)); simpl in Hrun; [|done].
    destruct (Tensor_of_data _ _ _) as [e|t] eqn:Ht; [done|].
    unfold make_shared in Hrun. injection Hrun as <- <-.
    apply Tensor_of_data_inr in Ht as [_ ->].
    rewrite deref_snoc. simpl. by rewrite orb_false_r.
Qed.

Lemma factory_ok (f : factory) (s s' : store) (r : ptr) :
  store_ok s → run_factory f s = (inr r, s') → store_ok s'.
Proof.
  intros Hs Hrun. destruct f; simpl in Hrun.
  - unfold zeros, make_shared in Hrun. injection Hrun as <- <-.
    apply store_ok_snoc; [done|apply Tensor_of_shape_ok].
  - unfold ones, make_shared in Hrun. injection Hrun as <- <-.
    apply store_ok_snoc; [done|].
    apply tensor_ok_set_data; [apply Tensor_of_shape_ok|apply length_replicate].
  - unfold randn, make_shared in Hrun. injection Hrun as <- <-.
    apply store_ok_snoc; [done|].
    apply tensor_ok_set_data; [apply Tensor_of_shape_ok|apply length_imap].
  - unfold from_data, throw, make_shared in Hrun.
    destruct (Tensor_of_data _ _ _) as [e|t] eqn:Ht; [done|].
    injection Hrun as <- <-.
    apply store_ok_snoc; [done|by eapply Tensor_of_data_ok].
Qed.

(** C7 (amended). Every tensor produced by a constructor, a factory or a
    primitive operation has [size_] equal to the product of its shape taken
    modulo 2^64 (0 for an empty shape), [size_] data elements, and [size_]
    gradient elements when it requires a gradient and none otherwise (so for a
    non-empty tensor, [len(grad) == size] iff [requires_grad]); the output of
    a primitive operation requires a gradient iff one of its operands does. *)
Theorem produced_tensors_invariant :
  (∀ t : Tensor, tensor_ok t →
     size_ t = wrap (spec_size (shape_ t)) ∧
     length (data_ t) = N.to_nat (size_ t) ∧
     length (grad_ t) = (if requires_grad_ t then N.to_nat (size_ t) else 0%nat) ∧
     (size_ t ≠ 0 →
        length (grad_ t) = N.to_nat (size_ t) ↔ requires_grad_ t = true)) ∧
  (∀ shape rg, tensor_ok (Tensor_of_shape shape rg)) ∧
  (∀ data shape rg t, Tensor_of_data data shape rg = inr t → tensor_ok t) ∧
  (∀ f s r s', store_ok s → run_factory f s = (inr r, s') → store_ok s') ∧
  (∀ op s r s', store_ok s → run_primitive op s = (inr r, s') →
     store_ok s' ∧
     requires_grad_ (deref s' r) =
       existsb (λ p, requires_grad_ (deref s p)) (operands op)).
Proof.
  split_and!.
  - intros t (Hsize & Hdata & Hgrad). split_and!; try done.
    + by rewrite Hsize, compute_size_spec.
    + intros Hnz. rewrite Hgrad. destruct (requires_grad_ t); [done|].
      split; [lia|done].
  - apply Tensor_of_shape_ok.
  - apply Tensor_of_data_ok.
  - intros f s r s'. apply factory_ok.
  - intros op s r s' Hs Hrun. split.
    + by eapply primitive_ok.
    + by apply primitive_requires_grad.
Qed.

(** ** Errors *)

(** The error kinds of the specification. The code itself throws
    [std::runtime_error] everywhere; the kind is told by the message. *)
Inductive error_kind := SizeMismatch | ShapeMismatch | RankError.

Definition error_kind_of (e : exception) : option error_kind :=
  match e with
  | runtime_error what =>
      if String.eqb what "Data size doesn't match shape" then Some SizeMismatch
      else if String.eqb what "New shape size doesn't match tensor size" then Some SizeMismatch
      else if String.eqb what "Shape mismatch in addition" then Some ShapeMismatch
      else if String.eqb what "Shape mismatch in multiplication" then Some ShapeMismatch
      else if String.eqb what "matmul requires 2D tensors" then Some RankError
      else if String.eqb what "Incompatible dimensions for matmul" then Some RankError
      else None
  | length_error | undefined_behaviour => None
  end.

(** An operation fails with an error of the given kind, leaving the store as
    it was. *)
Definition fails_with {A : Type} (m : M A) (s : store) (k : error_kind) : Prop :=
  ∃ e, m s = (inl e, s) ∧ error_kind_of e = Some k.

Lemma Tensor_of_data_inl (data : list F) (shape : Shape) (rg : bool) :
  (∃ e, Tensor_of_data data shape rg = inl e) ↔
  N.of_nat (length data) ≠ compute_size shape.
Proof.
  unfold Tensor_of_data.
  destruct (N.eqb_spec (N.of_nat (length data)) (compute_size shape)); simpl.
  - split; [by intros [e' ?]|done].
  - split; [done|]. intros _. by eexists.
Qed.

Lemma Tensor_of_data_kind (data : list F) (shape : Shape) (rg : bool) e :
  Tensor_of_data data shape rg = inl e → error_kind_of e = Some SizeMismatch.
Proof.
  unfold Tensor_of_data. destruct (_ =? _); simpl; [done|]. by intros [= <-].
Qed.

Lemma reshape_fails_iff (s : store) (this : ptr) (new_shape : Shape) :
  tensor_ok (deref s this) →
  fails_with (reshape this new_shape) s SizeMismatch ↔
  compute_size new_shape ≠ size_ (deref s this).
Proof.
  intros (Hsize & Hdata & _). unfold fails_with, reshape, throw.
  destruct (N.eqb_spec (compute_size new_shape) (size_ (deref s this))) as [Heq|Hne];
    simpl.
  - split; [|done]. intros (e & Hrun & _).
    destruct (Tensor_of_data _ _ _) as [e'|t] eqn:Ht.
    + assert (N.of_nat (length (data_ (deref s this))) ≠ compute_size new_shape)
        by (eapply Tensor_of_data_inl; eauto). lia.
    + unfold make_shared in Hrun. done.
  - split; [done|]. intros _. by eexists.
Qed.

Lemma reshape_throw_store (s s' : store) (this : ptr) (new_shape : Shape) e :
  reshape this new_shape s = (inl e, s') →
  s' = s ∧ error_kind_of e = Some SizeMismatch.
Proof.
  unfold reshape, throw. destruct (_ =? _); simpl.
  - destruct (Tensor_of_data _ _ _) as [e'|t] eqn:Ht; [|done].
    intros [= <- <-]. split; [done|]. by eapply Tensor_of_data_kind.
  - by intros [= <- <-].
Qed.

(** C6 (amended). Construction from explicit data fails with SizeMismatch iff
    the data length differs from the tensor's size, which is the product of
    the shape's dimensions taken modulo 2^64 (and 0 for an empty shape);
    reshape fails with SizeMismatch iff the target shape's size, computed the
    same way, differs from the source's size. On failure no tensor is
    produced and the store is unchanged. The size is the plain product
    whenever that is below 2^64. *)
Theorem size_mismatch_iff :
  (∀ data shape rg s,
     (fails_with (from_data data shape rg) s SizeMismatch ↔
      N.of_nat (length data) ≠ wrap (spec_size shape)) ∧
     (∀ e s', from_data data shape rg s = (inl e, s') →
        s' = s ∧ error_kind_of e = Some SizeMismatch)) ∧
  (∀ s this new_shape, tensor_ok (deref s this) →
     (fails_with (reshape this new_shape) s SizeMismatch ↔
      wrap (spec_size new_shape) ≠ size_ (deref s this)) ∧
     (∀ e s', reshape this new_shape s = (inl e, s') →
        s' = s ∧ error_kind_of e = Some SizeMismatch)) ∧
  (∀ shape, spec_size shape < size_t_modulus →
     wrap (spec_size shape) = spec_size shape).
Proof.
  split_and!.
  - intros data shape rg s. rewrite <- compute_size_spec. split.
    + unfold fails_with, from_data, throw, make_shared. split.
      * intros (e & Hrun & _). apply (Tensor_of_data_inl data shape rg).
        destruct (Tensor_of_data _ _ _) as [e'|t]; [eauto|done].
      * intros [e He]%(Tensor_of_data_inl data shape rg). exists e.
        rewrite He. split; [done|by eapply Tensor_of_data_kind].
    + intros e s'. unfold from_data, throw, make_shared.
      destruct (Tensor_of_data _ _ _) as [e'|t] eqn:Ht; [|done].
      intros [= <- <-]. split; [done|by eapply Tensor_of_data_kind].
  - intros s this new_shape Hok. rewrite <- compute_size_spec. split.
    + by apply reshape_fails_iff.
    + intros e s'. apply reshape_throw_store.
  - intros shape Hlt. unfold wrap. by apply N.mod_small.
Qed.

(** C10. [mean] divides by the tensor's size without a guard: it never
    throws, and the factor it scales the sum by is [1.0 / size_] whatever the
    size is; an empty shape has size 0, so there the divisor is zero; a
    tensor of positive size has a non-empty shape and a non-zero divisor. *)
Theorem mean_divides_by_size :
  compute_size [] = 0 ∧
  (∀ s this, (this < length s)%nat →
     ∃ sum_t mean_t,
       mean this s = (inr (S (length s)), s ++ [sum_t; mean_t]) ∧
       data_ sum_t = [fold_left fadd (data_ (deref s this)) fzero] ∧
       data_ mean_t =
         [fmul (fold_left fadd (data_ (deref s this)) fzero)
               (fdiv fone (of_size_t (size_ (deref s this))))]) ∧
  (∀ t : Tensor, tensor_ok t → shape_ t = [] → size_ t = 0) ∧
  (∀ t : Tensor, tensor_ok t → 0 < size_ t → shape_ t ≠ [] ∧ size_ t ≠ 0).
Proof.
  split_and!.
  - done.
  - intros s this Hthis. unfold mean, sum, make_shared. simpl.
    unfold multiply_scalar, elementwise, make_shared.
    rewrite length_app, Nat.add_1_r, <- app_assoc. simpl.
    eexists _, _. split; [reflexivity|]. split; [done|].
    rewrite deref_snoc. simpl. by rewrite deref_snoc_lt.
  - intros t (Hsize & _) Hshape. by rewrite Hsize, Hshape.
  - intros t (Hsize & _) Hpos. split; [|lia].
    intros Hshape. rewrite Hsize, Hshape in Hpos. simpl in Hpos. lia.
Qed.

(** ** Stores: reading after an update *)

Lemma deref_lookup (s : store) (p : ptr) (t : Tensor) :
  s !! p = Some t → deref s p = t.
Proof. intros Hp. unfold deref. by apply list_lookup_total_correct. Qed.

Lemma deref_invalid (s : store) (p : ptr) :
  (length s ≤ p)%nat → deref s p = null_tensor.
Proof.
  intros Hp. unfold deref. rewrite list_lookup_total_alt.
  by rewrite lookup_ge_None_2.
Qed.

Lemma deref_insert (s : store) (p q : ptr) (t : Tensor) :
  ((length s ≤ p)%nat → t = null_tensor) →
  deref (<[p := t]> s) q = if decide (q = p) then t else deref s q.
Proof.
  intros Hnull. destruct (decide (q = p)) as [->|Hne].
  - destruct (decide (p < length s)%nat) as [Hlt|Hge].
    + apply deref_lookup. by apply list_lookup_insert_eq.
    + rewrite list_insert_ge by lia. rewrite deref_invalid by lia.
      symmetry. apply Hnull. lia.
  - unfold deref. rewrite !list_lookup_total_alt.
    by rewrite list_lookup_insert_ne.
Qed.

Lemma deref_set_grad (s : store) (p q : ptr) (g : list F) :
  length g = length (grad_ (deref s p)) →
  deref (<[p := set_grad (deref s p) g]> s) q =
    if decide (q = p) then set_grad (deref s p) g else deref s q.
Proof.
  intros Hlen. apply deref_insert. intros Hge.
  rewrite deref_invalid in * by done. by destruct g.
Qed.

Lemma store_eq (s s' : store) :
  length s' = length s → (∀ p, deref s' p = deref s p) → s' = s.
Proof.
  intros Hlen Hderef. apply list_eq. intros p.
  destruct (decide (p < length s)%nat) as [Hlt|Hge].
  - destruct (lookup_lt_is_Some_2 s p Hlt) as [t Ht].
    destruct (lookup_lt_is_Some_2 s' p) as [t' Ht']; [lia|].
    rewrite Ht, Ht'. f_equal.
    rewrite <- (deref_lookup _ _ _ Ht), <- (deref_lookup _ _ _ Ht'). apply Hderef.
  - rewrite !lookup_ge_None_2; [done|lia|lia].
Qed.

(** Two stores that differ at most in gradient values. *)
Definition same_graph (s s' : store) : Prop :=
  length s' = length s ∧
  ∀ p, ∃ g, deref s' p = set_grad (deref s p) g ∧
            length g = length (grad_ (deref s p)).

Lemma set_grad_id (t : Tensor) : set_grad t (grad_ t) = t.
Proof. by destruct t. Qed.

Lemma set_grad_set_grad (t : Tensor) g g' : set_grad (set_grad t g) g' = set_grad t g'.
Proof. done. Qed.

Lemma same_graph_refl (s : store) : same_graph s s.
Proof. split; [done|]. intros p. exists (grad_ (deref s p)). by rewrite set_grad_id. Qed.

Lemma same_graph_trans (s1 s2 s3 : store) :
  same_graph s1 s2 → same_graph s2 s3 → same_graph s1 s3.
Proof.
  intros [Hl1 H1] [Hl2 H2]. split; [congruence|]. intros p.
  destruct (H1 p) as (g1 & Hg1 & Hlen1), (H2 p) as (g2 & Hg2 & Hlen2).
  exists g2. rewrite Hg2, Hg1, set_grad_set_grad. split; [done|].
  by rewrite Hlen2, Hg1.
Qed.

Lemma same_graph_update (s : store) (p : ptr) (g : list F) :
  length g = length (grad_ (deref s p)) →
  same_graph s (<[p := set_grad (deref s p) g]> s).
Proof.
  intros Hlen. split; [by rewrite length_insert|]. intros q.
  rewrite deref_set_grad by done.
  destruct (decide (q = p)) as [->|_]; [by exists g|].
  exists (grad_ (deref s q)). by rewrite set_grad_id.
Qed.

Lemma same_graph_fields (s s' : store) (p : ptr) :
  same_graph s s' →
  data_ (deref s' p) = data_ (deref s p) ∧
  shape_ (deref s' p) = shape_ (deref s p) ∧
  size_ (deref s' p) = size_ (deref s p) ∧
  requires_grad_ (deref s' p) = requires_grad_ (deref s p) ∧
  inputs_ (deref s' p) = inputs_ (deref s p) ∧
  backward_fn_ (deref s' p) = backward_fn_ (deref s p) ∧
  length (grad_ (deref s' p)) = length (grad_ (deref s p)).
Proof. intros [_ Hp]. destruct (Hp p) as (g & -> & Hlen). by split_and!. Qed.

Lemma same_graph_fill_grad (s : store) (p : ptr) (x : F) :
  same_graph s (fill_grad p x s).
Proof. apply same_graph_update. apply length_replicate. Qed.

Lemma same_graph_grad_add (s : store) (p : ptr) (i : nat) (d : F) :
  same_graph s (grad_add p i d s).
Proof. apply same_graph_update. apply length_insert. Qed.

Lemma same_graph_for (n : nat) (body : nat → store → store) (s : store) :
  (∀ i s', same_graph s' (body i s')) → same_graph s (for_ n body s).
Proof.
  intros Hbody. apply (for_invariant (same_graph s)); [apply same_graph_refl|].
  intros i s' _ Hs'. eapply same_graph_trans; [done|apply Hbody].
Qed.

Lemma same_graph_accumulate (this : ptr) (term : store → nat → F) (s : store) :
  same_graph s (accumulate this term s).
Proof.
  unfold accumulate. destruct (requires_grad_ _); [|apply same_graph_refl].
  apply same_graph_for. intros i s'. apply same_graph_grad_add.
Qed.

Lemma same_graph_if (b : bool) (s s1 s2 : store) :
  same_graph s s1 → same_graph s s2 → same_graph s (if b then s1 else s2).
Proof. by destruct b. Qed.

Lemma same_graph_run_closure (c : Closure) (s : store) :
  same_graph s (run_closure c s).
Proof.
  destruct c; simpl; try apply same_graph_refl; try apply same_graph_accumulate;
    try (eapply same_graph_trans; apply same_graph_accumulate).
  assert (Hloops : ∀ (s0 : store) (p : ptr) (a b : nat) idx
            (gs : nat → nat → store → F),
    same_graph s0 (for_ a (λ i s1, for_ b (λ j s2,
      grad_add p (idx i j) (gs i j s2) s2) s1) s0)).
  { intros s0 p a b idx gs. apply same_graph_for. intros i s1.
    apply same_graph_for. intros j s2. apply same_graph_grad_add. }
  match goal with |- same_graph s (if _ then ?X else ?s1) =>
    assert (Hs1 : same_graph s s1)
  end.
  { apply same_graph_if; [|apply same_graph_refl].
    apply (Hloops s this _ _ (λ i j, index2 i k j)
      (λ i j s2, for_ (N.to_nat n) (λ l acc,
         fadd acc (fmul (rgrad s2 result (index2 i n l))
                        (rdata s2 other (index2 j n l)))) fzero)). }
  apply same_graph_if; [|done].
  eapply same_graph_trans; [exact Hs1|].
  apply (Hloops _ other _ _ (λ i j, index2 i n j)
    (λ i j s2, for_ (N.to_nat m) (λ l acc,
       fadd acc (fmul (rdata s2 this (index2 l k i))
                      (rgrad s2 result (index2 l n j)))) fzero)).
Qed.

Lemma same_graph_run_reverse (topo : list ptr) (s : store) :
  same_graph s (run_reverse topo s).
Proof.
  unfold run_reverse. generalize (reverse topo). intros l. revert s.
  induction l as [|t l IH]; intros s; simpl; [apply same_graph_refl|].
  eapply same_graph_trans; [apply same_graph_run_closure|apply IH].
Qed.

(** ** The graph of a store *)

(** Every tensor was constructed after its inputs: the store is a DAG whose
    edges point to earlier objects. *)
Definition graph_ok (s : store) : Prop :=
  ∀ p, Forall (λ i, (i < p)%nat) (inputs_ (deref s p)).

(** [reachable s r t]: [t] is [r] or is reached from [r] through [inputs_]. *)
Inductive reachable (s : store) : ptr → ptr → Prop :=
  | reachable_refl r : reachable s r r
  | reachable_step r i t :
      i ∈ inputs_ (deref s r) → reachable s i t → reachable s r t.

(** In [topo], every tensor comes after all of its inputs. *)
Definition inputs_first (s : store) (topo : list ptr) : Prop :=
  ∀ j x, topo !! j = Some x →
    ∀ i, i ∈ inputs_ (deref s x) → ∃ j', (j' < j)%nat ∧ topo !! j' = Some i.

Lemma graph_ok_input_lt (s : store) (p i : ptr) :
  graph_ok s → i ∈ inputs_ (deref s p) → (i < p)%nat.
Proof. intros Hok Hi. specialize (Hok p). by eapply Forall_forall in Hok. Qed.

Lemma reachable_le (s : store) (r t : ptr) :
  graph_ok s → reachable s r t → (t ≤ r)%nat.
Proof.
  intros Hok Hreach. induction Hreach as [r|r i t Hi _ IH]; [done|].
  pose proof (graph_ok_input_lt s r i Hok Hi). lia.
Qed.

Lemma reachable_trans (s : store) (a b c : ptr) :
  reachable s a b → reachable s b c → reachable s a c.
Proof.
  intros Hab Hbc. induction Hab as [r|r i t Hi _ IH]; [done|].
  eapply reachable_step; [done|by apply IH].
Qed.

Lemma inputs_first_snoc (s : store) (topo : list ptr) (t : ptr) :
  inputs_first s topo →
  (∀ i, i ∈ inputs_ (deref s t) → i ∈ topo) →
  inputs_first s (topo ++ [t]).
Proof.
  intros Hfirst Hins j x Hj i Hi.
  apply lookup_snoc_Some in Hj as [[Hlt Hj]|[-> ->]].
  - destruct (Hfirst j x Hj i Hi) as (j' & Hj' & Hlook).
    exists j'. split; [done|]. by apply lookup_app_l_Some.
  - apply Hins, list_elem_of_lookup in Hi as [j' Hj'].
    exists j'. split; [by eapply lookup_lt_Some|by apply lookup_app_l_Some].
Qed.

Lemma inputs_first_closed (s : store) (topo : list ptr) (r t : ptr) :
  inputs_first s topo → r ∈ topo → reachable s r t → t ∈ topo.
Proof.
  intros Hfirst Hr Hreach. induction Hreach as [r|r i t Hi _ IH]; [done|].
  apply IH. apply list_elem_of_lookup in Hr as [j Hj].
  destruct (Hfirst j r Hj i Hi) as (j' & _ & Hj').
  apply list_elem_of_lookup. eauto.
Qed.

(** What one call of [build_topo] does, in a store whose graph is a DAG:
    [stack] holds the tensors whose call is still running. *)
Lemma build_topo_spec (s : store) :
  graph_ok s →
  ∀ fuel t (stack visited : gset nat) (topo : list nat),
    (t < fuel)%nat →
    visited = list_to_set topo ∪ stack →
    (∀ x, x ∈ stack → (t < x)%nat) →
    NoDup topo → inputs_first s topo →
    ∃ new,
      build_topo fuel s t (visited, topo) =
        Some (visited ∪ list_to_set new, topo ++ new) ∧
      NoDup (topo ++ new) ∧ inputs_first s (topo ++ new) ∧
      t ∈ topo ++ new ∧
      (∀ x, x ∈ new → reachable s t x) ∧
      (t ∉ topo → ∃ new', new = new' ++ [t]).
Proof.
  intros Hok. induction fuel as [|fuel IH];
    intros t stack visited topo Hfuel Hvis Hstack Hnd Hfirst; [lia|].
  simpl. destruct (decide (t ∈ visited)) as [Hin|Hnin].
  - assert (Ht : t ∈ topo).
    { subst visited. apply elem_of_union in Hin as [Hin|Hin].
      - by apply elem_of_list_to_set in Hin.
      - apply Hstack in Hin. lia. }
    exists []. rewrite app_nil_r. split_and!; try done.
    + f_equal. f_equal. set_solver.
    + intros x Hx. by apply elem_of_nil in Hx.
  - assert (Htopo : t ∉ topo).
    { intros Ht. apply Hnin. subst visited. set_solver. }
    assert (Hfold : ∀ ins vis0 topo0,
      (∀ i, i ∈ ins → (i < t)%nat) →
      vis0 = list_to_set topo0 ∪ ({[t]} ∪ stack) →
      NoDup topo0 → inputs_first s topo0 →
      ∃ new,
        foldl (λ acc input, acc ≫= build_topo fuel s input) (Some (vis0, topo0)) ins =
          Some (vis0 ∪ list_to_set new, topo0 ++ new) ∧
        NoDup (topo0 ++ new) ∧ inputs_first s (topo0 ++ new) ∧
        (∀ i, i ∈ ins → i ∈ topo0 ++ new) ∧
        (∀ x, x ∈ new → ∃ i, i ∈ ins ∧ reachable s i x)).
    { induction ins as [|i ins IHins]; intros vis0 topo0 Hlt Hvis0 Hnd0 Hfirst0.
      - exists []. rewrite app_nil_r. simpl. split_and!; try done.
        + f_equal. f_equal. set_solver.
        + intros i Hi. by apply elem_of_nil in Hi.
        + intros x Hx. by apply elem_of_nil in Hx.
      - simpl.
        destruct (IH i ({[t]} ∪ stack) vis0 topo0) as
          (new1 & Hrun1 & Hnd1 & Hfirst1 & Hi1 & Hreach1 & _); try done.
        { pose proof (Hlt i ltac:(left)). lia. }
        { intros x Hx. pose proof (Hlt i ltac:(left)).
          apply elem_of_union in Hx as [->%elem_of_singleton|Hx]; [done|].
          apply Hstack in Hx. lia. }
        rewrite Hrun1.
        destruct (IHins (vis0 ∪ list_to_set new1) (topo0 ++ new1)) as
          (new2 & Hrun2 & Hnd2 & Hfirst2 & Hi2 & Hreach2); try done.
        { intros j Hj. apply Hlt. by right. }
        { rewrite Hvis0, list_to_set_app_L. set_solver. }
        exists (new1 ++ new2). rewrite Hrun2, !app_assoc.
        split_and!; try done.
        + f_equal. f_equal. rewrite list_to_set_app_L. set_solver.
        + intros j [->|Hj]%elem_of_cons; [|by apply Hi2].
          apply elem_of_app. by left.
        + intros x [Hx|Hx]%elem_of_app.
          * exists i. split; [left|by apply Hreach1].
          * destruct (Hreach2 x Hx) as (j & Hj & Hjx).
            exists j. split; [by right|done]. }
    destruct (Hfold (inputs_ (deref s t)) ({[t]} ∪ visited) topo) as
      (new & Hrun & Hnd' & Hfirst' & Hins & Hreach); try done.
    { intros i Hi. by eapply graph_ok_input_lt. }
    { subst visited. set_solver. }
    rewrite Hrun. simpl. exists (new ++ [t]). rewrite app_assoc.
    assert (Hnew : t ∉ new).
    { intros Ht. destruct (Hreach t Ht) as (i & Hi & Hit).
      pose proof (graph_ok_input_lt s t i Hok Hi).
      pose proof (reachable_le s i t Hok Hit). lia. }
    split_and!.
    + f_equal. f_equal. rewrite list_to_set_app_L. set_solver.
    + apply NoDup_app. split_and!; [done| |apply NoDup_singleton].
      intros x Hx ->%list_elem_of_singleton.
      apply elem_of_app in Hx as [Hx|Hx]; done.
    + by apply inputs_first_snoc.
    + apply elem_of_app. right. by left.
    + intros x [Hx| ->%list_elem_of_singleton]%elem_of_app; [|constructor].
      destruct (Hreach x Hx) as (i & Hi & Hix). by eapply reachable_step.
    + intros _. by exists new.
Qed.

Lemma run_reverse_closures (s : store) (order : list ptr) (s0 : store) :
  same_graph s s0 →
  foldl (λ s' t, run_closure (backward_fn_ (deref s' t)) s') s0 order =
  foldl (λ s' t, run_closure (backward_fn_ (deref s t)) s') s0 order.
Proof.
  revert s0. induction order as [|t order IH]; intros s0 Hsame; simpl; [done|].
  destruct (same_graph_fields s s0 t Hsame) as (_ & _ & _ & _ & _ & -> & _).
  apply IH. eapply same_graph_trans; [done|apply same_graph_run_closure].
Qed.

Lemma deref_fill_grad (s : store) (p q : ptr) (x : F) :
  deref (fill_grad p x s) q =
    if decide (q = p)
    then set_grad (deref s p) (replicate (length (grad_ (deref s p))) x)
    else deref s q.
Proof. unfold fill_grad. apply deref_set_grad. apply length_replicate. Qed.

(** C2. [backward] on any root [r], scalar or not: the depth-first order has
    no duplicates and holds exactly the tensors reachable from [r]; the
    root's gradient is filled with 1.0 at every element; then the
    [backward_fn_] of every reachable tensor runs exactly once, starting with
    the root, each tensor strictly before all of its inputs. *)
Theorem backward_reverse_topological (s : store) (r : ptr) (fuel : nat) :
  graph_ok s → (r < fuel)%nat →
  ∃ order : list ptr,
    build_topo fuel s r (∅, []) = Some (list_to_set (reverse order), reverse order) ∧
    backward fuel r s =
      Some (foldl (λ s' t, run_closure (backward_fn_ (deref s t)) s')
                  (fill_grad r fone s) order) ∧
    grad_ (deref (fill_grad r fone s) r) =
      replicate (length (grad_ (deref s r))) fone ∧
    (∀ p, p ≠ r → deref (fill_grad r fone s) p = deref s p) ∧
    NoDup order ∧
    (∀ t, t ∈ order ↔ reachable s r t) ∧
    head order = Some r ∧
    (∀ j x, order !! j = Some x →
       ∀ i, i ∈ inputs_ (deref s x) → ∃ j', (j < j')%nat ∧ order !! j' = Some i).
Proof.
  intros Hok Hfuel.
  destruct (build_topo_spec s Hok fuel r ∅ ∅ [] Hfuel) as
    (topo & Hrun & Hnd & Hfirst & Hr & Hreach & Hlast).
  { set_solver. }
  { intros x Hx. by apply elem_of_empty in Hx. }
  { constructor. }
  { intros j x Hj. by rewrite lookup_nil in Hj. }
  simpl in *. destruct Hlast as [new' ->]; [by intros ?%elem_of_nil|].
  exists (reverse (new' ++ [r])). rewrite reverse_involutive.
  split_and!.
  - rewrite Hrun. f_equal. f_equal. set_solver.
  - unfold backward. rewrite Hrun. simpl. f_equal. unfold run_reverse.
    apply run_reverse_closures, same_graph_fill_grad.
  - rewrite deref_fill_grad. by destruct (decide (r = r)).
  - intros p Hp. rewrite deref_fill_grad. by destruct (decide (p = r)).
  - by rewrite reverse_Permutation.
  - intros t. rewrite elem_of_reverse. split; [apply Hreach|].
    by apply inputs_first_closed.
  - by rewrite reverse_snoc.
  - intros j x Hj i Hi.
    pose proof (lookup_lt_Some _ _ _ Hj) as Hjlt. rewrite length_reverse in Hjlt.
    rewrite reverse_lookup in Hj by done.
    destruct (Hfirst _ _ Hj i Hi) as (j' & Hj' & Hlook).
    exists (length (new' ++ [r]) - S j')%nat. split; [lia|].
    rewrite reverse_lookup by lia. rewrite <- Hlook. f_equal. lia.
Qed.

(** ** [zero_grad] *)

(** The tensor with its gradient buffer reset to zeros. *)
Definition zeroed (t : Tensor) : Tensor :=
  set_grad t (replicate (length (grad_ t)) fzero).

Lemma zeroed_idemp (t : Tensor) : zeroed (zeroed t) = zeroed t.
Proof. unfold zeroed. simpl. by rewrite length_replicate. Qed.

Lemma same_graph_pointwise (s s' : store) :
  length s' = length s →
  (∀ p, deref s' p = deref s p ∨ deref s' p = zeroed (deref s p)) →
  same_graph s s'.
Proof.
  intros Hlen Hp. split; [done|]. intros p. destruct (Hp p) as [->| ->].
  - exists (grad_ (deref s p)). by rewrite set_grad_id.
  - eexists. split; [done|]. apply length_replicate.
Qed.

Lemma reachable_inv (s : store) (r t : ptr) :
  reachable s r t → t = r ∨ ∃ i, i ∈ inputs_ (deref s r) ∧ reachable s i t.
Proof. intros [|r' i t' Hi Hreach]; [by left|right; eauto]. Qed.

Lemma zero_grad_spec (s : store) :
  graph_ok s →
  ∀ fuel t s1, same_graph s s1 → (t < fuel)%nat →
    ∃ s2,
      zero_grad fuel t s1 = Some s2 ∧ length s2 = length s1 ∧
      (∀ p, reachable s t p → deref s2 p = zeroed (deref s1 p)) ∧
      (∀ p, deref s2 p = deref s1 p ∨
            (reachable s t p ∧ deref s2 p = zeroed (deref s1 p))).
Proof.
  intros Hok. induction fuel as [|fuel IH]; intros t s1 Hsame Hfuel; [lia|].
  assert (Hfold : ∀ ins s1,
    same_graph s s1 → (∀ i, i ∈ ins → (i < t)%nat) →
    ∃ s2,
      foldl (λ acc input, acc ≫= zero_grad fuel input) (Some s1) ins = Some s2 ∧
      length s2 = length s1 ∧
      (∀ p i, i ∈ ins → reachable s i p → deref s2 p = zeroed (deref s1 p)) ∧
      (∀ p, deref s2 p = deref s1 p ∨
            ((∃ i, i ∈ ins ∧ reachable s i p) ∧ deref s2 p = zeroed (deref s1 p)))).
  { clear s1 Hsame. induction ins as [|i ins IHins]; intros s1 Hsame Hlt.
    - exists s1. simpl. split_and!; try done; [|by left].
      intros p i Hi. by apply elem_of_nil in Hi.
    - simpl.
      destruct (IH i s1 Hsame) as (s1' & Hrun1 & Hlen1 & Hz1 & Hc1).
      { pose proof (Hlt i ltac:(left)). lia. }
      rewrite Hrun1.
      destruct (IHins s1') as (s2 & Hrun2 & Hlen2 & Hz2 & Hc2).
      { eapply same_graph_trans; [done|].
        apply same_graph_pointwise; [done|]. intros p.
        destruct (Hc1 p) as [?|[_ ?]]; eauto. }
      { intros j Hj. apply Hlt. by right. }
      exists s2. rewrite Hrun2. split_and!; [done|congruence| |].
      + intros p j [->|Hj]%elem_of_cons Hreach.
        * destruct (Hc2 p) as [->|[_ ->]]; rewrite (Hz1 p Hreach); [done|].
          apply zeroed_idemp.
        * rewrite (Hz2 p j Hj Hreach).
          destruct (Hc1 p) as [->|[_ ->]]; [done|apply zeroed_idemp].
      + intros p. destruct (Hc2 p) as [->|[(j & Hj & Hreach) ->]].
        * destruct (Hc1 p) as [->|[Hreach ->]]; [by left|].
          right. split; [|done]. exists i. split; [left|done].
        * right. split; [exists j; split; [by right|done]|].
          destruct (Hc1 p) as [->|[_ ->]]; [done|apply zeroed_idemp]. }
  simpl.
  destruct (same_graph_fields s s1 t Hsame) as (_ & _ & _ & _ & Hins & _).
  rewrite Hins.
  destruct (Hfold (inputs_ (deref s t)) (fill_grad t fzero s1)) as
    (s2 & Hrun & Hlen & Hz & Hc).
  { eapply same_graph_trans; [done|apply same_graph_fill_grad]. }
  { intros i Hi. by eapply graph_ok_input_lt. }
  exists s2. rewrite Hrun. split_and!; [done| | |].
  - rewrite Hlen. unfold fill_grad. by rewrite length_insert.
  - intros p [->|(i & Hi & Hreach)]%reachable_inv.
    + destruct (Hc t) as [->|[_ ->]]; rewrite deref_fill_grad;
        destruct (decide (t = t)); try done. apply zeroed_idemp.
    + rewrite (Hz p i Hi Hreach). rewrite deref_fill_grad.
      destruct (decide (p = t)) as [->|_]; [apply zeroed_idemp|done].
  - intros p. destruct (decide (p = t)) as [->|Hne].
    + right. split; [constructor|].
      destruct (Hc t) as [->|[_ ->]]; rewrite deref_fill_grad;
        destruct (decide (t = t)); try done. apply zeroed_idemp.
    + destruct (Hc p) as [->|[(i & Hi & Hreach) ->]]; rewrite deref_fill_grad;
        destruct (decide (p = t)); try done; [by left|].
      right. split; [by eapply reachable_step|done].
Qed.

(** C9. [zero_grad] on the root of a graph resets the gradient buffer of the
    root and of every tensor reachable through [inputs_] to zeros, changes no
    other tensor and no data buffer, and a second call changes nothing. *)
Theorem zero_grad_reachable (s : store) (root : ptr) (fuel : nat) :
  graph_ok s → (root < fuel)%nat →
  ∃ s',
    zero_grad fuel root s = Some s' ∧
    length s' = length s ∧
    (∀ p, reachable s root p →
       grad_ (deref s' p) = replicate (length (grad_ (deref s p))) fzero) ∧
    (∀ p, ¬ reachable s root p → deref s' p = deref s p) ∧
    (∀ p, data_ (deref s' p) = data_ (deref s p)) ∧
    zero_grad fuel root s' = Some s'.
Proof.
  intros Hok Hfuel.
  destruct (zero_grad_spec s Hok fuel root s (same_graph_refl s) Hfuel) as
    (s' & Hrun & Hlen & Hz & Hc).
  assert (Hsame : same_graph s s').
  { apply same_graph_pointwise; [done|]. intros p.
    destruct (Hc p) as [?|[_ ?]]; eauto. }
  exists s'. split_and!; try done.
  - intros p Hreach. by rewrite (Hz p Hreach).
  - intros p Hnot. by destruct (Hc p) as [?|[? _]].
  - intros p. by destruct (same_graph_fields s s' p Hsame) as (-> & _).
  - destruct (zero_grad_spec s Hok fuel root s' Hsame Hfuel) as
      (s'' & Hrun' & Hlen' & Hz' & Hc').
    rewrite Hrun'. f_equal. apply store_eq; [done|]. intros p.
    destruct (Hc' p) as [->|[Hreach ->]]; [done|].
    rewrite (Hz p Hreach). apply zeroed_idemp.
Qed.

(** ** Accumulation loops *)

(** The effect on one gradient vector of a sequence of [g[i] += d]. *)
Definition scatter (g : list F) (ws : list (nat * F)) : list F :=
  foldl (λ g w, vset g w.1 (fadd (vget g w.1) w.2)) g ws.

(** The values added at index [j], in the order of the writes. *)
Definition addends_at (j : nat) (ws : list (nat * F)) : list F :=
  (filter (λ w, w.1 = j) ws).*2.

Lemma for_foldl {S : Type} (n : nat) (body : nat → S → S) (s : S) :
  for_ n body s = foldl (λ s i, body i s) s (seq 0 n).
Proof.
  induction n as [|n IH]; [done|].
  rewrite seq_S, foldl_app. simpl. by rewrite IH.
Qed.

Lemma for_for_foldl {S : Type} (m n : nat) (body : nat → nat → S → S) (s : S) :
  for_ m (λ i s, for_ n (body i) s) s =
  foldl (λ s ij, body ij.1 ij.2 s) s
        (i ← seq 0 m; (λ j, (i, j)) <$> seq 0 n).
Proof.
  rewrite for_foldl. generalize (seq 0 m). intros l. revert s.
  induction l as [|i l IH]; intros s; simpl; [done|].
  rewrite foldl_app, <- IH. f_equal.
  rewrite for_foldl. generalize (seq 0 n). intros l'. clear IH. revert s.
  induction l' as [|j l' IH']; intros s; simpl; [done|]. apply IH'.
Qed.

Lemma length_scatter (g : list F) (ws : list (nat * F)) :
  length (scatter g ws) = length g.
Proof.
  revert g. induction ws as [|w ws IH]; intros g; simpl; [done|].
  unfold scatter in *. simpl. rewrite IH. apply length_insert.
Qed.

Lemma vget_vset (g : list F) (i j : nat) (x : F) :
  vget (vset g i x) j = if decide (i = j ∧ (i < length g)%nat) then x else vget g j.
Proof.
  unfold vget, vset. destruct (decide (i = j ∧ (i < length g)%nat)) as [[-> Hlt]|Hn].
  - by rewrite list_lookup_insert_eq.
  - destruct (decide (i = j)) as [->|Hne].
    + rewrite list_insert_ge by lia. done.
    + by rewrite list_lookup_insert_ne.
Qed.

Lemma vget_scatter (g : list F) (ws : list (nat * F)) (j : nat) :
  (j < length g)%nat →
  vget (scatter g ws) j = foldl fadd (vget g j) (addends_at j ws).
Proof.
  revert g. induction ws as [|[i d] ws IH]; intros g Hj; [done|].
  unfold scatter in *. simpl. rewrite IH by (unfold vset; by rewrite length_insert).
  rewrite vget_vset. unfold addends_at. rewrite filter_cons. simpl.
  destruct (decide (i = j)) as [->|Hne].
  - destruct (decide (j = j ∧ (j < length g)%nat)); [done|lia].
  - destruct (decide (i = j ∧ (i < length g)%nat)); [lia|done].
Qed.

Lemma scatter_ext (g : list F) (ws : list (nat * F)) (h : nat → F → F) :
  (∀ j, (j < length g)%nat → foldl fadd (vget g j) (addends_at j ws) = h j (vget g j)) →
  scatter g ws = imap h g.
Proof.
  intros Hh. apply list_eq. intros j. rewrite list_lookup_imap.
  destruct (decide (j < length g)%nat) as [Hlt|Hge].
  - destruct (lookup_lt_is_Some_2 g j Hlt) as [x Hx].
    destruct (lookup_lt_is_Some_2 (scatter g ws) j) as [y Hy];
      [by rewrite length_scatter|].
    rewrite Hx, Hy. simpl. f_equal.
    pose proof (vget_scatter g ws j Hlt) as Hv. rewrite Hh in Hv by done.
    unfold vget in Hv. by rewrite Hx, Hy in Hv.
  - rewrite !lookup_ge_None_2; [done|lia|rewrite length_scatter; lia].
Qed.

Lemma addends_at_seq (f : nat → F) (n j : nat) :
  addends_at j ((λ i, (i, f i)) <$> seq 0 n) = if decide (j < n)%nat then [f j] else [].
Proof.
  unfold addends_at. induction n as [|n IH].
  - simpl. by destruct (decide (j < 0)%nat); [lia|].
  - rewrite seq_S, fmap_app, filter_app, fmap_app, IH. simpl.
    rewrite filter_cons, filter_nil. simpl.
    destruct (decide (n = j)) as [->|Hne].
    + destruct (decide (j < j)%nat); [lia|].
      destruct (decide (j < S j)%nat); [done|lia].
    + rewrite app_nil_r.
      destruct (decide (j < n)%nat), (decide (j < S n)%nat); try done; lia.
Qed.

(** A value that does not read the gradient of the tensor at [p]. *)
Definition ignores_grad_of {A : Type} (p : ptr) (val : store → A) : Prop :=
  ∀ s g, val (<[p := set_grad (deref s p) g]> s) = val s.

Lemma insert_insert_store (s : store) (p : ptr) (t t' : Tensor) :
  <[p := t']> (<[p := t]> s) = <[p := t']> s.
Proof. apply list_insert_insert_eq. Qed.

Lemma insert_deref_id (s : store) (p : ptr) : <[p := deref s p]> s = s.
Proof.
  destruct (decide (p < length s)%nat) as [Hlt|Hge].
  - destruct (lookup_lt_is_Some_2 s p Hlt) as [t Ht].
    rewrite (deref_lookup _ _ _ Ht). by apply list_insert_id.
  - apply list_insert_ge. lia.
Qed.

(** A sequence of [p->grad_[i] += d] whose indices and values do not read
    [p]'s gradient is one scatter on [p]'s gradient vector. *)
Lemma grad_pass {A : Type} (p : ptr) (l : list A) (w : A → store → nat * F)
    (s : store) :
  (∀ a, ignores_grad_of p (w a)) →
  foldl (λ s a, grad_add p (w a s).1 (w a s).2 s) s l =
  <[p := set_grad (deref s p) (scatter (grad_ (deref s p)) ((λ a, w a s) <$> l))]> s.
Proof.
  intros Hw.
  assert (Hgen : ∀ l g, length g = length (grad_ (deref s p)) →
    foldl (λ s a, grad_add p (w a s).1 (w a s).2 s)
          (<[p := set_grad (deref s p) g]> s) l =
    <[p := set_grad (deref s p) (scatter g ((λ a, w a s) <$> l))]> s).
  { clear l. induction l as [|a l IH]; intros g Hg; [done|].
    simpl. unfold grad_add at 2. rewrite Hw.
    rewrite deref_set_grad by done. destruct (decide (p = p)); [|done].
    rewrite set_grad_set_grad. simpl grad_. rewrite insert_insert_store.
    rewrite IH; [done|]. unfold vset. by rewrite length_insert. }
  rewrite <- (Hgen l (grad_ (deref s p))) by done.
  by rewrite set_grad_id, insert_deref_id.
Qed.

(** One loop nest of a closure, seen as a whole: if the target requires a
    gradient, its gradient vector receives the writes [ws]. *)
Definition pass_store (p : ptr) (ws : store → list (nat * F)) (s : store) : store :=
  if requires_grad_ (deref s p)
  then <[p := set_grad (deref s p) (scatter (grad_ (deref s p)) (ws s))]> s
  else s.

Definition elementwise_writes (this : ptr) (term : store → nat → F) (s : store)
    : list (nat * F) :=
  (λ i, (i, term s i)) <$> seq 0 (N.to_nat (size_ (deref s this))).

Definition matmul_writes (rows cols inner : N) (stride : N)
    (entry : store → nat → nat → nat → F) (s : store) : list (nat * F) :=
  (λ ij : nat * nat,
     (index2 ij.1 stride ij.2,
      for_ (N.to_nat inner) (λ l acc, fadd acc (entry s ij.1 ij.2 l)) fzero))
  <$> (i ← seq 0 (N.to_nat rows); (λ j, (i, j)) <$> seq 0 (N.to_nat cols)).

(** The loop nests of each closure: the target and the writes, in order. *)
Definition closure_passes (c : Closure) : list (ptr * (store → list (nat * F))) :=
  match c with
  | BwNoop => []
  | BwAdd this other result =>
      [(this, elementwise_writes this (λ s i, rgrad s result i));
       (other, elementwise_writes other (λ s i, rgrad s result i))]
  | BwMultiply this other result =>
      [(this, elementwise_writes this (λ s i, fmul (rdata s other i) (rgrad s result i)));
       (other, elementwise_writes other (λ s i, fmul (rdata s this i) (rgrad s result i)))]
  | BwMultiplyScalar this scalar result =>
      [(this, elementwise_writes this (λ s i, fmul scalar (rgrad s result i)))]
  | BwPow this exponent result =>
      [(this, elementwise_writes this (λ s i,
         fmul (fmul exponent (fpow (rdata s this i) (fsub exponent fone)))
              (rgrad s result i)))]
  | BwMatmul this other result m k n =>
      [(this, matmul_writes m k n k (λ s i j l,
         fmul (rgrad s result (index2 i n l)) (rdata s other (index2 j n l))));
       (other, matmul_writes k n m n (λ s i j l,
         fmul (rdata s this (index2 l k i)) (rgrad s result (index2 l n j))))]
  | BwSum this result =>
      [(this, elementwise_writes this (λ s _, rgrad s result 0))]
  | BwRelu this result =>
      [(this, elementwise_writes this (λ s i,
         if flt fzero (rdata s this i) then rgrad s result i else fzero))]
  | BwSigmoid this result =>
      [(this, elementwise_writes this (λ s i,
         fmul (fmul (rdata s result i) (fsub fone (rdata s result i)))
              (rgrad s result i)))]
  | BwTanh this result =>
      [(this, elementwise_writes this (λ s i,
         fmul (fsub fone (fmul (rdata s result i) (rdata s result i)))
              (rgrad s result i)))]
  | BwReshape this result =>
      [(this, elementwise_writes this (λ s i, rgrad s result i))]
  end.

Definition closure_result (c : Closure) : option ptr :=
  match c with
  | BwNoop => None
  | BwAdd _ _ r | BwMultiply _ _ r | BwMultiplyScalar _ _ r | BwPow _ _ r
  | BwMatmul _ _ r _ _ _ | BwSum _ r | BwRelu _ r | BwSigmoid _ r | BwTanh _ r
  | BwReshape _ r => Some r
  end.

(** A closure never writes into the tensor it belongs to: its result is not
    one of its inputs. *)
Definition closure_ok (c : Closure) : Prop :=
  ∀ r, closure_result c = Some r → Forall (λ pw, pw.1 ≠ r) (closure_passes c).

Lemma deref_set_grad_ne (s : store) (p q : ptr) (g : list F) :
  q ≠ p → deref (<[p := set_grad (deref s p) g]> s) q = deref s q.
Proof.
  intros Hne. unfold deref. rewrite !list_lookup_total_alt.
  by rewrite list_lookup_insert_ne.
Qed.

Lemma deref_set_grad_any (s : store) (p q : ptr) (g : list F) :
  ∃ g', deref (<[p := set_grad (deref s p) g]> s) q = set_grad (deref s q) g'.
Proof.
  destruct (decide (q = p)) as [->|Hne].
  - destruct (decide (p < length s)%nat) as [Hlt|Hge].
    + exists g. apply deref_lookup. by apply list_lookup_insert_eq.
    + rewrite list_insert_ge by lia. exists (grad_ (deref s p)).
      by rewrite set_grad_id.
  - rewrite deref_set_grad_ne by done. exists (grad_ (deref s q)).
    by rewrite set_grad_id.
Qed.

Lemma rdata_set_grad (s : store) (p q : ptr) (g : list F) (i : nat) :
  rdata (<[p := set_grad (deref s p) g]> s) q i = rdata s q i.
Proof. unfold rdata. by destruct (deref_set_grad_any s p q g) as [g' ->]. Qed.

Lemma size_set_grad (s : store) (p q : ptr) (g : list F) :
  size_ (deref (<[p := set_grad (deref s p) g]> s) q) = size_ (deref s q).
Proof. by destruct (deref_set_grad_any s p q g) as [g' ->]. Qed.

Lemma requires_grad_set_grad (s : store) (p q : ptr) (g : list F) :
  requires_grad_ (deref (<[p := set_grad (deref s p) g]> s) q) =
  requires_grad_ (deref s q).
Proof. by destruct (deref_set_grad_any s p q g) as [g' ->]. Qed.

Lemma rgrad_set_grad (s : store) (p q : ptr) (g : list F) (i : nat) :
  q ≠ p → rgrad (<[p := set_grad (deref s p) g]> s) q i = rgrad s q i.
Proof. intros Hne. unfold rgrad. by rewrite deref_set_grad_ne. Qed.

Lemma for_ext {S : Type} (n : nat) (body body' : nat → S → S) (s : S) :
  (∀ i s, body i s = body' i s) → for_ n body s = for_ n body' s.
Proof. intros Hb. induction n as [|n IH]; simpl; [done|]. by rewrite IH, Hb. Qed.

Lemma elementwise_writes_ignores (this p : ptr) (term : store → nat → F) :
  (∀ i, ignores_grad_of p (λ s, term s i)) →
  ignores_grad_of p (elementwise_writes this term).
Proof.
  intros Hterm s g. unfold elementwise_writes. rewrite size_set_grad.
  apply list_fmap_ext. intros _ i _. f_equal. apply Hterm.
Qed.

Lemma matmul_writes_ignores (p : ptr) rows cols inner stride
    (entry : store → nat → nat → nat → F) :
  (∀ i j l, ignores_grad_of p (λ s, entry s i j l)) →
  ignores_grad_of p (matmul_writes rows cols inner stride entry).
Proof.
  intros Hentry s g. unfold matmul_writes.
  apply list_fmap_ext. intros _ [i j] _. simpl. f_equal.
  apply for_ext. intros l acc. f_equal. apply Hentry.
Qed.

Lemma accumulate_pass (this : ptr) (term : store → nat → F) (s : store) :
  (∀ i, ignores_grad_of this (λ s, term s i)) →
  accumulate this term s = pass_store this (elementwise_writes this term) s.
Proof.
  intros Hterm. unfold accumulate, pass_store.
  destruct (requires_grad_ _); [|done].
  rewrite for_foldl. unfold elementwise_writes.
  apply (grad_pass this _ (λ i s, (i, term s i)) s).
  intros i s' g. simpl. f_equal. apply Hterm.
Qed.

Lemma matmul_pass (p : ptr) rows cols inner stride
    (entry : store → nat → nat → nat → F) (s : store) :
  (∀ i j l, ignores_grad_of p (λ s, entry s i j l)) →
  for_ (N.to_nat rows) (λ i s,
    for_ (N.to_nat cols) (λ j s,
      let grad_sum := for_ (N.to_nat inner) (λ l acc, fadd acc (entry s i j l)) fzero in
      grad_add p (index2 i stride j) grad_sum s) s) s =
  <[p := set_grad (deref s p)
           (scatter (grad_ (deref s p)) (matmul_writes rows cols inner stride entry s))]> s.
Proof.
  intros Hentry.
  rewrite (for_for_foldl _ _ (λ i j s,
    grad_add p (index2 i stride j)
      (for_ (N.to_nat inner) (λ l acc, fadd acc (entry s i j l)) fzero) s)).
  unfold matmul_writes.
  apply (grad_pass p _ (λ (ij : nat * nat) s, (index2 ij.1 stride ij.2,
      for_ (N.to_nat inner) (λ l acc, fadd acc (entry s ij.1 ij.2 l)) fzero)) s).
  intros [i j] s' g. simpl. f_equal. apply for_ext. intros l acc. f_equal.
  apply Hentry.
Qed.

(** Every closure is the sequence of its passes. *)
Lemma run_closure_passes (c : Closure) (s : store) :
  closure_ok c →
  run_closure c s = foldl (λ s pw, pass_store pw.1 pw.2 s) s (closure_passes c).
Proof.
  intros Hok.
  assert (Hres : ∀ r, closure_result c = Some r →
            Forall (λ pw, pw.1 ≠ r) (closure_passes c)) by done.
  destruct c; simpl in *; try done;
    specialize (Hres _ eq_refl);
    repeat match goal with
           | Hf : Forall _ (_ :: _) |- _ => apply Forall_cons in Hf as [? Hf]
           end; simpl in *;
    rewrite ?accumulate_pass; try done;
    try (intros i s' g; by rewrite ?rdata_set_grad, ?rgrad_set_grad by done).
  unfold pass_store at 2. unfold pass_store at 1.
  rewrite matmul_pass
    by (intros i j l s' g; by rewrite ?rdata_set_grad, ?rgrad_set_grad by done).
  destruct (requires_grad_ (deref s this)).
  - destruct (requires_grad_ _); [|done].
    by rewrite matmul_pass
      by (intros i j l s' g; by rewrite ?rdata_set_grad, ?rgrad_set_grad by done).
  - destruct (requires_grad_ _); [|done].
    by rewrite matmul_pass
      by (intros i j l s' g; by rewrite ?rdata_set_grad, ?rgrad_set_grad by done).
Qed.

Lemma closure_passes_ignore (c : Closure) (p : ptr) :
  closure_result c ≠ Some p →
  Forall (λ pw, ignores_grad_of p pw.2) (closure_passes c).
Proof.
  intros Hres.
  destruct c; simpl in *; repeat constructor; simpl;
    try (apply elementwise_writes_ignores; intros i s g;
         by rewrite ?rdata_set_grad, ?rgrad_set_grad by congruence);
    apply matmul_writes_ignores; intros i j l s g;
    by rewrite ?rdata_set_grad, ?rgrad_set_grad by congruence.
Qed.

Lemma deref_pass_store_ne (p q : ptr) ws (s : store) :
  q ≠ p → deref (pass_store p ws s) q = deref s q.
Proof.
  intros Hne. unfold pass_store. destruct (requires_grad_ _); [|done].
  by apply deref_set_grad_ne.
Qed.

Lemma passes_frame (passes : list (ptr * (store → list (nat * F)))) (q : ptr)
    (s : store) :
  Forall (λ pw, pw.1 ≠ q) passes →
  deref (foldl (λ s pw, pass_store pw.1 pw.2 s) s passes) q = deref s q.
Proof.
  revert s. induction passes as [|[p ws] passes IH]; intros s Hne; [done|].
  apply Forall_cons in Hne as [Hp Hne]. simpl in *.
  rewrite IH by done. by apply deref_pass_store_ne.
Qed.

Lemma scatter_imap (g : list F) (ws : list (nat * F)) :
  scatter g ws = imap (λ j x, foldl fadd x (addends_at j ws)) g.
Proof. by apply scatter_ext. Qed.

Lemma imap_imap_foldl (g : list F) (A B : nat → list F) :
  imap (λ j x, foldl fadd x (B j)) (imap (λ j x, foldl fadd x (A j)) g) =
  imap (λ j x, foldl fadd x (A j ++ B j)) g.
Proof.
  apply list_eq. intros j. rewrite !list_lookup_imap.
  destruct (g !! j); simpl; [|done]. by rewrite foldl_app.
Qed.

(** A sequence of passes maps the gradient vector [g] of a tensor [q] whose
    gradient the passes do not read to [g] plus addends that do not depend
    on [g]. *)
Lemma passes_accumulate (passes : list (ptr * (store → list (nat * F)))) (q : ptr) :
  Forall (λ pw, ignores_grad_of q pw.2) passes →
  ∀ s, ∃ D : nat → list F, ∀ g,
    length g = length (grad_ (deref s q)) →
    grad_ (deref (foldl (λ s pw, pass_store pw.1 pw.2 s)
                    (<[q := set_grad (deref s q) g]> s) passes) q) =
    imap (λ j x, foldl fadd x (D j)) g.
Proof.
  induction passes as [|[p ws] passes IH]; intros Hign s.
  - exists (λ _, []). intros g Hg. simpl. rewrite deref_set_grad by done.
    destruct (decide (q = q)); [|done]. simpl.
    apply list_eq. intros j. rewrite list_lookup_imap. by destruct (g !! j).
  - apply Forall_cons in Hign as [Hws Hign]. simpl in Hws.
    destruct (requires_grad_ (deref s p)) eqn:Hrg.
    + destruct (decide (p = q)) as [->|Hne].
      * destruct (IH Hign s) as [D HD].
        exists (λ j, addends_at j (ws s) ++ D j). intros g Hg. simpl.
        unfold pass_store at 2. rewrite requires_grad_set_grad, Hrg.
        rewrite deref_set_grad by done. destruct (decide (q = q)); [|done].
        rewrite set_grad_set_grad, insert_insert_store. simpl grad_.
        rewrite Hws, HD by (by rewrite length_scatter).
        by rewrite scatter_imap, imap_imap_foldl.
      * set (s1 := <[p := set_grad (deref s p)
                      (scatter (grad_ (deref s p)) (ws s))]> s).
        destruct (IH Hign s1) as [D HD].
        assert (Hq : deref s1 q = deref s q)
          by (unfold s1; by apply deref_set_grad_ne).
        exists D. intros g Hg. simpl.
        unfold pass_store at 2. rewrite requires_grad_set_grad, Hrg.
        rewrite deref_set_grad_ne by done. rewrite Hws.
        rewrite list_insert_insert_ne by done. fold s1.
        rewrite <- Hq. apply HD. by rewrite Hq.
    + destruct (IH Hign s) as [D HD]. exists D. intros g Hg. simpl.
      unfold pass_store at 2. rewrite requires_grad_set_grad, Hrg.
      by apply HD.
Qed.

(** Every [backward_fn_] only accumulates: it maps the gradient vector [g] of
    any tensor [q] to [g] plus addends that do not depend on [g], and it
    changes no data. *)
Lemma run_closure_accumulates (c : Closure) (s : store) (q : ptr) :
  closure_ok c →
  (∃ D : nat → list F, ∀ g,
     length g = length (grad_ (deref s q)) →
     grad_ (deref (run_closure c (<[q := set_grad (deref s q) g]> s)) q) =
     imap (λ j x, foldl fadd x (D j)) g) ∧
  (∀ p, data_ (deref (run_closure c s) p) = data_ (deref s p)).
Proof.
  intros Hok. split.
  - destruct (decide (closure_result c = Some q)) as [Hres|Hres].
    + exists (λ _, []). intros g Hg. rewrite run_closure_passes by done.
      rewrite passes_frame.
      * rewrite deref_set_grad by done. destruct (decide (q = q)); [|done].
        simpl. apply list_eq. intros j. rewrite list_lookup_imap.
        by destruct (g !! j).
      * by apply Hok.
    + destruct (passes_accumulate (closure_passes c) q
                  (closure_passes_ignore c q Hres) s) as [D HD].
      exists D. intros g Hg. rewrite run_closure_passes by done. by apply HD.
  - intros p.
    by destruct (same_graph_fields _ _ p (same_graph_run_closure c s)) as (-> & _).
Qed.

(** ** Reading single gradient elements after a step *)

Lemma rgrad_fill_grad (s : store) (p q : ptr) (x : F) (j : nat) :
  rgrad (fill_grad p x s) q j =
    if decide (q = p ∧ (j < length (grad_ (deref s p)))%nat) then x else rgrad s q j.
Proof.
  unfold rgrad. rewrite deref_fill_grad.
  destruct (decide (q = p)) as [->|Hne]; simpl.
  - unfold vget. destruct (decide (p = p ∧ (j < length (grad_ (deref s p)))%nat))
      as [[_ Hlt]|Hn].
    + by rewrite lookup_replicate_2.
    + rewrite !lookup_ge_None_2; [done|lia|rewrite length_replicate; lia].
  - destruct (decide (q = p ∧ _)) as [[? _]|_]; done.
Qed.

Lemma rdata_same_graph (s s' : store) (q : ptr) (j : nat) :
  same_graph s s' → rdata s' q j = rdata s q j.
Proof.
  intros Hsame. unfold rdata.
  by destruct (same_graph_fields s s' q Hsame) as (-> & _).
Qed.

Lemma deref_accumulate (this q : ptr) (term : store → nat → F) (s : store) :
  (∀ i, ignores_grad_of this (λ s, term s i)) →
  length (grad_ (deref s this)) = N.to_nat (size_ (deref s this)) →
  deref (accumulate this term s) q =
    if decide (q = this ∧ requires_grad_ (deref s this) = true)
    then set_grad (deref s this)
           (imap (λ j x, fadd x (term s j)) (grad_ (deref s this)))
    else deref s q.
Proof.
  intros Hterm Hlen. rewrite accumulate_pass by done. unfold pass_store.
  destruct (requires_grad_ (deref s this)) eqn:Hrg.
  - rewrite deref_set_grad by apply length_scatter.
    destruct (decide (q = this)) as [->|Hne].
    + destruct (decide (this = this ∧ true = true)) as [_|Hn]; [|by destruct Hn].
      f_equal. apply scatter_ext. intros j Hj. unfold elementwise_writes.
      rewrite addends_at_seq. destruct (decide (j < _)%nat); [done|lia].
    + by destruct (decide (q = this ∧ true = true)) as [[? _]|_].
  - by destruct (decide (q = this ∧ false = true)) as [[_ ?]|_].
Qed.

Lemma vget_imap (g : list F) (h : nat → F → F) (j : nat) :
  (j < length g)%nat → vget (imap h g) j = h j (vget g j).
Proof.
  intros Hj. unfold vget. rewrite list_lookup_imap.
  by destruct (lookup_lt_is_Some_2 g j Hj) as [x ->].
Qed.

Lemma rgrad_accumulate (this q : ptr) (term : store → nat → F) (s : store) (j : nat) :
  (∀ i, ignores_grad_of this (λ s, term s i)) →
  length (grad_ (deref s this)) = N.to_nat (size_ (deref s this)) →
  (j < length (grad_ (deref s q)))%nat →
  rgrad (accumulate this term s) q j =
    if decide (q = this ∧ requires_grad_ (deref s this) = true)
    then fadd (rgrad s this j) (term s j)
    else rgrad s q j.
Proof.
  intros Hterm Hlen Hj. unfold rgrad. rewrite deref_accumulate by done.
  destruct (decide (q = this ∧ _)) as [[-> _]|_]; [|done].
  simpl. by rewrite vget_imap.
Qed.

Lemma vget_ext (g g' : list F) :
  length g = length g' →
  (∀ j, (j < length g)%nat → vget g j = vget g' j) → g = g'.
Proof.
  intros Hlen Hv. apply list_eq. intros j.
  destruct (decide (j < length g)%nat) as [Hlt|Hge].
  - specialize (Hv j Hlt). unfold vget in Hv.
    destruct (lookup_lt_is_Some_2 g j Hlt) as [x Hx].
    destruct (lookup_lt_is_Some_2 g' j) as [y Hy]; [lia|].
    rewrite Hx, Hy in *. simpl in Hv. by subst.
  - rewrite !lookup_ge_None_2; [done|lia|lia].
Qed.

(** ** A tensor consumed by two branches *)

Definition bind {A B : Type} (m : M A) (k : A → M B) : M B := λ s,
  match m s with
  | (inr a, s') => k a s'
  | (inl e, s') => (inl e, s')
  end.

(** The shape-preserving unary operations, as consumers of a tensor. *)
Inductive consumer :=
  | CScale (scalar : F) | CPow (exponent : F) | CRelu | CSigmoid | CTanh.

Definition consume (op : consumer) (x : ptr) : M ptr :=
  match op with
  | CScale c => multiply_scalar x c
  | CPow e => pow x e
  | CRelu => relu x
  | CSigmoid => sigmoid x
  | CTanh => tanh_ x
  end.

(** [loss = (op1(x) + op2(x)).sum()] and [loss = op(x).sum()]. *)
Definition two_branches (op1 op2 : consumer) (x : ptr) : M ptr :=
  bind (consume op1 x) (λ c1,
  bind (consume op2 x) (λ c2,
  bind (add c1 c2) (λ a, sum a))).

Definition one_branch (op : consumer) (x : ptr) : M ptr :=
  bind (consume op x) (λ c, sum c).

(** Build the graph, call [backward] on its root, read [x->grad_]. *)
Definition grad_after_backward (m : M ptr) (x : ptr) (s : store) : option (list F) :=
  match m s with
  | (inr root, s') => s'' ← backward (S root) root s'; Some (grad_ (deref s'' x))
  | (inl _, _) => None
  end.

(** What the closure of [op] adds to [x->grad_[i]], from [x->data_[i]],
    [result->data_[i]] and [result->grad_[i]]. *)
Definition consumer_term (op : consumer) (xd rd rg : F) : F :=
  match op with
  | CScale c => fmul c rg
  | CPow e => fmul (fmul e (fpow xd (fsub e fone))) rg
  | CRelu => if flt fzero xd then rg else fzero
  | CSigmoid => fmul (fmul rd (fsub fone rd)) rg
  | CTanh => fmul (fsub fone (fmul rd rd)) rg
  end.

Definition consumer_fn (op : consumer) : F → F :=
  match op with
  | CScale c => λ x, fmul x c
  | CPow e => λ x, fpow x e
  | CRelu => λ x, if flt fzero x then x else fzero
  | CSigmoid => λ x, fdiv fone (fadd fone (fexp (fopp x)))
  | CTanh => ftanh
  end.

Definition consumer_closure (op : consumer) (x result : ptr) : Closure :=
  match op with
  | CScale c => BwMultiplyScalar x c result
  | CPow e => BwPow x e result
  | CRelu => BwRelu x result
  | CSigmoid => BwSigmoid x result
  | CTanh => BwTanh x result
  end.

Lemma consume_elementwise (op : consumer) (x : ptr) :
  consume op x = elementwise x (consumer_fn op) (consumer_closure op x).
Proof. by destruct op. Qed.

Lemma run_consumer_closure (op : consumer) (x c : ptr) (s : store) :
  run_closure (consumer_closure op x c) s =
  accumulate x (λ s i, consumer_term op (rdata s x i) (rdata s c i) (rgrad s c i)) s.
Proof. by destruct op. Qed.

(** What backward needs to know about one tensor of a graph. *)
Definition node (s : store) (p : ptr) (ins : list ptr) (bw : Closure)
    (n : N) (rg : bool) : Prop :=
  inputs_ (deref s p) = ins ∧ backward_fn_ (deref s p) = bw ∧
  size_ (deref s p) = n ∧ requires_grad_ (deref s p) = rg ∧
  length (grad_ (deref s p)) = (if rg then N.to_nat n else 0%nat).

Definition fresh_grad (s : store) (p : ptr) : Prop :=
  grad_ (deref s p) = replicate (length (grad_ (deref s p))) fzero.

Lemma node_same_graph (s s' : store) p ins bw n rg :
  same_graph s s' → node s p ins bw n rg → node s' p ins bw n rg.
Proof.
  intros Hsame (Hi & Hb & Hs & Hr & Hl). unfold node.
  destruct (same_graph_fields s s' p Hsame) as (_ & _ & -> & -> & -> & -> & ->).
  done.
Qed.

(** The tensors whose gradient a closure writes. *)
Definition closure_targets (c : Closure) : list ptr :=
  match c with
  | BwNoop => []
  | BwAdd this other _ | BwMultiply this other _ | BwMatmul this other _ _ _ _ =>
      [this; other]
  | BwMultiplyScalar this _ _ | BwPow this _ _ | BwSum this _ | BwRelu this _
  | BwSigmoid this _ | BwTanh this _ | BwReshape this _ => [this]
  end.

(** Every [backward_fn_] writes only into the [inputs_] of its tensor. *)
Definition closures_local (s : store) : Prop :=
  ∀ p, Forall (λ q, q ∈ inputs_ (deref s p))
              (closure_targets (backward_fn_ (deref s p))).

Lemma deref_grad_add_ne (p q : ptr) (i : nat) (d : F) (s : store) :
  q ≠ p → deref (grad_add p i d s) q = deref s q.
Proof. intros Hne. unfold grad_add. by apply deref_set_grad_ne. Qed.

Lemma deref_accumulate_ne (this q : ptr) (term : store → nat → F) (s : store) :
  q ≠ this → deref (accumulate this term s) q = deref s q.
Proof.
  intros Hne. unfold accumulate. destruct (requires_grad_ _); [|done].
  apply (for_invariant (λ s', deref s' q = deref s q)); [done|].
  intros i s' _ Hs'. by rewrite deref_grad_add_ne.
Qed.

(** A closure changes no tensor outside its targets. *)
Lemma run_closure_frame (c : Closure) (s : store) (q : ptr) :
  q ∉ closure_targets c → deref (run_closure c s) q = deref s q.
Proof.
  intros Hq.
  assert (Hloops : ∀ (s0 : store) (p : ptr) (a b : nat) idx
            (gs : nat → nat → store → F), q ≠ p →
    deref (for_ a (λ i s1, for_ b (λ j s2,
      grad_add p (idx i j) (gs i j s2) s2) s1) s0) q = deref s0 q).
  { intros s0 p a b idx gs Hne.
    apply (for_invariant (λ s', deref s' q = deref s0 q)); [done|].
    intros i s1 _ Hs1.
    apply (for_invariant (λ s', deref s' q = deref s0 q)); [done|].
    intros j s2 _ Hs2. by rewrite deref_grad_add_ne. }
  destruct c; simpl in *; try done;
    try (rewrite !deref_accumulate_ne; [done|set_solver..]).
  assert (q ≠ this ∧ q ≠ other) as [Hthis Hother].
  { split; intros ->; apply Hq; [left|right; left]. }
  match goal with |- deref (if _ then ?X else ?s1) q = _ =>
    assert (Hs1 : deref s1 q = deref s q)
  end.
  { destruct (requires_grad_ (deref s this)); [|done].
    by apply (Hloops s this _ _ (λ i j, index2 i k j)
      (λ i j s2, for_ (N.to_nat n) (λ l acc,
         fadd acc (fmul (rgrad s2 result (index2 i n l))
                        (rdata s2 other (index2 j n l)))) fzero)). }
  match goal with |- deref (if ?b then _ else _) q = _ => destruct b end;
    [|exact Hs1].
  rewrite <- Hs1.
  by apply (Hloops _ other _ _ (λ i j, index2 i n j)
    (λ i j s2, for_ (N.to_nat m) (λ l acc,
       fadd acc (fmul (rdata s2 this (index2 l k i))
                      (rgrad s2 result (index2 l n j)))) fzero)).
Qed.

(** Running the closures of tensors that are not above [x] leaves [x]
    itself untouched. *)
Lemma run_below_frame (s : store) (x : ptr) (l : list ptr) (s0 : store) :
  graph_ok s → closures_local s →
  Forall (λ p, (p ≤ x)%nat) l →
  deref (foldl (λ s' t, run_closure (backward_fn_ (deref s t)) s') s0 l) x =
  deref s0 x.
Proof.
  intros Hok Hlocal. revert s0.
  induction l as [|p l IH]; intros s0 Hl; simpl; [done|].
  apply Forall_cons in Hl as [Hp Hl]. rewrite IH by done.
  apply run_closure_frame. intros Hx.
  specialize (Hlocal p). rewrite Forall_forall in Hlocal.
  apply Hlocal in Hx. apply (graph_ok_input_lt s p x Hok) in Hx. lia.
Qed.

Lemma build_topo_step (fuel : nat) (s : store) (t : ptr) (visited : gset nat)
    (topo : list nat) :
  t ∉ visited →
  build_topo (S fuel) s t (visited, topo) =
    st' ← foldl (λ acc input, acc ≫= build_topo fuel s input)
                (Some ({[t]} ∪ visited, topo)) (inputs_ (deref s t));
    Some (st'.1, st'.2 ++ [t]).
Proof. intros Hnin. simpl. by destruct (decide (t ∈ visited)). Qed.

Lemma build_topo_visited (fuel : nat) (s : store) (t : ptr) (visited : gset nat)
    (topo : list nat) :
  t ∈ visited → build_topo (S fuel) s t (visited, topo) = Some (visited, topo).
Proof. intros Hin. simpl. by destruct (decide (t ∈ visited)). Qed.

(** The call of [build_topo] on [x] while the calls of the tensors in
    [stack], all above [x], are running. *)
Lemma build_topo_below (s : store) (x : ptr) (fuel : nat) (stack : gset nat) :
  graph_ok s → (x < fuel)%nat → (∀ y, y ∈ stack → (x < y)%nat) →
  ∃ new,
    build_topo fuel s x (stack, []) = Some (stack ∪ list_to_set new, new) ∧
    x ∈ new ∧ Forall (λ y, (y ≤ x)%nat) new.
Proof.
  intros Hok Hfuel Hstack.
  destruct (build_topo_spec s Hok fuel x stack stack [] Hfuel) as
    (new & Hrun & _ & _ & Hx & Hreach & _).
  - set_solver.
  - done.
  - constructor.
  - intros j y Hj. by rewrite lookup_nil in Hj.
  - exists new. split_and!; [done|done|].
    apply Forall_forall. intros y Hy. eapply reachable_le; [done|].
    by apply Hreach.
Qed.

(** The order of a diamond: [r] has input [a], [a] has inputs [c1] and [c2],
    both have [x] as input; [new] is the order below and including [x]. *)
Lemma build_topo_diamond (s : store) (x c1 c2 a r : ptr) (fuel : nat) :
  graph_ok s → NoDup [c1; c2; a; r] →
  (x < c1)%nat → (x < c2)%nat → (x < a)%nat → (x < r)%nat →
  inputs_ (deref s r) = [a] → inputs_ (deref s a) = [c1; c2] →
  inputs_ (deref s c1) = [x] → inputs_ (deref s c2) = [x] →
  (x + 3 < fuel)%nat →
  ∃ visited new,
    build_topo fuel s r (∅, []) = Some (visited, new ++ [c1; c2; a; r]) ∧
    Forall (λ y, (y ≤ x)%nat) new.
Proof.
  intros Hok Hnd Hx1 Hx2 Hx3 Hx4 Hr Ha Hc1 Hc2 Hfuel.
  destruct fuel as [|[|[|[|fuel]]]]; try lia.
  apply NoDup_cons in Hnd as [Hn1 Hnd]. apply NoDup_cons in Hnd as [Hn2 Hnd].
  apply NoDup_cons in Hnd as [Hn3 _].
  rewrite build_topo_step, Hr by set_solver.
  cbn [foldl mbind option_bind fst snd app].
  rewrite build_topo_step, Ha by set_solver.
  cbn [foldl mbind option_bind fst snd app].
  rewrite build_topo_step, Hc1 by set_solver.
  cbn [foldl mbind option_bind fst snd app].
  destruct (build_topo_below s x (S fuel) ({[c1]} ∪ ({[a]} ∪ ({[r]} ∪ ∅))) Hok)
    as (new & Hrun & Hin & Hle); [lia| |].
  { intros y Hy. set_unfold. naive_solver lia. }
  rewrite Hrun. cbn [foldl mbind option_bind fst snd app].
  assert (Hc2new : c2 ∉ new).
  { intros Hc2in. rewrite Forall_forall in Hle. apply Hle in Hc2in. lia. }
  rewrite build_topo_step, Hc2 by set_solver.
  cbn [foldl mbind option_bind fst snd app].
  rewrite build_topo_visited by set_solver.
  cbn [foldl mbind option_bind fst snd app].
  rewrite <- !app_assoc. simpl. eauto.
Qed.

(** The order of a chain [r -> c -> x]. *)
Lemma build_topo_chain3 (s : store) (x c r : ptr) (fuel : nat) :
  graph_ok s → c ≠ r → (x < c)%nat → (x < r)%nat →
  inputs_ (deref s r) = [c] → inputs_ (deref s c) = [x] →
  (x + 2 < fuel)%nat →
  ∃ visited new,
    build_topo fuel s r (∅, []) = Some (visited, new ++ [c; r]) ∧
    Forall (λ y, (y ≤ x)%nat) new.
Proof.
  intros Hok Hne Hx1 Hx2 Hr Hc Hfuel.
  destruct fuel as [|[|[|fuel]]]; try lia.
  rewrite build_topo_step, Hr by set_solver.
  cbn [foldl mbind option_bind fst snd app].
  rewrite build_topo_step, Hc by set_solver.
  cbn [foldl mbind option_bind fst snd app].
  destruct (build_topo_below s x (S fuel) ({[c]} ∪ ({[r]} ∪ ∅)) Hok)
    as (new & Hrun & Hin & Hle); [lia| |].
  { intros y Hy. set_unfold. naive_solver lia. }
  rewrite Hrun. cbn [foldl mbind option_bind fst snd app].
  rewrite <- !app_assoc. simpl. eauto.
Qed.

Lemma backward_run (s : store) (r : ptr) (fuel : nat) visited topo :
  build_topo fuel s r (∅, []) = Some (visited, topo) →
  backward fuel r s =
    Some (foldl (λ s' t, run_closure (backward_fn_ (deref s t)) s')
                (fill_grad r fone s) (reverse topo)).
Proof.
  intros Hrun. unfold backward. rewrite Hrun. simpl. f_equal.
  unfold run_reverse. apply run_reverse_closures, same_graph_fill_grad.
Qed.

Lemma rgrad_accumulate_node (s0 s : store) (this q : ptr) (term : store → nat → F)
    (j : nat) ins bw n :
  same_graph s0 s → node s0 this ins bw n true →
  (∀ i, ignores_grad_of this (λ s, term s i)) →
  (j < length (grad_ (deref s0 q)))%nat →
  rgrad (accumulate this term s) q j =
    if decide (q = this) then fadd (rgrad s this j) (term s j) else rgrad s q j.
Proof.
  intros Hsame Hnode Hterm Hj.
  destruct (node_same_graph _ _ _ _ _ _ _ Hsame Hnode) as (_ & _ & Hsz & Hrg & Hlen).
  destruct (same_graph_fields s0 s q Hsame) as (_ & _ & _ & _ & _ & _ & Hlq).
  rewrite rgrad_accumulate; [|done|by rewrite Hlen, Hsz|by rewrite Hlq].
  rewrite Hrg. destruct (decide (q = this)) as [->|Hne].
  - by destruct (decide (this = this ∧ true = true)) as [_|[]].
  - by destruct (decide (q = this ∧ true = true)) as [[? _]|_].
Qed.

Lemma rgrad_fresh (s : store) (p : ptr) (j : nat) :
  fresh_grad s p → rgrad s p j = fzero.
Proof.
  intros Hfresh. unfold rgrad, vget. rewrite Hfresh.
  destruct (decide (j < length (grad_ (deref s p)))%nat).
  - by rewrite lookup_replicate_2.
  - by rewrite lookup_ge_None_2 by (rewrite length_replicate; lia).
Qed.

(** One step of reading a gradient element back through an accumulation. *)
Ltac rg_step :=
  match goal with
  | |- context [rgrad (accumulate ?this ?term ?S) ?q ?j] =>
      erewrite (rgrad_accumulate_node _ S this q term j);
        [ | eassumption | eassumption
          | intros ? ? ?; by rewrite ?rdata_set_grad, ?rgrad_set_grad by done
          | done ];
      destruct (decide (q = this)); try done
  | |- context [rdata (accumulate ?this ?term ?S) ?q ?j] =>
      rewrite (rdata_same_graph S (accumulate this term S) q j)
        by apply same_graph_accumulate
  | |- context [rdata (fill_grad ?p ?v ?S) ?q ?j] =>
      rewrite (rdata_same_graph S (fill_grad p v S) q j)
        by apply same_graph_fill_grad
  | Hs := accumulate _ _ _ |- _ => progress unfold Hs
  | Hs := fill_grad _ _ _ |- _ => progress unfold Hs
  end.

(** [backward] from [r = a.sum()], [a = c1 + c2], [c1 = op1(x)],
    [c2 = op2(x)], the four of them created after [x]. *)
Lemma diamond_backward (s : store) (x c1 c2 a r : ptr) (op1 op2 : consumer)
    (n : N) (rg : bool) (fuel : nat) (xi : list ptr) (xb : Closure) :
  graph_ok s → closures_local s →
  NoDup [c1; c2; a; r] →
  (x < c1)%nat → (x < c2)%nat → (x < a)%nat → (x < r)%nat →
  node s r [a] (BwSum a r) 1 rg →
  node s a [c1; c2] (BwAdd c1 c2 a) n rg →
  node s c1 [x] (consumer_closure op1 x c1) n rg →
  node s c2 [x] (consumer_closure op2 x c2) n rg →
  node s x xi xb n rg →
  fresh_grad s a → fresh_grad s c1 → fresh_grad s c2 →
  (x + 3 < fuel)%nat →
  ∃ s',
    backward fuel r s = Some s' ∧
    grad_ (deref s' x) =
      imap (λ j g,
        let upstream := fadd fzero (fadd fzero fone) in
        fadd (fadd g (consumer_term op2 (rdata s x j) (rdata s c2 j) upstream))
             (consumer_term op1 (rdata s x j) (rdata s c1 j) upstream))
        (grad_ (deref s x)).
Proof.
  intros Hok Hlocal Hnd Hx1 Hx2 Hx3 Hx4 Nr Na Nc1 Nc2 Nx Fa Fc1 Fc2 Hfuel.
  destruct (build_topo_diamond s x c1 c2 a r fuel Hok Hnd) as
    (visited & new & Hrun & Hle);
    try (by destruct Nr as (? & _), Na as (? & _), Nc1 as (? & _),
                     Nc2 as (? & _)).
  rewrite (backward_run _ _ _ _ _ Hrun). eexists. split; [done|].
  assert (Hne : x ≠ c1 ∧ x ≠ c2 ∧ x ≠ a ∧ x ≠ r ∧ c1 ≠ c2 ∧ c1 ≠ a ∧ c1 ≠ r ∧
                c2 ≠ a ∧ c2 ≠ r ∧ a ≠ r).
  { apply NoDup_cons in Hnd as [Hn1 Hnd]. apply NoDup_cons in Hnd as [Hn2 Hnd].
    apply NoDup_cons in Hnd as [Hn3 _].
    split_and!; try lia; set_solver. }
  destruct Hne as (? & ? & ? & ? & ? & ? & ? & ? & ? & ?).
  rewrite reverse_app, foldl_app.
  rewrite run_below_frame by (by rewrite ?Forall_reverse).
  change (reverse [c1; c2; a; r]) with [r; a; c2; c1]. cbn [foldl].
  destruct Nr as (_ & Hbr & Hsr & Hrr & Hlr).
  pose proof Na as (_ & Hba & _). pose proof Nc1 as (_ & Hbc1 & _).
  pose proof Nc2 as (_ & Hbc2 & _). pose proof Nx as (_ & _ & _ & _ & Hlx).
  rewrite Hbr, Hba, Hbc1, Hbc2. cbn [run_closure].
  rewrite !run_consumer_closure.
  set (s0 := fill_grad r fone s).
  set (s1 := accumulate a _ s0).
  set (s2 := accumulate c1 _ s1).
  set (s3 := accumulate c2 _ s2).
  set (s4 := accumulate x _ s3).
  assert (Hs0 : same_graph s s0) by apply same_graph_fill_grad.
  assert (Hs1 : same_graph s s1)
    by (eapply same_graph_trans; [exact Hs0|apply same_graph_accumulate]).
  assert (Hs2 : same_graph s s2)
    by (eapply same_graph_trans; [exact Hs1|apply same_graph_accumulate]).
  assert (Hs3 : same_graph s s3)
    by (eapply same_graph_trans; [exact Hs2|apply same_graph_accumulate]).
  assert (Hs4 : same_graph s s4)
    by (eapply same_graph_trans; [exact Hs3|apply same_graph_accumulate]).
  apply vget_ext.
  { rewrite length_imap.
    assert (Hs5 : same_graph s (accumulate x
      (λ s i, consumer_term op1 (rdata s x i) (rdata s c1 i) (rgrad s c1 i)) s4))
      by (eapply same_graph_trans; [exact Hs4|apply same_graph_accumulate]).
    by destruct (same_graph_fields _ _ x Hs5) as (_ & _ & _ & _ & _ & _ & ->). }
  intros j Hj.
  assert (Hjx : (j < length (grad_ (deref s x)))%nat).
  { assert (Hs5 : same_graph s (accumulate x
      (λ s i, consumer_term op1 (rdata s x i) (rdata s c1 i) (rgrad s c1 i)) s4))
      by (eapply same_graph_trans; [exact Hs4|apply same_graph_accumulate]).
    by destruct (same_graph_fields _ _ x Hs5) as (_ & _ & _ & _ & _ & _ & <-). }
  clear Hj. rewrite vget_imap by done.
  destruct rg; [|rewrite Hlx in Hjx; lia].
  assert (Hjn : (j < N.to_nat n)%nat) by (by rewrite Hlx in Hjx).
  assert (Hja : (j < length (grad_ (deref s a)))%nat)
    by (destruct Na as (_ & _ & _ & _ & ->); done).
  assert (Hjc1 : (j < length (grad_ (deref s c1)))%nat)
    by (destruct Nc1 as (_ & _ & _ & _ & ->); done).
  assert (Hjc2 : (j < length (grad_ (deref s c2)))%nat)
    by (destruct Nc2 as (_ & _ & _ & _ & ->); done).
  change (vget (grad_ (deref ?S x)) j) with (rgrad S x j).
  repeat rg_step.
  rewrite !rgrad_fill_grad.
  repeat match goal with
         | |- context [decide (?p = ?q ∧ ?P)] =>
             destruct (decide (p = q ∧ P)) as [[? ?]|?]; try done
         end.
  - by rewrite (rgrad_fresh s a), (rgrad_fresh s c1), (rgrad_fresh s c2) by done.
  - exfalso. match goal with Hn : ¬ (r = r ∧ _) |- _ => apply Hn end.
    split; [done|]. rewrite Hlr. simpl. lia.
Qed.

Lemma build_topo_chain2 (s : store) (x r : ptr) (fuel : nat) :
  graph_ok s → (x < r)%nat →
  inputs_ (deref s r) = [x] →
  (x + 1 < fuel)%nat →
  ∃ visited new,
    build_topo fuel s r (∅, []) = Some (visited, new ++ [r]) ∧
    Forall (λ y, (y ≤ x)%nat) new.
Proof.
  intros Hok Hx Hr Hfuel.
  destruct fuel as [|[|fuel]]; try lia.
  rewrite build_topo_step, Hr by set_solver.
  cbn [foldl mbind option_bind fst snd app].
  destruct (build_topo_below s x (S fuel) ({[r]} ∪ ∅) Hok)
    as (new & Hrun & Hin & Hle); [lia| |].
  { intros y Hy. set_unfold. naive_solver lia. }
  rewrite Hrun. cbn [foldl mbind option_bind fst snd app]. eauto.
Qed.


(** [backward] from [r = c.sum()], [c = op(x)], both created after [x]. *)
Lemma branch_backward (s : store) (x c r : ptr) (op : consumer)
    (n : N) (rg : bool) (fuel : nat) (xi : list ptr) (xb : Closure) :
  graph_ok s → closures_local s →
  c ≠ r → (x < c)%nat → (x < r)%nat →
  node s r [c] (BwSum c r) 1 rg →
  node s c [x] (consumer_closure op x c) n rg →
  node s x xi xb n rg →
  fresh_grad s c →
  (x + 2 < fuel)%nat →
  ∃ s',
    backward fuel r s = Some s' ∧
    grad_ (deref s' x) =
      imap (λ j g,
        fadd g (consumer_term op (rdata s x j) (rdata s c j) (fadd fzero fone)))
        (grad_ (deref s x)).
Proof.
  intros Hok Hlocal Hcr Hx1 Hx2 Nr Nc Nx Fc Hfuel.
  destruct (build_topo_chain3 s x c r fuel Hok Hcr) as
    (visited & new & Hrun & Hle);
    try (by destruct Nr as (? & _), Nc as (? & _)).
  rewrite (backward_run _ _ _ _ _ Hrun). eexists. split; [done|].
  assert (Hne : x ≠ c ∧ x ≠ r) by lia.
  destruct Hne as (? & ?).
  rewrite reverse_app, foldl_app.
  rewrite run_below_frame by (by rewrite ?Forall_reverse).
  change (reverse [c; r]) with [r; c]. cbn [foldl].
  destruct Nr as (_ & Hbr & Hsr & Hrr & Hlr).
  pose proof Nc as (_ & Hbc & _ & _ & Hlc).
  pose proof Nx as (_ & _ & _ & _ & Hlx).
  rewrite Hbr, Hbc. cbn [run_closure]. rewrite !run_consumer_closure.
  set (s0 := fill_grad r fone s).
  set (s1 := accumulate c _ s0).
  assert (Hs0 : same_graph s s0) by apply same_graph_fill_grad.
  assert (Hs1 : same_graph s s1)
    by (eapply same_graph_trans; [exact Hs0|apply same_graph_accumulate]).
  assert (Hs2 : same_graph s (accumulate x
    (λ s i, consumer_term op (rdata s x i) (rdata s c i) (rgrad s c i)) s1))
    by (eapply same_graph_trans; [exact Hs1|apply same_graph_accumulate]).
  apply vget_ext.
  { rewrite length_imap.
    by destruct (same_graph_fields _ _ x Hs2) as (_ & _ & _ & _ & _ & _ & ->). }
  intros j Hj.
  assert (Hjx : (j < length (grad_ (deref s x)))%nat)
    by (by destruct (same_graph_fields _ _ x Hs2) as (_ & _ & _ & _ & _ & _ & <-)).
  clear Hj. rewrite vget_imap by done.
  destruct rg; [|rewrite Hlx in Hjx; lia].
  assert (Hjc : (j < length (grad_ (deref s c)))%nat)
    by (rewrite Hlc; by rewrite Hlx in Hjx).
  change (vget (grad_ (deref ?S x)) j) with (rgrad S x j).
  repeat rg_step.
  rewrite !rgrad_fill_grad.
  repeat match goal with
         | |- context [decide (?p = ?q ∧ ?P)] =>
             destruct (decide (p = q ∧ P)) as [[? ?]|?]; try done
         end.
  - by rewrite (rgrad_fresh s c) by done.
  - exfalso. match goal with Hn : ¬ (r = r ∧ _) |- _ => apply Hn end.
    split; [done|]. rewrite Hlr. simpl. lia.
Qed.

(** [backward] from [r = x.sum()], created after [x]. *)
Lemma sum_backward (s : store) (x r : ptr) (n : N) (rg : bool) (fuel : nat)
    (xi : list ptr) (xb : Closure) :
  graph_ok s → closures_local s →
  (x < r)%nat →
  node s r [x] (BwSum x r) 1 rg →
  node s x xi xb n rg →
  (x + 1 < fuel)%nat →
  ∃ s',
    backward fuel r s = Some s' ∧
    grad_ (deref s' x) = imap (λ j g, fadd g fone) (grad_ (deref s x)).
Proof.
  intros Hok Hlocal Hx Nr Nx Hfuel.
  destruct (build_topo_chain2 s x r fuel Hok Hx) as
    (visited & new & Hrun & Hle);
    try (by destruct Nr as (? & _)).
  rewrite (backward_run _ _ _ _ _ Hrun). eexists. split; [done|].
  assert (Hne : x ≠ r) by lia.
  rewrite reverse_app, foldl_app.
  rewrite run_below_frame by (by rewrite ?Forall_reverse).
  change (reverse [r]) with [r]. cbn [foldl].
  destruct Nr as (_ & Hbr & Hsr & Hrr & Hlr).
  pose proof Nx as (_ & _ & _ & _ & Hlx).
  rewrite Hbr. cbn [run_closure].
  set (s0 := fill_grad r fone s).
  assert (Hs0 : same_graph s s0) by apply same_graph_fill_grad.
  assert (Hs1 : same_graph s (accumulate x (λ s _, rgrad s r 0) s0))
    by (eapply same_graph_trans; [exact Hs0|apply same_graph_accumulate]).
  apply vget_ext.
  { rewrite length_imap.
    by destruct (same_graph_fields _ _ x Hs1) as (_ & _ & _ & _ & _ & _ & ->). }
  intros j Hj.
  assert (Hjx : (j < length (grad_ (deref s x)))%nat)
    by (by destruct (same_graph_fields _ _ x Hs1) as (_ & _ & _ & _ & _ & _ & <-)).
  clear Hj. rewrite vget_imap by done.
  destruct rg; [|rewrite Hlx in Hjx; lia].
  change (vget (grad_ (deref ?S x)) j) with (rgrad S x j).
  repeat rg_step.
  rewrite !rgrad_fill_grad.
  repeat match goal with
         | |- context [decide (?p = ?q ∧ ?P)] =>
             destruct (decide (p = q ∧ P)) as [[? ?]|?]; try done
         end.
  exfalso. match goal with Hn : ¬ (r = r ∧ _) |- _ => apply Hn end.
  split; [done|]. rewrite Hlr. simpl. lia.
Qed.


(** ** The nodes that the operations create *)

Lemma node_snoc (s : store) (t : Tensor) p ins bw n rg :
  (p < length s)%nat → node s p ins bw n rg → node (s ++ [t]) p ins bw n rg.
Proof. intros Hp. unfold node. by rewrite deref_snoc_lt. Qed.

Lemma fresh_grad_snoc (s : store) (t : Tensor) (p : ptr) :
  (p < length s)%nat → fresh_grad s p → fresh_grad (s ++ [t]) p.
Proof. intros Hp. unfold fresh_grad. by rewrite deref_snoc_lt. Qed.

Lemma rdata_snoc (s : store) (t : Tensor) (p : ptr) (j : nat) :
  (p < length s)%nat → rdata (s ++ [t]) p j = rdata s p j.
Proof. intros Hp. unfold rdata. by rewrite deref_snoc_lt. Qed.

Lemma node_new (s : store) (t : Tensor) :
  tensor_ok t →
  node (s ++ [t]) (length s) (inputs_ t) (backward_fn_ t) (size_ t) (requires_grad_ t).
Proof.
  intros (_ & _ & Hg). unfold node. rewrite deref_snoc.
  split_and!; done.
Qed.

Lemma fresh_grad_new (s : store) (t : Tensor) :
  grad_ t = replicate (length (grad_ t)) fzero → fresh_grad (s ++ [t]) (length s).
Proof. intros Hg. unfold fresh_grad. by rewrite deref_snoc. Qed.

Lemma Tensor_of_shape_fresh (shape : Shape) (rg : bool) :
  grad_ (Tensor_of_shape shape rg) =
  replicate (length (grad_ (Tensor_of_shape shape rg))) fzero.
Proof. destruct rg; simpl; [|done]. by rewrite length_replicate. Qed.

(** The data that [elementwise] computes from the operand [t]. *)
Definition elementwise_data (f : F → F) (t : Tensor) : list F :=
  for_ (N.to_nat (size_ t)) (λ i d, vset d i (f (vget (data_ t) i)))
       (replicate (N.to_nat (compute_size (shape_ t))) fzero).

Lemma elementwise_run (this : ptr) (f : F → F) (bw : ptr → Closure) (s : store) :
  tensor_ok (deref s this) →
  ∃ t,
    elementwise this f bw s = (inr (length s), s ++ [t]) ∧
    tensor_ok t ∧ inputs_ t = [this] ∧ backward_fn_ t = bw (length s) ∧
    size_ t = size_ (deref s this) ∧ shape_ t = shape_ (deref s this) ∧
    requires_grad_ t = requires_grad_ (deref s this) ∧
    data_ t = elementwise_data f (deref s this) ∧
    grad_ t = replicate (length (grad_ t)) fzero.
Proof.
  intros Hok. eexists. split; [reflexivity|]. split_and!; try done.
  - apply tensor_ok_set_graph, tensor_ok_set_data; [apply Tensor_of_shape_ok|].
    apply (length_for_vset _ (λ i _, f (vget (data_ (deref s this)) i))).
  - simpl. by destruct Hok as (-> & _).
  - apply Tensor_of_shape_fresh.
Qed.

Lemma shapes_compatible_refl (shape : Shape) : shapes_compatible shape shape = true.
Proof. by apply shapes_compatible_eq. Qed.

Lemma add_run (this other : ptr) (s : store) :
  tensor_ok (deref s this) →
  shape_ (deref s other) = shape_ (deref s this) →
  ∃ t,
    add this other s = (inr (length s), s ++ [t]) ∧
    tensor_ok t ∧ inputs_ t = [this; other] ∧
    backward_fn_ t = BwAdd this other (length s) ∧
    size_ t = size_ (deref s this) ∧ shape_ t = shape_ (deref s this) ∧
    requires_grad_ t =
      requires_grad_ (deref s this) || requires_grad_ (deref s other) ∧
    grad_ t = replicate (length (grad_ t)) fzero.
Proof.
  intros Hok Hshape. unfold add. rewrite Hshape, shapes_compatible_refl. simpl.
  eexists. split; [reflexivity|]. split_and!; try done.
  - apply tensor_ok_set_graph, tensor_ok_set_data; [apply Tensor_of_shape_ok|].
    apply (length_for_vset _ (λ i _,
      fadd (vget (data_ (deref s this)) i) (vget (data_ (deref s other)) i))).
  - simpl. by destruct Hok as (-> & _).
  - apply Tensor_of_shape_fresh.
Qed.

Lemma sum_run (this : ptr) (s : store) :
  ∃ t,
    sum this s = (inr (length s), s ++ [t]) ∧
    tensor_ok t ∧ inputs_ t = [this] ∧ backward_fn_ t = BwSum this (length s) ∧
    size_ t = 1 ∧ shape_ t = [1] ∧
    requires_grad_ t = requires_grad_ (deref s this) ∧
    data_ t = [fold_left fadd (data_ (deref s this)) fzero] ∧
    grad_ t = replicate (length (grad_ t)) fzero.
Proof.
  eexists. split; [reflexivity|]. split_and!; try done.
  - by apply tensor_ok_set_graph, tensor_ok_set_data; [apply Tensor_of_shape_ok|].
  - apply Tensor_of_shape_fresh.
Qed.

Lemma reshape_run (this : ptr) (new_shape : Shape) (s : store) :
  tensor_ok (deref s this) →
  compute_size new_shape = size_ (deref s this) →
  ∃ t,
    reshape this new_shape s = (inr (length s), s ++ [t]) ∧
    tensor_ok t ∧ inputs_ t = [this] ∧ backward_fn_ t = BwReshape this (length s) ∧
    size_ t = size_ (deref s this) ∧ shape_ t = new_shape ∧
    requires_grad_ t = requires_grad_ (deref s this) ∧
    data_ t = data_ (deref s this) ∧
    grad_ t = replicate (length (grad_ t)) fzero.
Proof.
  intros (Hsz & Hdata & Hgrad) Hsize. unfold reshape, Tensor_of_data.
  rewrite Hsize, N.eqb_refl. simpl.
  rewrite Hdata, N2Nat.id, N.eqb_refl. simpl.
  eexists. split; [reflexivity|]. split_and!; try done.
  - unfold tensor_ok. simpl. split_and!; [done|done|].
    destruct (requires_grad_ _); simpl; by rewrite ?length_replicate.
  - simpl. destruct (requires_grad_ _); simpl; by rewrite ?length_replicate.
Qed.

Lemma node_of_new (s : store) (t : Tensor) ins bw n rg :
  tensor_ok t → inputs_ t = ins → backward_fn_ t = bw → size_ t = n →
  requires_grad_ t = rg → node (s ++ [t]) (length s) ins bw n rg.
Proof. intros Hok <- <- <- <-. by apply node_new. Qed.

Lemma length_snoc (s : store) (t : Tensor) : length (s ++ [t]) = S (length s).
Proof. rewrite length_app. simpl. lia. Qed.

Definition graph_okb (s : store) : bool :=
  forallb (λ pt : nat * Tensor, forallb (λ i, Nat.ltb i pt.1) (inputs_ pt.2))
          (imap pair s).

Lemma graph_okb_correct (s : store) : graph_okb s = true → graph_ok s.
Proof.
  unfold graph_okb. rewrite forallb_forall. intros Hall p.
  destruct (s !! p) as [t|] eqn:Hp.
  - rewrite (deref_lookup _ _ _ Hp).
    specialize (Hall (p, t)). simpl in Hall.
    rewrite forallb_forall in Hall. apply Forall_forall. intros i Hi.
    apply Nat.ltb_lt, Hall.
    + apply list_elem_of_In, list_elem_of_lookup. exists p.
      by rewrite list_lookup_imap, Hp.
    + by apply list_elem_of_In.
  - rewrite deref_invalid by (by apply lookup_ge_None). constructor.
Qed.

Definition closures_localb (s : store) : bool :=
  forallb (λ t, forallb (λ q, existsb (Nat.eqb q) (inputs_ t))
                        (closure_targets (backward_fn_ t))) s.

Lemma closures_localb_correct (s : store) :
  closures_localb s = true → closures_local s.
Proof.
  unfold closures_localb. rewrite forallb_forall. intros Hall p.
  destruct (s !! p) as [t|] eqn:Hp.
  - rewrite (deref_lookup _ _ _ Hp).
    specialize (Hall t). rewrite forallb_forall in Hall.
    apply Forall_forall. intros q Hq.
    assert (Hex : existsb (Nat.eqb q) (inputs_ t) = true).
    { apply Hall.
      - apply list_elem_of_In, list_elem_of_lookup. by exists p.
      - by apply list_elem_of_In. }
    apply existsb_exists in Hex as (i & Hi & Heq).
    apply Nat.eqb_eq in Heq as ->. by apply list_elem_of_In.
  - rewrite deref_invalid by (by apply lookup_ge_None). constructor.
Qed.

Lemma graph_ok_snoc (s : store) (t : Tensor) :
  graph_ok s → Forall (λ i, (i < length s)%nat) (inputs_ t) → graph_ok (s ++ [t]).
Proof.
  intros Hok Ht p. destruct (decide (p < length s)%nat) as [Hlt|Hge].
  - rewrite deref_snoc_lt by done. apply Hok.
  - destruct (decide (p = length s)) as [->|Hne].
    + by rewrite deref_snoc.
    + rewrite deref_invalid by (rewrite length_snoc; lia). constructor.
Qed.

Lemma node_any (s : store) (x : ptr) :
  tensor_ok (deref s x) →
  node s x (inputs_ (deref s x)) (backward_fn_ (deref s x))
    (size_ (deref s x)) (requires_grad_ (deref s x)).
Proof. intros (_ & _ & Hg). unfold node. by split_and!. Qed.

Lemma closures_local_snoc (s : store) (t : Tensor) :
  closures_local s →
  Forall (λ q, q ∈ inputs_ t) (closure_targets (backward_fn_ t)) →
  closures_local (s ++ [t]).
Proof.
  intros Hlocal Ht p. destruct (decide (p < length s)%nat) as [Hlt|Hge].
  - rewrite deref_snoc_lt by done. apply Hlocal.
  - destruct (decide (p = length s)) as [->|Hne].
    + by rewrite deref_snoc.
    + rewrite deref_invalid by (rewrite length_app; simpl; lia). constructor.
Qed.

Lemma closure_targets_consumer (op : consumer) (x c : ptr) :
  closure_targets (consumer_closure op x c) = [x].
Proof. by destruct op. Qed.

(** A store stays well formed when an operation appends its result. *)
Lemma store_snoc (s : store) (t : Tensor) :
  graph_ok s ∧ closures_local s →
  Forall (λ i, (i < length s)%nat) (inputs_ t) →
  closure_targets (backward_fn_ t) = inputs_ t →
  graph_ok (s ++ [t]) ∧ closures_local (s ++ [t]).
Proof.
  intros [Hok Hlocal] Hin Htargets. split.
  - by apply graph_ok_snoc.
  - apply closures_local_snoc; [done|]. rewrite Htargets.
    by apply Forall_forall.
Qed.

(** The gradient of [x] after [backward] from [op(x).sum()]. *)
Lemma one_branch_grad (s : store) (x : ptr) (op : consumer) :
  graph_ok s → closures_local s →
  (x < length s)%nat → tensor_ok (deref s x) →
  grad_after_backward (one_branch op x) x s =
    Some (imap (λ j g,
            fadd g (consumer_term op (rdata s x j)
                      (vget (elementwise_data (consumer_fn op) (deref s x)) j)
                      (fadd fzero fone)))
            (grad_ (deref s x))).
Proof.
  intros Hgraph Hlocal Hx Hok. unfold grad_after_backward, one_branch, bind.
  rewrite consume_elementwise.
  destruct (elementwise_run x (consumer_fn op) (consumer_closure op x) s Hok) as
    (C & -> & HokC & HiC & HbC & HsC & _ & HrC & HdC & HgC).
  destruct (sum_run (length s) (s ++ [C])) as
    (R & -> & HokR & HiR & HbR & HsR & _ & HrR & _ & HgR).
  rewrite deref_snoc in HrR.
  assert (HwfC : graph_ok (s ++ [C]) ∧ closures_local (s ++ [C])).
  { apply store_snoc; [done| |].
    - rewrite HiC. by repeat constructor.
    - by rewrite HbC, HiC, closure_targets_consumer. }
  assert (HwfR : graph_ok ((s ++ [C]) ++ [R]) ∧ closures_local ((s ++ [C]) ++ [R])).
  { apply store_snoc; [done| |].
    - rewrite HiR, length_snoc. repeat constructor; lia.
    - by rewrite HbR, HiR. }
  destruct HwfR as [HgraphR HlocalR].
  destruct (branch_backward ((s ++ [C]) ++ [R]) x (length s) (length (s ++ [C])) op
              (size_ (deref s x)) (requires_grad_ (deref s x))
              (S (length (s ++ [C]))) (inputs_ (deref s x))
              (backward_fn_ (deref s x)) HgraphR HlocalR) as (s' & -> & Hg).
  - rewrite length_snoc. lia.
  - lia.
  - rewrite length_snoc. lia.
  - apply node_of_new; try done. congruence.
  - apply node_snoc; [rewrite length_snoc; lia|]. by apply node_of_new.
  - apply node_snoc; [rewrite length_snoc; lia|]. apply node_snoc; [lia|].
    by apply node_any.
  - apply fresh_grad_snoc; [rewrite length_snoc; lia|]. by apply fresh_grad_new.
  - rewrite length_snoc. lia.
  - simpl. f_equal. rewrite Hg.
    rewrite !deref_snoc_lt by (rewrite ?length_snoc; lia).
    apply imap_ext. intros j g _. simpl.
    rewrite !rdata_snoc by (rewrite ?length_snoc; lia).
    f_equal. f_equal. unfold rdata. by rewrite deref_snoc, HdC.
Qed.

(** The gradient of [x] after [backward] from [(op1(x) + op2(x)).sum()]. *)
Lemma two_branches_grad (s : store) (x : ptr) (op1 op2 : consumer) :
  graph_ok s → closures_local s →
  (x < length s)%nat → tensor_ok (deref s x) →
  grad_after_backward (two_branches op1 op2 x) x s =
    Some (imap (λ j g,
            let upstream := fadd fzero (fadd fzero fone) in
            fadd (fadd g (consumer_term op2 (rdata s x j)
                            (vget (elementwise_data (consumer_fn op2) (deref s x)) j)
                            upstream))
                 (consumer_term op1 (rdata s x j)
                    (vget (elementwise_data (consumer_fn op1) (deref s x)) j)
                    upstream))
            (grad_ (deref s x))).
Proof.
  intros Hgraph Hlocal Hx Hok. unfold grad_after_backward, two_branches, bind.
  rewrite !consume_elementwise.
  destruct (elementwise_run x (consumer_fn op1) (consumer_closure op1 x) s Hok) as
    (C1 & -> & HokC1 & HiC1 & HbC1 & HsC1 & HshC1 & HrC1 & HdC1 & HgC1).
  set (s1 := s ++ [C1]).
  assert (Hx1 : deref s1 x = deref s x) by (by apply deref_snoc_lt).
  destruct (elementwise_run x (consumer_fn op2) (consumer_closure op2 x) s1) as
    (C2 & -> & HokC2 & HiC2 & HbC2 & HsC2 & HshC2 & HrC2 & HdC2 & HgC2);
    [by rewrite Hx1|].
  rewrite Hx1 in *.
  set (s2 := s1 ++ [C2]).
  assert (Hc1 : deref s2 (length s) = C1).
  { unfold s2. rewrite deref_snoc_lt by (unfold s1; rewrite length_snoc; lia).
    apply deref_snoc. }
  assert (Hc2 : deref s2 (length s1) = C2) by apply deref_snoc.
  destruct (add_run (length s) (length s1) s2) as
    (A & -> & HokA & HiA & HbA & HsA & HshA & HrA & HgA).
  { by rewrite Hc1. }
  { rewrite Hc1, Hc2. congruence. }
  rewrite Hc1, Hc2 in *.
  set (s3 := s2 ++ [A]).
  destruct (sum_run (length s2) s3) as
    (R & -> & HokR & HiR & HbR & HsR & _ & HrR & _ & HgR).
  unfold s3 in HrR. rewrite deref_snoc in HrR.
  assert (Hl1 : length s1 = S (length s)) by apply length_snoc.
  assert (Hl2 : length s2 = S (S (length s))) by (unfold s2; by rewrite length_snoc, Hl1).
  assert (Hl3 : length s3 = S (S (S (length s))))
    by (unfold s3; by rewrite length_snoc, Hl2).
  assert (Hrg : requires_grad_ A = requires_grad_ (deref s x))
    by (rewrite HrA, HrC1, HrC2; apply orb_diag).
  assert (Hwf1 : graph_ok s1 ∧ closures_local s1).
  { apply store_snoc; [done| |].
    - rewrite HiC1. by repeat constructor.
    - by rewrite HbC1, HiC1, closure_targets_consumer. }
  assert (Hwf2 : graph_ok s2 ∧ closures_local s2).
  { apply store_snoc; [done| |].
    - rewrite HiC2. repeat constructor; lia.
    - by rewrite HbC2, HiC2, closure_targets_consumer. }
  assert (Hwf3 : graph_ok s3 ∧ closures_local s3).
  { apply store_snoc; [done| |].
    - rewrite HiA. repeat constructor; lia.
    - by rewrite HbA, HiA. }
  assert (HwfR : graph_ok (s3 ++ [R]) ∧ closures_local (s3 ++ [R])).
  { apply store_snoc; [done| |].
    - rewrite HiR. repeat constructor; lia.
    - by rewrite HbR, HiR. }
  destruct HwfR as [HgraphR HlocalR].
  destruct (diamond_backward (s3 ++ [R]) x (length s) (length s1) (length s2)
              (length s3) op1 op2 (size_ (deref s x)) (requires_grad_ (deref s x))
              (S (length s3)) (inputs_ (deref s x)) (backward_fn_ (deref s x))
              HgraphR HlocalR) as (s' & -> & Hg).
  - rewrite Hl1, Hl2, Hl3. repeat constructor; set_solver by lia.
  - lia.
  - lia.
  - lia.
  - lia.
  - apply node_of_new; try done. congruence.
  - apply node_snoc; [lia|]. apply node_of_new; try done; congruence.
  - apply node_snoc; [lia|]. apply node_snoc; [unfold s2; rewrite length_snoc; lia|].
    apply node_snoc; [unfold s1; rewrite length_snoc; lia|].
    by apply node_of_new.
  - apply node_snoc; [lia|]. apply node_snoc; [unfold s2; rewrite length_snoc; lia|].
    apply node_of_new; try done; congruence.
  - apply node_snoc; [lia|]. apply node_snoc; [lia|]. apply node_snoc; [lia|].
    apply node_snoc; [lia|]. by apply node_any.
  - apply fresh_grad_snoc; [lia|]. by apply fresh_grad_new.
  - apply fresh_grad_snoc; [lia|]. apply fresh_grad_snoc; [lia|].
    apply fresh_grad_snoc; [lia|]. by apply fresh_grad_new.
  - apply fresh_grad_snoc; [lia|]. apply fresh_grad_snoc; [lia|].
    by apply fresh_grad_new.
  - lia.
  - simpl. f_equal. rewrite Hg.
    assert (Hxf : deref (s3 ++ [R]) x = deref s x).
    { rewrite deref_snoc_lt by lia. unfold s3. rewrite deref_snoc_lt by lia.
      unfold s2. by rewrite deref_snoc_lt by lia. }
    rewrite Hxf. apply imap_ext. intros j g _. simpl. unfold rdata.
    rewrite Hxf.
    assert (Hc1f : deref (s3 ++ [R]) (length s) = C1).
    { rewrite deref_snoc_lt by lia. unfold s3. by rewrite deref_snoc_lt by lia. }
    assert (Hc2f : deref (s3 ++ [R]) (length s1) = C2).
    { rewrite deref_snoc_lt by lia. unfold s3. by rewrite deref_snoc_lt by lia. }
    by rewrite Hc1f, Hc2f, HdC1, HdC2.
Qed.

Lemma zip_with_imap (f1 f2 : nat → F → F) (g : list F) :
  zip_with fadd (imap f1 g) (imap f2 g) = imap (λ j x, fadd (f1 j x) (f2 j x)) g.
Proof.
  apply list_eq. intros j. rewrite lookup_zip_with, !list_lookup_imap.
  by destruct (g !! j).
Qed.

(** ** Reshape there and back *)



(** ** Matrix multiplication *)


Lemma for_ext_lt {S : Type} (n : nat) (body body' : nat → S → S) (s : S) :
  (∀ i s, (i < n)%nat → body i s = body' i s) → for_ n body s = for_ n body' s.
Proof.
  intros Hb. induction n as [|n IH]; simpl; [done|].
  rewrite IH by (intros; apply Hb; lia). apply Hb. lia.
Qed.

Lemma index2_small (i j : nat) (stride : N) :
  N.of_nat i * stride + N.of_nat j < size_t_modulus →
  index2 i stride j = (i * N.to_nat stride + j)%nat.
Proof.
  intros Hlt. unfold index2, wrap.
  rewrite (N.mod_small (N.of_nat i * stride)) by lia.
  rewrite N.mod_small by done. lia.
Qed.





Lemma compute_size_2 (m n : N) :
  m * n < size_t_modulus → compute_size [m; n] = m * n.
Proof.
  intros Hlt. rewrite compute_size_no_overflow; simpl; lia.
Qed.








(** ** The optimizer steps *)

(** *** Loops that update a vector element by element *)

(** The vector after the first [n] iterations of a loop that replaces
    element [i] by [f i] of it. *)
Definition updated (n : nat) (f : nat → F → F) (l : list F) : list F :=
  imap (λ i x, if decide (i < n)%nat then f i x else x) l.

Lemma updated_all (f : nat → F → F) (l : list F) :
  updated (length l) f l = imap f l.
Proof.
  unfold updated. apply list_eq. intros i. rewrite !list_lookup_imap.
  destruct (l !! i) eqn:Hi; simpl; [|done].
  apply lookup_lt_Some in Hi. by destruct (decide (i < length l)%nat); [|lia].
Qed.

Lemma length_updated (n : nat) (f : nat → F → F) (l : list F) :
  length (updated n f l) = length l.
Proof. apply length_imap. Qed.

Lemma vget_updated (n : nat) (f : nat → F → F) (l : list F) (i : nat) :
  (i < length l)%nat →
  vget (updated n f l) i = if decide (i < n)%nat then f i (vget l i) else vget l i.
Proof.
  intros Hi. unfold updated. rewrite vget_imap by done. done.
Qed.

Lemma vget_updated_next (n : nat) (f : nat → F → F) (l : list F) :
  vget (updated n f l) n = vget l n.
Proof.
  unfold updated, vget. rewrite list_lookup_imap.
  destruct (l !! n); simpl; [|done]. by destruct (decide (n < n)%nat); [lia|].
Qed.

Lemma vset_updated (n : nat) (f : nat → F → F) (l : list F) :
  vset (updated n f l) n (f n (vget l n)) = updated (S n) f l.
Proof.
  unfold vset, updated, vget. apply list_eq. intros i.
  destruct (decide (i = n)) as [->|Hne].
  - destruct (l !! n) as [x|] eqn:Hn.
    + rewrite list_lookup_insert_eq
        by (rewrite length_imap; by eapply lookup_lt_Some).
      rewrite list_lookup_imap, Hn. simpl.
      by destruct (decide (n < S n)%nat); [|lia].
    + rewrite list_insert_ge
        by (rewrite length_imap; by apply lookup_ge_None).
      rewrite !list_lookup_imap, Hn. done.
  - rewrite list_lookup_insert_ne by done. rewrite !list_lookup_imap.
    destruct (l !! i); simpl; [|done].
    destruct (decide (i < n)%nat), (decide (i < S n)%nat); try done; lia.
Qed.

Lemma updated_0 (f : nat → F → F) (l : list F) : updated 0 f l = l.
Proof.
  unfold updated. apply list_eq. intros i. rewrite list_lookup_imap.
  by destruct (l !! i).
Qed.

Lemma for_S {S : Type} (n : nat) (body : nat → S → S) (s : S) :
  for_ (Datatypes.S n) body s = body n (for_ n body s).
Proof. done. Qed.

(** The loop of plain SGD. *)
Lemma sgd_plain_loop (n : nat) (lr : F) (grad data : list F) :
  for_ n (λ i data, vset data i (fsub (vget data i) (fmul lr (vget grad i)))) data =
  updated n (λ i d, fsub d (fmul lr (vget grad i))) data.
Proof.
  induction n as [|n IH]; simpl; [by rewrite updated_0|].
  rewrite IH, vget_updated_next.
  apply (vset_updated n (λ i d, fsub d (fmul lr (vget grad i)))).
Qed.

(** The loop of SGD with momentum. *)
Lemma sgd_momentum_loop (n : nat) (lr momentum : F) (nesterov : bool)
    (grad v data : list F) :
  (n ≤ length v)%nat →
  let new_v := λ i vi, fadd (fmul momentum vi) (fmul lr (vget grad i)) in
  let new_d := λ i di,
    if nesterov
    then fsub di (fadd (fmul momentum (new_v i (vget v i))) (fmul lr (vget grad i)))
    else fsub di (new_v i (vget v i)) in
  for_ n (λ i '(v, data),
    let v := vset v i (fadd (fmul momentum (vget v i)) (fmul lr (vget grad i))) in
    let data :=
      if nesterov
      then vset data i (fsub (vget data i)
             (fadd (fmul momentum (vget v i)) (fmul lr (vget grad i))))
      else vset data i (fsub (vget data i) (vget v i)) in
    (v, data)) (v, data) =
  (updated n new_v v, updated n new_d data).
Proof.
  intros Hn new_v new_d. induction n as [|n IH]; [by rewrite !updated_0|].
  rewrite for_S, IH by lia. cbv zeta. rewrite !vget_updated_next.
  assert (Hnv := vset_updated n new_v v).
  unfold new_v at 2 in Hnv. cbv beta in Hnv. rewrite Hnv.
  rewrite vget_updated by lia. destruct (decide (n < S n)%nat); [|lia].
  f_equal. rewrite <- (vset_updated n new_d data). unfold new_d, new_v.
  by destruct nesterov.
Qed.

(** The loop of Adam. *)
Lemma adam_loop (n : nat) (lr beta1 beta2 epsilon : F) (t : Z)
    (grad m v data : list F) :
  (n ≤ length m)%nat → (n ≤ length v)%nat →
  let new_m := λ i mi, fadd (fmul beta1 mi) (fmul (fsub fone beta1) (vget grad i)) in
  let new_v := λ i vi,
    fadd (fmul beta2 vi) (fmul (fmul (fsub fone beta2) (vget grad i)) (vget grad i)) in
  let new_d := λ i di,
    let m_hat := fdiv (new_m i (vget m i)) (fsub fone (fpow beta1 (of_int t))) in
    let v_hat := fdiv (new_v i (vget v i)) (fsub fone (fpow beta2 (of_int t))) in
    fsub di (fdiv (fmul lr m_hat) (fadd (fsqrt v_hat) epsilon)) in
  for_ n (λ i '(m, v, data),
    let m := vset m i (fadd (fmul beta1 (vget m i))
                            (fmul (fsub fone beta1) (vget grad i))) in
    let v := vset v i (fadd (fmul beta2 (vget v i))
                            (fmul (fmul (fsub fone beta2) (vget grad i))
                                  (vget grad i))) in
    let m_hat := fdiv (vget m i) (fsub fone (fpow beta1 (of_int t))) in
    let v_hat := fdiv (vget v i) (fsub fone (fpow beta2 (of_int t))) in
    let data := vset data i
      (fsub (vget data i) (fdiv (fmul lr m_hat) (fadd (fsqrt v_hat) epsilon))) in
    (m, v, data)) (m, v, data) =
  (updated n new_m m, updated n new_v v, updated n new_d data).
Proof.
  intros Hm Hv new_m new_v new_d.
  induction n as [|n IH]; [by rewrite !updated_0|].
  rewrite for_S, IH by lia. cbv zeta. rewrite !vget_updated_next.
  assert (Hnm := vset_updated n new_m m).
  unfold new_m at 2 in Hnm. cbv beta in Hnm. rewrite Hnm.
  assert (Hnv := vset_updated n new_v v).
  unfold new_v at 2 in Hnv. cbv beta in Hnv. rewrite Hnv.
  rewrite !vget_updated by lia. destruct (decide (n < S n)%nat); [|lia].
  f_equal. by rewrite <- (vset_updated n new_d data).
Qed.

(** *** The loop over the parameters *)

(** A loop over distinct parameters, each iteration changing only what
    belongs to its parameter (its [slot]). *)
Lemma foldl_slots {St Sl : Type} (slot : ptr → St → Sl) (upd : ptr → St → St)
    (l : list ptr) (st : St) (q : ptr) :
  NoDup l →
  (∀ p q st, q ≠ p → slot q (upd p st) = slot q st) →
  (∀ p st st', slot p st = slot p st' → slot p (upd p st) = slot p (upd p st')) →
  slot q (foldl (λ st p, upd p st) st l) =
    if decide (q ∈ l) then slot q (upd q st) else slot q st.
Proof.
  intros Hnd Hframe Hlocal. revert st.
  induction l as [|p l IH]; intros st; simpl.
  - by destruct (decide (q ∈ [])) as [?%elem_of_nil|].
  - apply NoDup_cons in Hnd as [Hp Hnd]. rewrite IH by done.
    destruct (decide (q ∈ l)) as [Hq|Hq].
    + assert (q ≠ p) by (by intros ->).
      destruct (decide (q ∈ p :: l)) as [_|Hn]; [|set_solver].
      apply Hlocal. by apply Hframe.
    + destruct (decide (q = p)) as [->|Hne].
      * by destruct (decide (p ∈ p :: l)) as [_|Hn]; [|set_solver].
      * destruct (decide (q ∈ p :: l)) as [Hin|_]; [set_solver|].
        by apply Hframe.
Qed.

Lemma requires_grad_valid (s : store) (p : ptr) :
  requires_grad_ (deref s p) = true → (p < length s)%nat.
Proof.
  intros Hrg. destruct (decide (p < length s)%nat) as [|Hge]; [done|].
  by rewrite deref_invalid in Hrg by lia.
Qed.

Lemma deref_insert_valid (s : store) (p q : ptr) (t : Tensor) :
  (p < length s)%nat →
  deref (<[p := t]> s) q = if decide (q = p) then t else deref s q.
Proof. intros Hp. apply deref_insert. lia. Qed.

Definition sgd_slot (q : ptr) (st : gmap nat (list F) * list Tensor)
    : option (list F) * Tensor :=
  (st.1 !! q, deref st.2 q).

Lemma SGD_update_frame (lr momentum : F) (nesterov : bool) (p q : ptr) st :
  q ≠ p → sgd_slot q (SGD_update lr momentum nesterov p st) = sgd_slot q st.
Proof.
  intros Hne. destruct st as [velocity s]. unfold SGD_update, sgd_slot.
  destruct (requires_grad_ (deref s p)) eqn:Hrg; simpl; [|done].
  apply requires_grad_valid in Hrg.
  destruct (flt fzero momentum).
  - destruct (for_ _ _ _) as [v data]. simpl.
    rewrite lookup_insert_ne by done. rewrite deref_insert_valid by done.
    by destruct (decide (q = p)).
  - simpl. rewrite deref_insert_valid by done. by destruct (decide (q = p)).
Qed.

Lemma SGD_update_local (lr momentum : F) (nesterov : bool) (p : ptr) st st' :
  sgd_slot p st = sgd_slot p st' →
  sgd_slot p (SGD_update lr momentum nesterov p st) =
  sgd_slot p (SGD_update lr momentum nesterov p st').
Proof.
  destruct st as [velocity s], st' as [velocity' s']. unfold sgd_slot. simpl.
  intros [= Hvel Hderef]. unfold SGD_update. rewrite <- Hderef, <- Hvel.
  destruct (requires_grad_ (deref s p)) eqn:Hrg; simpl; [|congruence].
  assert (Hp : (p < length s)%nat) by (by apply requires_grad_valid).
  assert (Hp' : (p < length s')%nat)
    by (apply requires_grad_valid; by rewrite <- Hderef).
  destruct (flt fzero momentum).
  - destruct (for_ _ _ _) as [v data]. simpl.
    rewrite !lookup_insert_eq. rewrite !deref_insert_valid by done.
    by destruct (decide (p = p)).
  - simpl. rewrite !deref_insert_valid by done.
    destruct (decide (p = p)); congruence.
Qed.

(** One parameter that requires a gradient, in closed form. *)
Lemma SGD_update_self (lr momentum : F) (nesterov : bool) (p : ptr)
    (velocity : gmap nat (list F)) (s : store) :
  requires_grad_ (deref s p) = true → tensor_ok (deref s p) →
  (flt fzero momentum = true →
   length (default [] (velocity !! p)) = N.to_nat (size_ (deref s p))) →
  let g := grad_ (deref s p) in
  let v := default [] (velocity !! p) in
  sgd_slot p (SGD_update lr momentum nesterov p (velocity, s)) =
    if flt fzero momentum
    then (Some (imap (λ i vi, fadd (fmul momentum vi) (fmul lr (vget g i))) v),
          set_data (deref s p)
            (imap (λ i di,
               let vi' := fadd (fmul momentum (vget v i)) (fmul lr (vget g i)) in
               if nesterov
               then fsub di (fadd (fmul momentum vi') (fmul lr (vget g i)))
               else fsub di vi') (data_ (deref s p))))
    else (velocity !! p,
          set_data (deref s p)
            (imap (λ i di, fsub di (fmul lr (vget g i))) (data_ (deref s p)))).
Proof.
  intros Hrg (Hsize & Hdata & Hgrad) Hvel g v.
  assert (Hp : (p < length s)%nat) by (by apply requires_grad_valid).
  unfold SGD_update, sgd_slot. rewrite Hrg. simpl.
  destruct (flt fzero momentum) eqn:Hm.
  - rewrite sgd_momentum_loop by (rewrite Hvel; done). simpl.
    rewrite lookup_insert_eq, deref_insert_valid by done.
    destruct (decide (p = p)); [|done].
    rewrite <- Hvel at 1 by done. rewrite <- Hdata. by rewrite !updated_all.
  - simpl. rewrite deref_insert_valid by done. destruct (decide (p = p)); [|done].
    rewrite sgd_plain_loop. rewrite <- Hdata. by rewrite updated_all.
Qed.

Lemma init_state_lookup (parameters : list ptr) (s : store) (p : ptr) :
  p ∈ parameters →
  init_state parameters s !! p =
    Some (replicate (N.to_nat (size_ (deref s p))) fzero).
Proof.
  unfold init_state.
  assert (Hgen : ∀ l (st : gmap nat (list F)),
    (∀ q x, st !! q = Some x → x = replicate (N.to_nat (size_ (deref s q))) fzero) →
    let st' := foldl (λ st param,
        <[param := resize (N.to_nat (size_ (deref s param))) fzero
                          (default [] (st !! param))]> st) st l in
    (∀ q x, st' !! q = Some x → x = replicate (N.to_nat (size_ (deref s q))) fzero) ∧
    (∀ q, q ∈ l ∨ is_Some (st !! q) → is_Some (st' !! q))).
  { induction l as [|a l IH]; intros st Hinv; simpl.
    - split; [done|]. intros q [?%elem_of_nil|?]; done.
    - destruct (IH (<[a := resize (N.to_nat (size_ (deref s a))) fzero
                           (default [] (st !! a))]> st)) as [Hinv' Hin'].
      + intros q x. destruct (decide (q = a)) as [->|Hne].
        * rewrite lookup_insert_eq. intros [= <-].
          destruct (st !! a) as [y|] eqn:Ha; simpl.
          -- rewrite (Hinv a y Ha). apply resize_replicate.
          -- apply resize_nil.
        * rewrite lookup_insert_ne by done. apply Hinv.
      + split; [done|]. intros q Hq. apply Hin'.
        destruct (decide (q = a)) as [->|Hne].
        * right. rewrite lookup_insert_eq. eauto.
        * rewrite lookup_insert_ne by done. set_solver. }
  intros Hp. destruct (Hgen parameters ∅) as [Hinv Hin].
  { intros q x. by rewrite lookup_empty. }
  destruct (Hin p) as [x Hx]; [by left|]. simpl in *. rewrite Hx. f_equal.
  by apply Hinv.
Qed.

Lemma SGD_update_skip (lr momentum : F) (nesterov : bool) (p : ptr) st :
  requires_grad_ (deref st.2 p) = false →
  SGD_update lr momentum nesterov p st = st.
Proof. destruct st as [velocity s]. simpl. intros Hrg. unfold SGD_update. by rewrite Hrg. Qed.

(** C4. [SGD::step] leaves parameters that do not require a gradient (and
    every tensor that is not a parameter) untouched; for the others, element
    by element: without momentum ([momentum_ > 0.0] false) [data -= lr*grad];
    with momentum [v = momentum*v + lr*grad] first and then [data -= v], or
    with Nesterov [data -= momentum*v + lr*grad] for the updated [v]. The
    constructor gives every parameter a zero velocity of its size. *)
Theorem sgd_step_updates :
  (∀ parameters lr momentum nesterov (s : store) p,
     flt fzero momentum = true → p ∈ parameters →
     velocity_ (SGD_new parameters lr momentum nesterov s) !! p =
       Some (replicate (N.to_nat (size_ (deref s p))) fzero)) ∧
  (∀ (opt : SGD) (s : store) opt' s',
     NoDup (parameters_ (sgd_base opt)) →
     (∀ p, p ∈ parameters_ (sgd_base opt) →
        tensor_ok (deref s p) ∧
        (flt fzero (momentum_ opt) = true →
         length (default [] (velocity_ opt !! p)) = N.to_nat (size_ (deref s p)))) →
     SGD_step opt s = (opt', s') →
     ∀ p,
       let lr := learning_rate_ (sgd_base opt) in
       let momentum := momentum_ opt in
       let g := grad_ (deref s p) in
       let v := default [] (velocity_ opt !! p) in
       (p ∉ parameters_ (sgd_base opt) ∨ requires_grad_ (deref s p) = false →
        deref s' p = deref s p ∧ velocity_ opt' !! p = velocity_ opt !! p) ∧
       (p ∈ parameters_ (sgd_base opt) → requires_grad_ (deref s p) = true →
        grad_ (deref s' p) = g ∧
        if flt fzero momentum
        then
          velocity_ opt' !! p =
            Some (imap (λ i vi, fadd (fmul momentum vi) (fmul lr (vget g i))) v) ∧
          data_ (deref s' p) =
            imap (λ i di,
              let vi' := fadd (fmul momentum (vget v i)) (fmul lr (vget g i)) in
              if nesterov_ opt
              then fsub di (fadd (fmul momentum vi') (fmul lr (vget g i)))
              else fsub di vi') (data_ (deref s p))
        else
          velocity_ opt' !! p = velocity_ opt !! p ∧
          data_ (deref s' p) =
            imap (λ i di, fsub di (fmul lr (vget g i))) (data_ (deref s p)))).
Proof.
  split.
  - intros parameters lr momentum nesterov s p Hm Hp. unfold SGD_new. simpl.
    rewrite Hm. by apply init_state_lookup.
  - intros opt s opt' s' Hnd Hparams Hstep p lr momentum g v.
    unfold SGD_step in Hstep.
    destruct (foldl _ _ _) as [velocity' s''] eqn:Hfold.
    injection Hstep as <- <-. simpl.
    pose proof (foldl_slots sgd_slot
      (SGD_update (learning_rate_ (sgd_base opt)) (momentum_ opt) (nesterov_ opt))
      (parameters_ (sgd_base opt)) (velocity_ opt, s) p Hnd) as Hslot.
    rewrite Hfold in Hslot.
    specialize (Hslot (SGD_update_frame _ _ _) (SGD_update_local _ _ _)).
    split.
    + intros Hcase. destruct (decide (p ∈ parameters_ (sgd_base opt))) as [Hin|Hnin].
      * destruct Hcase as [?|Hrg]; [done|].
        rewrite SGD_update_skip in Hslot by done.
        unfold sgd_slot in Hslot. simpl in Hslot. by injection Hslot as -> ->.
      * unfold sgd_slot in Hslot. simpl in Hslot. by injection Hslot as -> ->.
    + intros Hin Hrg. destruct (decide (p ∈ parameters_ (sgd_base opt))); [|done].
      destruct (Hparams p Hin) as [Hok Hvel].
      rewrite SGD_update_self in Hslot by done.
      unfold sgd_slot in Hslot. simpl in Hslot. fold momentum in Hslot.
      destruct (flt fzero momentum); injection Hslot as -> ->; by split_and!.
Qed.

Definition adam_slot (q : ptr)
    (st : gmap nat (list F) * gmap nat (list F) * list Tensor)
    : option (list F) * option (list F) * Tensor :=
  (st.1.1 !! q, st.1.2 !! q, deref st.2 q).

Lemma Adam_update_frame (lr beta1 beta2 epsilon : F) (t : Z) (p q : ptr) st :
  q ≠ p → adam_slot q (Adam_update lr beta1 beta2 epsilon t p st) = adam_slot q st.
Proof.
  intros Hne. destruct st as [[ms vs] s]. unfold Adam_update, adam_slot.
  destruct (requires_grad_ (deref s p)) eqn:Hrg; simpl; [|done].
  apply requires_grad_valid in Hrg.
  destruct (for_ _ _ _) as [[m v] data]. simpl.
  rewrite !lookup_insert_ne by done. rewrite deref_insert_valid by done.
  by destruct (decide (q = p)).
Qed.

Lemma Adam_update_local (lr beta1 beta2 epsilon : F) (t : Z) (p : ptr) st st' :
  adam_slot p st = adam_slot p st' →
  adam_slot p (Adam_update lr beta1 beta2 epsilon t p st) =
  adam_slot p (Adam_update lr beta1 beta2 epsilon t p st').
Proof.
  destruct st as [[ms vs] s], st' as [[ms' vs'] s']. unfold adam_slot. simpl.
  intros [= Hms Hvs Hderef]. unfold Adam_update. rewrite <- Hderef, <- Hms, <- Hvs.
  destruct (requires_grad_ (deref s p)) eqn:Hrg; simpl; [|congruence].
  assert (Hp : (p < length s)%nat) by (by apply requires_grad_valid).
  assert (Hp' : (p < length s')%nat)
    by (apply requires_grad_valid; by rewrite <- Hderef).
  destruct (for_ _ _ _) as [[m v] data]. simpl.
  rewrite !lookup_insert_eq. rewrite !deref_insert_valid by done.
  by destruct (decide (p = p)).
Qed.

Lemma Adam_update_skip (lr beta1 beta2 epsilon : F) (t : Z) (p : ptr) st :
  requires_grad_ (deref st.2 p) = false →
  Adam_update lr beta1 beta2 epsilon t p st = st.
Proof.
  destruct st as [[ms vs] s]. simpl. intros Hrg. unfold Adam_update. by rewrite Hrg.
Qed.

(** The new first moment, second moment and data element of Adam, from the
    old ones and the gradient element. *)
Definition adam_m (beta1 : F) (mi g : F) : F :=
  fadd (fmul beta1 mi) (fmul (fsub fone beta1) g).
Definition adam_v (beta2 : F) (vi g : F) : F :=
  fadd (fmul beta2 vi) (fmul (fmul (fsub fone beta2) g) g).
Definition adam_data (lr beta1 beta2 epsilon : F) (t : Z) (di mi' vi' : F) : F :=
  let m_hat := fdiv mi' (fsub fone (fpow beta1 (of_int t))) in
  let v_hat := fdiv vi' (fsub fone (fpow beta2 (of_int t))) in
  fsub di (fdiv (fmul lr m_hat) (fadd (fsqrt v_hat) epsilon)).

Lemma Adam_update_self (lr beta1 beta2 epsilon : F) (t : Z) (p : ptr)
    (ms vs : gmap nat (list F)) (s : store) :
  requires_grad_ (deref s p) = true → tensor_ok (deref s p) →
  length (default [] (ms !! p)) = N.to_nat (size_ (deref s p)) →
  length (default [] (vs !! p)) = N.to_nat (size_ (deref s p)) →
  let g := grad_ (deref s p) in
  let m := default [] (ms !! p) in
  let v := default [] (vs !! p) in
  adam_slot p (Adam_update lr beta1 beta2 epsilon t p (ms, vs, s)) =
    (Some (imap (λ i mi, adam_m beta1 mi (vget g i)) m),
     Some (imap (λ i vi, adam_v beta2 vi (vget g i)) v),
     set_data (deref s p)
       (imap (λ i di,
          adam_data lr beta1 beta2 epsilon t di
            (adam_m beta1 (vget m i) (vget g i))
            (adam_v beta2 (vget v i) (vget g i))) (data_ (deref s p)))).
Proof.
  intros Hrg (Hsize & Hdata & Hgrad) Hm Hv g m v.
  assert (Hp : (p < length s)%nat) by (by apply requires_grad_valid).
  unfold Adam_update, adam_slot. rewrite Hrg. simpl.
  rewrite adam_loop by (rewrite ?Hm, ?Hv; done). simpl.
  rewrite !lookup_insert_eq, deref_insert_valid by done.
  destruct (decide (p = p)); [|done].
  rewrite <- Hm at 1. rewrite <- Hv at 1. rewrite <- Hdata.
  by rewrite !updated_all.
Qed.

(** [Adam::step]: the timestep grows by one per call, whatever the number of
    parameters; parameters that do not require a gradient, and tensors that
    are not parameters, are untouched; every element of a parameter that
    requires a gradient gets the Adam update for the new timestep. The
    constructor starts from timestep 0 and zero moments. *)
Lemma adam_step_generic :
  (∀ parameters lr beta1 beta2 epsilon (s : store) p,
     let opt := Adam_new parameters lr beta1 beta2 epsilon s in
     t_ opt = 0%Z ∧
     (p ∈ parameters →
      m_ opt !! p = Some (replicate (N.to_nat (size_ (deref s p))) fzero) ∧
      v_ opt !! p = Some (replicate (N.to_nat (size_ (deref s p))) fzero))) ∧
  (∀ (opt : Adam) (s : store) opt' s',
     NoDup (parameters_ (adam_base opt)) →
     (∀ p, p ∈ parameters_ (adam_base opt) →
        tensor_ok (deref s p) ∧
        length (default [] (m_ opt !! p)) = N.to_nat (size_ (deref s p)) ∧
        length (default [] (v_ opt !! p)) = N.to_nat (size_ (deref s p))) →
     Adam_step opt s = (opt', s') →
     t_ opt' = (t_ opt + 1)%Z ∧
     ∀ p,
       let g := grad_ (deref s p) in
       let m := default [] (m_ opt !! p) in
       let v := default [] (v_ opt !! p) in
       (p ∉ parameters_ (adam_base opt) ∨ requires_grad_ (deref s p) = false →
        deref s' p = deref s p ∧
        m_ opt' !! p = m_ opt !! p ∧ v_ opt' !! p = v_ opt !! p) ∧
       (p ∈ parameters_ (adam_base opt) → requires_grad_ (deref s p) = true →
        grad_ (deref s' p) = g ∧
        m_ opt' !! p = Some (imap (λ i mi, adam_m (beta1_ opt) mi (vget g i)) m) ∧
        v_ opt' !! p = Some (imap (λ i vi, adam_v (beta2_ opt) vi (vget g i)) v) ∧
        data_ (deref s' p) =
          imap (λ i di,
            adam_data (learning_rate_ (adam_base opt)) (beta1_ opt) (beta2_ opt)
              (epsilon_ opt) (t_ opt + 1) di
              (adam_m (beta1_ opt) (vget m i) (vget g i))
              (adam_v (beta2_ opt) (vget v i) (vget g i)))
            (data_ (deref s p)))).
Proof.
  split.
  - intros parameters lr beta1 beta2 epsilon s p opt. split; [done|].
    intros Hp. unfold opt, Adam_new. simpl. by rewrite !init_state_lookup.
  - intros opt s opt' s' Hnd Hparams Hstep. unfold Adam_step in Hstep.
    destruct (foldl _ _ _) as [[ms' vs'] s''] eqn:Hfold.
    injection Hstep as <- <-. simpl. split; [done|]. intros p.
    pose proof (foldl_slots adam_slot
      (Adam_update (learning_rate_ (adam_base opt)) (beta1_ opt) (beta2_ opt)
         (epsilon_ opt) (t_ opt + 1))
      (parameters_ (adam_base opt)) (m_ opt, v_ opt, s) p Hnd) as Hslot.
    rewrite Hfold in Hslot.
    specialize (Hslot (Adam_update_frame _ _ _ _ _) (Adam_update_local _ _ _ _ _)).
    split.
    + intros Hcase. destruct (decide (p ∈ parameters_ (adam_base opt))) as [Hin|Hnin].
      * destruct Hcase as [?|Hrg]; [done|].
        rewrite Adam_update_skip in Hslot by done.
        unfold adam_slot in Hslot. simpl in Hslot. by injection Hslot as -> -> ->.
      * unfold adam_slot in Hslot. simpl in Hslot. by injection Hslot as -> -> ->.
    + intros Hin Hrg. destruct (decide (p ∈ parameters_ (adam_base opt))); [|done].
      destruct (Hparams p Hin) as (Hok & Hm & Hv).
      rewrite Adam_update_self in Hslot by done.
      unfold adam_slot in Hslot. simpl in Hslot.
      injection Hslot as -> -> ->. by split_and!.
Qed.

(** ** The operations keep the graph a DAG *)

(** [graph_ok] as a check that can be run. *)
Lemma primitive_graph_ok (op : primitive) (s s' : store) (r : ptr) :
  graph_ok s → Forall (λ i, (i < length s)%nat) (operands op) →
  run_primitive op s = (inr r, s') → graph_ok s'.
Proof.
  intros Hok Hops Hrun.
  assert (Hel : ∀ this f bw, (this < length s)%nat →
            elementwise this f bw s = (inr r, s') → graph_ok s').
  { intros this f bw Hthis Heq. unfold elementwise, make_shared in Heq.
    injection Heq as <- <-. apply graph_ok_snoc; [done|]. simpl. by constructor. }
  destruct op; simpl in Hrun, Hops;
    repeat match goal with
           | Hf : Forall _ (_ :: _) |- _ => apply Forall_cons in Hf as [? Hf]
           end;
    try (by eapply Hel).
  - unfold add, throw, make_shared in Hrun.
    destruct (shapes_compatible _ _); simpl in Hrun; [|done].
    injection Hrun as <- <-. apply graph_ok_snoc; [done|]. simpl.
    by repeat constructor.
  - unfold multiply, throw, make_shared in Hrun.
    destruct (shapes_compatible _ _); simpl in Hrun; [|done].
    injection Hrun as <- <-. apply graph_ok_snoc; [done|]. simpl.
    by repeat constructor.
  - apply matmul_inv in Hrun as (m & k & n & d & _ & _ & _ & Hd & -> & ->).
    apply graph_ok_snoc; [done|]. simpl.
    by repeat constructor.
  - unfold sum, make_shared in Hrun. injection Hrun as <- <-.
    apply graph_ok_snoc; [done|]. simpl. by constructor.
  - unfold mean in Hrun. unfold sum at 1, make_shared in Hrun. simpl in Hrun.
    unfold multiply_scalar, elementwise, make_shared in Hrun.
    injection Hrun as <- <-. apply graph_ok_snoc.
    + apply graph_ok_snoc; [done|]. simpl. by constructor.
    + simpl. constructor; [|done]. rewrite length_snoc. lia.
  - unfold reshape, throw in Hrun.
    destruct (compute_size new_shape =? size_ (deref s a)); simpl in Hrun; [|done].
    destruct (Tensor_of_data _ _ _) as [e|t] eqn:Ht; [done|].
    unfold make_shared in Hrun. injection Hrun as <- <-.
    apply graph_ok_snoc; [done|]. simpl. by constructor.
Qed.

(** The closures that the operations attach never write into their own
    result. *)
Lemma primitive_closure_ok (op : primitive) (s s' : store) (r : ptr) :
  Forall (λ i, (i < length s)%nat) (operands op) →
  run_primitive op s = (inr r, s') →
  closure_ok (backward_fn_ (deref s' r)).
Proof.
  intros Hops Hrun.
  assert (Hlt : ∀ a : nat, (a < length s)%nat → a ≠ length s) by (intros; lia).
  assert (Hel : ∀ this f bw, (this < length s)%nat →
            closure_ok (bw (length s)) →
            elementwise this f bw s = (inr r, s') →
            closure_ok (backward_fn_ (deref s' r))).
  { intros this f bw Hthis Hbw Heq. unfold elementwise, make_shared in Heq.
    injection Heq as <- <-. by rewrite deref_snoc. }
  destruct op; simpl in Hrun, Hops;
    repeat match goal with
           | Hf : Forall _ (_ :: _) |- _ => apply Forall_cons in Hf as [? Hf]
           end;
    try (eapply Hel; [eassumption| |eassumption];
         intros r' [= <-]; repeat constructor; simpl; by apply Hlt).
  - unfold add, throw, make_shared in Hrun.
    destruct (shapes_compatible _ _); simpl in Hrun; [|done].
    injection Hrun as <- <-. rewrite deref_snoc. simpl.
    intros r' [= <-]. repeat constructor; simpl; by apply Hlt.
  - unfold multiply, throw, make_shared in Hrun.
    destruct (shapes_compatible _ _); simpl in Hrun; [|done].
    injection Hrun as <- <-. rewrite deref_snoc. simpl.
    intros r' [= <-]. repeat constructor; simpl; by apply Hlt.
  - apply matmul_inv in Hrun as (m & k & n & d & _ & _ & _ & Hd & -> & ->).
    rewrite deref_snoc. simpl.
    intros r' [= <-]. repeat constructor; simpl; by apply Hlt.
  - unfold sum, make_shared in Hrun. injection Hrun as <- <-.
    rewrite deref_snoc. simpl.
    intros r' [= <-]. repeat constructor; simpl; by apply Hlt.
  - unfold mean in Hrun. unfold sum at 1, make_shared in Hrun. simpl in Hrun.
    unfold multiply_scalar, elementwise, make_shared in Hrun.
    injection Hrun as <- <-. rewrite deref_snoc. simpl.
    intros r' [= <-]. repeat constructor; simpl. rewrite length_snoc. lia.
  - unfold reshape, throw in Hrun.
    destruct (compute_size new_shape =? size_ (deref s a)); simpl in Hrun; [|done].
    destruct (Tensor_of_data _ _ _) as [e|t] eqn:Ht; [done|].
    unfold make_shared in Hrun. injection Hrun as <- <-.
    rewrite deref_snoc. simpl.
    intros r' [= <-]. repeat constructor; simpl; by apply Hlt.
Qed.

(** Every operation attaches a closure that writes only into the gradients
    of the result's inputs. *)
Lemma primitive_closures_local (op : primitive) (s s' : store) (r : ptr) :
  closures_local s →
  run_primitive op s = (inr r, s') → closures_local s'.
Proof.
  intros Hlocal Hrun.
  assert (Hel : ∀ this f bw,
            (∀ c, closure_targets (bw c) = [this]) →
            elementwise this f bw s = (inr r, s') → closures_local s').
  { intros this f bw Hbw Heq. unfold elementwise, make_shared in Heq.
    injection Heq as <- <-. apply closures_local_snoc; [done|]. simpl.
    rewrite Hbw. repeat constructor. }
  destruct op; simpl in Hrun; try (by eapply Hel; [|eassumption]).
  - unfold add, throw, make_shared in Hrun.
    destruct (shapes_compatible _ _); simpl in Hrun; [|done].
    injection Hrun as <- <-. apply closures_local_snoc; [done|]. simpl.
    repeat constructor; set_solver.
  - unfold multiply, throw, make_shared in Hrun.
    destruct (shapes_compatible _ _); simpl in Hrun; [|done].
    injection Hrun as <- <-. apply closures_local_snoc; [done|]. simpl.
    repeat constructor; set_solver.
  - apply matmul_inv in Hrun as (m & k & n & d & _ & _ & _ & Hd & -> & ->).
    apply closures_local_snoc; [done|]. simpl.
    repeat constructor; set_solver.
  - unfold sum, make_shared in Hrun. injection Hrun as <- <-.
    apply closures_local_snoc; [done|]. simpl. repeat constructor.
  - unfold mean in Hrun. unfold sum at 1, make_shared in Hrun. simpl in Hrun.
    unfold multiply_scalar, elementwise, make_shared in Hrun.
    injection Hrun as <- <-. apply closures_local_snoc.
    + apply closures_local_snoc; [done|]. simpl. repeat constructor.
    + simpl. repeat constructor.
  - unfold reshape, throw in Hrun.
    destruct (compute_size new_shape =? size_ (deref s a)); simpl in Hrun; [|done].
    destruct (Tensor_of_data _ _ _) as [e|t] eqn:Ht; [done|].
    unfold make_shared in Hrun. injection Hrun as <- <-.
    apply closures_local_snoc; [done|]. simpl. repeat constructor.
Qed.

(** The factories create tensors without inputs and with the empty closure. *)
Lemma factory_store_ok (f : factory) (s s' : store) (r : ptr) :
  graph_ok s → closures_local s →
  run_factory f s = (inr r, s') → graph_ok s' ∧ closures_local s'.
Proof.
  intros Hok Hlocal Hrun.
  destruct f; simpl in Hrun;
    try (unfold zeros, ones, randn, make_shared in Hrun; simpl in Hrun;
         injection Hrun as <- <-;
         by apply store_snoc).
  unfold from_data in Hrun.
  destruct (Tensor_of_data _ _ _) as [e|t] eqn:Ht; [done|].
  unfold make_shared in Hrun. injection Hrun as <- <-.
  unfold Tensor_of_data in Ht.
  destruct (_ =? _)%N; [|done]. injection Ht as <-.
  by apply store_snoc.
Qed.

End Autograd.

(** * Adam on IEEE 754 binary64 *)

Local Open Scope float_scope.

(** C3. [Adam::step] adds one to the shared timestep [t_] per call, leaves
    every parameter that does not require a gradient untouched, and gives
    every element of every other parameter
    [m = beta1*m + (1 - beta1)*g], [v = beta2*v + (1 - beta2)*g*g],
    [m_hat = m / (1 - beta1^t)], [v_hat = v / (1 - beta2^t)] and
    [data -= lr*m_hat / (sqrt(v_hat) + epsilon)] for the new [t]. On
    binary64, with a [std::pow] for which [pow(b, 1.0) = b], the first step
    on one scalar parameter with gradient 2.0, [lr = 0.1] and the default
    [beta1 = 0.9], [beta2 = 0.999], [epsilon = 1e-8] subtracts
    [0.1 * 2.0 / (sqrt(4.0) + 1e-8)] from the data, which is within 1e-9 of
    0.1. *)
Theorem adam_step_updates :
  (∀ (F : Type) (HF : Scalar F) (opt : Adam) (s : list Tensor) opt' s',
     NoDup (parameters_ (adam_base opt)) →
     (∀ p, p ∈ parameters_ (adam_base opt) →
        tensor_ok (deref s p) ∧
        length (default [] (m_ opt !! p)) = N.to_nat (size_ (deref s p)) ∧
        length (default [] (v_ opt !! p)) = N.to_nat (size_ (deref s p))) →
     Adam_step opt s = (opt', s') →
     t_ opt' = (t_ opt + 1)%Z ∧
     ∀ p,
       let g := grad_ (deref s p) in
       let m := default [] (m_ opt !! p) in
       let v := default [] (v_ opt !! p) in
       let t := (t_ opt + 1)%Z in
       (p ∉ parameters_ (adam_base opt) ∨ requires_grad_ (deref s p) = false →
        deref s' p = deref s p ∧
        m_ opt' !! p = m_ opt !! p ∧ v_ opt' !! p = v_ opt !! p) ∧
       (p ∈ parameters_ (adam_base opt) → requires_grad_ (deref s p) = true →
        grad_ (deref s' p) = g ∧
        m_ opt' !! p =
          Some (imap (λ i mi,
            fadd (fmul (beta1_ opt) mi) (fmul (fsub fone (beta1_ opt)) (vget g i))) m) ∧
        v_ opt' !! p =
          Some (imap (λ i vi,
            fadd (fmul (beta2_ opt) vi)
                 (fmul (fmul (fsub fone (beta2_ opt)) (vget g i)) (vget g i))) v) ∧
        data_ (deref s' p) =
          imap (λ i di,
            let mi' := fadd (fmul (beta1_ opt) (vget m i))
                            (fmul (fsub fone (beta1_ opt)) (vget g i)) in
            let vi' := fadd (fmul (beta2_ opt) (vget v i))
                            (fmul (fmul (fsub fone (beta2_ opt)) (vget g i))
                                  (vget g i)) in
            let m_hat := fdiv mi' (fsub fone (fpow (beta1_ opt) (of_int t))) in
            let v_hat := fdiv vi' (fsub fone (fpow (beta2_ opt) (of_int t))) in
            fsub di (fdiv (fmul (learning_rate_ (adam_base opt)) m_hat)
                          (fadd (fsqrt v_hat) (epsilon_ opt))))
            (data_ (deref s p)))) ∧
  (∀ (libm_pow : float → float → float) (libm_exp libm_tanh : float → float)
     (d : float),
     (∀ b, libm_pow b 1 = b) →
     let HF := binary64 libm_pow libm_exp libm_tanh in
     let s := [mkTensor [d] [2.0] [1%N] 1%N true [] BwNoop] in
     let opt := Adam_new [0%nat] 0.1 0.9 0.999 1e-8 s in
     ∃ opt' s',
       Adam_step opt s = (opt', s') ∧ t_ opt = 0%Z ∧ t_ opt' = 1%Z ∧
       data_ (deref s' 0%nat) = [d - 0.1 * 2.0 / (PrimFloat.sqrt 4.0 + 1e-8)] ∧
       PrimFloat.ltb (abs (0.1 * 2.0 / (PrimFloat.sqrt 4.0 + 1e-8) - 0.1)) 1e-9 = true).
Proof.
  split.
  - intros F HF opt s opt' s' Hnd Hparams Hstep.
    destruct (adam_step_generic (F := F)) as [_ Hgen].
    destruct (Hgen opt s opt' s' Hnd Hparams Hstep) as [Ht Hp].
    split; [done|]. intros p. apply Hp.
  - intros libm_pow libm_exp libm_tanh d Hpow HF s opt.
    destruct (adam_step_generic (F := float) (H := HF)) as [Hnew Hgen].
    destruct (Hnew [0%nat] 0.1 0.9 0.999 1e-8 s 0%nat) as [Ht0 Hinit].
    destruct Hinit as [Hm0 Hv0]; [by left|].
    destruct (Adam_step opt s) as [opt' s'] eqn:Hstep.
    destruct (Hgen opt s opt' s') as [Ht Hp]; [| |done|].
    { unfold opt. simpl. repeat constructor. by intros ?%elem_of_nil. }
    { intros p [->|?%elem_of_nil]%elem_of_cons; [|done].
      fold opt in Hm0, Hv0. rewrite Hm0, Hv0. by split_and!. }
    destruct (Hp 0%nat) as [_ Hp0].
    destruct Hp0 as (_ & _ & _ & Hd); [by left|done|].
    exists opt', s'. split_and!; try done.
    rewrite Hd. fold opt in Hm0, Hv0. rewrite Hm0, Hv0. simpl.
    unfold adam_data, adam_m, adam_v. simpl.
    change (Z2float (0 + 1)) with 1. rewrite !Hpow. reflexivity.
Qed.

(** * Concrete graphs *)

Section ExactZ.
Local Existing Instance exactZ.

(** A leaf [x] with data [3, 5] in exact integer arithmetic. *)
Definition leafZ : list (@Tensor Z) :=
  [mkTensor [3; 5]%Z [0; 0]%Z [2%N] 2%N true [] BwNoop].

(** [x], [c1 = 2 * x], [c2 = relu(x)], [a = c1 + c2], [r = a.sum()]. *)
Definition diamondZ : list (@Tensor Z) :=
  (two_branches (CScale 2%Z) CRelu 0%nat leafZ).2.

Lemma backward_reverse_topological_witness :
  ∃ order : list nat,
    backward 5 4%nat diamondZ =
      Some (foldl (λ s' t, run_closure (backward_fn_ (deref diamondZ t)) s')
                  (fill_grad 4%nat 1%Z diamondZ) order) ∧
    NoDup order ∧ head order = Some 4%nat ∧
    (∀ t, t ∈ order ↔ reachable diamondZ 4%nat t).
Proof.
  destruct (backward_reverse_topological diamondZ 4%nat 5) as
    (order & _ & Hrun & _ & _ & Hnd & Hreach & Hhead & _).
  - apply graph_okb_correct. vm_compute. reflexivity.
  - lia.
  - exists order. split_and!; assumption.
Defined.

Lemma zero_grad_reachable_witness :
  ∃ s' : list (@Tensor Z),
    zero_grad 5 4%nat diamondZ = Some s' ∧
    length s' = length diamondZ ∧
    zero_grad 5 4%nat s' = Some s'.
Proof.
  destruct (zero_grad_reachable diamondZ 4%nat 5) as
    (s' & Hrun & Hlen & _ & _ & _ & Hidem).
  - apply graph_okb_correct. vm_compute. reflexivity.
  - lia.
  - exists s'. split_and!; assumption.
Defined.

(** The claim of C6 as stated, with the product of the dimensions taken in
    the integers, fails where the product wraps around: a [2^32 × 2^32]
    shape has size 0 in [size_t], so the constructor accepts empty data. *)
Lemma size_mismatch_product_counterexample :
  ¬ (∀ (data : list Z) (shape : list N) (rg : bool),
       (∃ e, Tensor_of_data data shape rg = inl e) ↔
       N.of_nat (length data) ≠ spec_size shape).
Proof.
  intros Hclaim.
  destruct (proj2 (Hclaim [] [2 ^ 32; 2 ^ 32]%N true)) as [e He].
  - vm_compute. discriminate.
  - vm_compute in He. discriminate.
Qed.

(** The claim of C7 as stated fails for an empty tensor that does not
    require a gradient: its gradient buffer has [size_ = 0] elements; and
    [size_] is not the product of the dimensions where that product wraps
    around. *)
Lemma grad_length_iff_counterexample :
  ¬ (∀ (shape : list N) (rg : bool),
       let t := Tensor_of_shape shape rg in
       length (grad_ t) = N.to_nat (size_ t) ↔ requires_grad_ t = true) ∧
  ¬ (∀ (shape : list N) (rg : bool),
       size_ (Tensor_of_shape shape rg) = spec_size shape).
Proof.
  split.
  - intros Hclaim. destruct (Hclaim [0%N] false) as [Hiff _].
    specialize (Hiff eq_refl). discriminate.
  - intros Hclaim. specialize (Hclaim [2 ^ 32; 2 ^ 32]%N false).
    vm_compute in Hclaim. discriminate.
Qed.

(** [matmul] of a 2×3 and a 3×2 tensor gives a 2×2 tensor; of a 2×3 and a 2×3
    tensor it throws. *)
Example matmul_2x3_3x2 :
  let A := mkTensor [1; 2; 3; 4; 5; 6]%Z [] [2%N; 3%N] 6%N false [] BwNoop in
  let B := mkTensor [7; 8; 9; 10; 11; 12]%Z [] [3%N; 2%N] 6%N false [] BwNoop in
  (∃ t, matmul 0%nat 1%nat [A; B] = (inr 2%nat, [A; B; t]) ∧
        shape_ t = [2%N; 2%N] ∧ data_ t = [58; 64; 139; 154]%Z) ∧
  matmul 0%nat 0%nat [A; B] =
    (inl (runtime_error "Incompatible dimensions for matmul"), [A; B]).
Proof. split; [eexists; split; [reflexivity|split; reflexivity]|reflexivity]. Qed.

(** A 2×3 and a 3×2 matrix. *)
Definition matricesZ : list (@Tensor Z) :=
  [mkTensor [1; 2; 3; 4; 5; 6]%Z [] [2%N; 3%N] 6%N false [] BwNoop;
   mkTensor [7; 8; 9; 10; 11; 12]%Z [] [3%N; 2%N] 6%N false [] BwNoop].





Lemma size_mismatch_iff_witness :
  fails_with (from_data [1; 2; 3]%Z [2%N; 2%N] true) leafZ SizeMismatch ∧
  fails_with (reshape 0%nat [3%N]) leafZ SizeMismatch.
Proof.
  destruct size_mismatch_iff as (Hdata & Hreshape & _). split.
  - apply (Hdata [1; 2; 3]%Z [2%N; 2%N] true leafZ). by vm_compute.
  - apply (Hreshape leafZ 0%nat [3%N]); [repeat split|by vm_compute].
Defined.

Lemma produced_tensors_invariant_witness :
  ∃ r s', run_primitive (PAdd 0%nat 0%nat) leafZ = (inr r, s') ∧
          store_ok s' ∧ requires_grad_ (deref s' r) = true.
Proof.
  destruct produced_tensors_invariant as (_ & _ & _ & _ & Hop).
  destruct (run_primitive (PAdd 0%nat 0%nat) leafZ) as [[e|r] s'] eqn:Hrun;
    [by vm_compute in Hrun|].
  exists r, s'. split; [done|].
  destruct (Hop (PAdd 0%nat 0%nat) leafZ r s') as [Hok Hrg]; [|done|].
  - repeat constructor.
  - split; [exact Hok|]. rewrite Hrg. reflexivity.
Defined.

End ExactZ.

(** binary64 without a C library: for graphs that use none of [std::pow],
    [std::exp] and [std::tanh]. *)
Definition libm_none2 : float → float → float := λ _ _, nan.
Definition libm_none1 : float → float := λ _, nan.
Definition binary64_no_libm : Scalar float :=
  binary64 libm_none2 libm_none1 libm_none1.

(** *** Addition on binary64

    [+] on binary64 is commutative, but [0.0] is not a unit: [0.0 + -0.0] is
    [0.0]. A sum that starts from [0.0] is never [-0.0], so that adding a
    term and adding [0.0 +] that term give the same result. *)

Lemma float_add_comm (a b : float) : a + b = b + a.
Proof.
  apply Prim2SF_inj. rewrite !add_spec. unfold SF64add.
  destruct (Prim2SF a) as [sa|sa| |sa ma ea], (Prim2SF b) as [sb|sb| |sb mb eb];
    try reflexivity; try (by destruct sa, sb).
  unfold SFadd. by rewrite Z.min_comm, Z.add_comm.
Qed.

Lemma float_add_zero_l (b : float) :
  Prim2SF b ≠ S754_zero true → 0 + b = b.
Proof.
  intros Hb. apply Prim2SF_inj. rewrite add_spec.
  change (Prim2SF 0) with (S754_zero false). unfold SF64add.
  destruct (Prim2SF b) as [[]|sb| |sb mb eb]; done.
Qed.

Lemma float_add_zero_not_neg_zero (a : float) :
  Prim2SF (0 + a) ≠ S754_zero true.
Proof.
  rewrite add_spec. change (Prim2SF 0) with (S754_zero false). unfold SF64add.
  destruct (Prim2SF a) as [[]|sa| |sa ma ea]; done.
Qed.

Lemma float_add_zero_absorb (a b : float) :
  (0 + a) + (0 + b) = (0 + a) + b.
Proof.
  destruct (Prim2SF b) as [[]|sb| |sb mb eb] eqn:Hb;
    try (rewrite (float_add_zero_l b); [done|by rewrite Hb]).
  pose proof (float_add_zero_not_neg_zero a) as Hy.
  apply Prim2SF_inj. rewrite (add_spec (0 + a) (0 + b)), (add_spec (0 + a) b).
  rewrite (add_spec 0 b), Hb.
  change (Prim2SF 0) with (S754_zero false). unfold SF64add. simpl SFadd at 2.
  destruct (Prim2SF (0 + a)) as [[]|sy| |sy my ey]; done.
Qed.

Section Float64.
Local Existing Instance binary64_no_libm.

(** A leaf [t] of shape [2; 3] on binary64. *)
Definition leaf64 : list (@Tensor float) :=
  [mkTensor [1; 2; 3; 4; 5; 6] [0; 0; 0; 0; 0; 0] [2%N; 3%N] 6%N true [] BwNoop].


(** On binary64 the unguarded division of [mean] gives [1.0 / 0 = inf] for an
    empty tensor, and the mean is [0 * inf = NaN]. *)
Example mean_of_empty_tensor :
  ∃ sum_t mean_t,
    mean 0%nat [Tensor_of_shape [] false] =
      (inr 2%nat, [Tensor_of_shape [] false; sum_t; mean_t]) ∧
    data_ mean_t = [nan].
Proof. eexists _, _. split; reflexivity. Qed.

(** One scalar parameter with data 1.0 and gradient 2.0. *)
Definition param64 : list (@Tensor float) :=
  [mkTensor [1] [2] [1%N] 1%N true [] BwNoop].

Lemma sgd_step_updates_witness :
  ∃ opt' s',
    SGD_step (SGD_new [0%nat] 0.1 0.9 false param64) param64 = (opt', s') ∧
    velocity_ opt' !! 0%nat = Some [0.9 * 0 + 0.1 * 2] ∧
    data_ (deref s' 0%nat) = [1 - (0.9 * 0 + 0.1 * 2)].
Proof.
  destruct sgd_step_updates as [Hnew Hstep].
  assert (Hv0 : velocity_ (SGD_new [0%nat] 0.1 0.9 false param64) !! 0%nat =
                Some [0]).
  { apply (Hnew [0%nat] 0.1 0.9 false param64 0%nat); [reflexivity|].
    by apply list_elem_of_singleton. }
  destruct (SGD_step (SGD_new [0%nat] 0.1 0.9 false param64) param64)
    as [opt' s'] eqn:Hrun.
  exists opt', s'. split; [done|].
  destruct (Hstep (SGD_new [0%nat] 0.1 0.9 false param64) param64 opt' s')
    with (p := 0%nat) as [_ Hupd].
  - apply NoDup_singleton.
  - intros p ->%list_elem_of_singleton. split; [repeat split|].
    intros _. by rewrite Hv0.
  - exact Hrun.
  - destruct Hupd as (_ & Hvel & Hdata); [by left|done|].
  rewrite Hvel, Hdata, Hv0. split; reflexivity.
Defined.

Lemma mean_divides_by_size_witness :
  ∃ sum_t mean_t,
    mean 0%nat leaf64 = (inr 2%nat, leaf64 ++ [sum_t; mean_t]) ∧
    data_ sum_t = [21] ∧ data_ mean_t = [21 * (1 / 6)].
Proof.
  destruct mean_divides_by_size as (_ & Hmean & _).
  destruct (Hmean leaf64 0%nat) as (sum_t & mean_t & Hrun & Hsum & Hdata).
  - simpl. lia.
  - exists sum_t, mean_t. split_and!; [exact Hrun| |].
    + rewrite Hsum. reflexivity.
    + rewrite Hdata. reflexivity.
Defined.

End Float64.

(** binary64 with a [std::pow] that is known at the exponent 1.0 only, where
    the C standard has [pow(b, 1.0) = b]. *)
Definition pow_at_one (b e : float) : float :=
  if PrimFloat.eqb e 1 then b else nan.
Definition binary64_pow_at_one : Scalar float :=
  binary64 pow_at_one libm_none1 libm_none1.

Section Float64Pow.
Local Existing Instance binary64_pow_at_one.

Lemma adam_step_updates_witness :
  ∃ opt' s',
    Adam_step (Adam_new [0%nat] 0.1 0.9 0.999 1e-8 param64) param64 = (opt', s') ∧
    t_ opt' = 1%Z ∧
    data_ (deref s' 0%nat) = [1 - 0.1 * 2 / (PrimFloat.sqrt 4 + 1e-8)].
Proof.
  destruct adam_step_updates as [_ Hfirst].
  destruct (Hfirst pow_at_one libm_none1 libm_none1 1) as
    (opt' & s' & Hrun & _ & Ht & Hdata & _).
  - intros b. reflexivity.
  - exists opt', s'. split_and!; [exact Hrun|exact Ht|exact Hdata].
Defined.

End Float64Pow.


(** * More of the code

    The rest of [core/darv_tensor.hpp] and [core/darv_optimizer.hpp], and the
    code of [core/layers/nn_layers.hpp] and [core/darv_dataset.hpp] that is
    built on them. *)

Local Open Scope N_scope.

Section Coverage.
Context {F : Type} `{Scalar F}.

Local Abbreviation Tensor := (@Tensor F) (only parsing).
Local Abbreviation Closure := (@Closure F) (only parsing).
Local Abbreviation Optimizer := (@Optimizer F) (only parsing).
Local Abbreviation store := (list Tensor) (only parsing).

(** ** [add], [multiply] and [flatten] *)

(** The data that the loop of [add] and [multiply] leaves in the fresh
    result. *)
Lemma binary_data (g : F → F → F) (A B : list F) (n : nat) :
  length A = n → length B = n →
  for_ n (λ i d, vset d i (g (vget A i) (vget B i))) (replicate n fzero) =
  zip_with g A B.
Proof.
  intros HA HB. apply list_eq. intros i.
  rewrite (lookup_for_vset n (λ i, g (vget A i) (vget B i)))
    by (by rewrite length_replicate).
  rewrite lookup_zip_with. unfold vget.
  destruct (decide (i < n)%nat) as [Hlt|Hge].
  - destruct (lookup_lt_is_Some_2 A i) as [x ->]; [lia|].
    by destruct (lookup_lt_is_Some_2 B i) as [y ->]; [lia|].
  - rewrite (lookup_ge_None_2 A) by lia.
    by rewrite lookup_ge_None_2 by (rewrite length_replicate; lia).
Qed.

Lemma tensor_ok_same_shape (t o : Tensor) :
  tensor_ok t → tensor_ok o → shape_ t = shape_ o →
  length (data_ t) = N.to_nat (size_ t) ∧
  length (data_ o) = N.to_nat (size_ t) ∧
  compute_size (shape_ t) = size_ t.
Proof.
  intros (Hst & Hdt & _) (Hso & Hdo & _) Hshape.
  split_and!; [done| |done]. by rewrite Hdo, Hso, <- Hshape, <- Hst.
Qed.

Lemma add_run_data (s : store) (a b : ptr) :
  tensor_ok (deref s a) → tensor_ok (deref s b) →
  shape_ (deref s a) = shape_ (deref s b) →
  ∃ t, add a b s = (inr (length s), s ++ [t]) ∧
       tensor_ok t ∧ inputs_ t = [a; b] ∧
       backward_fn_ t = BwAdd a b (length s) ∧
       size_ t = size_ (deref s a) ∧ shape_ t = shape_ (deref s a) ∧
       requires_grad_ t =
         requires_grad_ (deref s a) || requires_grad_ (deref s b) ∧
       grad_ t = replicate (length (grad_ t)) fzero ∧
       data_ t = zip_with fadd (data_ (deref s a)) (data_ (deref s b)).
Proof.
  intros Ha Hb Hshape.
  destruct (tensor_ok_same_shape _ _ Ha Hb Hshape) as (HA & HB & Hsize).
  destruct (add_run a b s Ha (eq_sym Hshape)) as
    (t & Hrun & Hok & Hin & Hbw & Hsz & Hsh & Hrg & Hg).
  exists t. split_and!; try done.
  unfold add in Hrun. rewrite <- Hshape, shapes_compatible_refl in Hrun.
  simpl in Hrun. unfold make_shared in Hrun.
  injection Hrun as Hrun. apply app_inv_head in Hrun. injection Hrun as <-.
  simpl. rewrite Hsize. by apply binary_data.
Qed.

(** X1. [add] succeeds exactly on operands of equal shape; the result is a
    new tensor of that shape holding the elementwise sums, with both operands
    as inputs, and it requires a gradient iff an operand does. On any other
    shapes it throws the shape error of [add] and the store is as before. *)
Theorem add_elementwise (s : store) (a b : ptr) :
  tensor_ok (deref s a) → tensor_ok (deref s b) →
  (shape_ (deref s a) = shape_ (deref s b) →
   ∃ t, add a b s = (inr (length s), s ++ [t]) ∧
        shape_ t = shape_ (deref s a) ∧
        data_ t = zip_with fadd (data_ (deref s a)) (data_ (deref s b)) ∧
        requires_grad_ t =
          requires_grad_ (deref s a) || requires_grad_ (deref s b) ∧
        inputs_ t = [a; b] ∧ tensor_ok t) ∧
  (shape_ (deref s a) ≠ shape_ (deref s b) →
   add a b s = (inl (runtime_error "Shape mismatch in addition"), s) ∧
   fails_with (add a b) s ShapeMismatch).
Proof.
  intros Ha Hb. split.
  - intros Hshape.
    destruct (add_run_data s a b Ha Hb Hshape) as
      (t & Hrun & Hok & Hin & _ & _ & Hsh & Hrg & _ & Hd).
    exists t. by split_and!.
  - intros Hshape.
    assert (Hrun : add a b s =
              (inl (runtime_error "Shape mismatch in addition"), s)).
    { unfold add.
      destruct (shapes_compatible _ _) eqn:Hc; [|done].
      by apply shapes_compatible_eq in Hc. }
    split; [done|]. by eexists.
Qed.

Lemma multiply_run (this other : ptr) (s : store) :
  tensor_ok (deref s this) →
  shape_ (deref s other) = shape_ (deref s this) →
  ∃ t,
    multiply this other s = (inr (length s), s ++ [t]) ∧
    tensor_ok t ∧ inputs_ t = [this; other] ∧
    backward_fn_ t = BwMultiply this other (length s) ∧
    size_ t = size_ (deref s this) ∧ shape_ t = shape_ (deref s this) ∧
    requires_grad_ t =
      requires_grad_ (deref s this) || requires_grad_ (deref s other) ∧
    grad_ t = replicate (length (grad_ t)) fzero.
Proof.
  intros Hok Hshape. unfold multiply. rewrite Hshape, shapes_compatible_refl. simpl.
  eexists. split; [reflexivity|]. split_and!; try done.
  - apply tensor_ok_set_graph, tensor_ok_set_data; [apply Tensor_of_shape_ok|].
    apply (length_for_vset _ (λ i _,
      fmul (vget (data_ (deref s this)) i) (vget (data_ (deref s other)) i))).
  - simpl. by destruct Hok as (-> & _).
  - apply Tensor_of_shape_fresh.
Qed.

Lemma multiply_run_data (s : store) (a b : ptr) :
  tensor_ok (deref s a) → tensor_ok (deref s b) →
  shape_ (deref s a) = shape_ (deref s b) →
  ∃ t, multiply a b s = (inr (length s), s ++ [t]) ∧
       tensor_ok t ∧ inputs_ t = [a; b] ∧
       backward_fn_ t = BwMultiply a b (length s) ∧
       size_ t = size_ (deref s a) ∧ shape_ t = shape_ (deref s a) ∧
       requires_grad_ t =
         requires_grad_ (deref s a) || requires_grad_ (deref s b) ∧
       grad_ t = replicate (length (grad_ t)) fzero ∧
       data_ t = zip_with fmul (data_ (deref s a)) (data_ (deref s b)).
Proof.
  intros Ha Hb Hshape.
  destruct (tensor_ok_same_shape _ _ Ha Hb Hshape) as (HA & HB & Hsize).
  destruct (multiply_run a b s Ha (eq_sym Hshape)) as
    (t & Hrun & Hok & Hin & Hbw & Hsz & Hsh & Hrg & Hg).
  exists t. split_and!; try done.
  unfold multiply in Hrun. rewrite <- Hshape, shapes_compatible_refl in Hrun.
  simpl in Hrun. unfold make_shared in Hrun.
  injection Hrun as Hrun. apply app_inv_head in Hrun. injection Hrun as <-.
  simpl. rewrite Hsize. by apply binary_data.
Qed.

(** X2. [multiply] succeeds exactly on operands of equal shape, the result
    holding the elementwise products; otherwise it throws the shape error of
    [multiply] and the store is as before. *)
Theorem multiply_elementwise (s : store) (a b : ptr) :
  tensor_ok (deref s a) → tensor_ok (deref s b) →
  (shape_ (deref s a) = shape_ (deref s b) →
   ∃ t, multiply a b s = (inr (length s), s ++ [t]) ∧
        shape_ t = shape_ (deref s a) ∧
        data_ t = zip_with fmul (data_ (deref s a)) (data_ (deref s b)) ∧
        requires_grad_ t =
          requires_grad_ (deref s a) || requires_grad_ (deref s b) ∧
        inputs_ t = [a; b] ∧ tensor_ok t) ∧
  (shape_ (deref s a) ≠ shape_ (deref s b) →
   multiply a b s = (inl (runtime_error "Shape mismatch in multiplication"), s) ∧
   fails_with (multiply a b) s ShapeMismatch).
Proof.
  intros Ha Hb. split.
  - intros Hshape.
    destruct (multiply_run_data s a b Ha Hb Hshape) as
      (t & Hrun & Hok & Hin & _ & _ & Hsh & Hrg & _ & Hd).
    exists t. by split_and!.
  - intros Hshape.
    assert (Hrun : multiply a b s =
              (inl (runtime_error "Shape mismatch in multiplication"), s)).
    { unfold multiply.
      destruct (shapes_compatible _ _) eqn:Hc; [|done].
      by apply shapes_compatible_eq in Hc. }
    split; [done|]. by eexists.
Qed.

Lemma compute_size_1 (n : N) : n < size_t_modulus → compute_size [n] = n.
Proof.
  intros Hn. unfold compute_size. simpl. unfold wrap.
  rewrite N.mul_1_l. by apply N.mod_small.
Qed.

Lemma flatten_run (s : store) (t : ptr) :
  tensor_ok (deref s t) →
  ∃ T,
    flatten t s = (inr (length s), s ++ [T]) ∧
    tensor_ok T ∧ inputs_ T = [t] ∧ backward_fn_ T = BwReshape t (length s) ∧
    size_ T = size_ (deref s t) ∧ shape_ T = [size_ (deref s t)] ∧
    requires_grad_ T = requires_grad_ (deref s t) ∧
    data_ T = data_ (deref s t) ∧
    grad_ T = replicate (length (grad_ T)) fzero.
Proof.
  intros Hok. unfold flatten.
  destruct (reshape_run t [size_ (deref s t)] s Hok) as
    (T & Hrun & HokT & Hin & Hbw & Hsz & Hsh & Hrg & Hd & Hg).
  { apply compute_size_1. destruct Hok as (-> & _). apply compute_size_lt. }
  exists T. by split_and!.
Qed.

(** X3. [flatten] never throws on a well-formed tensor: the result is a new
    tensor of shape [[size]] with the same data and [t] as its input, and
    flattening it again gives the same shape and data once more. *)
Theorem flatten_keeps_data (s : store) (t : ptr) :
  tensor_ok (deref s t) →
  ∃ T T2,
    flatten t s = (inr (length s), s ++ [T]) ∧
    shape_ T = [size_ (deref s t)] ∧ data_ T = data_ (deref s t) ∧
    size_ T = size_ (deref s t) ∧
    requires_grad_ T = requires_grad_ (deref s t) ∧
    inputs_ T = [t] ∧ tensor_ok T ∧
    flatten (length s) (s ++ [T]) = (inr (S (length s)), (s ++ [T]) ++ [T2]) ∧
    shape_ T2 = shape_ T ∧ data_ T2 = data_ T.
Proof.
  intros Hok.
  destruct (flatten_run s t Hok) as
    (T & Hrun & HokT & Hin & _ & Hsz & Hsh & Hrg & Hd & _).
  destruct (flatten_run (s ++ [T]) (length s)) as
    (T2 & Hrun2 & _ & _ & _ & _ & Hsh2 & _ & Hd2 & _).
  { by rewrite deref_snoc. }
  rewrite deref_snoc in Hsh2, Hd2. rewrite length_snoc in Hrun2.
  exists T, T2. split_and!; try done. by rewrite Hsh2, Hsz, Hsh.
Qed.

(** ** What [backward] leaves alone *)

Lemma backward_same_graph (s : store) (r : ptr) (fuel : nat) (s' : store) :
  backward fuel r s = Some s' → same_graph s s'.
Proof.
  unfold backward. intros Hrun.
  destruct (build_topo fuel s r (∅, [])) as [[visited topo]|]; [|done].
  simpl in Hrun. injection Hrun as <-.
  eapply same_graph_trans; [apply same_graph_fill_grad|].
  apply same_graph_run_reverse.
Qed.

(** X4. [backward] writes gradient values only: the store keeps its length,
    and every tensor keeps its data, shape, size, [requires_grad_], inputs,
    closure and the length of its gradient buffer. *)
Theorem backward_changes_only_gradients (s : store) (r : ptr) (fuel : nat)
    (s' : store) :
  backward fuel r s = Some s' →
  length s' = length s ∧
  ∀ p, data_ (deref s' p) = data_ (deref s p) ∧
       shape_ (deref s' p) = shape_ (deref s p) ∧
       size_ (deref s' p) = size_ (deref s p) ∧
       requires_grad_ (deref s' p) = requires_grad_ (deref s p) ∧
       inputs_ (deref s' p) = inputs_ (deref s p) ∧
       backward_fn_ (deref s' p) = backward_fn_ (deref s p) ∧
       length (grad_ (deref s' p)) = length (grad_ (deref s p)).
Proof.
  intros Hsame%backward_same_graph.
  split; [by destruct Hsame|]. intros p. by apply same_graph_fields.
Qed.

Lemma run_closures_frame (s : store) (q : ptr) (l : list ptr) (s0 : store) :
  (∀ t, t ∈ l → q ∉ closure_targets (backward_fn_ (deref s t))) →
  deref (foldl (λ s' t, run_closure (backward_fn_ (deref s t)) s') s0 l) q =
  deref s0 q.
Proof.
  revert s0. induction l as [|t l IH]; intros s0 Hl; simpl; [done|].
  rewrite IH by (intros t' Ht'; apply Hl; by right).
  apply run_closure_frame, Hl. by left.
Qed.


Lemma accumulate_no_grad (this p : ptr) (term : store → nat → F) (s : store) :
  requires_grad_ (deref s p) = false →
  deref (accumulate this term s) p = deref s p.
Proof.
  intros Hrg. destruct (decide (p = this)) as [->|Hne].
  - unfold accumulate. by rewrite Hrg.
  - by apply deref_accumulate_ne.
Qed.

Lemma deref_grad_loops_ne (s0 : store) (p0 q : ptr) (a b : nat)
    (idx : nat → nat → nat) (gs : nat → nat → store → F) :
  q ≠ p0 →
  deref (for_ a (λ i s1, for_ b (λ j s2,
           grad_add p0 (idx i j) (gs i j s2) s2) s1) s0) q = deref s0 q.
Proof.
  intros Hne. apply (for_invariant (λ s', deref s' q = deref s0 q)); [done|].
  intros i s1 _ Hs1.
  apply (for_invariant (λ s', deref s' q = deref s0 q)); [done|].
  intros j s2 _ Hs2. by rewrite deref_grad_add_ne.
Qed.

(** No closure writes into a tensor that does not require a gradient. *)
Lemma run_closure_no_grad (c : Closure) (s : store) (p : ptr) :
  requires_grad_ (deref s p) = false →
  deref (run_closure c s) p = deref s p.
Proof.
  intros Hrg.
  destruct c; simpl; try done; try (by apply accumulate_no_grad);
    try (rewrite accumulate_no_grad; [by apply accumulate_no_grad|];
         by rewrite accumulate_no_grad).
  match goal with |- deref (if _ then _ else ?s1) p = _ =>
    assert (Hs1 : deref s1 p = deref s p)
  end.
  { destruct (decide (p = this)) as [->|Hne]; [by rewrite Hrg|].
    destruct (requires_grad_ (deref s this)); [|done].
    by apply (deref_grad_loops_ne s this p _ _ (λ i j, index2 i k j)
      (λ i j s2, for_ (N.to_nat n) (λ l acc,
         fadd acc (fmul (rgrad s2 result (index2 i n l))
                        (rdata s2 other (index2 j n l)))) fzero)). }
  destruct (decide (p = other)) as [->|Hne].
  - by rewrite Hs1, Hrg.
  - match goal with |- deref (if ?b then _ else _) p = _ => destruct b end;
      [|exact Hs1].
    rewrite <- Hs1.
    by apply (deref_grad_loops_ne _ other p _ _ (λ i j, index2 i n j)
      (λ i j s2, for_ (N.to_nat m) (λ l acc,
         fadd acc (fmul (rdata s2 this (index2 l k i))
                        (rgrad s2 result (index2 l n j)))) fzero)).
Qed.

(** X6. [backward] never writes into a tensor that does not require a
    gradient: such a tensor, the root included, is exactly as before. *)
Theorem backward_skips_no_grad (s : store) (r : ptr) (fuel : nat) (s' : store)
    (p : ptr) :
  backward fuel r s = Some s' →
  tensor_ok (deref s p) → requires_grad_ (deref s p) = false →
  deref s' p = deref s p.
Proof.
  unfold backward. intros Hrun (_ & _ & Hgrad) Hrg.
  destruct (build_topo fuel s r (∅, [])) as [[visited topo]|]; [|done].
  simpl in Hrun. injection Hrun as <-. unfold run_reverse.
  assert (Hfill : deref (fill_grad r fone s) p = deref s p).
  { rewrite deref_fill_grad. destruct (decide (p = r)) as [->|_]; [|done].
    rewrite Hrg in Hgrad. rewrite Hgrad. simpl.
    rewrite <- (set_grad_id (deref s r)) at 2.
    f_equal. symmetry. by apply nil_length_inv. }
  rewrite <- Hfill. generalize (reverse topo). intros l.
  assert (Hrg0 : requires_grad_ (deref (fill_grad r fone s) p) = false)
    by (by rewrite Hfill).
  revert Hrg0. generalize (fill_grad r fone s). intros s0. revert s0.
  induction l as [|t l IH]; intros s0 Hrg0; simpl; [done|].
  rewrite IH by (by rewrite run_closure_no_grad).
  by apply run_closure_no_grad.
Qed.

(** ** The closures of [multiply] and [matmul] *)

(** X7. The closure of [multiply]: each operand's gradient receives the
    other operand's data times the result's gradient, element by element;
    and when both operands are the same tensor (a square), that tensor
    receives the term twice, one addition after the other. *)
Theorem multiply_backward_fn (s : store) (a b r : ptr) :
  a ≠ r → b ≠ r →
  tensor_ok (deref s a) → tensor_ok (deref s b) →
  requires_grad_ (deref s a) = true → requires_grad_ (deref s b) = true →
  let s' := run_closure (BwMultiply a b r) s in
  (a ≠ b →
   grad_ (deref s' a) =
     imap (λ i g, fadd g (fmul (rdata s b i) (rgrad s r i))) (grad_ (deref s a)) ∧
   grad_ (deref s' b) =
     imap (λ i g, fadd g (fmul (rdata s a i) (rgrad s r i))) (grad_ (deref s b))) ∧
  (a = b →
   grad_ (deref s' a) =
     imap (λ i g, fadd (fadd g (fmul (rdata s a i) (rgrad s r i)))
                       (fmul (rdata s a i) (rgrad s r i)))
          (grad_ (deref s a))) ∧
  (∀ p, p ≠ a → p ≠ b → deref s' p = deref s p).
Proof.
  intros Har Hbr (_ & _ & Hga) (_ & _ & Hgb) Hrga Hrgb s'.
  rewrite Hrga in Hga. rewrite Hrgb in Hgb.
  unfold s'. simpl.
  set (t1 := λ (s0 : list Tensor) i, fmul (rdata s0 b i) (rgrad s0 r i)).
  set (t2 := λ (s0 : list Tensor) i, fmul (rdata s0 a i) (rgrad s0 r i)).
  set (s1 := accumulate a t1 s).
  assert (Hi1 : ∀ i, ignores_grad_of a (λ s0, t1 s0 i)).
  { intros i s0 g. unfold t1. by rewrite rdata_set_grad, rgrad_set_grad. }
  assert (Hi2 : ∀ i, ignores_grad_of b (λ s0, t2 s0 i)).
  { intros i s0 g. unfold t2. by rewrite rdata_set_grad, rgrad_set_grad. }
  assert (Hsame : same_graph s s1) by apply same_graph_accumulate.
  assert (Hs1 : ∀ q, deref s1 q =
            if decide (q = a)
            then set_grad (deref s a) (imap (λ j x, fadd x (t1 s j)) (grad_ (deref s a)))
            else deref s q).
  { intros q. unfold s1. rewrite deref_accumulate by done. rewrite Hrga.
    destruct (decide (q = a)) as [->|Hne].
    - by destruct (decide (a = a ∧ true = true)) as [_|[]].
    - by destruct (decide (q = a ∧ true = true)) as [[? _]|_]. }
  assert (Ht2 : ∀ i, t2 s1 i = t2 s i).
  { intros i. unfold t2. rewrite (rdata_same_graph s s1) by done.
    unfold rgrad. rewrite Hs1. by destruct (decide (r = a)). }
  assert (Hs2 : ∀ q, deref (accumulate b t2 s1) q =
            if decide (q = b)
            then set_grad (deref s1 b)
                   (imap (λ j x, fadd x (t2 s j)) (grad_ (deref s1 b)))
            else deref s1 q).
  { intros q. rewrite deref_accumulate; [|done|].
    - destruct (same_graph_fields s s1 b Hsame) as (_ & _ & _ & -> & _).
      rewrite Hrgb. destruct (decide (q = b)) as [->|Hne].
      + destruct (decide (b = b ∧ true = true)) as [_|[]]; [|done..].
        f_equal. apply imap_ext. intros j x _. simpl. by rewrite Ht2.
      + by destruct (decide (q = b ∧ true = true)) as [[? _]|_].
    - destruct (same_graph_fields s s1 b Hsame) as (_ & _ & -> & _ & _ & _ & ->).
      done. }
  split_and!.
  - intros Hab. rewrite !Hs2, !Hs1.
    destruct (decide (a = b)); [done|]. destruct (decide (b = b)); [|done].
    destruct (decide (a = a)); [|done]. destruct (decide (b = a)); [done|].
    done.
  - intros <-. rewrite Hs2, Hs1.
    destruct (decide (a = a)); [|done]. simpl.
    apply list_eq. intros j. rewrite !list_lookup_imap.
    by destruct (grad_ (deref s a) !! j).
  - intros p Hpa Hpb. rewrite Hs2.
    destruct (decide (p = b)); [done|]. rewrite Hs1.
    by destruct (decide (p = a)).
Qed.

(** The values added at one index by a sequence of writes whose indices are
    distinct. *)
Lemma addends_at_keys {K : Type} (ks : list K) (idx : K → nat) (val : K → F)
    (k0 : K) :
  NoDup ks → k0 ∈ ks →
  (∀ k, k ∈ ks → idx k = idx k0 → k = k0) →
  addends_at (idx k0) ((λ k, (idx k, val k)) <$> ks) = [val k0].
Proof.
  unfold addends_at. intros Hnd Hin Hinj.
  induction ks as [|k ks IH]; [by apply elem_of_nil in Hin|].
  apply NoDup_cons in Hnd as [Hk Hnd].
  rewrite fmap_cons, filter_cons. simpl.
  destruct (decide (idx k = idx k0)) as [Heq|Hne].
  - assert (k = k0) as -> by (apply Hinj; [by left|done]).
    rewrite fmap_cons. simpl. f_equal.
    assert (Hnone : filter (λ w : nat * F, w.1 = idx k0)
                      ((λ k, (idx k, val k)) <$> ks) = []).
    { destruct (filter _ _) as [|w l] eqn:Hf; [done|].
      assert (Hw : w ∈ filter (λ w : nat * F, w.1 = idx k0)
                     ((λ k, (idx k, val k)) <$> ks)) by (rewrite Hf; left).
      apply list_elem_of_filter in Hw as [Hw1 Hw2].
      apply list_elem_of_fmap in Hw2 as (k' & -> & Hk'). simpl in Hw1.
      assert (k' = k0) as -> by (apply Hinj; [by right|done]). done. }
    by rewrite Hnone.
  - apply IH; [done| |].
    + apply elem_of_cons in Hin as [->|Hin]; done.
    + intros k' Hk'. apply Hinj. by right.
Qed.

Lemma elem_of_grid (m k : nat) (ij : nat * nat) :
  ij ∈ (i ← seq 0 m; (λ j, (i, j)) <$> seq 0 k) ↔ (ij.1 < m)%nat ∧ (ij.2 < k)%nat.
Proof.
  rewrite list_elem_of_bind. split.
  - intros (i & Hij & Hi). apply list_elem_of_fmap in Hij as (j & -> & Hj).
    apply elem_of_seq in Hi, Hj. simpl. lia.
  - intros [Hi Hj]. exists ij.1. split.
    + apply list_elem_of_fmap. exists ij.2. split; [by destruct ij|].
      apply elem_of_seq. lia.
    + apply elem_of_seq. lia.
Qed.

Lemma NoDup_grid (m k : nat) :
  NoDup (i ← seq 0 m; (λ j, (i, j)) <$> seq 0 k).
Proof.
  apply NoDup_bind; [| |apply NoDup_seq].
  - intros i1 i2 ij _ _ H1 H2.
    apply list_elem_of_fmap in H1 as (j1 & -> & _).
    apply list_elem_of_fmap in H2 as (j2 & Heq & _). congruence.
  - intros i _. apply NoDup_fmap_2; [|apply NoDup_seq]. intros j1 j2. congruence.
Qed.

Lemma index2_row_major (rows cols : N) (i j : nat) :
  rows * cols < size_t_modulus →
  (i < N.to_nat rows)%nat → (j < N.to_nat cols)%nat →
  index2 i cols j = (i * N.to_nat cols + j)%nat.
Proof. intros Hsmall Hi Hj. apply index2_small. nia. Qed.

(** One loop nest of the closure of [matmul], read at one entry. *)
Lemma vget_matmul_scatter (g : list F) (rows cols inner : N)
    (entry : store → nat → nat → nat → F) (s : store) (i0 j0 : nat) :
  rows * cols < size_t_modulus →
  length g = (N.to_nat rows * N.to_nat cols)%nat →
  (i0 < N.to_nat rows)%nat → (j0 < N.to_nat cols)%nat →
  vget (scatter g (matmul_writes rows cols inner cols entry s))
       (i0 * N.to_nat cols + j0) =
  fadd (vget g (i0 * N.to_nat cols + j0))
       (for_ (N.to_nat inner) (λ l acc, fadd acc (entry s i0 j0 l)) fzero).
Proof.
  intros Hsmall Hlen Hi Hj. rewrite vget_scatter by nia.
  unfold matmul_writes.
  rewrite <- (index2_row_major rows cols i0 j0) at 2 by done.
  rewrite (addends_at_keys _ (λ ij : nat * nat, index2 ij.1 cols ij.2)
             (λ ij, for_ (N.to_nat inner)
                      (λ l acc, fadd acc (entry s ij.1 ij.2 l)) fzero) (i0, j0)).
  - done.
  - apply NoDup_grid.
  - by apply elem_of_grid.
  - intros [i j] [Hi' Hj']%elem_of_grid. simpl in *.
    rewrite !(index2_row_major rows cols) by done. intros Heq.
    assert (i = i0) by nia. subst i. f_equal. lia.
Qed.

(** X8. The closure of [matmul] on distinct operands [A] ([m × k]) and [B]
    ([k × n]), the element counts being below 2^64: entry [(i, j)] of
    [A]'s gradient receives the sum over [l] of
    [result.grad[i*n+l] * B.data[j*n+l]] (the result's gradient times [B]
    transposed), entry [(i, j)] of [B]'s gradient the sum over [l] of
    [A.data[l*k+i] * result.grad[l*n+j]] ([A] transposed times the result's
    gradient), each sum starting from 0.0 and added in the order of [l]. *)
Theorem matmul_backward_fn (s : store) (a b r : ptr) (m k n : N) :
  a ≠ r → b ≠ r → a ≠ b →
  requires_grad_ (deref s a) = true → requires_grad_ (deref s b) = true →
  length (grad_ (deref s a)) = (N.to_nat m * N.to_nat k)%nat →
  length (grad_ (deref s b)) = (N.to_nat k * N.to_nat n)%nat →
  m * k < size_t_modulus → k * n < size_t_modulus → m * n < size_t_modulus →
  let s' := run_closure (BwMatmul a b r m k n) s in
  (∀ i j, (i < N.to_nat m)%nat → (j < N.to_nat k)%nat →
     rgrad s' a (i * N.to_nat k + j) =
       fadd (rgrad s a (i * N.to_nat k + j))
            (for_ (N.to_nat n) (λ l acc,
               fadd acc (fmul (rgrad s r (i * N.to_nat n + l))
                              (rdata s b (j * N.to_nat n + l)))) fzero)) ∧
  (∀ i j, (i < N.to_nat k)%nat → (j < N.to_nat n)%nat →
     rgrad s' b (i * N.to_nat n + j) =
       fadd (rgrad s b (i * N.to_nat n + j))
            (for_ (N.to_nat m) (λ l acc,
               fadd acc (fmul (rdata s a (l * N.to_nat k + i))
                              (rgrad s r (l * N.to_nat n + j)))) fzero)) ∧
  (∀ p, p ≠ a → p ≠ b → deref s' p = deref s p).
Proof.
  intros Har Hbr Hab Hrga Hrgb Hga Hgb Hmk Hkn Hmn s'.
  set (e1 := λ (s0 : list Tensor) (i j l : nat),
    fmul (rgrad s0 r (index2 i n l)) (rdata s0 b (index2 j n l))).
  set (e2 := λ (s0 : list Tensor) (i j l : nat),
    fmul (rdata s0 a (index2 l k i)) (rgrad s0 r (index2 l n j))).
  assert (Hi1 : ∀ i j l, ignores_grad_of a (λ s0, e1 s0 i j l)).
  { intros i j l s0 g. unfold e1. by rewrite rdata_set_grad, rgrad_set_grad. }
  assert (Hi2 : ∀ i j l, ignores_grad_of b (λ s0, e2 s0 i j l)).
  { intros i j l s0 g. unfold e2. by rewrite rdata_set_grad, rgrad_set_grad. }
  set (s1 := <[a := set_grad (deref s a)
                 (scatter (grad_ (deref s a)) (matmul_writes m k n k e1 s))]> s).
  assert (Hrun : s' =
    <[b := set_grad (deref s1 b)
             (scatter (grad_ (deref s1 b)) (matmul_writes k n m n e2 s1))]> s1).
  { unfold s'.
    rewrite run_closure_passes
      by (intros r' [= <-]; repeat constructor; simpl; congruence).
    cbn [closure_passes foldl fst snd]. unfold pass_store. rewrite Hrga.
    rewrite requires_grad_set_grad, Hrgb. reflexivity. }
  assert (Hb1 : deref s1 b = deref s b).
  { unfold s1. apply deref_set_grad_ne. congruence. }
  assert (Ha1 : deref s1 a =
    set_grad (deref s a)
      (scatter (grad_ (deref s a)) (matmul_writes m k n k e1 s))).
  { unfold s1. rewrite deref_set_grad by apply length_scatter.
    by destruct (decide (a = a)). }
  assert (He2 : matmul_writes k n m n e2 s1 = matmul_writes k n m n e2 s).
  { unfold matmul_writes. apply list_fmap_ext. intros _ [i j] _. simpl. f_equal.
    apply for_ext. intros l acc. f_equal. unfold e2, rdata, rgrad.
    rewrite Ha1. simpl. f_equal. f_equal. f_equal.
    unfold s1. by apply deref_set_grad_ne. }
  rewrite He2 in Hrun.
  split_and!.
  - intros i j Hi Hj. unfold rgrad at 1. rewrite Hrun.
    rewrite deref_set_grad_ne by done. rewrite Ha1. simpl.
    rewrite vget_matmul_scatter by done. f_equal.
    apply for_ext_lt. intros l acc Hl. unfold e1.
    by rewrite (index2_row_major m n), (index2_row_major k n) by done.
  - intros i j Hi Hj. unfold rgrad at 1. rewrite Hrun.
    rewrite deref_set_grad by apply length_scatter.
    destruct (decide (b = b)); [|done]. simpl. rewrite Hb1.
    rewrite vget_matmul_scatter by done. f_equal.
    apply for_ext_lt. intros l acc Hl. unfold e2.
    by rewrite (index2_row_major m k), (index2_row_major m n) by done.
  - intros p Hpa Hpb. rewrite Hrun.
    rewrite deref_set_grad_ne by done. unfold s1.
    by rewrite deref_set_grad_ne.
Qed.

(** ** [backward] through [mean], and repeated [backward] *)

Lemma graph_ok_same_graph (s s' : store) :
  same_graph s s' → graph_ok s → graph_ok s'.
Proof.
  intros Hsame Hok p.
  destruct (same_graph_fields s s' p Hsame) as (_ & _ & _ & _ & -> & _).
  apply Hok.
Qed.

Lemma closures_local_same_graph (s s' : store) :
  same_graph s s' → closures_local s → closures_local s'.
Proof.
  intros Hsame Hlocal p.
  destruct (same_graph_fields s s' p Hsame) as (_ & _ & _ & _ & -> & -> & _).
  apply Hlocal.
Qed.

Lemma reachable_same_graph (s s' : store) (r t : ptr) :
  same_graph s s' → reachable s r t → reachable s' r t.
Proof.
  intros Hsame Hreach. induction Hreach as [r|r i t Hi _ IH]; [constructor|].
  eapply reachable_step; [|done].
  by destruct (same_graph_fields s s' r Hsame) as (_ & _ & _ & _ & -> & _).
Qed.

(** One step of reading a gradient element back through an accumulation. *)
Local Ltac rg_step :=
  match goal with
  | |- context [rgrad (accumulate ?this ?term ?S) ?q ?j] =>
      erewrite (rgrad_accumulate_node _ S this q term j);
        [ | eassumption | eassumption
          | intros ? ? ?; by rewrite ?rdata_set_grad, ?rgrad_set_grad by done
          | done ];
      destruct (decide (q = this)); try done
  | |- context [rdata (accumulate ?this ?term ?S) ?q ?j] =>
      rewrite (rdata_same_graph S (accumulate this term S) q j)
        by apply same_graph_accumulate
  | |- context [rdata (fill_grad ?p ?v ?S) ?q ?j] =>
      rewrite (rdata_same_graph S (fill_grad p v S) q j)
        by apply same_graph_fill_grad
  | Hs := accumulate _ _ _ |- _ => progress unfold Hs
  | Hs := fill_grad _ _ _ |- _ => progress unfold Hs
  end.

(** [backward] from [r = c * scalar], [c = x.sum()], both created after
    [x]: the graph that [mean] builds. *)
Lemma scaled_sum_backward (s : store) (x c r : ptr) (scalar : F)
    (n : N) (rg : bool) (fuel : nat) (xi : list ptr) (xb : Closure) :
  graph_ok s → closures_local s →
  c ≠ r → (x < c)%nat → (x < r)%nat →
  node s r [c] (BwMultiplyScalar c scalar r) 1 rg →
  node s c [x] (BwSum x c) 1 rg →
  node s x xi xb n rg →
  fresh_grad s c →
  (x + 2 < fuel)%nat →
  ∃ s',
    backward fuel r s = Some s' ∧
    grad_ (deref s' x) =
      imap (λ j g, fadd g (fadd fzero (fmul scalar fone))) (grad_ (deref s x)).
Proof.
  intros Hok Hlocal Hcr Hx1 Hx2 Nr Nc Nx Fc Hfuel.
  destruct (build_topo_chain3 s x c r fuel Hok Hcr) as
    (visited & new & Hrun & Hle);
    try (by destruct Nr as (? & _), Nc as (? & _)).
  rewrite (backward_run _ _ _ _ _ Hrun). eexists. split; [done|].
  assert (Hne : x ≠ c ∧ x ≠ r) by lia.
  destruct Hne as (? & ?).
  rewrite reverse_app, foldl_app.
  rewrite run_below_frame by (by rewrite ?Forall_reverse).
  change (reverse [c; r]) with [r; c]. cbn [foldl].
  destruct Nr as (_ & Hbr & Hsr & Hrr & Hlr).
  pose proof Nc as (_ & Hbc & _ & _ & Hlc).
  pose proof Nx as (_ & _ & _ & _ & Hlx).
  rewrite Hbr, Hbc. cbn [run_closure].
  set (s0 := fill_grad r fone s).
  set (s1 := accumulate c _ s0).
  assert (Hs0 : same_graph s s0) by apply same_graph_fill_grad.
  assert (Hs1 : same_graph s s1)
    by (eapply same_graph_trans; [exact Hs0|apply same_graph_accumulate]).
  assert (Hs2 : same_graph s (accumulate x (λ s _, rgrad s c 0) s1))
    by (eapply same_graph_trans; [exact Hs1|apply same_graph_accumulate]).
  apply vget_ext.
  { rewrite length_imap.
    by destruct (same_graph_fields _ _ x Hs2) as (_ & _ & _ & _ & _ & _ & ->). }
  intros j Hj.
  assert (Hjx : (j < length (grad_ (deref s x)))%nat)
    by (by destruct (same_graph_fields _ _ x Hs2) as (_ & _ & _ & _ & _ & _ & <-)).
  clear Hj. rewrite vget_imap by done.
  destruct rg; [|rewrite Hlx in Hjx; lia].
  assert (Hjc : (0 < length (grad_ (deref s c)))%nat)
    by (rewrite Hlc; simpl; lia).
  change (vget (grad_ (deref ?S x)) j) with (rgrad S x j).
  repeat rg_step.
  rewrite !rgrad_fill_grad.
  repeat match goal with
         | |- context [decide (?p = ?q ∧ ?P)] =>
             destruct (decide (p = q ∧ P)) as [[? ?]|?]; try done
         end.
  - by rewrite (rgrad_fresh s c) by done.
  - exfalso. match goal with Hn : ¬ (r = r ∧ _) |- _ => apply Hn end.
    split; [done|]. rewrite Hlr. simpl. lia.
Qed.

(** X9. [backward] from [x.mean()], for any tensor [x] of a well-formed
    store: the mean is a sum scaled by [1.0 / size], and every element of
    [x]'s gradient receives [0.0 + (1.0 / size) * 1.0], the seed of the root
    passed through the scaling into the zeroed gradient of the sum. *)
Theorem mean_backward (s : store) (x : ptr) :
  graph_ok s → closures_local s →
  (x < length s)%nat → tensor_ok (deref s x) →
  grad_after_backward (mean x) x s =
    Some (imap (λ j g,
            fadd g (fadd fzero
                      (fmul (fdiv fone (of_size_t (size_ (deref s x)))) fone)))
            (grad_ (deref s x))).
Proof.
  intros Hgraph Hlocal Hx Hok. unfold grad_after_backward, mean.
  destruct (sum_run x s) as (C & -> & HokC & HiC & HbC & HsC & _ & HrC & _ & HgC).
  rewrite deref_snoc_lt by done. unfold multiply_scalar.
  destruct (elementwise_run (length s)
              (λ v, fmul v (fdiv fone (of_size_t (size_ (deref s x)))))
              (BwMultiplyScalar (length s) (fdiv fone (of_size_t (size_ (deref s x)))))
              (s ++ [C])) as
    (R & -> & HokR & HiR & HbR & HsR & _ & HrR & _ & HgR).
  { by rewrite deref_snoc. }
  rewrite deref_snoc in HsR, HrR.
  assert (HwfC : graph_ok (s ++ [C]) ∧ closures_local (s ++ [C])).
  { apply store_snoc; [done| |].
    - rewrite HiC. by repeat constructor.
    - by rewrite HbC, HiC. }
  assert (HwfR : graph_ok ((s ++ [C]) ++ [R]) ∧ closures_local ((s ++ [C]) ++ [R])).
  { apply store_snoc; [done| |].
    - rewrite HiR, length_snoc. repeat constructor; lia.
    - by rewrite HbR, HiR. }
  destruct HwfR as [HgraphR HlocalR].
  destruct (scaled_sum_backward ((s ++ [C]) ++ [R]) x (length s)
              (length (s ++ [C])) (fdiv fone (of_size_t (size_ (deref s x))))
              (size_ (deref s x)) (requires_grad_ (deref s x))
              (S (length (s ++ [C]))) (inputs_ (deref s x))
              (backward_fn_ (deref s x)) HgraphR HlocalR) as (s' & -> & Hg).
  - rewrite length_snoc. lia.
  - lia.
  - rewrite length_snoc. lia.
  - apply node_of_new; try done; congruence.
  - apply node_snoc; [rewrite length_snoc; lia|]. by apply node_of_new.
  - apply node_snoc; [rewrite length_snoc; lia|]. apply node_snoc; [lia|].
    by apply node_any.
  - apply fresh_grad_snoc; [rewrite length_snoc; lia|]. by apply fresh_grad_new.
  - rewrite length_snoc. lia.
  - simpl. f_equal. rewrite Hg.
    by rewrite !deref_snoc_lt by (rewrite ?length_snoc; lia).
Qed.


(** X10. [backward] does not reset gradients. For [r = x.sum()]: one
    [backward] adds 1.0 to every element of [x]'s gradient, a second one adds
    1.0 again, and only a [zero_grad] between two calls makes the next
    [backward] start from zero. *)
Theorem backward_accumulates_until_zero_grad (s : store) (x : ptr) :
  graph_ok s → closures_local s →
  (x < length s)%nat → tensor_ok (deref s x) →
  ∃ s0 s1 s2 s3 s4,
    let r := length s in
    let g := grad_ (deref s x) in
    sum x s = (inr r, s0) ∧
    backward (S r) r s0 = Some s1 ∧
    grad_ (deref s1 x) = imap (λ _ v, fadd v fone) g ∧
    backward (S r) r s1 = Some s2 ∧
    grad_ (deref s2 x) = imap (λ _ v, fadd (fadd v fone) fone) g ∧
    zero_grad (S r) r s2 = Some s3 ∧
    backward (S r) r s3 = Some s4 ∧
    grad_ (deref s4 x) = replicate (length g) (fadd fzero fone).
Proof.
  intros Hgraph Hlocal Hx Hok.
  destruct (sum_run x s) as (R & Hsum & HokR & HiR & HbR & HsR & _ & HrR & _ & HgR).
  set (s0 := s ++ [R]).
  assert (Hwf : graph_ok s0 ∧ closures_local s0).
  { apply store_snoc; [done| |].
    - rewrite HiR. by repeat constructor.
    - by rewrite HbR, HiR. }
  destruct Hwf as [Hgraph0 Hlocal0].
  assert (Nr : node s0 (length s) [x] (BwSum x (length s)) 1
                 (requires_grad_ (deref s x))) by (by apply node_of_new).
  assert (Nx : node s0 x (inputs_ (deref s x)) (backward_fn_ (deref s x))
                 (size_ (deref s x)) (requires_grad_ (deref s x))).
  { apply node_snoc; [done|]. by apply node_any. }
  assert (Hx0 : deref s0 x = deref s x) by (by apply deref_snoc_lt).
  assert (Hstep : ∀ s1, same_graph s0 s1 →
    ∃ s2, backward (S (length s)) (length s) s1 = Some s2 ∧
          grad_ (deref s2 x) = imap (λ _ v, fadd v fone) (grad_ (deref s1 x)) ∧
          same_graph s0 s2).
  { intros s1 Hsame.
    destruct (sum_backward s1 x (length s) (size_ (deref s x))
                (requires_grad_ (deref s x)) (S (length s))
                (inputs_ (deref s x)) (backward_fn_ (deref s x))) as
      (s2 & Hrun & Hg2).
    - by eapply graph_ok_same_graph.
    - by eapply closures_local_same_graph.
    - done.
    - by eapply node_same_graph.
    - by eapply node_same_graph.
    - lia.
    - exists s2. split_and!; [done|done|].
      eapply same_graph_trans; [done|]. by eapply backward_same_graph. }
  destruct (Hstep s0 (same_graph_refl s0)) as (s1 & Hrun1 & Hg1 & Hsame1).
  destruct (Hstep s1 Hsame1) as (s2 & Hrun2 & Hg2 & Hsame2).
  destruct (zero_grad_spec s0 Hgraph0 (S (length s)) (length s) s2 Hsame2) as
    (s3 & Hrun3 & Hlen3 & Hz3 & Hc3); [lia|].
  assert (Hsame3 : same_graph s0 s3).
  { eapply same_graph_trans; [exact Hsame2|].
    apply same_graph_pointwise; [done|]. intros p.
    destruct (Hc3 p) as [?|[_ ?]]; eauto. }
  destruct (Hstep s3 Hsame3) as (s4 & Hrun4 & Hg4 & _).
  exists s0, s1, s2, s3, s4. cbv zeta. split_and!; try done.
  - rewrite Hg1. by rewrite Hx0.
  - rewrite Hg2, Hg1, Hx0.
    apply list_eq. intros j. rewrite !list_lookup_imap.
    by destruct (grad_ (deref s x) !! j).
  - rewrite Hg4, (Hz3 x).
    + unfold zeroed. simpl.
      destruct (same_graph_fields s0 s2 x Hsame2) as (_ & _ & _ & _ & _ & _ & ->).
      rewrite Hx0.
      apply list_eq. intros j. rewrite list_lookup_imap.
      destruct (decide (j < length (grad_ (deref s x)))%nat) as [Hlt|Hge].
      * by rewrite !lookup_replicate_2.
      * by rewrite !lookup_ge_None_2 by (rewrite length_replicate; lia).
    + eapply reachable_step; [|constructor].
      unfold s0. rewrite deref_snoc, HiR. by left.
Qed.

(** ** The other optimizers and the schedulers ([darv_optimizer.hpp]) *)

(** [Optimizer::zero_grad]: [param->zero_grad()] for every parameter, in
    order. [Sequential::zero_grad] of [nn_layers.hpp] is the same loop over
    the list that [Sequential::parameters] returns. *)
Definition Optimizer_zero_grad (fuel : nat) (opt : Optimizer) (s : store)
    : option store :=
  foldl (λ acc param, acc ≫= zero_grad fuel param) (Some s) (parameters_ opt).

(** [void set_learning_rate(double lr)] *)
Definition set_learning_rate (lr : F) (opt : Optimizer) : Optimizer :=
  mkOptimizer (parameters_ opt) lr.

(** [class RMSprop]. *)
Record RMSprop := mkRMSprop {
  rmsprop_base : Optimizer;
  alpha_ : F;
  rmsprop_epsilon_ : F;
  square_avg_ : gmap nat (list F);
}.

Definition RMSprop_new (parameters : list ptr) (lr alpha epsilon : F)
    (s : store) : RMSprop :=
  {| rmsprop_base := mkOptimizer parameters lr;
     alpha_ := alpha; rmsprop_epsilon_ := epsilon;
     square_avg_ := init_state parameters s |}.

(** The body of the loop over [parameters_] in [RMSprop::step]. *)
Definition RMSprop_update (lr alpha epsilon : F) (param : ptr)
    (st : gmap nat (list F) * list Tensor) : gmap nat (list F) * list Tensor :=
  let '(square_avg, s) := st in
  let t := deref s param in
  if negb (requires_grad_ t) then st
  else
    let grad := grad_ t in
    let '(sq_avg, data) :=
      for_ (N.to_nat (size_ t)) (λ i '(sq_avg, data),
        let sq_avg := vset sq_avg i
          (fadd (fmul alpha (vget sq_avg i))
                (fmul (fmul (fsub fone alpha) (vget grad i)) (vget grad i))) in
        let data := vset data i
          (fsub (vget data i)
                (fdiv (fmul lr (vget grad i))
                      (fadd (fsqrt (vget sq_avg i)) epsilon))) in
        (sq_avg, data))
        (default [] (square_avg !! param), data_ t) in
    (<[param := sq_avg]> square_avg, <[param := set_data t data]> s).

Definition RMSprop_step (opt : RMSprop) (s : store) : RMSprop * list Tensor :=
  let '(square_avg, s') :=
    foldl (λ st param,
             RMSprop_update (learning_rate_ (rmsprop_base opt)) (alpha_ opt)
                            (rmsprop_epsilon_ opt) param st)
          (square_avg_ opt, s) (parameters_ (rmsprop_base opt)) in
  (mkRMSprop (rmsprop_base opt) (alpha_ opt) (rmsprop_epsilon_ opt) square_avg, s').

(** [class AdaGrad]. *)
Record AdaGrad := mkAdaGrad {
  adagrad_base : Optimizer;
  adagrad_epsilon_ : F;
  sum_squares_ : gmap nat (list F);
}.

Definition AdaGrad_new (parameters : list ptr) (lr epsilon : F) (s : store)
    : AdaGrad :=
  {| adagrad_base := mkOptimizer parameters lr;
     adagrad_epsilon_ := epsilon;
     sum_squares_ := init_state parameters s |}.

(** The body of the loop over [parameters_] in [AdaGrad::step]. *)
Definition AdaGrad_update (lr epsilon : F) (param : ptr)
    (st : gmap nat (list F) * list Tensor) : gmap nat (list F) * list Tensor :=
  let '(sum_squares, s) := st in
  let t := deref s param in
  if negb (requires_grad_ t) then st
  else
    let grad := grad_ t in
    let '(sum_sq, data) :=
      for_ (N.to_nat (size_ t)) (λ i '(sum_sq, data),
        let sum_sq := vset sum_sq i
          (fadd (vget sum_sq i) (fmul (vget grad i) (vget grad i))) in
        let data := vset data i
          (fsub (vget data i)
                (fdiv (fmul lr (vget grad i))
                      (fadd (fsqrt (vget sum_sq i)) epsilon))) in
        (sum_sq, data))
        (default [] (sum_squares !! param), data_ t) in
    (<[param := sum_sq]> sum_squares, <[param := set_data t data]> s).

Definition AdaGrad_step (opt : AdaGrad) (s : store) : AdaGrad * list Tensor :=
  let '(sum_squares, s') :=
    foldl (λ st param,
             AdaGrad_update (learning_rate_ (adagrad_base opt))
                            (adagrad_epsilon_ opt) param st)
          (sum_squares_ opt, s) (parameters_ (adagrad_base opt)) in
  (mkAdaGrad (adagrad_base opt) (adagrad_epsilon_ opt) sum_squares, s').

(** [StepLR::step(int epoch)]. [epoch % step_size_] is the remainder of the
    truncating division; with [step_size_ = 0] it is undefined in C++. The
    message printed on an update is left out. *)
Definition StepLR_step (step_size : Z) (gamma : F) (epoch : Z)
    (opt : Optimizer) : Optimizer :=
  if (Z.rem epoch step_size =? 0)%Z && (0 <? epoch)%Z
  then set_learning_rate (fmul (learning_rate_ opt) gamma) opt
  else opt.

(** *** [zero_grad] over the parameters *)

(** X11. [Optimizer::zero_grad] resets the gradient of every parameter and
    of every tensor reachable from a parameter to zeros, and changes no other
    tensor and no data. *)
Theorem optimizer_zero_grad_reachable (s : store) (opt : Optimizer) (fuel : nat) :
  graph_ok s → (∀ p, p ∈ parameters_ opt → (p < fuel)%nat) →
  ∃ s',
    Optimizer_zero_grad fuel opt s = Some s' ∧
    length s' = length s ∧
    (∀ q p, p ∈ parameters_ opt → reachable s p q →
       grad_ (deref s' q) = replicate (length (grad_ (deref s q))) fzero) ∧
    (∀ q, (∀ p, p ∈ parameters_ opt → ¬ reachable s p q) →
       deref s' q = deref s q) ∧
    (∀ q, data_ (deref s' q) = data_ (deref s q)).
Proof.
  intros Hok Hfuel. unfold Optimizer_zero_grad.
  assert (Hfold : ∀ ps s1,
    same_graph s s1 → (∀ p, p ∈ ps → (p < fuel)%nat) →
    ∃ s2,
      foldl (λ acc param, acc ≫= zero_grad fuel param) (Some s1) ps = Some s2 ∧
      length s2 = length s1 ∧
      (∀ q p, p ∈ ps → reachable s p q → deref s2 q = zeroed (deref s1 q)) ∧
      (∀ q, deref s2 q = deref s1 q ∨
            ((∃ p, p ∈ ps ∧ reachable s p q) ∧ deref s2 q = zeroed (deref s1 q)))).
  { induction ps as [|p ps IH]; intros s1 Hsame Hlt.
    - exists s1. simpl. split_and!; try done; [|by left].
      intros q p Hp. by apply elem_of_nil in Hp.
    - simpl.
      destruct (zero_grad_spec s Hok fuel p s1 Hsame) as
        (s1' & Hrun1 & Hlen1 & Hz1 & Hc1); [apply Hlt; by left|].
      rewrite Hrun1.
      destruct (IH s1') as (s2 & Hrun2 & Hlen2 & Hz2 & Hc2).
      { eapply same_graph_trans; [done|].
        apply same_graph_pointwise; [done|]. intros q.
        destruct (Hc1 q) as [?|[_ ?]]; eauto. }
      { intros j Hj. apply Hlt. by right. }
      exists s2. rewrite Hrun2. split_and!; [done|congruence| |].
      + intros q j [->|Hj]%elem_of_cons Hreach.
        * destruct (Hc2 q) as [->|[_ ->]]; rewrite (Hz1 q Hreach); [done|].
          apply zeroed_idemp.
        * rewrite (Hz2 q j Hj Hreach).
          destruct (Hc1 q) as [->|[_ ->]]; [done|apply zeroed_idemp].
      + intros q. destruct (Hc2 q) as [->|[(j & Hj & Hreach) ->]].
        * destruct (Hc1 q) as [->|[Hreach ->]]; [by left|].
          right. split; [|done]. exists p. split; [left|done].
        * right. split; [exists j; split; [by right|done]|].
          destruct (Hc1 q) as [->|[_ ->]]; [done|apply zeroed_idemp]. }
  destruct (Hfold (parameters_ opt) s (same_graph_refl s) Hfuel) as
    (s' & Hrun & Hlen & Hz & Hc).
  assert (Hsame : same_graph s s').
  { apply same_graph_pointwise; [done|]. intros q.
    destruct (Hc q) as [?|[_ ?]]; eauto. }
  exists s'. split_and!; try done.
  - intros q p Hp Hreach. by rewrite (Hz q p Hp Hreach).
  - intros q Hnot. destruct (Hc q) as [?|[(p & Hp & Hreach) _]]; [done|].
    by destruct (Hnot p Hp).
  - intros q. by destruct (same_graph_fields s s' q Hsame) as (-> & _).
Qed.

(** *** Optimizers with one state vector per parameter *)

(** The loop body shared by [RMSprop::step] and [AdaGrad::step]: element
    [i] of the state becomes [fs grad i] of it, then element [i] of the data
    becomes [fd grad i] of it and of the new state element. *)
Definition stateful_update (fs : list F → nat → F → F)
    (fd : list F → nat → F → F → F) (param : ptr)
    (st : gmap nat (list F) * list Tensor) : gmap nat (list F) * list Tensor :=
  let '(state, s) := st in
  let t := deref s param in
  if negb (requires_grad_ t) then st
  else
    let grad := grad_ t in
    let '(v, data) :=
      for_ (N.to_nat (size_ t)) (λ i '(v, data),
        let v := vset v i (fs grad i (vget v i)) in
        let data := vset data i (fd grad i (vget data i) (vget v i)) in
        (v, data))
        (default [] (state !! param), data_ t) in
    (<[param := v]> state, <[param := set_data t data]> s).

Lemma stateful_loop (n : nat) (fs : nat → F → F) (fd : nat → F → F → F)
    (v data : list F) :
  (n ≤ length v)%nat →
  for_ n (λ i '(v, data),
    let v := vset v i (fs i (vget v i)) in
    let data := vset data i (fd i (vget data i) (vget v i)) in
    (v, data)) (v, data) =
  (updated n fs v, updated n (λ i di, fd i di (fs i (vget v i))) data).
Proof.
  intros Hn. induction n as [|n IH]; [by rewrite !updated_0|].
  rewrite for_S, IH by lia. cbv zeta. rewrite !vget_updated_next.
  rewrite (vset_updated n fs v).
  rewrite vget_updated by lia. destruct (decide (n < S n)%nat); [|lia].
  f_equal.
  by rewrite <- (vset_updated n (λ i di, fd i di (fs i (vget v i))) data).
Qed.

Lemma stateful_update_frame fs fd (p q : ptr) st :
  q ≠ p → sgd_slot q (stateful_update fs fd p st) = sgd_slot q st.
Proof.
  intros Hne. destruct st as [state s]. unfold stateful_update, sgd_slot.
  destruct (requires_grad_ (deref s p)) eqn:Hrg; simpl; [|done].
  apply requires_grad_valid in Hrg.
  destruct (for_ _ _ _) as [v data]. simpl.
  rewrite lookup_insert_ne by done. rewrite deref_insert_valid by done.
  by destruct (decide (q = p)).
Qed.

Lemma stateful_update_local fs fd (p : ptr) st st' :
  sgd_slot p st = sgd_slot p st' →
  sgd_slot p (stateful_update fs fd p st) =
  sgd_slot p (stateful_update fs fd p st').
Proof.
  destruct st as [state s], st' as [state' s']. unfold sgd_slot. simpl.
  intros [= Hstate Hderef]. unfold stateful_update. rewrite <- Hderef, <- Hstate.
  destruct (requires_grad_ (deref s p)) eqn:Hrg; simpl; [|congruence].
  assert (Hp : (p < length s)%nat) by (by apply requires_grad_valid).
  assert (Hp' : (p < length s')%nat)
    by (apply requires_grad_valid; by rewrite <- Hderef).
  destruct (for_ _ _ _) as [v data]. simpl.
  rewrite !lookup_insert_eq. rewrite !deref_insert_valid by done.
  by destruct (decide (p = p)).
Qed.

Lemma stateful_update_skip fs fd (p : ptr) st :
  requires_grad_ (deref st.2 p) = false → stateful_update fs fd p st = st.
Proof.
  destruct st as [state s]. simpl. intros Hrg. unfold stateful_update.
  by rewrite Hrg.
Qed.

Lemma stateful_update_self fs fd (p : ptr) (state : gmap nat (list F))
    (s : store) :
  requires_grad_ (deref s p) = true → tensor_ok (deref s p) →
  length (default [] (state !! p)) = N.to_nat (size_ (deref s p)) →
  let g := grad_ (deref s p) in
  let v := default [] (state !! p) in
  sgd_slot p (stateful_update fs fd p (state, s)) =
    (Some (imap (fs g) v),
     set_data (deref s p)
       (imap (λ i di, fd g i di (fs g i (vget v i))) (data_ (deref s p)))).
Proof.
  intros Hrg (Hsize & Hdata & Hgrad) Hv g v.
  assert (Hp : (p < length s)%nat) by (by apply requires_grad_valid).
  unfold stateful_update, sgd_slot. rewrite Hrg. simpl.
  rewrite (stateful_loop _ (fs (grad_ (deref s p))) (fd (grad_ (deref s p))))
    by (by rewrite Hv).
  simpl. rewrite lookup_insert_eq, deref_insert_valid by done.
  destruct (decide (p = p)); [|done].
  rewrite <- Hv at 1. rewrite <- Hdata. by rewrite !updated_all.
Qed.

(** The loop over distinct parameters. *)
Lemma stateful_step fs fd (parameters : list ptr) (state : gmap nat (list F))
    (s : store) state' s' :
  NoDup parameters →
  (∀ p, p ∈ parameters →
     tensor_ok (deref s p) ∧
     length (default [] (state !! p)) = N.to_nat (size_ (deref s p))) →
  foldl (λ st param, stateful_update fs fd param st) (state, s) parameters =
    (state', s') →
  ∀ p,
    let g := grad_ (deref s p) in
    let v := default [] (state !! p) in
    (p ∉ parameters ∨ requires_grad_ (deref s p) = false →
     deref s' p = deref s p ∧ state' !! p = state !! p) ∧
    (p ∈ parameters → requires_grad_ (deref s p) = true →
     grad_ (deref s' p) = g ∧
     state' !! p = Some (imap (fs g) v) ∧
     data_ (deref s' p) =
       imap (λ i di, fd g i di (fs g i (vget v i))) (data_ (deref s p))).
Proof.
  intros Hnd Hparams Hfold p.
  pose proof (foldl_slots sgd_slot (stateful_update fs fd) parameters
                (state, s) p Hnd) as Hslot.
  rewrite Hfold in Hslot.
  specialize (Hslot (stateful_update_frame fs fd) (stateful_update_local fs fd)).
  split.
  - intros Hcase. destruct (decide (p ∈ parameters)) as [Hin|Hnin].
    + destruct Hcase as [?|Hrg]; [done|].
      rewrite stateful_update_skip in Hslot by done.
      unfold sgd_slot in Hslot. simpl in Hslot. by injection Hslot as -> ->.
    + unfold sgd_slot in Hslot. simpl in Hslot. by injection Hslot as -> ->.
  - intros Hin Hrg. destruct (decide (p ∈ parameters)); [|done].
    destruct (Hparams p Hin) as (Hok & Hv).
    rewrite stateful_update_self in Hslot by done.
    unfold sgd_slot in Hslot. simpl in Hslot.
    injection Hslot as -> ->. by split_and!.
Qed.

(** X12. [RMSprop::step] leaves parameters that do not require a gradient
    (and every tensor that is not a parameter) untouched; for the others,
    element by element, [sq = alpha*sq + (1 - alpha)*g*g] first and then
    [data -= lr*g / (sqrt(sq) + epsilon)] with the new [sq]; gradients are
    not changed. The constructor gives every parameter a zero average of its
    size. *)
Theorem rmsprop_step_updates :
  (∀ parameters lr alpha epsilon (s : store) p, p ∈ parameters →
     square_avg_ (RMSprop_new parameters lr alpha epsilon s) !! p =
       Some (replicate (N.to_nat (size_ (deref s p))) fzero)) ∧
  (∀ (opt : RMSprop) (s : store) opt' s',
     NoDup (parameters_ (rmsprop_base opt)) →
     (∀ p, p ∈ parameters_ (rmsprop_base opt) →
        tensor_ok (deref s p) ∧
        length (default [] (square_avg_ opt !! p)) = N.to_nat (size_ (deref s p))) →
     RMSprop_step opt s = (opt', s') →
     ∀ p,
       let lr := learning_rate_ (rmsprop_base opt) in
       let g := grad_ (deref s p) in
       let sq := default [] (square_avg_ opt !! p) in
       let new_sq := λ i a,
         fadd (fmul (alpha_ opt) a)
              (fmul (fmul (fsub fone (alpha_ opt)) (vget g i)) (vget g i)) in
       (p ∉ parameters_ (rmsprop_base opt) ∨ requires_grad_ (deref s p) = false →
        deref s' p = deref s p ∧ square_avg_ opt' !! p = square_avg_ opt !! p) ∧
       (p ∈ parameters_ (rmsprop_base opt) → requires_grad_ (deref s p) = true →
        grad_ (deref s' p) = g ∧
        square_avg_ opt' !! p = Some (imap new_sq sq) ∧
        data_ (deref s' p) =
          imap (λ i di,
            fsub di (fdiv (fmul lr (vget g i))
                          (fadd (fsqrt (new_sq i (vget sq i)))
                                (rmsprop_epsilon_ opt))))
            (data_ (deref s p)))).
Proof.
  split.
  - intros parameters lr alpha epsilon s p Hp. simpl. by apply init_state_lookup.
  - intros opt s opt' s' Hnd Hparams Hstep p. unfold RMSprop_step in Hstep.
    destruct (foldl _ _ _) as [sq' s''] eqn:Hfold.
    injection Hstep as <- <-. simpl.
    apply (stateful_step
      (λ grad i a, fadd (fmul (alpha_ opt) a)
                     (fmul (fmul (fsub fone (alpha_ opt)) (vget grad i)) (vget grad i)))
      (λ grad i d a, fsub d (fdiv (fmul (learning_rate_ (rmsprop_base opt)) (vget grad i))
                              (fadd (fsqrt a) (rmsprop_epsilon_ opt))))
      (parameters_ (rmsprop_base opt)) (square_avg_ opt) s sq' s'' Hnd Hparams Hfold).
Qed.

(** X13. [AdaGrad::step] leaves parameters that do not require a gradient
    (and every tensor that is not a parameter) untouched; for the others,
    element by element, [sum_sq += g*g] first and then
    [data -= lr*g / (sqrt(sum_sq) + epsilon)] with the new [sum_sq];
    gradients are not changed. The constructor gives every parameter a zero
    sum of its size. *)
Theorem adagrad_step_updates :
  (∀ parameters lr epsilon (s : store) p, p ∈ parameters →
     sum_squares_ (AdaGrad_new parameters lr epsilon s) !! p =
       Some (replicate (N.to_nat (size_ (deref s p))) fzero)) ∧
  (∀ (opt : AdaGrad) (s : store) opt' s',
     NoDup (parameters_ (adagrad_base opt)) →
     (∀ p, p ∈ parameters_ (adagrad_base opt) →
        tensor_ok (deref s p) ∧
        length (default [] (sum_squares_ opt !! p)) = N.to_nat (size_ (deref s p))) →
     AdaGrad_step opt s = (opt', s') →
     ∀ p,
       let lr := learning_rate_ (adagrad_base opt) in
       let g := grad_ (deref s p) in
       let sq := default [] (sum_squares_ opt !! p) in
       let new_sq := λ i a, fadd a (fmul (vget g i) (vget g i)) in
       (p ∉ parameters_ (adagrad_base opt) ∨ requires_grad_ (deref s p) = false →
        deref s' p = deref s p ∧ sum_squares_ opt' !! p = sum_squares_ opt !! p) ∧
       (p ∈ parameters_ (adagrad_base opt) → requires_grad_ (deref s p) = true →
        grad_ (deref s' p) = g ∧
        sum_squares_ opt' !! p = Some (imap new_sq sq) ∧
        data_ (deref s' p) =
          imap (λ i di,
            fsub di (fdiv (fmul lr (vget g i))
                          (fadd (fsqrt (new_sq i (vget sq i)))
                                (adagrad_epsilon_ opt))))
            (data_ (deref s p)))).
Proof.
  split.
  - intros parameters lr epsilon s p Hp. simpl. by apply init_state_lookup.
  - intros opt s opt' s' Hnd Hparams Hstep p. unfold AdaGrad_step in Hstep.
    destruct (foldl _ _ _) as [sq' s''] eqn:Hfold.
    injection Hstep as <- <-. simpl.
    apply (stateful_step
      (λ grad i a, fadd a (fmul (vget grad i) (vget grad i)))
      (λ grad i d a, fsub d (fdiv (fmul (learning_rate_ (adagrad_base opt)) (vget grad i))
                              (fadd (fsqrt a) (adagrad_epsilon_ opt))))
      (parameters_ (adagrad_base opt)) (sum_squares_ opt) s sq' s'' Hnd Hparams Hfold).
Qed.

(** *** [StepLR] *)

Lemma steplr_count (step_size : Z) (n : nat) :
  (0 < step_size)%Z →
  Z.to_nat ((Z.of_nat (S n) - 1) / step_size) =
    if (Z.rem (Z.of_nat n) step_size =? 0)%Z && (0 <? Z.of_nat n)%Z
    then S (Z.to_nat ((Z.of_nat n - 1) / step_size))
    else Z.to_nat ((Z.of_nat n - 1) / step_size).
Proof.
  intros Hstep.
  replace (Z.of_nat (S n) - 1)%Z with (Z.of_nat n) by lia.
  rewrite Z.rem_mod_nonneg by lia.
  pose proof (Z.div_mod (Z.of_nat n) step_size ltac:(lia)) as Hdm.
  pose proof (Z.mod_pos_bound (Z.of_nat n) step_size Hstep) as Hmod.
  set (q := (Z.of_nat n / step_size)%Z) in *.
  set (m := (Z.of_nat n mod step_size)%Z) in *.
  destruct (Z.eqb_spec m 0) as [Hm|Hm]; simpl.
  - destruct (Z.ltb_spec 0 (Z.of_nat n)) as [Hpos|Hzero].
    + assert (Hq : (1 ≤ q)%Z) by nia.
      assert (Hdiv : ((Z.of_nat n - 1) / step_size = q - 1)%Z).
      { symmetry. apply (Z.div_unique _ _ _ (step_size - 1)); lia. }
      rewrite Hdiv. lia.
    + assert (Hn : Z.of_nat n = 0%Z) by lia.
      assert (Hq : q = 0%Z) by (unfold q; rewrite Hn; apply Z.div_0_l; lia).
      assert (Hdiv : ((Z.of_nat n - 1) / step_size = -1)%Z).
      { symmetry. apply (Z.div_unique _ _ _ (step_size - 1)); lia. }
      rewrite Hdiv, Hq. done.
  - assert (Hdiv : ((Z.of_nat n - 1) / step_size = q)%Z).
    { symmetry. apply (Z.div_unique _ _ _ (m - 1)); lia. }
    by rewrite Hdiv.
Qed.

(** X14. [StepLR] compounds: after [step(0)], [step(1)], ..., [step(n-1)]
    with a positive [step_size_], the optimizer's learning rate has been
    multiplied by [gamma_] once for every positive multiple of [step_size_]
    below [n] ([(n-1) / step_size_] times, one multiplication after the
    other), epoch 0 not counting; the parameter list is not touched. *)
Theorem steplr_compounds (step_size : Z) (gamma : F) (n : nat) (opt : Optimizer) :
  (0 < step_size)%Z →
  let opt' := foldl (λ o epoch, StepLR_step step_size gamma (Z.of_nat epoch) o)
                    opt (seq 0 n) in
  parameters_ opt' = parameters_ opt ∧
  learning_rate_ opt' =
    Nat.iter (Z.to_nat ((Z.of_nat n - 1) / step_size))
             (λ lr, fmul lr gamma) (learning_rate_ opt).
Proof.
  intros Hstep. induction n as [|n [IHp IHl]].
  - assert (Hd : ((Z.of_nat 0 - 1) / step_size = -1)%Z)
      by (symmetry; apply (Z.div_unique _ _ _ (step_size - 1)); lia).
    split; [done|]. by rewrite Hd.
  - rewrite seq_S, foldl_app. cbn [foldl Nat.add]. cbv zeta in *.
    rewrite steplr_count by done. unfold StepLR_step at 1 3.
    destruct ((Z.rem (Z.of_nat n) step_size =? 0)%Z && (0 <? Z.of_nat n)%Z).
    + simpl. split; [done|]. by rewrite IHl.
    + done.
Qed.

(** ** [Linear::transpose] ([nn_layers.hpp]) *)

(** [transpose]: the buffer [data(rows * cols)] starts as zeros; the result
    is a tensor constructed from that buffer, with no inputs and the empty
    closure. *)
Definition transpose (t : ptr) : M ptr := λ s,
  let T := deref s t in
  match shape_ T with
  | [rows; cols] =>
      let data :=
        for_ (N.to_nat rows) (λ i d,
          for_ (N.to_nat cols) (λ j d,
            vset d (index2 j rows i) (vget (data_ T) (index2 i cols j))) d)
          (replicate (N.to_nat (wrap (rows * cols))) fzero) in
      match Tensor_of_data data [cols; rows] (requires_grad_ T) with
      | inl e => throw e s
      | inr r => make_shared r s
      end
  | _ => throw (runtime_error "Transpose requires 2D tensor") s
  end.

Lemma length_foldl_vset {K : Type} (ks : list K) (idx : K → nat) (val : K → F)
    (d : list F) :
  length (foldl (λ d k, vset d (idx k) (val k)) d ks) = length d.
Proof.
  revert d. induction ks as [|k ks IH]; intros d; simpl; [done|].
  rewrite IH. unfold vset. apply length_insert.
Qed.

Lemma foldl_vset_frame {K : Type} (ks : list K) (idx : K → nat) (val : K → F)
    (d : list F) (x : nat) :
  (∀ k, k ∈ ks → idx k ≠ x) →
  foldl (λ d k, vset d (idx k) (val k)) d ks !! x = d !! x.
Proof.
  revert d. induction ks as [|k ks IH]; intros d Hne; simpl; [done|].
  rewrite IH by (intros k' Hk'; apply Hne; by right).
  unfold vset. apply list_lookup_insert_ne. apply Hne. by left.
Qed.

(** A sequence of writes [d[idx k] = val k] at distinct indices. *)
Lemma foldl_vset_lookup {K : Type} (ks : list K) (idx : K → nat) (val : K → F)
    (d : list F) (k0 : K) :
  NoDup ks → k0 ∈ ks →
  (∀ k, k ∈ ks → idx k = idx k0 → k = k0) →
  (idx k0 < length d)%nat →
  foldl (λ d k, vset d (idx k) (val k)) d ks !! idx k0 = Some (val k0).
Proof.
  revert d. induction ks as [|k ks IH]; intros d Hnd Hin Hinj Hlt;
    [by apply elem_of_nil in Hin|].
  apply NoDup_cons in Hnd as [Hk Hnd]. simpl.
  destruct (decide (idx k = idx k0)) as [Heq|Hne].
  - assert (k = k0) as -> by (apply Hinj; [by left|done]).
    rewrite foldl_vset_frame.
    + unfold vset. by apply list_lookup_insert_eq.
    + intros k' Hk' Heq'. assert (k' = k0) by (apply Hinj; [by right|done]).
      by subst.
  - apply IH; [done| | |].
    + apply elem_of_cons in Hin as [->|Hin]; done.
    + intros k' Hk'. apply Hinj. by right.
    + unfold vset. by rewrite length_insert.
Qed.

Lemma transpose_run (s : store) (t : ptr) (rows cols : N) :
  shape_ (deref s t) = [rows; cols] → rows * cols < size_t_modulus →
  ∃ T',
    transpose t s = (inr (length s), s ++ [T']) ∧
    shape_ T' = [cols; rows] ∧
    requires_grad_ T' = requires_grad_ (deref s t) ∧
    inputs_ T' = [] ∧ backward_fn_ T' = BwNoop ∧ tensor_ok T' ∧
    length (data_ T') = (N.to_nat rows * N.to_nat cols)%nat ∧
    ∀ i j, (i < N.to_nat rows)%nat → (j < N.to_nat cols)%nat →
      data_ T' !! (j * N.to_nat rows + i)%nat =
        Some (vget (data_ (deref s t)) (i * N.to_nat cols + j)).
Proof.
  intros Hshape Hsmall. unfold transpose. rewrite Hshape.
  set (A := data_ (deref s t)).
  rewrite (for_for_foldl _ _ (λ i j d,
    vset d (index2 j rows i) (vget A (index2 i cols j)))).
  set (ks := i ← seq 0 (N.to_nat rows); (λ j, (i, j)) <$> seq 0 (N.to_nat cols)).
  set (data := foldl _ _ ks).
  assert (Hwrap : wrap (rows * cols) = rows * cols)
    by (unfold wrap; by apply N.mod_small).
  assert (Hlen : length data = (N.to_nat rows * N.to_nat cols)%nat).
  { unfold data.
    rewrite (length_foldl_vset ks (λ ij : nat * nat, index2 ij.2 rows ij.1)
               (λ ij, vget A (index2 ij.1 cols ij.2))).
    rewrite length_replicate, Hwrap. lia. }
  destruct (Tensor_of_data data [cols; rows] (requires_grad_ (deref s t)))
    as [e|T'] eqn:HT.
  { exfalso. assert (Hex : ∃ e, Tensor_of_data data [cols; rows]
                             (requires_grad_ (deref s t)) = inl e) by eauto.
    apply Tensor_of_data_inl in Hex. apply Hex.
    rewrite compute_size_2, Hlen by lia. lia. }
  pose proof (Tensor_of_data_ok _ _ _ _ HT) as HokT.
  apply Tensor_of_data_inr in HT as [_ ->].
  eexists. split; [reflexivity|]. simpl. split_and!; try done.
  intros i j Hi Hj.
  pose proof (foldl_vset_lookup ks (λ ij : nat * nat, index2 ij.2 rows ij.1)
                (λ ij, vget A (index2 ij.1 cols ij.2))
                (replicate (N.to_nat (wrap (rows * cols))) fzero) (i, j)
                (NoDup_grid _ _)) as Hlook.
  simpl in Hlook.
  rewrite (index2_row_major cols rows j i) in Hlook by (done || lia).
  rewrite (index2_row_major rows cols i j) in Hlook by done.
  apply Hlook.
  - by apply elem_of_grid.
  - intros [i' j'] [Hi' Hj']%elem_of_grid. simpl in *.
    rewrite (index2_row_major cols rows j' i') by (done || lia).
    intros Heq. assert (j' = j) by nia. subst j'. f_equal. lia.
  - rewrite length_replicate, Hwrap. nia.
Qed.

(** X15. [Linear::transpose] throws its own error on a tensor that is not of
    rank 2; on a [rows × cols] tensor (with [rows * cols] below 2^64) it
    returns a new [cols × rows] tensor whose entry [(j, i)] is the entry
    [(i, j)] of the argument. The result is constructed from the copied
    buffer: it has no inputs and the empty closure, so it is a leaf of the
    graph, with the [requires_grad] of the argument. *)
Theorem transpose_swaps_entries (s : store) (t : ptr) :
  (∀ rows cols, shape_ (deref s t) = [rows; cols] →
     rows * cols < size_t_modulus →
     ∃ T',
       transpose t s = (inr (length s), s ++ [T']) ∧
       shape_ T' = [cols; rows] ∧
       requires_grad_ T' = requires_grad_ (deref s t) ∧
       inputs_ T' = [] ∧ backward_fn_ T' = BwNoop ∧ tensor_ok T' ∧
       ∀ i j, (i < N.to_nat rows)%nat → (j < N.to_nat cols)%nat →
         data_ T' !! (j * N.to_nat rows + i)%nat =
           Some (vget (data_ (deref s t)) (i * N.to_nat cols + j))) ∧
  (length (shape_ (deref s t)) ≠ 2%nat →
   transpose t s = (inl (runtime_error "Transpose requires 2D tensor"), s)).
Proof.
  split.
  - intros rows cols Hshape Hsmall.
    destruct (transpose_run s t rows cols Hshape Hsmall) as
      (T' & Hrun & Hsh & Hrg & Hin & Hbw & Hok & _ & Hdata).
    exists T'. by split_and!.
  - intros Hrank. unfold transpose.
    by destruct (shape_ (deref s t)) as [|a [|b [|c l]]].
Qed.

(** X16. Transposing twice gives the shape and the data of the original
    back (for a well-formed [rows × cols] tensor with [rows * cols] below
    2^64). *)
Theorem transpose_involutive (s : store) (t : ptr) (rows cols : N) :
  tensor_ok (deref s t) → shape_ (deref s t) = [rows; cols] →
  rows * cols < size_t_modulus →
  ∃ T1 T2,
    transpose t s = (inr (length s), s ++ [T1]) ∧
    transpose (length s) (s ++ [T1]) = (inr (S (length s)), (s ++ [T1]) ++ [T2]) ∧
    shape_ T2 = shape_ (deref s t) ∧ data_ T2 = data_ (deref s t).
Proof.
  intros (Hsize & Hdata & _) Hshape Hsmall.
  destruct (transpose_run s t rows cols Hshape Hsmall) as
    (T1 & Hrun1 & Hsh1 & _ & _ & _ & _ & Hlen1 & Hd1).
  destruct (transpose_run (s ++ [T1]) (length s) cols rows) as
    (T2 & Hrun2 & Hsh2 & _ & _ & _ & _ & Hlen2 & Hd2).
  { by rewrite deref_snoc. }
  { lia. }
  rewrite deref_snoc in Hd2. rewrite length_snoc in Hrun2.
  exists T1, T2. split_and!; [done|done|congruence|].
  assert (HlenA : length (data_ (deref s t)) = (N.to_nat rows * N.to_nat cols)%nat).
  { rewrite Hdata, Hsize, Hshape, compute_size_2 by done. lia. }
  apply list_eq. intros x.
  destruct (decide (x < N.to_nat rows * N.to_nat cols)%nat) as [Hlt|Hge].
  - assert (Hc : (0 < N.to_nat cols)%nat) by nia.
    assert (Hx : x = (x / N.to_nat cols * N.to_nat cols + x mod N.to_nat cols)%nat).
    { pose proof (Nat.div_mod_eq x (N.to_nat cols)). lia. }
    assert (Hi : (x / N.to_nat cols < N.to_nat rows)%nat).
    { apply Nat.Div0.div_lt_upper_bound. lia. }
    assert (Hj : (x mod N.to_nat cols < N.to_nat cols)%nat)
      by (apply Nat.mod_upper_bound; lia).
    rewrite Hx at 1.
    rewrite (Hd2 (x mod N.to_nat cols) (x / N.to_nat cols))%nat by done.
    unfold vget. rewrite (Hd1 (x / N.to_nat cols) (x mod N.to_nat cols))%nat by done.
    simpl. rewrite <- Hx. unfold vget.
    by destruct (lookup_lt_is_Some_2 (data_ (deref s t)) x) as [v ->]; [lia|].
  - rewrite !lookup_ge_None_2; [done|lia|lia].
Qed.

Lemma deref_app_lt (s ext : store) (p : ptr) :
  (p < length s)%nat → deref (s ++ ext) p = deref s p.
Proof.
  intros Hp. unfold deref. rewrite !list_lookup_total_alt.
  by rewrite lookup_app_l.
Qed.

Lemma reachable_prefix (s ext : store) (r p : ptr) :
  graph_ok (s ++ ext) → (r < length s)%nat →
  reachable (s ++ ext) r p → reachable s r p.
Proof.
  intros Hok Hr Hreach. induction Hreach as [r|r i t Hi _ IH]; [constructor|].
  pose proof (graph_ok_input_lt _ _ _ Hok Hi) as Hlt.
  rewrite deref_app_lt in Hi by done.
  eapply reachable_step; [done|]. apply IH. lia.
Qed.


(** ** [MSELoss::compute] ([nn_layers.hpp]) *)

(** [MSELoss::compute]: [pred_flat + (-1.0 * target_flat)] is
    [pred_flat->add(target_flat->multiply_scalar(-1.0))], [diff * diff] is
    [diff->multiply(diff)]. *)
Definition MSELoss_compute (pred target : ptr) : M ptr :=
  bind (flatten pred) (λ pred_flat,
  bind (flatten target) (λ target_flat s,
    if negb (size_ (deref s pred_flat) =? size_ (deref s target_flat))
    then throw (runtime_error
                  "MSELoss: prediction and target must have same total size") s
    else
      bind (multiply_scalar target_flat (fopp fone)) (λ neg,
      bind (add pred_flat neg) (λ diff,
      bind (multiply diff diff) (λ squared,
      mean squared))) s)).

Lemma elementwise_data_map (f : F → F) (t : Tensor) :
  tensor_ok t → elementwise_data f t = f <$> data_ t.
Proof.
  intros (Hsize & Hdata & _). unfold elementwise_data.
  apply list_eq. intros i.
  rewrite (lookup_for_vset _ (λ i, f (vget (data_ t) i)))
    by (rewrite length_replicate, <- Hsize; lia).
  rewrite list_lookup_fmap. unfold vget.
  destruct (decide (i < N.to_nat (size_ t))%nat) as [Hlt|Hge].
  - by destruct (lookup_lt_is_Some_2 (data_ t) i) as [x ->]; [lia|].
  - rewrite (lookup_ge_None_2 (data_ t)) by lia.
    by rewrite lookup_ge_None_2 by (rewrite length_replicate, <- Hsize; lia).
Qed.

(** The squared differences that [MSELoss::compute] sums. *)
Definition squared_errors (P T : list F) : list F :=
  let diff := zip_with fadd P ((λ v, fmul v (fopp fone)) <$> T) in
  zip_with fmul diff diff.

(** The seven tensors that [MSELoss::compute] creates. *)
Lemma mse_run (s : store) (P T : ptr) :
  (P < length s)%nat → (T < length s)%nat →
  tensor_ok (deref s P) → tensor_ok (deref s T) →
  size_ (deref s P) = size_ (deref s T) →
  ∃ PF TF NG DF SQ SM MN,
    let n := size_ (deref s P) in
    let c := fdiv fone (of_size_t n) in
    let l := length s in
    let rgP := requires_grad_ (deref s P) in
    let rgT := requires_grad_ (deref s T) in
    MSELoss_compute P T s =
      (inr (l + 6)%nat, s ++ [PF; TF; NG; DF; SQ; SM; MN]) ∧
    (tensor_ok PF ∧ inputs_ PF = [P] ∧ backward_fn_ PF = BwReshape P l ∧
     size_ PF = n ∧ requires_grad_ PF = rgP ∧ data_ PF = data_ (deref s P) ∧
     grad_ PF = replicate (length (grad_ PF)) fzero) ∧
    (tensor_ok TF ∧ inputs_ TF = [T] ∧ backward_fn_ TF = BwReshape T (l + 1)%nat ∧
     size_ TF = n ∧ requires_grad_ TF = rgT ∧ data_ TF = data_ (deref s T) ∧
     grad_ TF = replicate (length (grad_ TF)) fzero) ∧
    (tensor_ok NG ∧ inputs_ NG = [(l + 1)%nat] ∧
     backward_fn_ NG = BwMultiplyScalar (l + 1)%nat (fopp fone) (l + 2)%nat ∧
     size_ NG = n ∧ requires_grad_ NG = rgT ∧
     data_ NG = (λ v, fmul v (fopp fone)) <$> data_ (deref s T) ∧
     grad_ NG = replicate (length (grad_ NG)) fzero) ∧
    (tensor_ok DF ∧ inputs_ DF = [l; (l + 2)%nat] ∧
     backward_fn_ DF = BwAdd l (l + 2)%nat (l + 3)%nat ∧
     size_ DF = n ∧ requires_grad_ DF = rgP || rgT ∧
     data_ DF = zip_with fadd (data_ (deref s P))
                  ((λ v, fmul v (fopp fone)) <$> data_ (deref s T)) ∧
     grad_ DF = replicate (length (grad_ DF)) fzero) ∧
    (tensor_ok SQ ∧ inputs_ SQ = [(l + 3)%nat; (l + 3)%nat] ∧
     backward_fn_ SQ = BwMultiply (l + 3)%nat (l + 3)%nat (l + 4)%nat ∧
     size_ SQ = n ∧ requires_grad_ SQ = rgP || rgT ∧
     data_ SQ = squared_errors (data_ (deref s P)) (data_ (deref s T)) ∧
     grad_ SQ = replicate (length (grad_ SQ)) fzero) ∧
    (tensor_ok SM ∧ inputs_ SM = [(l + 4)%nat] ∧
     backward_fn_ SM = BwSum (l + 4)%nat (l + 5)%nat ∧
     size_ SM = 1 ∧ requires_grad_ SM = rgP || rgT ∧
     data_ SM = [fold_left fadd
                   (squared_errors (data_ (deref s P)) (data_ (deref s T))) fzero] ∧
     grad_ SM = replicate (length (grad_ SM)) fzero) ∧
    (tensor_ok MN ∧ inputs_ MN = [(l + 5)%nat] ∧
     backward_fn_ MN = BwMultiplyScalar (l + 5)%nat c (l + 6)%nat ∧
     size_ MN = 1 ∧ shape_ MN = [1] ∧ requires_grad_ MN = rgP || rgT ∧
     data_ MN = [fmul (fold_left fadd
                   (squared_errors (data_ (deref s P)) (data_ (deref s T))) fzero) c]).
Proof.
  intros HP HT HokP HokT Hsize.
  unfold MSELoss_compute, bind.
  destruct (flatten_run s P HokP) as
    (PF & -> & HokPF & HiPF & HbPF & HsPF & HshPF & HrPF & HdPF & HgPF).
  set (s1 := s ++ [PF]).
  assert (Hl1 : length s1 = (length s + 1)%nat) by (unfold s1; rewrite length_snoc; lia).
  assert (HT1 : deref s1 T = deref s T) by (by apply deref_snoc_lt).
  destruct (flatten_run s1 T) as
    (TF & -> & HokTF & HiTF & HbTF & HsTF & HshTF & HrTF & HdTF & HgTF);
    [by rewrite HT1|].
  rewrite HT1 in HsTF, HshTF, HrTF, HdTF.
  set (s2 := s1 ++ [TF]).
  assert (Hl2 : length s2 = (length s + 2)%nat) by (unfold s2; rewrite length_snoc; lia).
  assert (Hpf2 : deref s2 (length s) = PF).
  { unfold s2. rewrite deref_snoc_lt by lia. apply deref_snoc. }
  assert (Htf2 : deref s2 (length s1) = TF) by apply deref_snoc.
  rewrite Hpf2, Htf2, HsPF, HsTF, Hsize, N.eqb_refl. cbn [negb].
  unfold multiply_scalar.
  destruct (elementwise_run (length s1) (λ v, fmul v (fopp fone))
              (BwMultiplyScalar (length s1) (fopp fone)) s2) as
    (NG & -> & HokNG & HiNG & HbNG & HsNG & HshNG & HrNG & HdNG & HgNG);
    [by rewrite Htf2|].
  rewrite Htf2 in HsNG, HshNG, HrNG, HdNG.
  rewrite elementwise_data_map in HdNG by done.
  set (s3 := s2 ++ [NG]).
  assert (Hl3 : length s3 = (length s + 3)%nat) by (unfold s3; rewrite length_snoc; lia).
  assert (Hpf3 : deref s3 (length s) = PF).
  { unfold s3. by rewrite deref_snoc_lt by lia. }
  assert (Hng3 : deref s3 (length s2) = NG) by apply deref_snoc.
  destruct (add_run_data s3 (length s) (length s2)) as
    (DF & -> & HokDF & HiDF & HbDF & HsDF & HshDF & HrDF & HgDF & HdDF).
  { by rewrite Hpf3. }
  { by rewrite Hng3. }
  { rewrite Hpf3, Hng3. congruence. }
  rewrite Hpf3, Hng3 in *.
  set (s4 := s3 ++ [DF]).
  assert (Hl4 : length s4 = (length s + 4)%nat) by (unfold s4; rewrite length_snoc; lia).
  assert (Hdf4 : deref s4 (length s3) = DF) by apply deref_snoc.
  destruct (multiply_run_data s4 (length s3) (length s3)) as
    (SQ & -> & HokSQ & HiSQ & HbSQ & HsSQ & HshSQ & HrSQ & HgSQ & HdSQ);
    [by rewrite Hdf4..|done|].
  rewrite Hdf4 in *.
  set (s5 := s4 ++ [SQ]).
  assert (Hl5 : length s5 = (length s + 5)%nat) by (unfold s5; rewrite length_snoc; lia).
  unfold mean.
  destruct (sum_run (length s4) s5) as
    (SM & -> & HokSM & HiSM & HbSM & HsSM & HshSM & HrSM & HdSM & HgSM).
  assert (Hsq5 : deref s5 (length s4) = SQ) by apply deref_snoc.
  rewrite Hsq5 in *.
  rewrite (deref_snoc_lt s5 SM) by lia. rewrite Hsq5.
  set (s6 := s5 ++ [SM]).
  assert (Hl6 : length s6 = (length s + 6)%nat) by (unfold s6; rewrite length_snoc; lia).
  unfold multiply_scalar.
  destruct (elementwise_run (length s5)
              (λ v, fmul v (fdiv fone (of_size_t (size_ SQ))))
              (BwMultiplyScalar (length s5) (fdiv fone (of_size_t (size_ SQ))))
              s6) as
    (MN & -> & HokMN & HiMN & HbMN & HsMN & HshMN & HrMN & HdMN & HgMN);
    [unfold s6; by rewrite deref_snoc|].
  unfold s6 in HsMN, HshMN, HrMN, HdMN. rewrite deref_snoc in HsMN, HshMN, HrMN, HdMN.
  rewrite elementwise_data_map in HdMN by done. fold s6 in HbMN.
  assert (Hn : size_ SQ = size_ (deref s P)) by congruence.
  exists PF, TF, NG, DF, SQ, SM, MN. cbv zeta.
  split.
  { f_equal; [f_equal; lia|].
    unfold s6, s5, s4, s3, s2, s1. by rewrite <- !app_assoc. }
  rewrite Hl1, Hl2, Hl3, Hl4, Hl5, Hl6 in *.
  assert (HrSQ' : requires_grad_ SQ =
            requires_grad_ (deref s P) || requires_grad_ (deref s T)).
  { rewrite HrSQ, HrDF, HrPF, HrNG, HrTF. apply orb_diag. }
  assert (HdSQ' : data_ SQ =
            squared_errors (data_ (deref s P)) (data_ (deref s T))).
  { unfold squared_errors. by rewrite HdSQ, HdDF, HdPF, HdNG, HdTF. }
  assert (HdMN' : data_ MN =
            [fmul (fold_left fadd
                     (squared_errors (data_ (deref s P)) (data_ (deref s T))) fzero)
                  (fdiv fone (of_size_t (size_ (deref s P))))]).
  { by rewrite HdMN, HdSM, HdSQ', Hn. }
  rewrite Hn in HbMN.
  split_and!; try done; try congruence.
Qed.

Lemma deref_app_new (s : store) (l : list Tensor) (i : nat) (t : Tensor) :
  l !! i = Some t → deref (s ++ l) (length s + i) = t.
Proof.
  intros Hi. apply deref_lookup. rewrite lookup_app_r by lia.
  by replace (length s + i - length s)%nat with i by lia.
Qed.

(** X18. [MSELoss::compute] on two well-formed tensors: when their sizes
    differ it throws its own error after the two flattened copies were made,
    and when they agree (whatever the shapes) it never throws and returns a
    new tensor of shape [[1]] holding
    [(sum of (p + t * -1.0) * (p + t * -1.0)) * (1.0 / size)], the sum
    starting from 0.0 in the order of the elements; it requires a gradient
    iff the prediction or the target does. The tensors that existed before
    are not changed. *)
Theorem mse_loss_value (s : store) (P T : ptr) :
  (P < length s)%nat → (T < length s)%nat →
  tensor_ok (deref s P) → tensor_ok (deref s T) →
  (size_ (deref s P) = size_ (deref s T) →
   ∃ s1,
     let r := (length s + 6)%nat in
     MSELoss_compute P T s = (inr r, s1) ∧
     (∀ p, (p < length s)%nat → deref s1 p = deref s p) ∧
     shape_ (deref s1 r) = [1] ∧
     data_ (deref s1 r) =
       [fmul (fold_left fadd
                (squared_errors (data_ (deref s P)) (data_ (deref s T))) fzero)
             (fdiv fone (of_size_t (size_ (deref s P))))] ∧
     requires_grad_ (deref s1 r) =
       requires_grad_ (deref s P) || requires_grad_ (deref s T)) ∧
  (size_ (deref s P) ≠ size_ (deref s T) →
   ∃ s1,
     MSELoss_compute P T s =
       (inl (runtime_error
               "MSELoss: prediction and target must have same total size"), s1) ∧
     (∀ p, (p < length s)%nat → deref s1 p = deref s p)).
Proof.
  intros HP HT HokP HokT. split.
  - intros Hsize.
    destruct (mse_run s P T HP HT HokP HokT Hsize) as
      (PF & TF & NG & DF & SQ & SM & MN & Hrun & _ & _ & _ & _ & _ & _ & HMN).
    cbv zeta in *.
    destruct HMN as (_ & _ & _ & _ & HshMN & HrMN & HdMN).
    eexists. split; [exact Hrun|].
    rewrite (deref_app_new s [PF; TF; NG; DF; SQ; SM; MN] 6 MN eq_refl).
    split_and!; try done.
    intros p Hp. by apply deref_app_lt.
  - intros Hsize. unfold MSELoss_compute, bind.
    destruct (flatten_run s P HokP) as
      (PF & -> & _ & _ & _ & HsPF & _).
    assert (HT1 : deref (s ++ [PF]) T = deref s T) by (by apply deref_snoc_lt).
    destruct (flatten_run (s ++ [PF]) T) as
      (TF & -> & _ & _ & _ & HsTF & _); [by rewrite HT1|].
    rewrite HT1 in HsTF.
    rewrite deref_snoc, deref_snoc_lt by (rewrite length_snoc; lia).
    rewrite deref_snoc, HsPF, HsTF.
    destruct (N.eqb_spec (size_ (deref s P)) (size_ (deref s T))); [done|].
    cbn [negb]. eexists. split; [reflexivity|].
    intros p Hp. rewrite <- app_assoc. by apply deref_app_lt.
Qed.

(** *** The gradient of the loss *)

(** The order in which [build_topo] leaves the graph of [MSELoss::compute]:
    what is below the prediction, the flattened prediction, what is below
    the target and was not seen yet, then the other new tensors. *)
Lemma build_topo_mse (s : store) (P T pf tf ng df sq sm r : ptr) (fuel : nat) :
  graph_ok s → NoDup [pf; tf; ng; df; sq; sm; r] →
  (∀ y, y ∈ [pf; tf; ng; df; sq; sm; r] → (P < y)%nat ∧ (T < y)%nat) →
  inputs_ (deref s r) = [sm] → inputs_ (deref s sm) = [sq] →
  inputs_ (deref s sq) = [df; df] → inputs_ (deref s df) = [pf; ng] →
  inputs_ (deref s pf) = [P] → inputs_ (deref s ng) = [tf] →
  inputs_ (deref s tf) = [T] →
  (P + 5 < fuel)%nat → (T + 6 < fuel)%nat →
  ∃ visited newP newT,
    build_topo fuel s r (∅, []) =
      Some (visited, newP ++ [pf] ++ newT ++ [tf; ng; df; sq; sm; r]) ∧
    Forall (λ y, (y ≤ P)%nat) newP ∧
    (∀ y, y ∈ newT → reachable s T y).
Proof.
  intros Hok Hnd Habove Hr Hsm Hsq Hdf Hpf Hng Htf HfP HfT.
  destruct fuel as [|[|[|[|[|[|[|fuel]]]]]]]; try lia.
  assert (Hne : ∀ a b, a ∈ [pf; tf; ng; df; sq; sm; r] →
            b ∈ [pf; tf; ng; df; sq; sm; r] → True) by done.
  repeat match goal with
         | Hn : NoDup (_ :: _) |- _ => apply NoDup_cons in Hn as [? Hn]
         end.
  rewrite build_topo_step, Hr by set_solver.
  cbn [foldl mbind option_bind fst snd app].
  rewrite build_topo_step, Hsm by set_solver.
  cbn [foldl mbind option_bind fst snd app].
  rewrite build_topo_step, Hsq by set_solver.
  cbn [foldl mbind option_bind fst snd app].
  rewrite build_topo_step, Hdf by set_solver.
  cbn [foldl mbind option_bind fst snd app].
  rewrite build_topo_step, Hpf by set_solver.
  cbn [foldl mbind option_bind fst snd app].
  set (V := ({[pf]} ∪ ({[df]} ∪ ({[sq]} ∪ ({[sm]} ∪ ({[r]} ∪ ∅))))) : gset nat).
  destruct (build_topo_spec s Hok (S (S fuel)) P V V []) as
    (newP & HrunP & HndP & HfirstP & HinP & HreachP & _).
  { lia. }
  { set_solver. }
  { intros y Hy. unfold V in Hy.
    assert (Hy' : y ∈ [pf; tf; ng; df; sq; sm; r]) by set_solver.
    by destruct (Habove y Hy'). }
  { constructor. }
  { intros j y Hj. by rewrite lookup_nil in Hj. }
  change ([] ++ newP) with newP in *.
  rewrite HrunP. cbn [foldl mbind option_bind fst snd app].
  assert (HleP : ∀ y, y ∈ newP → (y ≤ P)%nat).
  { intros y Hy. eapply reachable_le; [done|]. by apply HreachP. }
  assert (Hnew : ∀ y, y ∈ [pf; tf; ng; df; sq; sm; r] → y ∉ newP).
  { intros y Hy Hin. apply HleP in Hin. destruct (Habove y Hy). lia. }
  assert (ng ∉ newP) by (apply Hnew; set_solver).
  assert (tf ∉ newP) by (apply Hnew; set_solver).
  assert (pf ∉ newP) by (apply Hnew; set_solver).
  rewrite build_topo_step, Hng by set_solver.
  cbn [foldl mbind option_bind fst snd app].
  rewrite build_topo_step, Htf by set_solver.
  cbn [foldl mbind option_bind fst snd app].
  set (Vt := ({[tf]} ∪ ({[ng]} ∪ (V ∪ list_to_set newP))) : gset nat).
  destruct (build_topo_spec s Hok (S fuel) T
              ({[tf]} ∪ ({[ng]} ∪ ({[df]} ∪ ({[sq]} ∪ ({[sm]} ∪ {[r]})))))
              Vt (newP ++ [pf])) as
    (newT & HrunT & _ & _ & _ & HreachT & _).
  { lia. }
  { unfold Vt, V. rewrite list_to_set_app_L. set_solver. }
  { intros y Hy.
    assert (Hy' : y ∈ [pf; tf; ng; df; sq; sm; r]) by set_solver.
    by destruct (Habove y Hy'). }
  { apply NoDup_app. split_and!; [done| |apply NoDup_singleton].
    intros y Hy ->%list_elem_of_singleton. done. }
  { apply inputs_first_snoc; [done|]. rewrite Hpf.
    intros i ->%list_elem_of_singleton. done. }
  rewrite HrunT. cbn [foldl mbind option_bind fst snd app].
  rewrite build_topo_visited by (unfold Vt, V; set_solver).
  cbn [foldl mbind option_bind fst snd app].
  eexists _, newP, newT. split; [|split; [by apply Forall_forall|done]].
  f_equal. f_equal. by rewrite <- !app_assoc.
Qed.


End Coverage.

Section LossGradient.
Context {F : Type} `{Scalar F}.
Local Abbreviation Tensor := (@Tensor F) (only parsing).
Local Abbreviation Closure := (@Closure F) (only parsing).
Local Abbreviation store := (list Tensor) (only parsing).

(** One step of reading a gradient element back through an accumulation,
    with the comparison of the two pointers settled at once. *)
Local Ltac rg_read :=
  match goal with
  | |- context [rgrad (accumulate ?this ?term ?S) ?q ?j] =>
      erewrite (rgrad_accumulate_node _ S this q term j);
        [ | eassumption | eassumption
          | intros ? ? ?;
            by rewrite ?rdata_set_grad, ?rgrad_set_grad by congruence
          | done ];
      first [ rewrite (decide_True (P := q = this)) by reflexivity
            | rewrite (decide_False (P := q = this)) by congruence ]
  | |- context [rdata (accumulate ?this ?term ?S) ?q ?j] =>
      rewrite (rdata_same_graph S (accumulate this term S) q j)
        by apply same_graph_accumulate
  | |- context [rdata (fill_grad ?p ?v ?S) ?q ?j] =>
      rewrite (rdata_same_graph S (fill_grad p v S) q j)
        by apply same_graph_fill_grad
  | Hs := accumulate _ _ _ |- _ => progress unfold Hs
  | Hs := fill_grad _ _ _ |- _ => progress unfold Hs
  end.
Lemma same_graph_run_closures (s s0 : store) (l : list ptr) :
  same_graph s0 (foldl (λ s' t, run_closure (backward_fn_ (deref s t)) s') s0 l).
Proof.
  revert s0. induction l as [|t l IH]; intros s0; simpl; [apply same_graph_refl|].
  eapply same_graph_trans; [apply same_graph_run_closure|apply IH].
Qed.

(** [backward] from the root of the graph of [MSELoss::compute], read at the
    prediction [P]. [d] is the data of the difference tensor. *)
Lemma mse_graph_backward (s : store) (P T pf tf ng df sq sm r : ptr)
    (c neg : F) (n : N) (rgT : bool) (fuel : nat) (Pi : list ptr) (Pb : Closure) :
  graph_ok s → closures_local s →
  NoDup [pf; tf; ng; df; sq; sm; r] →
  (∀ y, y ∈ [pf; tf; ng; df; sq; sm; r] → (P < y)%nat ∧ (T < y)%nat) →
  ¬ reachable s T P →
  node s r [sm] (BwMultiplyScalar sm c r) 1 true →
  node s sm [sq] (BwSum sq sm) 1 true →
  node s sq [df; df] (BwMultiply df df sq) n true →
  node s df [pf; ng] (BwAdd pf ng df) n true →
  node s pf [P] (BwReshape P pf) n true →
  node s ng [tf] (BwMultiplyScalar tf neg ng) n rgT →
  node s tf [T] (BwReshape T tf) n rgT →
  node s P Pi Pb n true →
  fresh_grad s pf → fresh_grad s df → fresh_grad s sq → fresh_grad s sm →
  (P + 5 < fuel)%nat → (T + 6 < fuel)%nat →
  ∃ s',
    backward fuel r s = Some s' ∧
    grad_ (deref s' P) =
      imap (λ j g,
              let u := fadd fzero (fadd fzero (fmul c fone)) in
              let e := fmul (rdata s df j) u in
              fadd g (fadd fzero (fadd (fadd fzero e) e)))
           (grad_ (deref s P)).
Proof.
  intros Hok Hlocal Hnd Habove HTP Nr Nsm Nsq Ndf Npf Nng Ntf NP
    Fpf Fdf Fsq Fsm HfP HfT.
  destruct (build_topo_mse s P T pf tf ng df sq sm r fuel Hok Hnd Habove) as
    (visited & newP & newT & Hrun & HleP & HreachT);
    try (by repeat match goal with N : node _ _ _ _ _ _ |- _ =>
                     destruct N as (? & _) end); try done.
  rewrite (backward_run _ _ _ _ _ Hrun). eexists. split; [done|].
  assert (Hrev : reverse (newP ++ [pf] ++ newT ++ [tf; ng; df; sq; sm; r]) =
            [r; sm; sq; df; ng; tf] ++ reverse newT ++ [pf] ++ reverse newP).
  { rewrite !reverse_app. change (reverse [tf; ng; df; sq; sm; r])
      with [r; sm; sq; df; ng; tf]. change (reverse [pf]) with [pf].
    by rewrite <- !app_assoc. }
  rewrite Hrev, !foldl_app. clear Hrev.
  rewrite run_below_frame by (by rewrite ?Forall_reverse).
  assert (HP : ∀ y, y ∈ [pf; tf; ng; df; sq; sm; r] → P ≠ y ∧ T ≠ y).
  { intros y Hy. destruct (Habove y Hy). lia. }
  assert (HTne : T ≠ P) by (intros ->; apply HTP; constructor).
  destruct (HP pf) as [? ?]; [repeat constructor|].
  destruct (HP tf) as [? ?]; [repeat constructor|].
  destruct (HP ng) as [? ?]; [repeat constructor|].
  destruct (HP df) as [? ?]; [repeat constructor|].
  destruct (HP sq) as [? ?]; [repeat constructor|].
  destruct (HP sm) as [? ?]; [repeat constructor|].
  destruct (HP r) as [? ?]; [repeat constructor|].
  assert (Hpair : ∀ i j a b, [pf; tf; ng; df; sq; sm; r] !! i = Some a →
            [pf; tf; ng; df; sq; sm; r] !! j = Some b → i ≠ j → a ≠ b).
  { intros i j a b Hi Hj Hij ->. apply Hij.
    by apply (NoDup_lookup _ _ _ _ Hnd Hi Hj). }
  assert (pf ≠ tf) by (by apply (Hpair 0 1)%nat).
  assert (pf ≠ ng) by (by apply (Hpair 0 2)%nat).
  assert (pf ≠ df) by (by apply (Hpair 0 3)%nat).
  assert (pf ≠ sq) by (by apply (Hpair 0 4)%nat).
  assert (pf ≠ sm) by (by apply (Hpair 0 5)%nat).
  assert (pf ≠ r) by (by apply (Hpair 0 6)%nat).
  assert (df ≠ sq) by (by apply (Hpair 3 4)%nat).
  assert (df ≠ sm) by (by apply (Hpair 3 5)%nat).
  assert (df ≠ r) by (by apply (Hpair 3 6)%nat).
  assert (sq ≠ sm) by (by apply (Hpair 4 5)%nat).
  assert (sq ≠ r) by (by apply (Hpair 4 6)%nat).
  assert (sm ≠ r) by (by apply (Hpair 5 6)%nat).
  assert (df ≠ ng) by (by apply (Hpair 3 2)%nat).
  cbn [foldl].
  pose proof Nr as (_ & Hbr & _ & _ & Hlr).
  pose proof Nsm as (_ & Hbsm & _ & _ & Hlsm).
  pose proof Nsq as (_ & Hbsq & _ & _ & Hlsq).
  pose proof Ndf as (_ & Hbdf & _ & _ & Hldf).
  pose proof Npf as (_ & Hbpf & _ & _ & Hlpf).
  pose proof Nng as (_ & Hbng & _ & _ & _).
  pose proof Ntf as (_ & Hbtf & _ & _ & _).
  pose proof NP as (_ & _ & _ & _ & HlP).
  rewrite Hbr, Hbsm, Hbsq, Hbdf, Hbpf. cbn [run_closure].
  set (s0 := fill_grad r fone s).
  set (s1 := accumulate sm _ s0).
  set (s2 := accumulate sq _ s1).
  set (s3 := accumulate df _ s2).
  set (s4 := accumulate df _ s3).
  set (s5 := accumulate pf _ s4).
  set (s6 := accumulate ng _ s5).
  set (smid := foldl _ _ (reverse newT)).
  assert (Hs0 : same_graph s s0) by apply same_graph_fill_grad.
  assert (Hs1 : same_graph s s1)
    by (eapply same_graph_trans; [exact Hs0|apply same_graph_accumulate]).
  assert (Hs2 : same_graph s s2)
    by (eapply same_graph_trans; [exact Hs1|apply same_graph_accumulate]).
  assert (Hs3 : same_graph s s3)
    by (eapply same_graph_trans; [exact Hs2|apply same_graph_accumulate]).
  assert (Hs4 : same_graph s s4)
    by (eapply same_graph_trans; [exact Hs3|apply same_graph_accumulate]).
  assert (Hs5 : same_graph s s5)
    by (eapply same_graph_trans; [exact Hs4|apply same_graph_accumulate]).
  assert (Hs6 : same_graph s s6)
    by (eapply same_graph_trans; [exact Hs5|apply same_graph_accumulate]).
  assert (Hsmid : same_graph s smid).
  { eapply same_graph_trans; [|apply same_graph_run_closures].
    eapply same_graph_trans; [|apply same_graph_run_closure].
    eapply same_graph_trans; [|apply same_graph_run_closure]. exact Hs6. }
  assert (Hframe : ∀ q, q ≠ T → q ≠ tf → q ≠ ng →
            (∀ y, y ∈ newT → q ∉ inputs_ (deref s y)) →
            deref smid q = deref s5 q).
  { intros q HqT Hqtf Hqng Hq. unfold smid.
    rewrite run_closures_frame.
    - rewrite Hbtf, Hbng. cbn [run_closure].
      rewrite (deref_accumulate_ne T) by done.
      rewrite (deref_accumulate_ne tf) by done.
      unfold s6. by rewrite (deref_accumulate_ne ng) by done.
    - intros y Hy Hin. rewrite elem_of_reverse in Hy. apply (Hq y Hy).
      specialize (Hlocal y). rewrite Forall_forall in Hlocal. by apply Hlocal. }
  assert (HfrP : deref smid P = deref s5 P).
  { apply Hframe; try done. intros y Hy Hin. apply HTP.
    eapply reachable_trans; [by apply HreachT|].
    eapply reachable_step; [exact Hin|constructor]. }
  assert (Hfrpf : deref smid pf = deref s5 pf).
  { apply Hframe; try done. intros y Hy Hin.
    pose proof (reachable_le s T y Hok (HreachT y Hy)) as Hle1.
    pose proof (graph_ok_input_lt s y pf Hok Hin) as Hle2.
    destruct (Habove pf) as [_ Hle3]; [repeat constructor|].
    clear - Hle1 Hle2 Hle3. lia. }
  assert (Hsfin : same_graph s (accumulate P (λ s i, rgrad s pf i) smid))
    by (eapply same_graph_trans; [exact Hsmid|apply same_graph_accumulate]).
  apply vget_ext.
  { rewrite length_imap.
    by destruct (same_graph_fields _ _ P Hsfin) as (_ & _ & _ & _ & _ & _ & ->). }
  intros j Hj.
  assert (HjP : (j < length (grad_ (deref s P)))%nat)
    by (by destruct (same_graph_fields _ _ P Hsfin) as (_ & _ & _ & _ & _ & _ & <-)).
  clear Hj. rewrite vget_imap by done.
  assert (Hjn : (j < N.to_nat n)%nat) by (by rewrite <- HlP).
  assert (Hjpf : (j < length (grad_ (deref s pf)))%nat) by (by rewrite Hlpf).
  assert (Hjdf : (j < length (grad_ (deref s df)))%nat) by (by rewrite Hldf).
  assert (Hjsq : (j < length (grad_ (deref s sq)))%nat) by (by rewrite Hlsq).
  assert (H0sm : (0 < length (grad_ (deref s sm)))%nat)
    by (rewrite Hlsm; clear; simpl; lia).
  change (vget (grad_ (deref ?S P)) j) with (rgrad S P j).
  erewrite (rgrad_accumulate_node _ smid P P _ j);
    [ | exact Hsmid | exact NP
      | intros ? ? ?; by rewrite ?rdata_set_grad, ?rgrad_set_grad by done
      | done ].
  rewrite decide_True by done.
  unfold rgrad at 1 2. rewrite HfrP, Hfrpf.
  change (vget (grad_ (deref ?S ?q)) j) with (rgrad S q j).
  repeat rg_read.
  rewrite !rgrad_fill_grad.
  rewrite (decide_True (P := r = r ∧ _)) by (split; [done|rewrite Hlr; clear; simpl; lia]).
  rewrite !(decide_False (P := _ = r ∧ _)) by (intros [? _]; congruence).
  rewrite (rgrad_fresh s pf), (rgrad_fresh s df), (rgrad_fresh s sq),
    (rgrad_fresh s sm) by done. done.
Qed.

Lemma store_app (s ext : store) :
  graph_ok s ∧ closures_local s →
  (∀ i t, ext !! i = Some t →
     Forall (λ q, (q < length s + i)%nat) (inputs_ t) ∧
     closure_targets (backward_fn_ t) = inputs_ t) →
  graph_ok (s ++ ext) ∧ closures_local (s ++ ext).
Proof.
  intros Hs. induction ext as [|t ext IH] using rev_ind; intros Hext.
  - by rewrite app_nil_r.
  - rewrite app_assoc.
    destruct (Hext (length ext) t) as [Hin Htargets].
    { by rewrite lookup_app_r, Nat.sub_diag by lia. }
    apply store_snoc; [|by rewrite length_app|done].
    apply IH. intros i t' Hi. apply Hext.
    rewrite lookup_app_l; [done|]. by eapply lookup_lt_Some.
Qed.

Lemma vget_fmap (f : F → F) (l : list F) (j : nat) :
  (j < length l)%nat → vget (f <$> l) j = f (vget l j).
Proof.
  intros Hj. unfold vget. rewrite list_lookup_fmap.
  by destruct (lookup_lt_is_Some_2 l j Hj) as [x ->].
Qed.

Lemma vget_zip_with (f : F → F → F) (a b : list F) (j : nat) :
  (j < length a)%nat → (j < length b)%nat →
  vget (zip_with f a b) j = f (vget a j) (vget b j).
Proof.
  intros Ha Hb. unfold vget. rewrite lookup_zip_with.
  destruct (lookup_lt_is_Some_2 a j Ha) as [x ->].
  by destruct (lookup_lt_is_Some_2 b j Hb) as [y ->].
Qed.

(** X19. The gradient of the mean squared error. For a prediction [P] that
    requires a gradient and a target [T] of the same size that does not
    depend on [P], [backward] from [MSELoss::compute (P, T)] adds to
    [P->grad_[j]] the value [0.0 + ((0.0 + d * u) + d * u)], where
    [d = P->data_[j] + T->data_[j] * -1.0] and
    [u = 0.0 + (0.0 + (1.0 / size) * 1.0)]: twice the difference divided by
    the number of elements, in the order and rounding of the code. *)
Theorem mse_loss_gradient (s : store) (P T : ptr) :
  graph_ok s → closures_local s →
  (P < length s)%nat → (T < length s)%nat →
  tensor_ok (deref s P) → tensor_ok (deref s T) →
  size_ (deref s P) = size_ (deref s T) →
  requires_grad_ (deref s P) = true →
  ¬ reachable s T P →
  grad_after_backward (MSELoss_compute P T) P s =
    Some (imap (λ j g,
            let u := fadd fzero (fadd fzero
                       (fmul (fdiv fone (of_size_t (size_ (deref s P)))) fone)) in
            let d := fadd (rdata s P j) (fmul (rdata s T j) (fopp fone)) in
            fadd g (fadd fzero (fadd (fadd fzero (fmul d u)) (fmul d u))))
          (grad_ (deref s P))).
Proof.
  intros Hgraph Hlocal HP HT HokP HokT Hsize HrgP HTP.
  unfold grad_after_backward.
  destruct (mse_run s P T HP HT HokP HokT Hsize) as
    (PF & TF & NG & DF & SQ & SM & MN & Hrun & HPF & HTF & HNG & HDF & HSQ &
     HSM & HMN).
  cbv zeta in *. rewrite Hrun, HrgP in *. cbn [orb] in *.
  destruct HPF as (HokPF & HiPF & HbPF & HsPF & HrPF & _ & HgPF).
  destruct HTF as (HokTF & HiTF & HbTF & HsTF & HrTF & _ & _).
  destruct HNG as (HokNG & HiNG & HbNG & HsNG & HrNG & _ & _).
  destruct HDF as (HokDF & HiDF & HbDF & HsDF & HrDF & HdDF & HgDF).
  destruct HSQ as (HokSQ & HiSQ & HbSQ & HsSQ & HrSQ & _ & HgSQ).
  destruct HSM as (HokSM & HiSM & HbSM & HsSM & HrSM & _ & HgSM).
  destruct HMN as (HokMN & HiMN & HbMN & HsMN & _ & HrMN & _).
  set (ext := [PF; TF; NG; DF; SQ; SM; MN]).
  set (l := length s) in *.
  pose proof (deref_app_new s ext 0 PF eq_refl) as Hd0.
  pose proof (deref_app_new s ext 1 TF eq_refl) as Hd1.
  pose proof (deref_app_new s ext 2 NG eq_refl) as Hd2.
  pose proof (deref_app_new s ext 3 DF eq_refl) as Hd3.
  pose proof (deref_app_new s ext 4 SQ eq_refl) as Hd4.
  pose proof (deref_app_new s ext 5 SM eq_refl) as Hd5.
  pose proof (deref_app_new s ext 6 MN eq_refl) as Hd6.
  fold l in Hd0, Hd1, Hd2, Hd3, Hd4, Hd5, Hd6.
  rewrite Nat.add_0_r in Hd0.
  assert (HdP : deref (s ++ ext) P = deref s P) by (by apply deref_app_lt).
  assert (Hwf : graph_ok (s ++ ext) ∧ closures_local (s ++ ext)).
  { apply store_app; [done|]. fold l.
    intros [|[|[|[|[|[|[|i]]]]]]] t Ht; simplify_eq/=.
    - rewrite HbPF, HiPF. split; [|done]. repeat constructor; lia.
    - rewrite HbTF, HiTF. split; [|done]. repeat constructor; lia.
    - rewrite HbNG, HiNG. split; [|done]. repeat constructor; lia.
    - rewrite HbDF, HiDF. split; [|done]. repeat constructor; lia.
    - rewrite HbSQ, HiSQ. split; [|done]. repeat constructor; lia.
    - rewrite HbSM, HiSM. split; [|done]. repeat constructor; lia.
    - rewrite HbMN, HiMN. split; [|done]. repeat constructor; lia. }
  destruct Hwf as [Hgraph' Hlocal'].
  assert (Hnode : ∀ p (t : Tensor), deref (s ++ ext) p = t → tensor_ok t →
            node (s ++ ext) p (inputs_ t) (backward_fn_ t) (size_ t)
              (requires_grad_ t)).
  { intros p t <- Hok. by apply node_any. }
  destruct (mse_graph_backward (s ++ ext) P T l (l + 1) (l + 2) (l + 3) (l + 4)
              (l + 5) (l + 6) (fdiv fone (of_size_t (size_ (deref s P))))
              (fopp fone) (size_ (deref s P)) (requires_grad_ (deref s T))
              (S (l + 6)) (inputs_ (deref s P)) (backward_fn_ (deref s P))
              Hgraph' Hlocal')%nat as (s' & -> & Hg).
  - repeat (apply NoDup_cons; split;
              [rewrite ?elem_of_cons, elem_of_nil; lia|]).
    apply NoDup_nil_2.
  - intros y Hy. rewrite ?elem_of_cons, elem_of_nil in Hy. lia.
  - intros Hreach. apply HTP. by eapply reachable_prefix.
  - specialize (Hnode _ _ Hd6 HokMN). by rewrite HiMN, HbMN, HsMN, HrMN in Hnode.
  - specialize (Hnode _ _ Hd5 HokSM). by rewrite HiSM, HbSM, HsSM, HrSM in Hnode.
  - specialize (Hnode _ _ Hd4 HokSQ). by rewrite HiSQ, HbSQ, HsSQ, HrSQ in Hnode.
  - specialize (Hnode _ _ Hd3 HokDF). by rewrite HiDF, HbDF, HsDF, HrDF in Hnode.
  - specialize (Hnode _ _ Hd0 HokPF). by rewrite HiPF, HbPF, HsPF, HrPF in Hnode.
  - specialize (Hnode _ _ Hd2 HokNG). by rewrite HiNG, HbNG, HsNG, HrNG in Hnode.
  - specialize (Hnode _ _ Hd1 HokTF). by rewrite HiTF, HbTF, HsTF, HrTF in Hnode.
  - specialize (Hnode _ _ HdP HokP). by rewrite HrgP in Hnode.
  - unfold fresh_grad. by rewrite Hd0.
  - unfold fresh_grad. by rewrite Hd3.
  - unfold fresh_grad. by rewrite Hd4.
  - unfold fresh_grad. by rewrite Hd5.
  - lia.
  - lia.
  - simpl. f_equal. rewrite Hg, HdP. apply imap_ext. intros j g Hj.
    cbv zeta. unfold rdata. rewrite Hd3, HdDF.
    destruct HokP as (_ & HlenP & HgP), HokT as (_ & HlenT & _).
    rewrite HrgP in HgP.
    assert (Hlt : (j < length (grad_ (deref s P)))%nat)
      by (by eapply lookup_lt_Some).
    rewrite !vget_zip_with, !vget_fmap
      by (rewrite ?length_fmap; rewrite ?HlenP, ?HlenT, <- ?Hsize; lia).
    done.
Qed.

(** ** The unary operations ([darv_tensor.hpp]) *)

(** X20. [multiply_scalar], [pow], [relu], [sigmoid] and [tanh_] never
    throw: each appends one tensor of the operand's shape whose data is the
    operand's data mapped through the function of the operation, with the
    operand as its only input and the operand's [requires_grad_]. [relu]
    maps [v] to [v] when [0.0 < v] and to [0.0] otherwise. *)
Theorem unary_ops_elementwise (s : store) (x : ptr) (op : consumer) :
  tensor_ok (deref s x) →
  ∃ t, consume op x s = (inr (length s), s ++ [t]) ∧
       shape_ t = shape_ (deref s x) ∧
       data_ t = consumer_fn op <$> data_ (deref s x) ∧
       requires_grad_ t = requires_grad_ (deref s x) ∧
       inputs_ t = [x] ∧ tensor_ok t.
Proof.
  intros Hok. rewrite consume_elementwise.
  destruct (elementwise_run x (consumer_fn op) (consumer_closure op x) s Hok) as
    (t & Hrun & Hokt & Hi & _ & _ & Hsh & Hrg & Hd & _).
  exists t. split_and!; try done.
  by rewrite Hd, elementwise_data_map.
Qed.

(** X21. The derivative that each unary operation sends back. [backward]
    from [op(x).sum()] adds to [x->grad_[j]], with [v = x->data_[j]], [y] the
    value [op] computed for it and [g = 0.0 + 1.0] the gradient that reached
    the result: [c * g] for [multiply_scalar(c)],
    [e * pow(v, e - 1.0) * g] for [pow(e)], [g] if [0.0 < v] and [0.0]
    otherwise for [relu] (so nothing at [v = 0.0]), [y * (1.0 - y) * g] for
    [sigmoid] and [(1.0 - y * y) * g] for [tanh_]. *)
Theorem unary_ops_gradient (s : store) (x : ptr) (op : consumer) :
  graph_ok s → closures_local s →
  (x < length s)%nat → tensor_ok (deref s x) →
  grad_after_backward (one_branch op x) x s =
    Some (imap (λ j g,
            let v := rdata s x j in
            let y := consumer_fn op v in
            let g' := fadd fzero fone in
            fadd g match op with
                   | CScale c => fmul c g'
                   | CPow e => fmul (fmul e (fpow v (fsub e fone))) g'
                   | CRelu => if flt fzero v then g' else fzero
                   | CSigmoid => fmul (fmul y (fsub fone y)) g'
                   | CTanh => fmul (fsub fone (fmul y y)) g'
                   end)
          (grad_ (deref s x))).
Proof.
  intros Hgraph Hlocal Hx Hok. rewrite one_branch_grad by done. f_equal.
  apply imap_ext. intros j g Hj. cbv zeta.
  assert (Hlt : (j < length (data_ (deref s x)))%nat).
  { apply lookup_lt_Some in Hj. destruct Hok as (_ & -> & Hg).
    destruct (requires_grad_ (deref s x)); simpl in *; lia. }
  rewrite elementwise_data_map, vget_fmap by done.
  by destruct op.
Qed.

End LossGradient.

(** * Branches, single consumers and the order of the closures

    Two runs of [backward] are compared closure by closure: the closures of
    the tensors the runs have in common read the same gradients and write the
    same addends, in the same order. *)

Section Branches.
Context {F : Type} `{Scalar F}.
Local Abbreviation Tensor := (@Tensor F) (only parsing).
Local Abbreviation Closure := (@Closure F) (only parsing).
Local Abbreviation store := (list Tensor) (only parsing).

(** ** Runs of [backward] that can be compared *)

(** Every [backward_fn_] belongs to its tensor: the gradient it reads is the
    one of the tensor that holds it ([result] is captured by the operation
    that creates the tensor). *)
Definition closures_own (s : store) : Prop :=
  ∀ p r, closure_result (backward_fn_ (deref s p)) = Some r → r = p.

Definition closures_ownb (s : store) : bool :=
  forallb (λ pt : nat * Tensor,
             match closure_result (backward_fn_ pt.2) with
             | Some r => Nat.eqb r pt.1
             | None => true
             end) (imap pair s).

Lemma closures_ownb_correct (s : store) : closures_ownb s = true → closures_own s.
Proof.
  unfold closures_ownb. rewrite forallb_forall. intros Hall p r Hr.
  destruct (s !! p) as [t|] eqn:Hp.
  - rewrite (deref_lookup _ _ _ Hp) in Hr.
    specialize (Hall (p, t)). simpl in Hall. rewrite Hr in Hall.
    apply Nat.eqb_eq, Hall.
    apply list_elem_of_In, list_elem_of_lookup. exists p.
    by rewrite list_lookup_imap, Hp.
  - by rewrite deref_invalid in Hr by (by apply lookup_ge_None).
Qed.

Lemma closures_own_snoc (s : store) (t : Tensor) :
  closures_own s →
  (∀ r, closure_result (backward_fn_ t) = Some r → r = length s) →
  closures_own (s ++ [t]).
Proof.
  intros Hown Ht p r. destruct (decide (p < length s)%nat) as [Hlt|Hge].
  - rewrite deref_snoc_lt by done. apply Hown.
  - destruct (decide (p = length s)) as [->|Hne].
    + rewrite deref_snoc. apply Ht.
    + by rewrite deref_invalid by (rewrite length_snoc; lia).
Qed.

Lemma closures_own_same_graph (s s' : store) :
  same_graph s s' → closures_own s → closures_own s'.
Proof.
  intros Hsame Hown p r.
  destruct (same_graph_fields s s' p Hsame) as (_ & _ & _ & _ & _ & -> & _).
  apply Hown.
Qed.

Lemma closure_passes_targets (c : Closure) :
  (closure_passes c).*1 = closure_targets c.
Proof. by destruct c. Qed.

Lemma closure_ok_local (s : store) (p : ptr) :
  graph_ok s → closures_local s → closures_own s →
  closure_ok (backward_fn_ (deref s p)).
Proof.
  intros Hgraph Hlocal Hown r Hr. apply Hown in Hr as ->.
  apply Forall_forall. intros pw Hpw Heq.
  assert (Hin : pw.1 ∈ closure_targets (backward_fn_ (deref s p))).
  { rewrite <- closure_passes_targets. by apply list_elem_of_fmap_2. }
  specialize (Hlocal p). rewrite Forall_forall in Hlocal.
  apply Hlocal in Hin. apply (graph_ok_input_lt s p _ Hgraph) in Hin. lia.
Qed.

Lemma same_graph_sym (s s' : store) : same_graph s s' → same_graph s' s.
Proof.
  intros [Hlen Hp]. split; [done|]. intros p.
  destruct (Hp p) as (g & Hg & Hl). exists (grad_ (deref s p)).
  rewrite Hg, set_grad_set_grad, set_grad_id. simpl. by rewrite Hl.
Qed.

(** Two stores with the same graph and the same gradients on [W]. *)
Definition agree (W : ptr → Prop) (σ σ' : store) : Prop :=
  same_graph σ σ' ∧ ∀ p, W p → grad_ (deref σ p) = grad_ (deref σ' p).

Lemma agree_refl (W : ptr → Prop) (σ : store) : agree W σ σ.
Proof. split; [apply same_graph_refl|done]. Qed.

Lemma agree_trans (W : ptr → Prop) (σ1 σ2 σ3 : store) :
  agree W σ1 σ2 → agree W σ2 σ3 → agree W σ1 σ3.
Proof.
  intros [Hs1 Hg1] [Hs2 Hg2]. split; [by eapply same_graph_trans|].
  intros p Hp. by rewrite Hg1, Hg2.
Qed.

Lemma agree_sym (W : ptr → Prop) (σ σ' : store) : agree W σ σ' → agree W σ' σ.
Proof.
  intros [Hs Hg]. split; [by apply same_graph_sym|]. intros p Hp. by rewrite Hg.
Qed.

(** Writes that read no gradient but the one of [t]. *)
Definition reads_grad_of (t : ptr) (ws : store → list (nat * F)) : Prop :=
  ∀ σ σ', same_graph σ σ' → grad_ (deref σ t) = grad_ (deref σ' t) → ws σ = ws σ'.

Lemma rdata_agree (σ σ' : store) (p : ptr) (i : nat) :
  same_graph σ σ' → rdata σ p i = rdata σ' p i.
Proof. intros Hsame. symmetry. by apply rdata_same_graph. Qed.

Lemma elementwise_writes_reads (this t : ptr) (term : store → nat → F) :
  (∀ σ σ' i, same_graph σ σ' → grad_ (deref σ t) = grad_ (deref σ' t) →
             term σ i = term σ' i) →
  reads_grad_of t (elementwise_writes this term).
Proof.
  intros Hterm σ σ' Hsame Hg. unfold elementwise_writes.
  destruct (same_graph_fields σ σ' this Hsame) as (_ & _ & -> & _).
  apply list_fmap_ext. intros _ i _. f_equal. by apply Hterm.
Qed.

Lemma matmul_writes_reads (t : ptr) rows cols inner stride
    (entry : store → nat → nat → nat → F) :
  (∀ σ σ' i j l, same_graph σ σ' → grad_ (deref σ t) = grad_ (deref σ' t) →
                 entry σ i j l = entry σ' i j l) →
  reads_grad_of t (matmul_writes rows cols inner stride entry).
Proof.
  intros Hentry σ σ' Hsame Hg. unfold matmul_writes.
  apply list_fmap_ext. intros _ [i j] _. simpl. f_equal.
  apply for_ext. intros l acc. f_equal. by apply Hentry.
Qed.

Lemma closure_passes_read (c : Closure) (t : ptr) :
  (∀ r, closure_result c = Some r → r = t) →
  Forall (λ pw, reads_grad_of t pw.2) (closure_passes c).
Proof.
  intros Hres.
  destruct c; simpl in *; try (specialize (Hres _ eq_refl) as ->);
    repeat constructor; simpl;
    try (apply elementwise_writes_reads; intros σ σ' i Hsame Hg;
         unfold rgrad; rewrite Hg;
         by rewrite ?(rdata_agree σ σ') by done);
    apply matmul_writes_reads; intros σ σ' i j l Hsame Hg;
    unfold rgrad; rewrite Hg; by rewrite ?(rdata_agree σ σ') by done.
Qed.

Lemma imap_foldl_nil (g : list F) : imap (λ _ v, foldl fadd v []) g = g.
Proof.
  apply list_eq. intros j. rewrite list_lookup_imap. by destruct (g !! j).
Qed.

Lemma agree_pass_store (W : ptr → Prop) (p : ptr) ws (σ σ' : store) :
  agree W σ σ' → ws σ' = ws σ →
  agree W (pass_store p ws σ) (pass_store p ws σ').
Proof.
  intros [Hsame Hg] Hws. unfold pass_store.
  destruct (same_graph_fields σ σ' p Hsame) as (_ & _ & _ & -> & _ & _ & Hlen).
  destruct (requires_grad_ (deref σ p)); [|done]. split.
  - eapply same_graph_trans; [apply same_graph_sym, same_graph_update, length_scatter|].
    eapply same_graph_trans; [exact Hsame|].
    apply same_graph_update, length_scatter.
  - intros q Hq. rewrite !deref_set_grad by apply length_scatter.
    destruct (decide (q = p)) as [->|_]; [|by apply Hg].
    simpl. by rewrite Hws, (Hg p Hq).
Qed.

(** A sequence of passes that read the gradient of [t] only, run in two
    stores that agree on [W], where [t] is: the stores agree on [W]
    afterwards, and the gradient of any tensor [x] receives the same addends
    in both. *)
Lemma passes_sim (W : ptr → Prop) (x t : ptr)
    (passes : list (ptr * (store → list (nat * F)))) :
  W t →
  Forall (λ pw, reads_grad_of t pw.2) passes →
  ∀ σ, ∃ D : nat → list F, ∀ σ',
    agree W σ σ' →
    agree W (foldl (λ s pw, pass_store pw.1 pw.2 s) σ passes)
            (foldl (λ s pw, pass_store pw.1 pw.2 s) σ' passes) ∧
    grad_ (deref (foldl (λ s pw, pass_store pw.1 pw.2 s) σ' passes) x) =
      imap (λ j v, foldl fadd v (D j)) (grad_ (deref σ' x)).
Proof.
  intros Ht. induction passes as [|[p ws] passes IH]; intros Hread σ.
  - exists (λ _, []). intros σ' Hag. simpl. by rewrite imap_foldl_nil.
  - apply Forall_cons in Hread as [Hws Hread]. simpl in Hws.
    destruct (IH Hread (pass_store p ws σ)) as [D1 HD1].
    exists (λ j, (if decide (p = x ∧ requires_grad_ (deref σ p) = true)
                  then addends_at j (ws σ) else []) ++ D1 j).
    intros σ' Hag. simpl.
    assert (Hwseq : ws σ' = ws σ).
    { symmetry. destruct Hag as [Hsame Hg]. apply Hws; [done|by apply Hg]. }
    destruct (HD1 (pass_store p ws σ')) as [Hag1 Hx1];
      [by apply agree_pass_store|].
    split; [done|]. rewrite Hx1. rewrite <- imap_imap_foldl. f_equal.
    destruct Hag as [Hsame Hg].
    destruct (same_graph_fields σ σ' p Hsame) as (_ & _ & _ & Hrg & _).
    unfold pass_store. rewrite Hrg.
    destruct (decide (p = x ∧ requires_grad_ (deref σ p) = true)) as [[-> Hr]|Hn].
    + rewrite Hr. rewrite deref_set_grad by apply length_scatter.
      destruct (decide (x = x)); [|done]. simpl.
      by rewrite Hwseq, scatter_imap.
    + rewrite imap_foldl_nil.
      destruct (requires_grad_ (deref σ p)) eqn:Hr; [|done].
      rewrite deref_set_grad_ne; [done|]. intros ->. by apply Hn.
Qed.

(** The same for a whole [backward_fn_]. *)
Lemma closure_sim (W : ptr → Prop) (x t : ptr) (c : Closure) :
  closure_ok c → (∀ r, closure_result c = Some r → r = t) → W t →
  ∀ σ, ∃ D : nat → list F, ∀ σ',
    agree W σ σ' →
    agree W (run_closure c σ) (run_closure c σ') ∧
    grad_ (deref (run_closure c σ') x) =
      imap (λ j v, foldl fadd v (D j)) (grad_ (deref σ' x)).
Proof.
  intros Hok Hres Ht σ.
  destruct (passes_sim W x t (closure_passes c) Ht (closure_passes_read c t Hres) σ)
    as [D HD].
  exists D. intros σ' Hag. rewrite !run_closure_passes by done. by apply HD.
Qed.

(** A [backward_fn_] whose targets are outside [W] keeps the gradients on
    [W]. *)
Lemma closure_frame_agree (W : ptr → Prop) (c : Closure) (σ : store) :
  (∀ q, q ∈ closure_targets c → ¬ W q) → agree W σ (run_closure c σ).
Proof.
  intros Hq. split; [apply same_graph_run_closure|]. intros p Hp.
  rewrite run_closure_frame; [done|]. intros Hin. by apply (Hq p).
Qed.

(** The closures of the tensors of [l], taken from the store [s], run in
    this order. *)
Definition run_closures (s : store) (l : list ptr) (σ : store) : store :=
  foldl (λ s' t, run_closure (backward_fn_ (deref s t)) s') σ l.

Lemma run_closures_cons (s : store) (t : ptr) (l : list ptr) (σ : store) :
  run_closures s (t :: l) σ =
  run_closures s l (run_closure (backward_fn_ (deref s t)) σ).
Proof. done. Qed.

Lemma run_closures_app (s : store) (l1 l2 : list ptr) (σ : store) :
  run_closures s (l1 ++ l2) σ = run_closures s l2 (run_closures s l1 σ).
Proof. apply foldl_app. Qed.

Lemma run_closures_same_graph (s : store) (l : list ptr) (σ : store) :
  same_graph σ (run_closures s l σ).
Proof.
  revert σ. induction l as [|t l IH]; intros σ; [apply same_graph_refl|].
  simpl. eapply same_graph_trans; [apply same_graph_run_closure|apply IH].
Qed.

(** Two runs of closures, the second with some closures left out. The
    closures of the tensors in [W] are run in both and read gradients that
    agree; the others, left out or not, write outside [W] and [x]. *)
Lemma run_sim (s : store) (W : ptr → Prop) (x : ptr) :
  (∀ p, Decision (W p)) →
  graph_ok s → closures_local s → closures_own s →
  ∀ l,
    (∀ t q, t ∈ l → ¬ W t → q ∈ closure_targets (backward_fn_ (deref s t)) →
            ¬ W q ∧ q ≠ x) →
    ∀ σ, ∃ D : nat → list F,
      ∀ (K : ptr → Prop) (HK : ∀ t, Decision (K t)) σ',
        (∀ t, t ∈ l → W t → K t) →
        agree W σ σ' →
        agree W (run_closures s l σ) (run_closures s (filter K l) σ') ∧
        grad_ (deref (run_closures s (filter K l) σ') x) =
          imap (λ j v, foldl fadd v (D j)) (grad_ (deref σ' x)).
Proof.
  intros HW Hgraph Hlocal Hown. induction l as [|t l IH]; intros Hout σ.
  - exists (λ _, []). intros K HK σ' _ Hag. rewrite filter_nil.
    unfold run_closures. simpl. by rewrite imap_foldl_nil.
  - assert (Hout' : ∀ t' q, t' ∈ l → ¬ W t' →
              q ∈ closure_targets (backward_fn_ (deref s t')) → ¬ W q ∧ q ≠ x).
    { intros t' q Ht'. apply Hout. by right. }
    set (c := backward_fn_ (deref s t)).
    destruct (IH Hout' (run_closure c σ)) as [D1 HD1].
    destruct (decide (W t)) as [Ht|Ht].
    + destruct (closure_sim W x t c) with (σ := σ) as [Dt HDt]; [| |done|].
      { by apply closure_ok_local. }
      { apply Hown. }
      exists (λ j, Dt j ++ D1 j). intros K HK σ' HWK Hag.
      rewrite filter_cons. destruct (decide (K t)) as [_|Hn].
      2:{ destruct Hn. apply HWK; [by left|done]. }
      rewrite !run_closures_cons. fold c. destruct (HDt σ' Hag) as [Hag1 Hx1].
      destruct (HD1 K HK (run_closure c σ')) as [Hag2 Hx2]; [|done|].
      { intros t' Ht'. apply HWK. by right. }
      split; [exact Hag2|].
      rewrite Hx2, Hx1. apply imap_imap_foldl.
    + assert (Hfr : ∀ q, q ∈ closure_targets c → ¬ W q).
      { intros q Hq. apply (Hout t q); [by left|done|done]. }
      exists D1. intros K HK σ' HWK Hag.
      assert (Hag0 : agree W (run_closure c σ) σ').
      { eapply agree_trans; [|exact Hag].
        apply agree_sym. by apply closure_frame_agree. }
      rewrite filter_cons, run_closures_cons. fold c.
      destruct (decide (K t)) as [Hk|Hk].
      * rewrite run_closures_cons. fold c.
        destruct (HD1 K HK (run_closure c σ')) as [Hag2 Hx2].
        { intros t' Ht'. apply HWK. by right. }
        { eapply agree_trans; [exact Hag0|]. by apply closure_frame_agree. }
        split; [exact Hag2|]. rewrite Hx2.
        rewrite run_closure_frame; [done|].
        intros Hx. by apply (Hout t x); [left|done|done|].
      * apply HD1; [|done]. intros t' Ht'. apply HWK. by right.
Qed.

(** ** The depth-first order when part of the graph is visited already *)

Lemma build_topo_ext (s s' : store) :
  (∀ p, inputs_ (deref s' p) = inputs_ (deref s p)) →
  ∀ fuel t st, build_topo fuel s' t st = build_topo fuel s t st.
Proof.
  intros Hin. induction fuel as [|fuel IH]; intros t [visited topo]; [done|].
  simpl. destruct (decide (t ∈ visited)); [done|]. rewrite Hin.
  f_equal. generalize (Some ({[t]} ∪ visited, topo)).
  induction (inputs_ (deref s t)) as [|i ins IHins]; intros acc; simpl; [done|].
  rewrite IHins. f_equal. destruct acc as [st|]; simpl; [apply IH|done].
Qed.

Lemma closed_reachable (s : store) (V : gset ptr) (p y : ptr) :
  (∀ p i, p ∈ V → i ∈ inputs_ (deref s p) → i ∈ V) →
  p ∈ V → reachable s p y → y ∈ V.
Proof.
  intros Hclosed Hp Hreach. induction Hreach as [r|r i t Hi _ IH]; [done|].
  apply IH. by eapply Hclosed.
Qed.

Lemma filter_all_out (V : gset ptr) (l : list ptr) :
  (∀ y, y ∈ l → y ∈ V) → filter (λ p, p ∉ V) l = [].
Proof.
  induction l as [|a l IH]; intros Hl; [done|].
  rewrite filter_cons. destruct (decide (a ∉ V)) as [Hn|_].
  - destruct Hn. apply Hl. by left.
  - apply IH. intros y Hy. apply Hl. by right.
Qed.

(** Two calls of [build_topo] on [t]: the second starts with the tensors of
    [V] visited in addition, [V] holding the inputs of its tensors. It adds
    the same tensors in the same order, those of [V] left out. *)
Lemma build_topo_filter (s : store) (V : gset ptr) (b : nat) :
  graph_ok s →
  (∀ p i, p ∈ V → i ∈ inputs_ (deref s p) → i ∈ V) →
  ∀ f f' t vis topo vis' topo',
    (t < f)%nat → (t < f')%nat → (t ≤ b)%nat →
    (∀ p, (p ≤ b)%nat → (p ∈ vis' ↔ p ∈ vis ∨ p ∈ V)) →
    ∃ new,
      build_topo f s t (vis, topo) = Some (vis ∪ list_to_set new, topo ++ new) ∧
      build_topo f' s t (vis', topo') =
        Some (vis' ∪ list_to_set (filter (λ p, p ∉ V) new),
              topo' ++ filter (λ p, p ∉ V) new) ∧
      (∀ y, y ∈ new → reachable s t y).
Proof.
  intros Hok Hclosed. induction f as [|f IH];
    intros f' t vis topo vis' topo' Hf Hf' Hb Hrel; [lia|].
  destruct f' as [|f']; [lia|].
  simpl. destruct (decide (t ∈ vis)) as [Hin|Hnin].
  - exists []. rewrite filter_nil, !app_nil_r.
    destruct (decide (t ∈ vis')) as [_|Hn]; [|destruct Hn; apply Hrel; [done|by left]].
    split_and!.
    + f_equal. f_equal. set_solver.
    + f_equal. f_equal. set_solver.
    + intros y Hy. by apply elem_of_nil in Hy.
  - assert (Hfold : ∀ ins vis0 topo0 vis0' topo0',
      (∀ i, i ∈ ins → (i < t)%nat) →
      (∀ p, (p ≤ b)%nat → (p ∈ vis0' ↔ p ∈ vis0 ∨ p ∈ V)) →
      ∃ new,
        foldl (λ acc input, acc ≫= build_topo f s input) (Some (vis0, topo0)) ins =
          Some (vis0 ∪ list_to_set new, topo0 ++ new) ∧
        foldl (λ acc input, acc ≫= build_topo f' s input) (Some (vis0', topo0')) ins =
          Some (vis0' ∪ list_to_set (filter (λ p, p ∉ V) new),
                topo0' ++ filter (λ p, p ∉ V) new) ∧
        (∀ y, y ∈ new → ∃ i, i ∈ ins ∧ reachable s i y)).
    { induction ins as [|i ins IHins]; intros vis0 topo0 vis0' topo0' Hlt Hrel0.
      - exists []. rewrite filter_nil, !app_nil_r. simpl. split_and!.
        + f_equal. f_equal. set_solver.
        + f_equal. f_equal. set_solver.
        + intros y Hy. by apply elem_of_nil in Hy.
      - pose proof (Hlt i ltac:(left)) as Hi.
        destruct (IH f' i vis0 topo0 vis0' topo0') as (new1 & Hrun1 & Hrun1' & Hreach1);
          [lia|lia|lia|done|].
        simpl. rewrite Hrun1, Hrun1'.
        destruct (IHins (vis0 ∪ list_to_set new1) (topo0 ++ new1)
                    (vis0' ∪ list_to_set (filter (λ p, p ∉ V) new1))
                    (topo0' ++ filter (λ p, p ∉ V) new1))
          as (new2 & Hrun2 & Hrun2' & Hreach2).
        { intros j Hj. apply Hlt. by right. }
        { intros p Hp. specialize (Hrel0 p Hp).
          rewrite !elem_of_union, !elem_of_list_to_set, list_elem_of_filter.
          destruct (decide (p ∈ V)); tauto. }
        exists (new1 ++ new2). rewrite Hrun2, Hrun2', filter_app, !app_assoc.
        split_and!.
        + f_equal. f_equal. rewrite list_to_set_app_L. set_solver.
        + f_equal. f_equal. rewrite list_to_set_app_L. set_solver.
        + intros y [Hy|Hy]%elem_of_app.
          * exists i. split; [left|by apply Hreach1].
          * destruct (Hreach2 y Hy) as (j & Hj & Hjy).
            exists j. split; [by right|done]. }
    assert (Hins : ∀ i, i ∈ inputs_ (deref s t) → (i < t)%nat).
    { intros i Hi. by eapply graph_ok_input_lt. }
    destruct (decide (t ∈ V)) as [HtV|HtV].
    + destruct (decide (t ∈ vis')) as [_|Hn];
        [|destruct Hn; apply Hrel; [done|by right]].
      destruct (Hfold (inputs_ (deref s t)) ({[t]} ∪ vis) topo ({[t]} ∪ vis') topo'
                  Hins) as (new & Hrun & _ & Hreach).
      { intros p Hp. specialize (Hrel p Hp). set_solver. }
      exists (new ++ [t]). rewrite Hrun. simpl.
      assert (Hall : ∀ y, y ∈ new ++ [t] → y ∈ V).
      { intros y [Hy| ->%list_elem_of_singleton]%elem_of_app; [|done].
        destruct (Hreach y Hy) as (i & Hi & Hiy).
        eapply closed_reachable; [done| |done]. by eapply Hclosed. }
      rewrite (filter_all_out V _ Hall), app_nil_r. split_and!.
      * f_equal. rewrite app_assoc. f_equal. rewrite list_to_set_app_L. set_solver.
      * f_equal. f_equal. set_solver.
      * intros y [Hy| ->%list_elem_of_singleton]%elem_of_app; [|constructor].
        destruct (Hreach y Hy) as (i & Hi & Hiy). by eapply reachable_step.
    + destruct (decide (t ∈ vis')) as [Hn|_].
      { apply Hrel in Hn as [?|?]; done. }
      destruct (Hfold (inputs_ (deref s t)) ({[t]} ∪ vis) topo ({[t]} ∪ vis') topo'
                  Hins) as (new & Hrun & Hrun' & Hreach).
      { intros p Hp. specialize (Hrel p Hp). set_solver. }
      exists (new ++ [t]). rewrite Hrun, Hrun'. simpl.
      rewrite filter_app, filter_cons, filter_nil.
      destruct (decide (t ∉ V)); [|done]. split_and!.
      * f_equal. rewrite app_assoc. f_equal. rewrite list_to_set_app_L. set_solver.
      * f_equal. rewrite app_assoc. f_equal. rewrite list_to_set_app_L. set_solver.
      * intros y [Hy| ->%list_elem_of_singleton]%elem_of_app; [|constructor].
        destruct (Hreach y Hy) as (i & Hi & Hiy). by eapply reachable_step.
Qed.

(** The call of [build_topo] on [t] below the running calls of [stack]: the
    order holds exactly the tensors reachable from [t], every tensor after
    its inputs. *)
Lemma build_topo_root (s : store) (t : ptr) (fuel : nat) (stack : gset ptr) :
  graph_ok s → (t < fuel)%nat → (∀ y, y ∈ stack → (t < y)%nat) →
  ∃ T,
    build_topo fuel s t (stack, []) = Some (stack ∪ list_to_set T, T) ∧
    NoDup T ∧ inputs_first s T ∧ (∀ y, y ∈ T ↔ reachable s t y).
Proof.
  intros Hok Hfuel Hstack.
  destruct (build_topo_spec s Hok fuel t stack stack [] Hfuel) as
    (T & Hrun & Hnd & Hfirst & Ht & Hreach & _).
  - set_solver.
  - done.
  - constructor.
  - intros j y Hj. by rewrite lookup_nil in Hj.
  - exists T. split_and!; try done. intros y. split; [apply Hreach|].
    intros Hy. by eapply inputs_first_closed.
Qed.

Lemma inputs_first_inputs (s : store) (T : list ptr) (p i : ptr) :
  inputs_first s T → p ∈ T → i ∈ inputs_ (deref s p) → i ∈ T.
Proof.
  intros Hfirst Hp Hi. apply list_elem_of_lookup in Hp as [j Hj].
  destruct (Hfirst j p Hj i Hi) as (j' & _ & Hj').
  apply list_elem_of_lookup. eauto.
Qed.

Lemma filter_all (P : ptr → Prop) (HP : ∀ p, Decision (P p)) (l : list ptr) :
  (∀ y, y ∈ l → P y) → filter P l = l.
Proof.
  induction l as [|a l IH]; intros Hl; [done|]. rewrite filter_cons.
  destruct (decide (P a)) as [_|Hn].
  - rewrite IH; [done|]. intros y Hy. apply Hl. by right.
  - destruct Hn. apply Hl. by left.
Qed.

(** ** Two branches that meet in one tensor *)

Definition ret {A : Type} (a : A) : M A := λ s : store, (inr a, s).

(** [r1 = o1.sum()], [r2 = o2.sum()] and [r = (o1 + o2).sum()]: the roots of
    each branch alone and of both combined. *)
Definition branch_roots (o1 o2 : ptr) : M (ptr * ptr * ptr) :=
  bind (sum o1) (λ r1,
  bind (sum o2) (λ r2,
  bind (add o1 o2) (λ a,
  bind (sum a) (λ r, ret (r1, r2, r))))).

(** [x->grad_] after [backward] from each of the three roots, every call
    starting from the store as [branch_roots] leaves it. *)
Definition branch_gradients (o1 o2 x : ptr) (s : store)
    : option (list F * list F * list F) :=
  match branch_roots o1 o2 s with
  | (inr (r1, r2, r), s') =>
      s1 ← backward (S r1) r1 s';
      s2 ← backward (S r2) r2 s';
      s12 ← backward (S r) r s';
      Some (grad_ (deref s1 x), grad_ (deref s2 x), grad_ (deref s12 x))
  | (inl _, _) => None
  end.

(** The store [s] with [g] in the gradient buffer of [x]. *)
Definition with_grad (x : ptr) (g : list F) (s : store) : store :=
  <[x := set_grad (deref s x) g]> s.

Lemma reachable_consumer (s : store) (p x : ptr) :
  reachable s p x → p ≠ x → ∃ c, reachable s p c ∧ x ∈ inputs_ (deref s c).
Proof.
  intros Hreach. induction Hreach as [r|r i t Hi Hreach IH]; intros Hne; [done|].
  destruct (decide (i = t)) as [->|Hit].
  - exists r. split; [constructor|done].
  - destruct (IH Hit) as (c & Hc & Hin). exists c. split; [|done].
    by eapply reachable_step.
Qed.

Lemma backward_closures (s σ : store) (r : ptr) (fuel : nat) visited topo :
  same_graph s σ →
  build_topo fuel s r (∅, []) = Some (visited, topo) →
  backward fuel r σ = Some (run_closures s (reverse topo) (fill_grad r fone σ)).
Proof.
  intros Hsame Hrun. unfold backward.
  rewrite (build_topo_ext s σ), Hrun.
  - simpl. f_equal. unfold run_reverse, run_closures.
    apply run_reverse_closures.
    eapply same_graph_trans; [done|apply same_graph_fill_grad].
  - intros p. by destruct (same_graph_fields s σ p Hsame) as (_ & _ & _ & _ & -> & _).
Qed.

(** An accumulation loop whose terms are all 1.0. *)
Lemma accumulate_ones (σ : store) (this p : ptr) (term : store → nat → F) :
  (∀ i, ignores_grad_of this (λ s, term s i)) →
  length (grad_ (deref σ this)) =
    (if requires_grad_ (deref σ this) then N.to_nat (size_ (deref σ this))
     else 0%nat) →
  (∀ j, (j < length (grad_ (deref σ this)))%nat → term σ j = fone) →
  grad_ (deref (accumulate this term σ) p) =
    if decide (p = this)
    then imap (λ _ v, fadd v fone) (grad_ (deref σ this))
    else grad_ (deref σ p).
Proof.
  intros Hign Hlen Hone.
  destruct (requires_grad_ (deref σ this)) eqn:Hrg.
  - rewrite deref_accumulate by done. rewrite Hrg.
    destruct (decide (p = this)) as [->|Hne].
    + destruct (decide (this = this ∧ true = true)) as [_|[]]; try done.
      simpl. apply imap_ext. intros j v Hj. simpl. f_equal. apply Hone.
      by eapply lookup_lt_Some.
    + by destruct (decide (p = this ∧ true = true)) as [[? _]|_].
  - unfold accumulate. rewrite Hrg.
    destruct (decide (p = this)) as [->|Hne]; [|done].
    by destruct (grad_ (deref σ this)).
Qed.

(** The store after the closure of a root [r = o.sum()] has run: the
    gradient of [o] has received 1.0 everywhere. *)
Lemma sum_root_state (σ : store) (o r p : ptr) (n : N) (rg : bool) ins bw :
  node σ r [o] (BwSum o r) 1 rg → node σ o ins bw n rg → o ≠ r → p ≠ r →
  grad_ (deref (run_closure (BwSum o r) (fill_grad r fone σ)) p) =
    if decide (p = o)
    then imap (λ _ v, fadd v fone) (grad_ (deref σ o))
    else grad_ (deref σ p).
Proof.
  intros (_ & _ & _ & Hrgr & Hlr) (_ & _ & Hso & Hrgo & Hlo) Hne Hp. simpl.
  assert (Ho : deref (fill_grad r fone σ) o = deref σ o).
  { rewrite deref_fill_grad. by destruct (decide (o = r)). }
  rewrite accumulate_ones.
  - rewrite Ho. destruct (decide (p = o)); [done|].
    rewrite deref_fill_grad. by destruct (decide (p = r)).
  - intros i s g. by rewrite rgrad_set_grad.
  - by rewrite Ho, Hrgo, Hso.
  - intros j Hj. rewrite Ho in Hj. rewrite rgrad_fill_grad.
    destruct rg; [|rewrite Hlo in Hj; lia].
    destruct (decide (r = r ∧ (0 < length (grad_ (deref σ r)))%nat)) as [_|Hn];
      [done|]. destruct Hn. split; [done|]. rewrite Hlr. simpl. lia.
Qed.

(** The store after the closures of [r = a.sum()] and [a = o1 + o2] have
    run: the gradients of [o1] and [o2] have received 1.0 everywhere. *)
Lemma add_root_state (σ : store) (o1 o2 a r p : ptr) (n : N) (rg1 rg2 : bool)
    i1 b1 i2 b2 :
  fadd fzero fone = fone →
  node σ r [a] (BwSum a r) 1 (rg1 || rg2) →
  node σ a [o1; o2] (BwAdd o1 o2 a) n (rg1 || rg2) →
  node σ o1 i1 b1 n rg1 → node σ o2 i2 b2 n rg2 →
  fresh_grad σ a →
  a ≠ r → o1 ≠ a → o2 ≠ a → o1 ≠ r → o2 ≠ r → o1 ≠ o2 → p ≠ r → p ≠ a →
  grad_ (deref (run_closure (BwAdd o1 o2 a)
                  (run_closure (BwSum a r) (fill_grad r fone σ))) p) =
    if decide (p = o1 ∨ p = o2)
    then imap (λ _ v, fadd v fone) (grad_ (deref σ p))
    else grad_ (deref σ p).
Proof.
  intros H01 Nr Na No1 No2 Fa Har Ho1a Ho2a Ho1r Ho2r Ho12 Hpr Hpa.
  set (ψ := run_closure (BwSum a r) (fill_grad r fone σ)).
  assert (Hψ : ∀ q, q ≠ r → grad_ (deref ψ q) =
            if decide (q = a) then imap (λ _ v, fadd v fone) (grad_ (deref σ a))
            else grad_ (deref σ q)).
  { intros q Hq. by eapply sum_root_state. }
  assert (Hsame : same_graph σ ψ).
  { eapply same_graph_trans; [apply same_graph_fill_grad|].
    apply same_graph_run_closure. }
  assert (Hone : ∀ j, (j < N.to_nat n)%nat → rg1 || rg2 = true →
            rgrad ψ a j = fone).
  { intros j Hj Hrg. unfold rgrad. rewrite Hψ by done.
    destruct (decide (a = a)); [|done].
    destruct Na as (_ & _ & _ & _ & Hla). rewrite Hrg in Hla.
    rewrite vget_imap by lia. unfold vget. rewrite Fa.
    rewrite lookup_replicate_2 by lia. done. }
  simpl. fold ψ.
  set (ψ1 := accumulate o1 (λ s i, rgrad s a i) ψ).
  assert (Hψ1 : ∀ q, grad_ (deref ψ1 q) =
            if decide (q = o1) then imap (λ _ v, fadd v fone) (grad_ (deref ψ o1))
            else grad_ (deref ψ q)).
  { intros q. apply accumulate_ones.
    - intros i s g. by rewrite rgrad_set_grad.
    - destruct (node_same_graph _ _ _ _ _ _ _ Hsame No1) as (_ & _ & -> & -> & ->).
      done.
    - intros j Hj.
      destruct (node_same_graph _ _ _ _ _ _ _ Hsame No1) as (_ & _ & _ & _ & Hl).
      rewrite Hl in Hj. destruct rg1; [|lia]. by apply Hone. }
  rewrite accumulate_ones.
  - rewrite !Hψ1. rewrite !Hψ by congruence.
    destruct (decide (o2 = o1)); [congruence|].
    destruct (decide (o2 = a)); [congruence|].
    destruct (decide (o1 = a)); [congruence|].
    destruct (decide (p = a)); [congruence|].
    destruct (decide (p = o2)) as [->|Hp2].
    + by destruct (decide (o2 = o1 ∨ o2 = o2)) as [_|[]]; [|right].
    + destruct (decide (p = o1)) as [->|Hp1].
      * by destruct (decide (o1 = o1 ∨ o1 = o2)) as [_|[]]; [|left].
      * by destruct (decide (p = o1 ∨ p = o2)) as [[?|?]|_].
  - intros i s g. by rewrite rgrad_set_grad.
  - assert (Hs1 : same_graph σ ψ1).
    { eapply same_graph_trans; [exact Hsame|apply same_graph_accumulate]. }
    destruct (node_same_graph _ _ _ _ _ _ _ Hs1 No2) as (_ & _ & -> & -> & ->).
    done.
  - intros j Hj.
    assert (Hs1 : same_graph σ ψ1).
    { eapply same_graph_trans; [exact Hsame|apply same_graph_accumulate]. }
    destruct (node_same_graph _ _ _ _ _ _ _ Hs1 No2) as (_ & _ & _ & _ & Hl).
    rewrite Hl in Hj. destruct rg2; [|lia].
    unfold rgrad. rewrite Hψ1. destruct (decide (a = o1)); [congruence|].
    apply Hone; [done|]. by rewrite orb_true_r.
Qed.

Lemma same_graph_with_grad (s : store) (x : ptr) (g : list F) :
  length g = length (grad_ (deref s x)) → same_graph s (with_grad x g s).
Proof. apply same_graph_update. Qed.

Lemma grad_with_grad (s : store) (x p : ptr) (g : list F) :
  length g = length (grad_ (deref s x)) →
  grad_ (deref (with_grad x g s) p) = if decide (p = x) then g else grad_ (deref s p).
Proof.
  intros Hg. unfold with_grad. rewrite deref_set_grad by done.
  by destruct (decide (p = x)).
Qed.

Lemma imap_foldl_twice (g : list F) (A B : nat → list F) :
  imap (λ j v, foldl fadd v (B j)) (imap (λ j v, foldl fadd v (A j)) g) =
  imap (λ j v, foldl fadd (foldl fadd v (A j)) (B j)) g.
Proof.
  apply list_eq. intros j. rewrite !list_lookup_imap. by destruct (g !! j).
Qed.

(** [backward] in a store where the outputs [o1] and [o2] of two branches
    that meet in [x] are summed alone ([r1], [r2]) and together ([r]). The
    branch of [o2] is run first, since [build_topo] reaches it last. *)
Lemma branches_backward (s : store) (x o1 o2 r1 r2 a r : ptr) (n : N)
    (rg1 rg2 : bool) i1 b1 i2 b2 :
  graph_ok s → closures_local s → closures_own s →
  fadd fzero fone = fone →
  node s r1 [o1] (BwSum o1 r1) 1 rg1 →
  node s r2 [o2] (BwSum o2 r2) 1 rg2 →
  node s a [o1; o2] (BwAdd o1 o2 a) n (rg1 || rg2) →
  node s r [a] (BwSum a r) 1 (rg1 || rg2) →
  fresh_grad s a →
  node s o1 i1 b1 n rg1 → node s o2 i2 b2 n rg2 →
  x ≠ o1 → x ≠ o2 → reachable s o1 x → reachable s o2 x →
  (∀ t, reachable s o1 t → reachable s o2 t → x ∉ inputs_ (deref s t)) →
  ∃ A1 A2 : nat → list F, ∀ g, length g = length (grad_ (deref s x)) →
    ∃ s1 s2 s12,
      backward (S r1) r1 (with_grad x g s) = Some s1 ∧
      backward (S r2) r2 (with_grad x g s) = Some s2 ∧
      backward (S r) r (with_grad x g s) = Some s12 ∧
      grad_ (deref s1 x) = imap (λ j v, foldl fadd v (A1 j)) g ∧
      grad_ (deref s2 x) = imap (λ j v, foldl fadd v (A2 j)) g ∧
      grad_ (deref s12 x) =
        imap (λ j v, foldl fadd (foldl fadd v (A2 j)) (A1 j)) g.
Proof.
  intros Hgraph Hlocal Hown H01 Nr1 Nr2 Na Nr Fa No1 No2 Hxo1 Hxo2 Hr1x Hr2x Hshare.
  (* the order of the pointers *)
  assert (Ho1r1 : (o1 < r1)%nat).
  { apply (graph_ok_input_lt s r1 o1 Hgraph). rewrite (proj1 Nr1). by left. }
  assert (Ho2r2 : (o2 < r2)%nat).
  { apply (graph_ok_input_lt s r2 o2 Hgraph). rewrite (proj1 Nr2). by left. }
  assert (Ho1a : (o1 < a)%nat).
  { apply (graph_ok_input_lt s a o1 Hgraph). rewrite (proj1 Na). by left. }
  assert (Ho2a : (o2 < a)%nat).
  { apply (graph_ok_input_lt s a o2 Hgraph). rewrite (proj1 Na). right. by left. }
  assert (Har : (a < r)%nat).
  { apply (graph_ok_input_lt s r a Hgraph). rewrite (proj1 Nr). by left. }
  pose proof (reachable_le s o1 x Hgraph Hr1x) as Hxle1.
  pose proof (reachable_le s o2 x Hgraph Hr2x) as Hxle2.
  destruct r as [|r']; [lia|].
  (* the depth-first orders *)
  destruct (build_topo_filter s ∅ o1 Hgraph) with
    (f := r1) (f' := r') (t := o1) (vis := ({[r1]} ∪ ∅ : gset ptr)) (topo := @nil ptr)
    (vis' := ({[a]} ∪ ({[S r']} ∪ ∅) : gset ptr)) (topo' := @nil ptr)
    as (T1 & HT1 & HT1c & _); [set_solver|lia|lia|lia| |].
  { intros p Hp. set_unfold. lia. }
  rewrite filter_all in HT1c by set_solver. rewrite app_nil_l in HT1, HT1c.
  destruct (build_topo_root s o1 r1 ({[r1]} ∪ ∅) Hgraph) as
    (T1' & HT1' & Hnd1 & Hfirst1 & Hmem1); [lia| |].
  { intros y Hy. set_unfold. lia. }
  assert (T1' = T1) as -> by congruence. clear HT1'.
  destruct (build_topo_filter s (list_to_set T1) o2 Hgraph) with
    (f := r2) (f' := r') (t := o2) (vis := ({[r2]} ∪ ∅ : gset ptr)) (topo := @nil ptr)
    (vis' := ({[a]} ∪ ({[S r']} ∪ ∅) ∪ list_to_set T1 : gset ptr)) (topo' := T1)
    as (T2 & HT2 & HT2c & _); [|lia|lia|lia| |].
  { intros p i Hp Hi. rewrite elem_of_list_to_set in *.
    by eapply inputs_first_inputs. }
  { intros p Hp. set_unfold. intuition lia. }
  rewrite app_nil_l in HT2.
  destruct (build_topo_root s o2 r2 ({[r2]} ∪ ∅) Hgraph) as
    (T2' & HT2' & Hnd2 & Hfirst2 & Hmem2); [lia| |].
  { intros y Hy. set_unfold. lia. }
  assert (T2' = T2) as -> by congruence. clear HT2'.
  set (N1 := filter (λ p, p ∉ (list_to_set T2 : gset ptr)) T1).
  set (N2 := filter (λ p, p ∉ (list_to_set T1 : gset ptr)) T2) in *.
  assert (Htopo1 : ∃ vis, build_topo (S r1) s r1 (∅, []) = Some (vis, T1 ++ [r1])).
  { rewrite build_topo_step by set_solver. rewrite (proj1 Nr1).
    cbn [foldl mbind option_bind]. rewrite HT1. simpl. eauto. }
  assert (Htopo2 : ∃ vis, build_topo (S r2) s r2 (∅, []) = Some (vis, T2 ++ [r2])).
  { rewrite build_topo_step by set_solver. rewrite (proj1 Nr2).
    cbn [foldl mbind option_bind]. rewrite HT2. simpl. eauto. }
  assert (Htopo12 : ∃ vis, build_topo (S (S r')) s (S r') (∅, []) =
            Some (vis, ((T1 ++ N2) ++ [a]) ++ [S r'])).
  { rewrite build_topo_step by set_solver. rewrite (proj1 Nr).
    cbn [foldl mbind option_bind].
    destruct r' as [|r'']; [lia|].
    rewrite build_topo_step by (set_unfold; lia).
    rewrite (proj1 Na). cbn [foldl mbind option_bind].
    rewrite HT1c. cbn [mbind option_bind]. rewrite HT2c. simpl. eauto. }
  destruct Htopo1 as [vis1 Htopo1], Htopo2 as [vis2 Htopo2],
    Htopo12 as [vis12 Htopo12].
  clear HT1 HT1c HT2 HT2c.
  (* the tensors of each branch alone *)
  assert (HN1 : ∀ p, p ∈ N1 ↔ p ∈ T1 ∧ p ∉ T2).
  { intros p. unfold N1. rewrite list_elem_of_filter, elem_of_list_to_set. tauto. }
  assert (HN2 : ∀ p, p ∈ N2 ↔ p ∈ T2 ∧ p ∉ T1).
  { intros p. unfold N2. rewrite list_elem_of_filter, elem_of_list_to_set. tauto. }
  assert (Htargets : ∀ t q, q ∈ closure_targets (backward_fn_ (deref s t)) →
            q ∈ inputs_ (deref s t)).
  { intros t q Hq. specialize (Hlocal t). rewrite Forall_forall in Hlocal.
    by apply Hlocal. }
  assert (Hshared : ∀ t q, t ∈ T1 → t ∈ T2 →
            q ∈ closure_targets (backward_fn_ (deref s t)) →
            q ∈ T1 ∧ q ∈ T2 ∧ q ≠ x).
  { intros t q Ht1 Ht2 Hq. apply Htargets in Hq. split_and!.
    - by eapply inputs_first_inputs.
    - by eapply inputs_first_inputs.
    - intros ->. eapply Hshare; [by apply Hmem1|by apply Hmem2|done]. }
  assert (Hx1 : x ∈ T1) by (by apply Hmem1).
  assert (Hx2 : x ∈ T2) by (by apply Hmem2).
  assert (Ho1 : o1 ∈ N1).
  { apply HN1. split; [apply Hmem1; constructor|]. intros Hin.
    destruct (reachable_consumer s o1 x Hr1x) as (c & Hc & Hxc); [done|].
    eapply (Hshare c); [done| |done].
    eapply reachable_trans; [by apply Hmem2|done]. }
  assert (Ho2 : o2 ∈ N2).
  { apply HN2. split; [apply Hmem2; constructor|]. intros Hin.
    destruct (reachable_consumer s o2 x Hr2x) as (c & Hc & Hxc); [done|].
    eapply (Hshare c); [|done|done].
    eapply reachable_trans; [by apply Hmem1|done]. }
  assert (Ho12 : o1 ≠ o2).
  { intros ->. apply HN1 in Ho1 as [_ Hn]. apply Hn, Hmem2. constructor. }
  assert (Hle1 : ∀ p, p ∈ T1 → (p ≤ o1)%nat).
  { intros p Hp. apply (reachable_le s o1 p Hgraph). by apply Hmem1. }
  assert (Hle2 : ∀ p, p ∈ T2 → (p ≤ o2)%nat).
  { intros p Hp. apply (reachable_le s o2 p Hgraph). by apply Hmem2. }
  (* the two simulations *)
  set (σ1 := run_closure (BwSum o1 r1) (fill_grad r1 fone s)).
  set (σ2 := run_closure (BwSum o2 r2) (fill_grad r2 fone s)).
  destruct (run_sim s (λ p, p ∈ N1) x (λ p, list_elem_of_dec p N1)
              Hgraph Hlocal Hown (reverse T1)) with (σ := σ1) as [A1 HA1].
  { intros t q Ht HtN Hq. rewrite elem_of_reverse in Ht.
    assert (Ht2 : t ∈ T2).
    { destruct (decide (t ∈ T2)) as [?|Hn]; [done|]. destruct HtN. by apply HN1. }
    destruct (Hshared t q Ht Ht2 Hq) as (_ & Hq2 & Hqx).
    split; [|done]. intros HqN. by apply HN1 in HqN as [_ ?]. }
  destruct (run_sim s (λ p, p ∈ N2) x (λ p, list_elem_of_dec p N2)
              Hgraph Hlocal Hown (reverse T2)) with (σ := σ2) as [A2 HA2].
  { intros t q Ht HtN Hq. rewrite elem_of_reverse in Ht.
    assert (Ht1 : t ∈ T1).
    { destruct (decide (t ∈ T1)) as [?|Hn]; [done|]. destruct HtN. by apply HN2. }
    destruct (Hshared t q Ht1 Ht Hq) as (Hq1 & _ & Hqx).
    split; [|done]. intros HqN. by apply HN2 in HqN as [_ ?]. }
  exists A1, A2. intros g Hg.
  set (sg := with_grad x g s).
  assert (Hsg : same_graph s sg) by (by apply same_graph_with_grad).
  assert (Hgrad : ∀ p, grad_ (deref sg p) = if decide (p = x) then g else grad_ (deref s p)).
  { intros p. by apply grad_with_grad. }
  set (σ1g := run_closure (BwSum o1 r1) (fill_grad r1 fone sg)).
  set (σ2g := run_closure (BwSum o2 r2) (fill_grad r2 fone sg)).
  set (σa := run_closure (BwAdd o1 o2 a)
               (run_closure (BwSum a (S r')) (fill_grad (S r') fone sg))).
  (* the states after the closures of the roots *)
  assert (Hst1 : ∀ σ, same_graph s σ → ∀ p, p ≠ r1 →
            grad_ (deref (run_closure (BwSum o1 r1) (fill_grad r1 fone σ)) p) =
              if decide (p = o1) then imap (λ _ v, fadd v fone) (grad_ (deref σ o1))
              else grad_ (deref σ p)).
  { intros σ Hσ p Hp. eapply sum_root_state; try done.
    - by eapply node_same_graph.
    - by eapply node_same_graph.
    - lia. }
  assert (Hst2 : ∀ σ, same_graph s σ → ∀ p, p ≠ r2 →
            grad_ (deref (run_closure (BwSum o2 r2) (fill_grad r2 fone σ)) p) =
              if decide (p = o2) then imap (λ _ v, fadd v fone) (grad_ (deref σ o2))
              else grad_ (deref σ p)).
  { intros σ Hσ p Hp. eapply sum_root_state; try done.
    - by eapply node_same_graph.
    - by eapply node_same_graph.
    - lia. }
  assert (Hsta : ∀ p, p ≠ S r' → p ≠ a →
            grad_ (deref σa p) =
              if decide (p = o1 ∨ p = o2)
              then imap (λ _ v, fadd v fone) (grad_ (deref sg p))
              else grad_ (deref sg p)).
  { intros p Hpr Hpa. unfold σa.
    eapply (add_root_state sg o1 o2 a (S r') p n rg1 rg2); try done; try lia.
    - by eapply node_same_graph.
    - by eapply node_same_graph.
    - by eapply node_same_graph.
    - by eapply node_same_graph.
    - unfold fresh_grad. rewrite Hgrad.
      destruct (decide (a = x)); [lia|]. exact Fa. }
  assert (Hsame1 : same_graph s σ1).
  { eapply same_graph_trans; [apply same_graph_fill_grad|].
    apply same_graph_run_closure. }
  assert (Hsame2 : same_graph s σ2).
  { eapply same_graph_trans; [apply same_graph_fill_grad|].
    apply same_graph_run_closure. }
  assert (Hsame1g : same_graph s σ1g).
  { eapply same_graph_trans; [exact Hsg|].
    eapply same_graph_trans; [apply same_graph_fill_grad|].
    apply same_graph_run_closure. }
  assert (Hsame2g : same_graph s σ2g).
  { eapply same_graph_trans; [exact Hsg|].
    eapply same_graph_trans; [apply same_graph_fill_grad|].
    apply same_graph_run_closure. }
  assert (Hsamea : same_graph s σa).
  { eapply same_graph_trans; [exact Hsg|].
    eapply same_graph_trans; [apply same_graph_fill_grad|].
    eapply same_graph_trans; apply same_graph_run_closure. }
  assert (Hag1 : agree (λ p, p ∈ N1) σ1 σ1g).
  { split.
    - eapply same_graph_trans; [by apply same_graph_sym|done].
    - intros p Hp. apply HN1 in Hp as [Hp1 Hp2].
      pose proof (Hle1 p Hp1).
      unfold σ1, σ1g. rewrite !Hst1 by (try done; try lia; apply same_graph_refl).
      rewrite !Hgrad.
      destruct (decide (o1 = x)); [congruence|].
      destruct (decide (p = x)) as [->|_]; [done|]. done. }
  assert (Hag2 : agree (λ p, p ∈ N2) σ2 σa).
  { split.
    - eapply same_graph_trans; [by apply same_graph_sym|done].
    - intros p Hp. apply HN2 in Hp as [Hp2 Hp1].
      pose proof (Hle2 p Hp2).
      unfold σ2. rewrite Hst2 by (try done; try lia; apply same_graph_refl).
      rewrite Hsta by lia. rewrite !Hgrad.
      destruct (decide (p = x)) as [->|_]; [done|].
      destruct (decide (p = o2)) as [->|Hne].
      + destruct (decide (o2 = o1 ∨ o2 = o2)) as [_|[]]; [done|by right].
      + destruct (decide (p = o1 ∨ p = o2)) as [[->|?]|_]; [|done|done].
        destruct Hp1. apply Hmem1. constructor. }
  assert (Hag1a : ∀ p, p ∈ N1 → grad_ (deref σ1 p) = grad_ (deref σa p)).
  { intros p Hp. apply HN1 in Hp as [Hp1 Hp2].
    pose proof (Hle1 p Hp1).
    unfold σ1. rewrite Hst1 by (try done; try lia; apply same_graph_refl).
    rewrite Hsta by lia. rewrite !Hgrad.
    destruct (decide (p = x)) as [->|_]; [done|].
    destruct (decide (p = o1)) as [->|Hne].
    + destruct (decide (o1 = o1 ∨ o1 = o2)) as [_|[]]; [done|by left].
    + destruct (decide (p = o1 ∨ p = o2)) as [[?| ->]|_]; [done| |done].
      destruct Hp2. apply Hmem2. constructor. }
  assert (Hxg1 : grad_ (deref σ1g x) = g).
  { unfold σ1g. rewrite (Hst1 sg Hsg x) by lia. rewrite !Hgrad.
    destruct (decide (x = o1)); [done|]. by destruct (decide (x = x)). }
  assert (Hxg2 : grad_ (deref σ2g x) = g).
  { unfold σ2g. rewrite (Hst2 sg Hsg x) by lia. rewrite !Hgrad.
    destruct (decide (x = o2)); [done|]. by destruct (decide (x = x)). }
  assert (Hxga : grad_ (deref σa x) = g).
  { rewrite Hsta by lia. rewrite !Hgrad.
    destruct (decide (x = o1 ∨ x = o2)) as [[?|?]|_]; [done|done|].
    by destruct (decide (x = x)). }
  assert (Hag2g : agree (λ p, p ∈ N2) σ2 σ2g).
  { split.
    - eapply same_graph_trans; [by apply same_graph_sym|done].
    - intros p Hp. apply HN2 in Hp as [Hp2 Hp1].
      pose proof (Hle2 p Hp2).
      unfold σ2, σ2g. rewrite !Hst2 by (try done; try lia; apply same_graph_refl).
      rewrite !Hgrad.
      destruct (decide (o2 = x)); [congruence|].
      destruct (decide (p = x)) as [->|_]; [done|]. done. }
  (* the branches alone *)
  exists (run_closures s (reverse T1) σ1g), (run_closures s (reverse T2) σ2g),
    (run_closures s (reverse T1) (run_closures s (reverse N2) σa)).
  split_and!.
  - rewrite (backward_closures s sg r1 _ _ _ Hsg Htopo1).
    rewrite reverse_snoc, run_closures_cons. by rewrite (proj1 (proj2 Nr1)).
  - rewrite (backward_closures s sg r2 _ _ _ Hsg Htopo2).
    rewrite reverse_snoc, run_closures_cons. by rewrite (proj1 (proj2 Nr2)).
  - rewrite (backward_closures s sg (S r') _ _ _ Hsg Htopo12).
    rewrite !reverse_snoc, reverse_app, !run_closures_cons, run_closures_app.
    by rewrite (proj1 (proj2 Nr)), (proj1 (proj2 Na)).
  - destruct (HA1 (λ _, True) _ σ1g) as [_ Hx]; [done|done|].
    rewrite filter_all in Hx by done. by rewrite Hx, Hxg1.
  - destruct (HA2 (λ _, True) _ σ2g) as [_ Hx]; [done|done|].
    rewrite filter_all in Hx by done. by rewrite Hx, Hxg2.
  - destruct (HA2 (λ p, p ∉ (list_to_set T1 : gset ptr)) _ σa) as [_ Hxn2];
      [|done|].
    { intros t _ Ht. apply HN2 in Ht as [_ Ht]. by rewrite elem_of_list_to_set. }
    rewrite filter_reverse in Hxn2. fold N2 in Hxn2. rewrite Hxga in Hxn2.
    destruct (HA1 (λ _, True) _ (run_closures s (reverse N2) σa)) as [_ Hxn1];
      [done| |].
    { split.
      - eapply same_graph_trans; [by apply same_graph_sym|].
        eapply same_graph_trans; [exact Hsamea|apply run_closures_same_graph].
      - intros p Hp. unfold run_closures at 1. rewrite run_closures_frame.
        + by apply Hag1a.
        + intros t Ht Hq. rewrite elem_of_reverse in Ht.
          apply HN2 in Ht as [Ht _]. apply Htargets in Hq.
          apply HN1 in Hp as [_ Hp]. apply Hp.
          by eapply inputs_first_inputs. }
    rewrite filter_all in Hxn1 by done. rewrite Hxn1, Hxn2.
    apply imap_foldl_twice.
Qed.

Lemma sum_same (s s' : store) (this r : ptr) (t : Tensor) :
  length s' = length s → deref s' this = deref s this →
  sum this s = (inr r, s ++ [t]) → sum this s' = (inr r, s' ++ [t]).
Proof.
  intros Hl Hd. unfold sum, make_shared. rewrite Hl, Hd. intros Heq.
  injection Heq as <- Heq. apply app_inv_head in Heq. by injection Heq as <-.
Qed.

Lemma add_same (s s' : store) (this other r : ptr) (t : Tensor) :
  length s' = length s →
  deref s' this = deref s this → deref s' other = deref s other →
  add this other s = (inr r, s ++ [t]) → add this other s' = (inr r, s' ++ [t]).
Proof.
  intros Hl Hd1 Hd2. unfold add, throw, make_shared. rewrite Hl, Hd1, Hd2.
  destruct (negb _); [done|]. intros Heq.
  injection Heq as <- Heq. apply app_inv_head in Heq. by injection Heq as <-.
Qed.

Lemma with_grad_app (s ext : store) (x : ptr) (g : list F) :
  (x < length s)%nat → with_grad x g (s ++ ext) = with_grad x g s ++ ext.
Proof.
  intros Hx. unfold with_grad. rewrite deref_app_lt by done.
  by rewrite insert_app_l.
Qed.

Lemma with_grad_id (s : store) (x : ptr) : with_grad x (grad_ (deref s x)) s = s.
Proof. unfold with_grad. by rewrite set_grad_id, insert_deref_id. Qed.

Lemma reachable_app (s ext : store) (r p : ptr) :
  graph_ok s → (r < length s)%nat → reachable s r p → reachable (s ++ ext) r p.
Proof.
  intros Hok Hr Hreach. induction Hreach as [r|r i t Hi _ IH]; [constructor|].
  pose proof (graph_ok_input_lt _ _ _ Hok Hi) as Hlt.
  eapply reachable_step; [by rewrite deref_app_lt|]. apply IH. lia.
Qed.

Lemma foldl_fadd_assoc (a : F) (l : list F) :
  (∀ a b c, fadd (fadd a b) c = fadd a (fadd b c)) →
  (∀ a b, fadd a b = fadd b a) →
  (∀ a, fadd fzero a = a) →
  foldl fadd a l = fadd a (foldl fadd fzero l).
Proof.
  intros Hassoc Hcomm Hzero. revert a. induction l as [|d l IH]; intros a; simpl.
  - by rewrite Hcomm, Hzero.
  - rewrite IH, (IH (fadd fzero d)), Hzero. apply Hassoc.
Qed.

(** What [branch_roots] appends, whatever the gradients in the store are. *)
Lemma branch_roots_run (s : store) (o1 o2 : ptr) :
  graph_ok s → closures_local s → closures_own s →
  (o1 < length s)%nat → (o2 < length s)%nat →
  tensor_ok (deref s o1) → tensor_ok (deref s o2) →
  shape_ (deref s o2) = shape_ (deref s o1) →
  ∃ R1 R2 A R,
    let r1 := length s in
    let r2 := S (length s) in
    let a := S (S (length s)) in
    let r := S (S (S (length s))) in
    let s' := s ++ [R1; R2; A; R] in
    let rg1 := requires_grad_ (deref s o1) in
    let rg2 := requires_grad_ (deref s o2) in
    (∀ σ, length σ = length s → deref σ o1 = deref s o1 → deref σ o2 = deref s o2 →
       branch_roots o1 o2 σ = (inr (r1, r2, r), σ ++ [R1; R2; A; R])) ∧
    graph_ok s' ∧ closures_local s' ∧ closures_own s' ∧
    node s' r1 [o1] (BwSum o1 r1) 1 rg1 ∧
    node s' r2 [o2] (BwSum o2 r2) 1 rg2 ∧
    node s' a [o1; o2] (BwAdd o1 o2 a) (size_ (deref s o1)) (rg1 || rg2) ∧
    node s' r [a] (BwSum a r) 1 (rg1 || rg2) ∧
    fresh_grad s' a.
Proof.
  intros Hgraph Hlocal Hown Ho1 Ho2 Hok1 Hok2 Hshape.
  destruct (sum_run o1 s) as
    (R1 & Hrun1 & HokR1 & HiR1 & HbR1 & HsR1 & _ & HrR1 & _ & HgR1).
  set (s1 := s ++ [R1]).
  assert (Hl1 : length s1 = S (length s)) by apply length_snoc.
  destruct (sum_run o2 s1) as
    (R2 & Hrun2 & HokR2 & HiR2 & HbR2 & HsR2 & _ & HrR2 & _ & HgR2).
  set (s2 := s1 ++ [R2]).
  assert (Hl2 : length s2 = S (S (length s))) by (unfold s2; by rewrite length_snoc, Hl1).
  assert (Hd1 : deref s2 o1 = deref s o1).
  { unfold s2, s1. by rewrite !deref_snoc_lt by (rewrite ?length_snoc; lia). }
  assert (Hd2 : deref s2 o2 = deref s o2).
  { unfold s2, s1. by rewrite !deref_snoc_lt by (rewrite ?length_snoc; lia). }
  destruct (add_run o1 o2 s2) as
    (A & Hrun3 & HokA & HiA & HbA & HsA & _ & HrA & HgA).
  { by rewrite Hd1. }
  { by rewrite Hd1, Hd2. }
  set (s3 := s2 ++ [A]).
  assert (Hl3 : length s3 = S (S (S (length s))))
    by (unfold s3; by rewrite length_snoc, Hl2).
  destruct (sum_run (length s2) s3) as
    (R & Hrun4 & HokR & HiR & HbR & HsR & _ & HrR & _ & HgR).
  unfold s3 in HrR. rewrite deref_snoc in HrR.
  rewrite Hd1, Hd2 in *. unfold s1 in HrR2. rewrite deref_snoc_lt in HrR2 by done.
  rewrite Hl1 in *. rewrite Hl2 in *. rewrite Hl3 in *.
  assert (Happ : ∀ σ : store, ((((σ ++ [R1]) ++ [R2]) ++ [A]) ++ [R]) = σ ++ [R1; R2; A; R]).
  { intros σ. by rewrite <- !app_assoc. }
  exists R1, R2, A, R. cbn zeta.
  assert (Hwf1 : graph_ok s1 ∧ closures_local s1).
  { apply store_snoc; [done| |]; rewrite ?HbR1, HiR1; [|done].
    by repeat constructor. }
  assert (Hwf2 : graph_ok s2 ∧ closures_local s2).
  { apply store_snoc; [done| |]; rewrite ?HbR2, HiR2; [|done].
    repeat constructor. lia. }
  assert (Hwf3 : graph_ok s3 ∧ closures_local s3).
  { apply store_snoc; [done| |]; rewrite ?HbA, HiA; [|done].
    repeat constructor; lia. }
  assert (Hwf4 : graph_ok (s3 ++ [R]) ∧ closures_local (s3 ++ [R])).
  { apply store_snoc; [done| |]; rewrite ?HbR, HiR; [|done].
    repeat constructor; lia. }
  assert (Hown4 : closures_own (s3 ++ [R])).
  { apply closures_own_snoc; [|rewrite HbR; simpl; intros ?; congruence].
    apply closures_own_snoc; [|rewrite HbA; simpl; intros ?; congruence].
    apply closures_own_snoc; [|rewrite HbR2; simpl; intros ?; congruence].
    apply closures_own_snoc; [done|rewrite HbR1; simpl; intros ?; congruence]. }
  unfold s3, s2, s1 in Hwf4, Hown4. rewrite Happ in Hwf4, Hown4.
  destruct Hwf4 as [Hgraph4 Hlocal4].
  assert (HdR1 : deref (s ++ [R1; R2; A; R]) (length s) = R1).
  { rewrite <- (Nat.add_0_r (length s)). by apply deref_app_new. }
  assert (HdR2 : deref (s ++ [R1; R2; A; R]) (S (length s)) = R2).
  { replace (S (length s)) with (length s + 1)%nat by lia. by apply deref_app_new. }
  assert (HdA : deref (s ++ [R1; R2; A; R]) (S (S (length s))) = A).
  { replace (S (S (length s))) with (length s + 2)%nat by lia.
    by apply deref_app_new. }
  assert (HdR : deref (s ++ [R1; R2; A; R]) (S (S (S (length s)))) = R).
  { replace (S (S (S (length s)))) with (length s + 3)%nat by lia.
    by apply deref_app_new. }
  split_and!; try done.
  - intros σ Hlen Hσ1 Hσ2. unfold branch_roots, bind, ret.
    rewrite (sum_same s σ o1 (length s) R1 Hlen Hσ1 Hrun1).
    rewrite (sum_same s1 (σ ++ [R1]) o2 (S (length s)) R2); [| | |exact Hrun2].
    2:{ by rewrite !length_snoc, Hlen. }
    2:{ unfold s1. rewrite !deref_snoc_lt by lia. done. }
    rewrite (add_same s2 ((σ ++ [R1]) ++ [R2]) o1 o2 (S (S (length s))) A);
      [| | | |exact Hrun3].
    2:{ by rewrite !length_snoc, Hlen. }
    2:{ rewrite Hd1. rewrite !deref_snoc_lt by (rewrite ?length_snoc; lia). done. }
    2:{ rewrite Hd2. rewrite !deref_snoc_lt by (rewrite ?length_snoc; lia). done. }
    rewrite (sum_same s3 (((σ ++ [R1]) ++ [R2]) ++ [A]) (S (S (length s)))
               (S (S (S (length s)))) R); [| | |exact Hrun4].
    2:{ by rewrite !length_snoc, Hlen. }
    2:{ unfold s3. rewrite <- Hl2 at 2.
        replace (S (S (length s))) with (length ((σ ++ [R1]) ++ [R2]))
          by (rewrite !length_snoc; lia).
        by rewrite !deref_snoc. }
    by rewrite Happ.
  - unfold node. rewrite HdR1. destruct HokR1 as (_ & _ & HlR1).
    rewrite HlR1, HrR1, HsR1. done.
  - unfold node. rewrite HdR2. destruct HokR2 as (_ & _ & HlR2).
    rewrite HlR2, HrR2, HsR2. done.
  - unfold node. rewrite HdA. destruct HokA as (_ & _ & HlA).
    rewrite HlA, HrA, HsA. done.
  - unfold node. rewrite HdR. destruct HokR as (_ & _ & HlR).
    rewrite HlR, HrR, HsR, HrA. done.
  - unfold fresh_grad. by rewrite HdA.
Qed.

(** C1. A tensor [x] of a well-formed graph feeds two branches with the
    outputs [o1] and [o2] (any subgraphs, built from any operations) that
    have no consumer of [x] in common. The outputs are summed alone
    ([o1.sum()], [o2.sum()]) and together ([(o1 + o2).sum()]), and
    [backward] is called on each root.

    - Each branch adds to every [x->grad_[j]] a list of addends that does
      not depend on what the buffer holds; from the combined root, [x]
      receives the addends of [o2]'s branch first and then those of [o1]'s,
      one [+=] each.
    - When the addition is associative and commutative with unit 0.0 (exact
      arithmetic) and the buffer of [x] starts zeroed, that is the
      elementwise sum of the gradients of the two branches alone. In
      binary64 every [+=] rounds, and the sum is met up to rounding only.
    - In binary64 as well it is the exact elementwise sum when each branch is
      one of [multiply_scalar], [pow], [relu], [sigmoid], [tanh], which add
      one term per element: only commutativity and
      [(0.0 + a) + (0.0 + b) = (0.0 + a) + b] are needed.
    - Every [backward_fn_] only accumulates: it maps any gradient vector [g]
      of any tensor to [g] plus addends that do not depend on [g], and
      changes no data. *)
Theorem gradients_accumulate_over_branches (s : store) (x o1 o2 : ptr) :
  graph_ok s → closures_local s → closures_own s →
  (o1 < length s)%nat → (o2 < length s)%nat →
  tensor_ok (deref s o1) → tensor_ok (deref s o2) →
  shape_ (deref s o2) = shape_ (deref s o1) →
  x ≠ o1 → x ≠ o2 → reachable s o1 x → reachable s o2 x →
  (∀ t, reachable s o1 t → reachable s o2 t → x ∉ inputs_ (deref s t)) →
  fadd fzero fone = fone →
  (∃ A1 A2 : nat → list F, ∀ g, length g = length (grad_ (deref s x)) →
     branch_gradients o1 o2 x (with_grad x g s) =
       Some (imap (λ j v, foldl fadd v (A1 j)) g,
             imap (λ j v, foldl fadd v (A2 j)) g,
             imap (λ j v, foldl fadd (foldl fadd v (A2 j)) (A1 j)) g)) ∧
  ((∀ a b c, fadd (fadd a b) c = fadd a (fadd b c)) →
   (∀ a b, fadd a b = fadd b a) →
   (∀ a, fadd fzero a = a) →
   fresh_grad s x →
   ∃ G1 G2, branch_gradients o1 o2 x s = Some (G1, G2, zip_with fadd G1 G2)) ∧
  (∀ op1 op2 : consumer,
     (∀ a b, fadd a b = fadd b a) →
     (∀ a b, fadd (fadd fzero a) (fadd fzero b) = fadd (fadd fzero a) b) →
     tensor_ok (deref s x) → fresh_grad s x →
     ∃ G1 G2,
       grad_after_backward (one_branch op1 x) x s = Some G1 ∧
       grad_after_backward (one_branch op2 x) x s = Some G2 ∧
       grad_after_backward (two_branches op1 op2 x) x s =
         Some (zip_with fadd G1 G2)) ∧
  (∀ (c : Closure) (s' : store) (q : ptr), closure_ok c →
     (∃ D : nat → list F, ∀ g,
        length g = length (grad_ (deref s' q)) →
        grad_ (deref (run_closure c (<[q := set_grad (deref s' q) g]> s')) q) =
        imap (λ j x, foldl fadd x (D j)) g) ∧
     (∀ p, data_ (deref (run_closure c s') p) = data_ (deref s' p))).
Proof.
  intros Hgraph Hlocal Hown Ho1 Ho2 Hok1 Hok2 Hshape Hx1 Hx2 Hr1 Hr2 Hshare H01.
  pose proof (reachable_le s o1 x Hgraph Hr1) as Hxle.
  destruct (branch_roots_run s o1 o2) as
    (R1 & R2 & A & R & Hrun & Hgraph' & Hlocal' & Hown' & Nr1 & Nr2 & Na & Nr & Fa);
    try done.
  cbn zeta in *. set (s' := s ++ [R1; R2; A; R]) in *.
  assert (Hgen : ∃ A1 A2 : nat → list F, ∀ g,
    length g = length (grad_ (deref s x)) →
    branch_gradients o1 o2 x (with_grad x g s) =
      Some (imap (λ j v, foldl fadd v (A1 j)) g,
            imap (λ j v, foldl fadd v (A2 j)) g,
            imap (λ j v, foldl fadd (foldl fadd v (A2 j)) (A1 j)) g)).
  { destruct (branches_backward s' x o1 o2 (length s) (S (length s))
                (S (S (length s))) (S (S (S (length s)))) (size_ (deref s o1))
                (requires_grad_ (deref s o1)) (requires_grad_ (deref s o2))
                (inputs_ (deref s o1)) (backward_fn_ (deref s o1))
                (inputs_ (deref s o2)) (backward_fn_ (deref s o2)))
      as (A1 & A2 & HA); try done.
    - unfold node, s'. rewrite deref_app_lt by done.
      by destruct Hok1 as (_ & _ & ->).
    - unfold node, s'. rewrite deref_app_lt by done.
      destruct Hok1 as (-> & _), Hok2 as (Hs2 & _ & ->).
      rewrite Hs2, Hshape. done.
    - by apply reachable_app.
    - by apply reachable_app.
    - intros t Ht1 Ht2.
      apply reachable_prefix in Ht1; [|done|done].
      apply reachable_prefix in Ht2; [|done|done].
      pose proof (reachable_le s o1 t Hgraph Ht1).
      unfold s'. rewrite deref_app_lt by lia. by apply Hshare.
    - exists A1, A2. intros g Hg.
      destruct (HA g) as (s1 & s2 & s12 & Hb1 & Hb2 & Hb12 & G1 & G2 & G12).
      { unfold s'. by rewrite deref_app_lt by lia. }
      unfold branch_gradients. rewrite (Hrun (with_grad x g s)).
      + rewrite <- with_grad_app by lia. fold s'. rewrite Hb1, Hb2, Hb12. simpl.
        by rewrite G1, G2, G12.
      + unfold with_grad. by rewrite length_insert.
      + unfold with_grad. by rewrite deref_set_grad_ne.
      + unfold with_grad. by rewrite deref_set_grad_ne. }
  split; [exact Hgen|]. split; [|split].
  - intros Hassoc Hcomm Hzero Hfresh. destruct Hgen as (A1 & A2 & HA).
    specialize (HA (grad_ (deref s x)) eq_refl). rewrite with_grad_id in HA.
    eexists _, _. rewrite HA. f_equal. f_equal.
    rewrite zip_with_imap. apply imap_ext. intros j v Hj. simpl.
    rewrite Hfresh in Hj. apply lookup_replicate in Hj as [-> _].
    rewrite (foldl_fadd_assoc (foldl fadd fzero (A2 j))) by done.
    apply Hcomm.
  - intros op1 op2 Hcomm Habsorb Hokx Hfresh.
    assert (Hx : (x < length s)%nat) by lia.
    eexists _, _. split; [by apply one_branch_grad|].
    split; [by apply one_branch_grad|].
    rewrite two_branches_grad by done. f_equal.
    rewrite zip_with_imap. apply imap_ext. intros j g Hg. simpl.
    rewrite Hfresh in Hg. apply lookup_replicate in Hg as [-> _].
    rewrite !H01.
    rewrite (Hcomm (fadd fzero (consumer_term op1 _ _ _))).
    by rewrite Habsorb.
  - intros c σ q Hc. by apply run_closure_accumulates.
Qed.

(** ** A tensor with one consumer *)






End Branches.


(** * Datasets and batches ([darv_dataset.hpp]) *)

Local Open Scope N_scope.

(** What [Dataset] and [DataLoader] throw: [std::runtime_error] and
    [std::out_of_range]. *)
Inductive data_exception :=
  | data_runtime_error (what : string)
  | out_of_range (what : string).

(** [class Dataset]: two vectors of tensor pointers and [size_]. *)
Record Dataset := {
  dataset_data_ : list ptr;
  dataset_labels_ : list ptr;
  dataset_size_ : N
}.

(** [Dataset()] *)
Definition Dataset_empty : Dataset :=
  {| dataset_data_ := []; dataset_labels_ := []; dataset_size_ := 0 |}.

(** [Dataset(data, labels)] *)
Definition Dataset_new (data labels : list ptr) : data_exception + Dataset :=
  if negb (N.of_nat (length data) =? N.of_nat (length labels))
  then inl (data_runtime_error "Data and labels must have same size")
  else inr {| dataset_data_ := data; dataset_labels_ := labels;
              dataset_size_ := N.of_nat (length data) |}.

(** [operator[]]. The reads [data_[idx]] and [labels_[idx]] are guarded only
    by [size_]; a read past the end of a vector is rendered as pointer 0. *)
Definition Dataset_at (d : Dataset) (idx : N) : data_exception + (ptr * ptr) :=
  if dataset_size_ d <=? idx
  then inl (out_of_range "Index out of range")
  else inr (dataset_data_ d !!! N.to_nat idx, dataset_labels_ d !!! N.to_nat idx).

Definition add_sample (data label : ptr) (d : Dataset) : Dataset :=
  {| dataset_data_ := dataset_data_ d ++ [data];
     dataset_labels_ := dataset_labels_ d ++ [label];
     dataset_size_ := wrap (dataset_size_ d + 1) |}.

(** [class DataLoader] *)
Record DataLoader := {
  dataset_ : Dataset;
  batch_size_ : N;
  shuffle_ : bool;
  current_idx_ : N;
  indices_ : list N
}.

(** [std::iota(indices_.begin(), indices_.end(), 0)] on [n] elements. *)
Definition iota (n : N) : list N := N.of_nat <$> seq 0 (N.to_nat n).

Definition has_next (l : DataLoader) : bool :=
  current_idx_ l <? dataset_size_ (dataset_ l).

(** The loop of [next_batch]: [i] runs from [batch_start] while
    [i < batch_end]. *)
Definition batch_range (batch_start batch_end : N) : list N :=
  (λ k, batch_start + N.of_nat k) <$> seq 0 (N.to_nat (batch_end - batch_start)).

(** One turn of the loop: [dataset_[indices_[i]]], then two [push_back]s. An
    exception leaves the loop. *)
Definition batch_push (l : DataLoader)
    (acc : data_exception + (list ptr * list ptr)) (i : N) :
    data_exception + (list ptr * list ptr) :=
  match acc with
  | inl e => inl e
  | inr (batch_data, batch_labels) =>
      match Dataset_at (dataset_ l) (indices_ l !!! N.to_nat i) with
      | inl e => inl e
      | inr (data, label) => inr (batch_data ++ [data], batch_labels ++ [label])
      end
  end.

(** [next_batch]; [current_idx_] is assigned after the loop, so an exception
    leaves the loader as it was. *)
Definition next_batch (l : DataLoader) :
    (data_exception + (list ptr * list ptr)) * DataLoader :=
  if negb (has_next l)
  then (inl (data_runtime_error "No more batches available"), l)
  else
    let batch_start := current_idx_ l in
    let batch_end :=
      N.min (wrap (current_idx_ l + batch_size_ l)) (dataset_size_ (dataset_ l)) in
    match foldl (batch_push l) (inr ([], [])) (batch_range batch_start batch_end) with
    | inl e => (inl e, l)
    | inr batch =>
        (inr batch,
         {| dataset_ := dataset_ l; batch_size_ := batch_size_ l;
            shuffle_ := shuffle_ l; current_idx_ := batch_end;
            indices_ := indices_ l |})
    end.

(** [num_batches]: [(dataset_.size() + batch_size_ - 1) / batch_size_] in
    [size_t]; the division by a zero [batch_size_] has no result. *)
Definition num_batches (l : DataLoader) : option N :=
  if batch_size_ l =? 0 then None
  else Some (wrap (wrap (dataset_size_ (dataset_ l) + batch_size_ l) +
                   (size_t_modulus - 1)) / batch_size_ l).

Section Shuffle.

(** [std::shuffle] with a generator seeded from [std::random_device]: the
    outcome depends on the draw of the device, and is a rearrangement of the
    range. *)
Variable std_shuffle : nat → list N → list N.
Hypothesis std_shuffle_perm : ∀ rd l, std_shuffle rd l ≡ₚ l.

Definition shuffle_indices (rd : nat) (l : DataLoader) : DataLoader :=
  {| dataset_ := dataset_ l; batch_size_ := batch_size_ l;
     shuffle_ := shuffle_ l; current_idx_ := current_idx_ l;
     indices_ := std_shuffle rd (indices_ l) |}.

(** [DataLoader(dataset, batch_size, shuffle)] *)
Definition DataLoader_new (rd : nat) (dataset : Dataset) (batch_size : N)
    (shuffle : bool) : DataLoader :=
  let l := {| dataset_ := dataset; batch_size_ := batch_size;
              shuffle_ := shuffle; current_idx_ := 0;
              indices_ := iota (dataset_size_ dataset) |} in
  if shuffle then shuffle_indices rd l else l.

Definition reset (rd : nat) (l : DataLoader) : DataLoader :=
  let l := {| dataset_ := dataset_ l; batch_size_ := batch_size_ l;
              shuffle_ := shuffle_ l; current_idx_ := 0;
              indices_ := indices_ l |} in
  if shuffle_ l then shuffle_indices rd l else l.

(** [for (auto batch : loader) { ... }] with a body that collects the
    batches: [begin()] resets, [it != end()] compares the [end_] flags,
    [*it] is [next_batch()] and [++it] sets [end_] once nothing is left. *)
Fixpoint Iterator_loop (fuel : nat) (l : DataLoader) (end_ : bool)
    (batches : list (list ptr * list ptr)) :
    option ((data_exception + list (list ptr * list ptr)) * DataLoader) :=
  match fuel with
  | O => None
  | S fuel =>
      if end_ then Some (inr batches, l)
      else
        match next_batch l with
        | (inl e, l') => Some (inl e, l')
        | (inr batch, l') =>
            Iterator_loop fuel l' (if has_next l' then end_ else true)
              (batches ++ [batch])
        end
  end.

Definition for_batches (fuel : nat) (rd : nat) (l : DataLoader) :
    option ((data_exception + list (list ptr * list ptr)) * DataLoader) :=
  let l := reset rd l in
  Iterator_loop fuel l (negb (has_next l)) [].

End Shuffle.

(** ** Properties of [Dataset] and [DataLoader] *)

(** The invariant that the constructors and [add_sample] keep. *)
Definition Dataset_ok (d : Dataset) : Prop :=
  length (dataset_data_ d) = length (dataset_labels_ d) ∧
  dataset_size_ d = N.of_nat (length (dataset_data_ d)).

(** The sample that position [i] of [indices_] selects. *)
Definition sample (l : DataLoader) (i : N) : ptr * ptr :=
  let idx := N.to_nat (indices_ l !!! N.to_nat i) in
  (dataset_data_ (dataset_ l) !!! idx, dataset_labels_ (dataset_ l) !!! idx).

Definition with_current (c : N) (l : DataLoader) : DataLoader :=
  {| dataset_ := dataset_ l; batch_size_ := batch_size_ l;
     shuffle_ := shuffle_ l; current_idx_ := c; indices_ := indices_ l |}.

Lemma batch_range_app (a b c : N) :
  a ≤ b → b ≤ c → batch_range a b ++ batch_range b c = batch_range a c.
Proof.
  intros Hab Hbc. unfold batch_range.
  replace (N.to_nat (c - a)) with (N.to_nat (b - a) + N.to_nat (c - b))%nat by lia.
  rewrite seq_app, fmap_app. f_equal.
  replace (0 + N.to_nat (b - a))%nat with (N.to_nat (b - a) + 0)%nat by lia.
  rewrite <- fmap_add_seq, <- list_fmap_compose.
  apply list_fmap_ext. intros _ k _. simpl. lia.
Qed.

Lemma length_batch_range (a b : N) : length (batch_range a b) = N.to_nat (b - a).
Proof. unfold batch_range. by rewrite length_fmap, length_seq. Qed.

Lemma elem_of_batch_range (a b i : N) : i ∈ batch_range a b → a ≤ i < b.
Proof.
  unfold batch_range. intros (k & -> & Hk)%list_elem_of_fmap.
  apply elem_of_seq in Hk. lia.
Qed.

Lemma batch_fold (l : DataLoader) (r : list N) (bd bl : list ptr) :
  (∀ i, i ∈ r → indices_ l !!! N.to_nat i < dataset_size_ (dataset_ l)) →
  foldl (batch_push l) (inr (bd, bl)) r =
    inr (bd ++ (fst ∘ sample l <$> r), bl ++ (snd ∘ sample l <$> r)).
Proof.
  revert bd bl. induction r as [|i r IH]; intros bd bl Hr; simpl.
  - by rewrite !app_nil_r.
  - unfold Dataset_at.
    destruct (N.leb_spec (dataset_size_ (dataset_ l)) (indices_ l !!! N.to_nat i))
      as [Hle|_].
    { specialize (Hr i ltac:(left)). lia. }
    rewrite IH by (intros j Hj; apply Hr; by right).
    by rewrite <- !app_assoc.
Qed.

Lemma zip_fst_snd_fmap {A B C} (f : A → B * C) (r : list A) :
  zip (fst ∘ f <$> r) (snd ∘ f <$> r) = f <$> r.
Proof.
  induction r as [|a r IH]; [done|]. rewrite !fmap_cons.
  cbn [zip_with]. rewrite IH. simpl. by destruct (f a).
Qed.

(** One [next_batch] from position [c]. *)
Lemma next_batch_run (l : DataLoader) (c : N) :
  let n := dataset_size_ (dataset_ l) in
  let e := N.min (c + batch_size_ l) n in
  c < n → c + batch_size_ l < size_t_modulus →
  Forall (λ idx, idx < n) (indices_ l) → length (indices_ l) = N.to_nat n →
  next_batch (with_current c l) =
    (inr (fst ∘ sample l <$> batch_range c e, snd ∘ sample l <$> batch_range c e),
     with_current e l).
Proof.
  intros n e Hc Hwrap Hvalid Hlen. unfold next_batch, has_next. cbn [with_current
    current_idx_ dataset_ batch_size_ shuffle_ indices_].
  fold n. destruct (N.ltb_spec c n) as [_|?]; [|lia]. cbn [negb].
  unfold wrap. rewrite N.mod_small by done. fold e.
  rewrite (batch_fold (with_current c l)).
  - done.
  - intros i Hi%elem_of_batch_range. cbn [with_current indices_ dataset_].
    rewrite Forall_forall in Hvalid. apply Hvalid.
    apply list_elem_of_lookup_total_2. lia.
Qed.

(** The quotient that [num_batches] computes, from position [c]. *)
Definition batches_left (n b c : N) : N := (n - c + b - 1) / b.

Lemma batches_left_last (n b c : N) :
  c < n → n ≤ c + b → batches_left n b c = 1.
Proof.
  intros Hc Hn. unfold batches_left. symmetry.
  apply (N.div_unique _ _ 1 (n - c - 1)); lia.
Qed.

Lemma batches_left_more (n b c : N) :
  0 < b → c + b < n → batches_left n b c = batches_left n b (c + b) + 1.
Proof.
  intros Hb Hn. unfold batches_left.
  replace (n - c + b - 1) with ((n - (c + b) + b - 1) + 1 * b) by lia.
  rewrite N.div_add by lia. done.
Qed.

(** The loop of the iterator from position [c < n] on. *)
Lemma Iterator_loop_run (l : DataLoader) (fuel : nat) (c : N)
    (acc : list (list ptr * list ptr)) :
  let n := dataset_size_ (dataset_ l) in
  let b := batch_size_ l in
  0 < b → n + b ≤ size_t_modulus →
  Forall (λ idx, idx < n) (indices_ l) → length (indices_ l) = N.to_nat n →
  c < n → (N.to_nat (batches_left n b c) < fuel)%nat →
  ∃ batches,
    Iterator_loop fuel (with_current c l) false acc =
      Some (inr (acc ++ batches), with_current n l) ∧
    N.of_nat (length batches) = batches_left n b c ∧
    concat ((λ batch, zip batch.1 batch.2) <$> batches) =
      sample l <$> batch_range c n ∧
    (∀ i batch, batches !! i = Some batch →
       length batch.2 = length batch.1 ∧
       N.of_nat (length batch.1) = N.min b (n - c - N.of_nat i * b)).
Proof.
  intros n b Hb Hwrap Hvalid Hlen. revert c acc.
  induction fuel as [|fuel IH]; intros c acc Hc Hfuel; [lia|].
  cbn [Iterator_loop].
  rewrite next_batch_run by (try done; fold n b; lia). fold n b.
  set (e := N.min (c + b) n).
  set (batch := (fst ∘ sample l <$> batch_range c e,
                 snd ∘ sample l <$> batch_range c e)).
  assert (Hbatch : length batch.2 = length batch.1 ∧
            N.of_nat (length batch.1) = N.min b (n - c)).
  { unfold batch. cbn [fst snd]. rewrite !length_fmap, length_batch_range.
    split; [done|]. unfold e. lia. }
  unfold has_next. cbn [with_current current_idx_ dataset_]. fold n.
  destruct (N.ltb_spec e n) as [Hlt|Hge].
  - assert (He : e = c + b) by (unfold e in *; lia).
    assert (Hleft := batches_left_more n b c Hb ltac:(lia)).
    destruct (IH e (acc ++ [batch]) Hlt) as (batches & Hrun & Hcount & Hcat & Hsizes).
    { rewrite He. lia. }
    exists (batch :: batches). rewrite Hrun, <- app_assoc. split; [done|].
    split; [rewrite Hleft, <- He, <- Hcount; simpl; lia|].
    split.
    + rewrite fmap_cons. cbn [concat].
      rewrite Hcat. unfold batch. cbn [fst snd].
      rewrite zip_fst_snd_fmap, <- fmap_app, batch_range_app by lia. done.
    + intros [|i] batch' Hi.
      * injection Hi as <-. destruct Hbatch as [H1 H2].
        split; [done|]. rewrite H2. lia.
      * destruct (Hsizes i batch' Hi) as [H1 H2]. split; [done|].
        rewrite H2, He. f_equal. lia.
  - assert (He : e = n) by (unfold e in *; lia).
    assert (Hleft := batches_left_last n b c Hc ltac:(unfold e in *; lia)).
    destruct fuel as [|fuel]; [lia|]. cbn [Iterator_loop].
    exists [batch]. rewrite He. split; [done|].
    split; [by rewrite Hleft|]. split.
    + rewrite fmap_cons. cbn [fmap list_fmap concat]. rewrite app_nil_r.
      unfold batch. cbn [fst snd].
      by rewrite zip_fst_snd_fmap, He.
    + intros [|i] batch' Hi; [|done].
      injection Hi as <-. destruct Hbatch as [H1 H2].
      split; [done|]. rewrite H2. lia.
Qed.

Lemma fmap_lookup_total_seq {A} `{Inhabited A} (l : list A) :
  (λ k, l !!! k) <$> seq 0 (length l) = l.
Proof.
  apply list_eq. intros i. rewrite list_lookup_fmap.
  destruct (decide (i < length l)%nat) as [Hlt|Hge].
  - rewrite lookup_seq_lt by done. simpl.
    by rewrite list_lookup_lookup_total_lt.
  - rewrite lookup_seq_ge by lia. simpl. by rewrite lookup_ge_None_2 by lia.
Qed.

Lemma zip_lookup_total_seq (data labels : list ptr) :
  length data = length labels →
  (λ k, (data !!! k, labels !!! k)) <$> seq 0 (length data) = zip data labels.
Proof.
  intros Hlen. apply list_eq. intros i. rewrite list_lookup_fmap.
  rewrite lookup_zip_with.
  destruct (decide (i < length data)%nat) as [Hlt|Hge].
  - rewrite lookup_seq_lt by done. simpl.
    rewrite !list_lookup_lookup_total_lt by lia. done.
  - rewrite lookup_seq_ge by lia. simpl.
    by rewrite (lookup_ge_None_2 data) by lia.
Qed.

(** All samples in the order of [indices_]. *)
Lemma samples_by_indices (l : DataLoader) :
  length (indices_ l) = N.to_nat (dataset_size_ (dataset_ l)) →
  sample l <$> batch_range 0 (dataset_size_ (dataset_ l)) =
  (λ idx, (dataset_data_ (dataset_ l) !!! N.to_nat idx,
           dataset_labels_ (dataset_ l) !!! N.to_nat idx)) <$> indices_ l.
Proof.
  intros Hlen.
  transitivity
    ((λ idx, (dataset_data_ (dataset_ l) !!! N.to_nat idx,
              dataset_labels_ (dataset_ l) !!! N.to_nat idx)) <$>
     ((λ k, indices_ l !!! k) <$> seq 0 (length (indices_ l))));
    [|by rewrite (fmap_lookup_total_seq (indices_ l))].
  unfold batch_range. rewrite N.sub_0_r, <- Hlen, <- !list_fmap_compose.
  apply list_fmap_ext. intros _ k _. simpl. unfold sample.
  by rewrite N.add_0_l, Nat2N.id.
Qed.

Lemma samples_of_iota (d : Dataset) :
  Dataset_ok d →
  (λ idx, (dataset_data_ d !!! N.to_nat idx, dataset_labels_ d !!! N.to_nat idx))
    <$> iota (dataset_size_ d) =
  zip (dataset_data_ d) (dataset_labels_ d).
Proof.
  intros [Hlen Hsize]. unfold iota. rewrite Hsize, Nat2N.id.
  rewrite <- list_fmap_compose, <- zip_lookup_total_seq by done.
  apply list_fmap_ext. intros _ k _. simpl. by rewrite Nat2N.id.
Qed.

Lemma iota_valid (n : N) : Forall (λ idx, idx < n) (iota n).
Proof.
  apply Forall_forall. intros idx (k & -> & Hk)%list_elem_of_fmap.
  apply elem_of_seq in Hk. lia.
Qed.

Lemma num_batches_value (l : DataLoader) :
  0 < batch_size_ l →
  dataset_size_ (dataset_ l) + batch_size_ l ≤ size_t_modulus →
  num_batches l =
    Some (batches_left (dataset_size_ (dataset_ l)) (batch_size_ l) 0).
Proof.
  intros Hb Hwrap. unfold num_batches, batches_left.
  destruct (N.eqb_spec (batch_size_ l) 0) as [?|_]; [lia|].
  f_equal. f_equal. rewrite N.sub_0_r.
  unfold wrap, size_t_modulus in *.
  set (n := dataset_size_ (dataset_ l)) in *. set (b := batch_size_ l) in *.
  change (2 ^ 64) with 18446744073709551616 in *.
  destruct (decide (n + b = 18446744073709551616)) as [->|Hne].
  - reflexivity.
  - rewrite (N.mod_small (n + b)) by lia.
    symmetry. apply (N.mod_unique _ _ 1). all: lia.
Qed.

Lemma Iterator_loop_mono (fuel fuel' : nat) (l : DataLoader) (end_ : bool)
    (acc : list (list ptr * list ptr)) r :
  Iterator_loop fuel l end_ acc = Some r → (fuel ≤ fuel')%nat →
  Iterator_loop fuel' l end_ acc = Some r.
Proof.
  revert fuel' l end_ acc. induction fuel as [|fuel IH];
    intros fuel' l end_ acc Hrun Hle; [done|].
  destruct fuel' as [|fuel']; [lia|]. cbn [Iterator_loop] in *.
  destruct end_; [done|].
  destruct (next_batch l) as [[e|batch] l']; [done|].
  apply IH; [done|lia].
Qed.

(** X22. One pass of [for (auto batch : loader)] over a loader made from a
    consistent dataset, with a positive batch size and
    [size + batch_size] within [size_t]: the loop ends without an exception
    after exactly [num_batches()] batches, the batches put together hold
    every (data, label) pair of the dataset exactly once (in the order of the
    dataset when [shuffle] is false), batch [i] has
    [min (batch_size, size - i * batch_size)] pairs, and a further
    [next_batch()] throws. *)
Theorem dataloader_epoch (std_shuffle : nat → list N → list N) (rd0 rd : nat)
    (ds : Dataset) (batch_size : N) (shuffle : bool) :
  (∀ rd l, std_shuffle rd l ≡ₚ l) →
  Dataset_ok ds → 0 < batch_size →
  dataset_size_ ds + batch_size ≤ size_t_modulus →
  let l := DataLoader_new std_shuffle rd0 ds batch_size shuffle in
  ∃ batches l',
    (∀ fuel, (length batches < fuel)%nat →
       for_batches std_shuffle fuel rd l = Some (inr batches, l')) ∧
    num_batches l = Some (N.of_nat (length batches)) ∧
    concat ((λ batch, zip batch.1 batch.2) <$> batches) ≡ₚ
      zip (dataset_data_ ds) (dataset_labels_ ds) ∧
    (shuffle = false →
     concat ((λ batch, zip batch.1 batch.2) <$> batches) =
       zip (dataset_data_ ds) (dataset_labels_ ds)) ∧
    (∀ i batch, batches !! i = Some batch →
       length batch.2 = length batch.1 ∧
       N.of_nat (length batch.1) =
         N.min batch_size (dataset_size_ ds - N.of_nat i * batch_size)) ∧
    next_batch l' =
      (inl (data_runtime_error "No more batches available"), l').
Proof.
  intros Hperm Hok Hb Hwrap l.
  set (n := dataset_size_ ds) in *.
  set (I := indices_ (reset std_shuffle rd l)).
  set (l0 := {| dataset_ := ds; batch_size_ := batch_size; shuffle_ := shuffle;
                current_idx_ := 0; indices_ := I |}).
  assert (Hreset : reset std_shuffle rd l = l0)
    by (unfold l0, I, l, reset, DataLoader_new; by destruct shuffle).
  assert (HI : I ≡ₚ iota n).
  { unfold I, l, reset, DataLoader_new, shuffle_indices. destruct shuffle; simpl.
    - by rewrite !Hperm.
    - done. }
  assert (HIeq : shuffle = false → I = iota n).
  { intros ->. done. }
  assert (Hvalid : Forall (λ idx, idx < n) I) by (rewrite HI; apply iota_valid).
  assert (Hlen : length I = N.to_nat n).
  { rewrite HI. unfold iota. by rewrite length_fmap, length_seq. }
  assert (Hnum : num_batches l = Some (batches_left n batch_size 0)).
  { assert (Hd : dataset_ l = ds ∧ batch_size_ l = batch_size)
      by (unfold l, DataLoader_new; by destruct shuffle).
    destruct Hd as [Hd1 Hd2].
    rewrite num_batches_value; rewrite ?Hd1, ?Hd2; done. }
  assert (Hlast : next_batch (with_current n l0) =
            (inl (data_runtime_error "No more batches available"),
             with_current n l0)).
  { unfold next_batch, has_next. cbn [with_current l0 current_idx_ dataset_].
    fold n. by rewrite N.ltb_irrefl. }
  unfold for_batches. rewrite Hreset.
  destruct (decide (n = 0)) as [Hn0|Hn0].
  - exists [], l0. split_and!.
    + intros [|fuel] Hfuel; [simpl in Hfuel; lia|].
      unfold has_next. cbn [l0 current_idx_ dataset_]. fold n.
      by rewrite Hn0.
    + rewrite Hnum. f_equal. unfold batches_left. rewrite Hn0.
      rewrite N.div_small by lia. done.
    + destruct Hok as [Hl Hs]. fold n in Hs.
      destruct (dataset_data_ ds); [done|simpl in Hs; lia].
    + intros _. destruct Hok as [Hl Hs]. fold n in Hs.
      destruct (dataset_data_ ds); [done|simpl in Hs; lia].
    + intros i batch Hi. done.
    + replace l0 with (with_current n l0) by (by rewrite Hn0). done.
  - destruct (Iterator_loop_run l0 (S (N.to_nat (batches_left n batch_size 0))) 0 [])
      as (batches & Hrun & Hcount & Hcat & Hsizes);
      [cbn [l0 dataset_ batch_size_ indices_]; fold n; first [done|lia]..|].
    rewrite (samples_by_indices l0 Hlen) in Hcat.
    cbn [l0 dataset_ batch_size_ indices_] in Hcount, Hcat, Hsizes.
    fold n in Hcount, Hcat, Hsizes.
    exists batches, (with_current n l0). split_and!.
    + intros fuel Hfuel.
      unfold has_next. cbn [l0 current_idx_ dataset_]. fold n.
      destruct (N.ltb_spec 0 n) as [_|?]; [|lia]. cbn [negb].
      apply (Iterator_loop_mono _ _ _ _ _ _ Hrun). lia.
    + rewrite Hnum. by rewrite Hcount.
    + rewrite Hcat, HI. by rewrite samples_of_iota.
    + intros Hs. rewrite Hcat, (HIeq Hs). by apply samples_of_iota.
    + intros i batch Hi. destruct (Hsizes i batch Hi) as [H1 H2].
      split; [done|]. rewrite H2. f_equal. lia.
    + done.
Qed.

Lemma next_batch_zero (l : DataLoader) :
  batch_size_ l = 0 →
  current_idx_ l < dataset_size_ (dataset_ l) →
  dataset_size_ (dataset_ l) < size_t_modulus →
  next_batch l = (inr ([], []), l).
Proof.
  intros Hb Hc Hn. unfold next_batch, has_next.
  destruct (N.ltb_spec (current_idx_ l) (dataset_size_ (dataset_ l))); [|lia].
  cbn [negb]. rewrite Hb, N.add_0_r. unfold wrap.
  rewrite N.mod_small, N.min_l by lia.
  unfold batch_range. rewrite N.sub_diag. destruct l; simpl in Hb; subst; reflexivity.
Qed.

(** X23. A batch size of zero. On a non-empty dataset [next_batch()] then
    returns an empty batch and leaves the loader where it was, so
    [for (auto batch : loader)] never ends, and [num_batches()] divides by
    zero. *)
Theorem zero_batch_size_never_ends (std_shuffle : nat → list N → list N)
    (rd0 rd : nat) (ds : Dataset) (shuffle : bool) :
  0 < dataset_size_ ds → dataset_size_ ds < size_t_modulus →
  let l := DataLoader_new std_shuffle rd0 ds 0 shuffle in
  next_batch l = (inr ([], []), l) ∧
  num_batches l = None ∧
  ∀ fuel, for_batches std_shuffle fuel rd l = None.
Proof.
  intros Hn Hmax l.
  assert (Hl : dataset_ l = ds ∧ batch_size_ l = 0 ∧ current_idx_ l = 0)
    by (unfold l, DataLoader_new; by destruct shuffle).
  destruct Hl as (Hd & Hb & Hc).
  split_and!.
  - apply next_batch_zero; rewrite ?Hd, ?Hc; done.
  - unfold num_batches. by rewrite Hb.
  - intros fuel. unfold for_batches.
    set (l0 := reset std_shuffle rd l).
    assert (Hl0 : dataset_ l0 = ds ∧ batch_size_ l0 = 0 ∧ current_idx_ l0 = 0).
    { unfold l0, reset. rewrite Hd, Hb. by destruct (shuffle_ l). }
    destruct Hl0 as (Hd0 & Hb0 & Hc0).
    unfold has_next. rewrite Hd0, Hc0.
    destruct (N.ltb_spec 0 (dataset_size_ ds)); [|lia]. cbn [negb].
    generalize (@nil (list ptr * list ptr)).
    induction fuel as [|fuel IH]; intros acc; [done|].
    cbn [Iterator_loop].
    rewrite next_batch_zero by (rewrite ?Hd0, ?Hc0; done).
    unfold has_next. rewrite Hd0, Hc0.
    destruct (N.ltb_spec 0 (dataset_size_ ds)); [|lia]. apply IH.
Qed.

(** X24. [add_sample] and [operator[]]. On a consistent dataset whose size
    can still grow within [size_t], [add_sample] keeps the dataset
    consistent, the new pair is found at the old size, every older index
    returns what it returned before, and [operator[]] throws
    [std::out_of_range] exactly from the size on. *)
Theorem add_sample_then_get (d : Dataset) (data label : ptr) :
  Dataset_ok d → dataset_size_ d + 1 < size_t_modulus →
  let d' := add_sample data label d in
  Dataset_ok d' ∧
  dataset_size_ d' = dataset_size_ d + 1 ∧
  Dataset_at d' (dataset_size_ d) = inr (data, label) ∧
  (∀ idx, idx < dataset_size_ d → Dataset_at d' idx = Dataset_at d idx) ∧
  (∀ idx, (∃ e, Dataset_at d' idx = inl (out_of_range e)) ↔
          dataset_size_ d' ≤ idx) ∧
  (∀ idx x y, Dataset_at d' idx = inr (x, y) ↔
     dataset_data_ d' !! N.to_nat idx = Some x ∧
     dataset_labels_ d' !! N.to_nat idx = Some y).
Proof.
  intros [Hlen Hsize] Hmax d'.
  assert (Hsize' : dataset_size_ d' = dataset_size_ d + 1).
  { unfold d', add_sample, wrap. simpl. by rewrite N.mod_small. }
  assert (Hok' : Dataset_ok d').
  { split; [unfold d'; simpl; rewrite !length_app; simpl; lia|].
    rewrite Hsize'. unfold d'. simpl. rewrite length_app. simpl. lia. }
  split_and!; try done.
  - unfold Dataset_at. rewrite Hsize'.
    destruct (N.leb_spec (dataset_size_ d + 1) (dataset_size_ d)); [lia|].
    unfold d'. simpl. f_equal. f_equal.
    + rewrite Hsize, Nat2N.id. apply list_lookup_total_middle. done.
    + rewrite Hsize, Nat2N.id, Hlen. apply list_lookup_total_middle. done.
  - intros idx Hidx. unfold Dataset_at. rewrite Hsize'.
    destruct (N.leb_spec (dataset_size_ d + 1) idx); [lia|].
    destruct (N.leb_spec (dataset_size_ d) idx); [lia|].
    unfold d'. simpl. by rewrite !lookup_total_app_l by lia.
  - intros idx. unfold Dataset_at.
    destruct (N.leb_spec (dataset_size_ d') idx); split; try done.
    + intros _. by eexists.
    + by intros [e ?].
    + lia.
  - intros idx x y. unfold Dataset_at.
    destruct Hok' as [Hlen' Hs'].
    destruct (N.leb_spec (dataset_size_ d') idx) as [Hle|Hlt]; split.
    + done.
    + intros [Hx%lookup_lt_Some _]. lia.
    + intros [= <- <-].
      split; apply list_lookup_lookup_total_lt; rewrite length_app; simpl; lia.
    + intros [Hx Hy]. f_equal.
      by rewrite (list_lookup_total_correct _ _ _ Hx),
        (list_lookup_total_correct _ _ _ Hy).
Qed.

(** * The additional properties on small inputs *)

Section CoverageExactZ.
Local Existing Instance exactZ.
Local Open Scope Z_scope.

(** Two vectors of shape [[2]]; the second requires no gradient. *)
Definition pairZ : list (@Tensor Z) :=
  [mkTensor [3; 5] [0; 0] [2%N] 2%N true [] BwNoop;
   mkTensor [7; 11] [] [2%N] 2%N false [] BwNoop].

(** [r = (a + b).sum()] over [pairZ]. *)
Definition mixedZ : list (@Tensor Z) :=
  (bind (add 0%nat 1%nat) sum pairZ).2.

(** Two operands and a result that already holds a gradient. *)
Definition tripleZ : list (@Tensor Z) :=
  [mkTensor [3; 5] [0; 0] [2%N] 2%N true [] BwNoop;
   mkTensor [7; 11] [1; 1] [2%N] 2%N true [] BwNoop;
   mkTensor [21; 55] [1; 2] [2%N] 2%N true [] BwNoop].

(** A 2x3 and a 3x2 matrix that require gradients, and a 2x2 result whose
    gradient is all ones. *)
Definition matgradZ : list (@Tensor Z) :=
  [mkTensor [1; 2; 3; 4; 5; 6] [0; 0; 0; 0; 0; 0] [2%N; 3%N] 6%N true [] BwNoop;
   mkTensor [7; 8; 9; 10; 11; 12] [0; 0; 0; 0; 0; 0] [3%N; 2%N] 6%N true [] BwNoop;
   mkTensor [58; 64; 139; 154] [1; 1; 1; 1] [2%N; 2%N] 4%N true [] BwNoop].

(** A parameter whose gradient is not zero. *)
Definition gradsZ : list (@Tensor Z) :=
  [mkTensor [3; 5] [4; 6] [2%N] 2%N true [] BwNoop].

(** A negative, a zero and a positive element. *)
Definition signsZ : list (@Tensor Z) :=
  [mkTensor [-3; 0; 5] [0; 0; 0] [3%N] 3%N true [] BwNoop].


Lemma add_elementwise_witness :
  ∃ t, add 0%nat 1%nat pairZ = (inr 2%nat, pairZ ++ [t]) ∧
       data_ t = [10; 16] ∧ requires_grad_ t = true.
Proof.
  destruct (add_elementwise pairZ 0%nat 1%nat) as [Hsame _].
  - vm_compute. repeat split.
  - vm_compute. repeat split.
  - destruct Hsame as (t & Hrun & _ & Hdata & Hrg & _); [reflexivity|].
    exists t. split_and!; [exact Hrun| |].
    + rewrite Hdata. reflexivity.
    + rewrite Hrg. reflexivity.
Defined.

Lemma multiply_elementwise_witness :
  ∃ t, multiply 0%nat 1%nat pairZ = (inr 2%nat, pairZ ++ [t]) ∧
       data_ t = [21; 55] ∧ inputs_ t = [0%nat; 1%nat].
Proof.
  destruct (multiply_elementwise pairZ 0%nat 1%nat) as [Hsame _].
  - vm_compute. repeat split.
  - vm_compute. repeat split.
  - destruct Hsame as (t & Hrun & _ & Hdata & _ & Hin & _); [reflexivity|].
    exists t. split_and!; [exact Hrun| |exact Hin].
    rewrite Hdata. reflexivity.
Defined.

Lemma flatten_keeps_data_witness :
  ∃ T T2,
    flatten 0%nat matricesZ = (inr 2%nat, matricesZ ++ [T]) ∧
    shape_ T = [6%N] ∧ data_ T = [1; 2; 3; 4; 5; 6] ∧
    flatten 2%nat (matricesZ ++ [T]) = (inr 3%nat, (matricesZ ++ [T]) ++ [T2]) ∧
    data_ T2 = [1; 2; 3; 4; 5; 6].
Proof.
  destruct (flatten_keeps_data matricesZ 0%nat) as
    (T & T2 & Hrun & Hshape & Hdata & _ & _ & _ & _ & Hrun2 & _ & Hdata2).
  - vm_compute. repeat split.
  - exists T, T2. split_and!; [exact Hrun|exact Hshape|exact Hdata|exact Hrun2|].
    rewrite Hdata2. exact Hdata.
Defined.

Lemma backward_changes_only_gradients_witness :
  ∃ s', backward 5 4%nat diamondZ = Some s' ∧
        length s' = 5%nat ∧ data_ (deref s' 0%nat) = [3; 5] ∧
        inputs_ (deref s' 3%nat) = [1%nat; 2%nat].
Proof.
  destruct (backward 5 4%nat diamondZ) as [s'|] eqn:Hrun;
    [|vm_compute in Hrun; discriminate].
  destruct (backward_changes_only_gradients diamondZ 4%nat 5 s' Hrun) as
    [Hlen Hsame].
  exists s'. split_and!; [reflexivity|exact Hlen| |].
  - destruct (Hsame 0%nat) as (-> & _). reflexivity.
  - destruct (Hsame 3%nat) as (_ & _ & _ & _ & -> & _). reflexivity.
Defined.


Lemma backward_skips_no_grad_witness :
  ∃ s', backward 4 3%nat mixedZ = Some s' ∧
        deref s' 1%nat = deref mixedZ 1%nat.
Proof.
  destruct (backward 4 3%nat mixedZ) as [s'|] eqn:Hrun;
    [|vm_compute in Hrun; discriminate].
  exists s'. split; [reflexivity|].
  apply (backward_skips_no_grad mixedZ 3%nat 4 s' 1%nat Hrun).
  - vm_compute. repeat split.
  - reflexivity.
Defined.

Lemma multiply_backward_fn_witness :
  grad_ (deref (run_closure (BwMultiply 0%nat 1%nat 2%nat) tripleZ) 0%nat) =
    [7; 22] ∧
  grad_ (deref (run_closure (BwMultiply 0%nat 1%nat 2%nat) tripleZ) 1%nat) =
    [4; 11].
Proof.
  destruct (multiply_backward_fn tripleZ 0%nat 1%nat 2%nat) as (Hne & _ & _).
  - lia.
  - lia.
  - vm_compute. repeat split.
  - vm_compute. repeat split.
  - reflexivity.
  - reflexivity.
  - destruct Hne as [Ha Hb]; [lia|]. rewrite Ha, Hb. split; reflexivity.
Defined.

Lemma matmul_backward_fn_witness :
  rgrad (run_closure (BwMatmul 0%nat 1%nat 2%nat 2 3 2) matgradZ) 0%nat 0 = 15 ∧
  rgrad (run_closure (BwMatmul 0%nat 1%nat 2%nat 2 3 2) matgradZ) 1%nat 0 = 5.
Proof.
  destruct (matmul_backward_fn matgradZ 0%nat 1%nat 2%nat 2 3 2) as
    (Ha & Hb & _).
  - lia.
  - lia.
  - lia.
  - reflexivity.
  - reflexivity.
  - reflexivity.
  - reflexivity.
  - reflexivity.
  - reflexivity.
  - reflexivity.
  - split.
    + apply (Ha 0%nat 0%nat); vm_compute; lia.
    + apply (Hb 0%nat 0%nat); vm_compute; lia.
Defined.

Lemma backward_accumulates_until_zero_grad_witness :
  ∃ s0 s1 s2 s3 s4,
    sum 0%nat leafZ = (inr 1%nat, s0) ∧
    backward 2 1%nat s0 = Some s1 ∧ grad_ (deref s1 0%nat) = [1; 1] ∧
    backward 2 1%nat s1 = Some s2 ∧ grad_ (deref s2 0%nat) = [2; 2] ∧
    zero_grad 2 1%nat s2 = Some s3 ∧
    backward 2 1%nat s3 = Some s4 ∧ grad_ (deref s4 0%nat) = [1; 1].
Proof.
  destruct (backward_accumulates_until_zero_grad leafZ 0%nat) as
    (s0 & s1 & s2 & s3 & s4 & Hsum & Hb1 & Hg1 & Hb2 & Hg2 & Hz & Hb3 & Hg3).
  - apply graph_okb_correct. vm_compute. reflexivity.
  - apply closures_localb_correct. vm_compute. reflexivity.
  - simpl. lia.
  - vm_compute. repeat split.
  - exists s0, s1, s2, s3, s4.
    split_and!; [exact Hsum|exact Hb1| |exact Hb2| |exact Hz|exact Hb3|].
    + rewrite Hg1. reflexivity.
    + rewrite Hg2. reflexivity.
    + rewrite Hg3. reflexivity.
Defined.

Lemma optimizer_zero_grad_reachable_witness :
  ∃ s', Optimizer_zero_grad 1 (mkOptimizer [0%nat] 1) gradsZ = Some s' ∧
        grad_ (deref s' 0%nat) = [0; 0] ∧ data_ (deref s' 0%nat) = [3; 5].
Proof.
  destruct (optimizer_zero_grad_reachable gradsZ (mkOptimizer [0%nat] 1) 1) as
    (s' & Hrun & _ & Hzero & _ & Hdata).
  - apply graph_okb_correct. vm_compute. reflexivity.
  - intros p ->%list_elem_of_singleton. lia.
  - exists s'. split_and!; [exact Hrun| |].
    + rewrite (Hzero 0%nat 0%nat); [reflexivity|by left|constructor].
    + rewrite Hdata. reflexivity.
Defined.

Lemma steplr_compounds_witness :
  learning_rate_
    (foldl (λ o epoch, StepLR_step 2 2 (Z.of_nat epoch) o)
           (mkOptimizer [0%nat] 1) (seq 0 5)) = 4.
Proof.
  destruct (steplr_compounds 2 2 5 (mkOptimizer [0%nat] 1)) as [_ Hlr].
  - lia.
  - rewrite Hlr. reflexivity.
Defined.

Lemma transpose_swaps_entries_witness :
  ∃ T', transpose 0%nat matricesZ = (inr 2%nat, matricesZ ++ [T']) ∧
        shape_ T' = [3%N; 2%N] ∧ data_ T' !! 1%nat = Some 4.
Proof.
  destruct (transpose_swaps_entries matricesZ 0%nat) as [H2d _].
  destruct (H2d 2%N 3%N) as (T' & Hrun & Hshape & _ & _ & _ & _ & Hentry).
  - reflexivity.
  - vm_compute. reflexivity.
  - exists T'. split_and!; [exact Hrun|exact Hshape|].
    apply (Hentry 1%nat 0%nat); vm_compute; lia.
Defined.

Lemma transpose_involutive_witness :
  ∃ T1 T2,
    transpose 0%nat matricesZ = (inr 2%nat, matricesZ ++ [T1]) ∧
    transpose 2%nat (matricesZ ++ [T1]) =
      (inr 3%nat, (matricesZ ++ [T1]) ++ [T2]) ∧
    shape_ T2 = [2%N; 3%N] ∧ data_ T2 = [1; 2; 3; 4; 5; 6].
Proof.
  destruct (transpose_involutive matricesZ 0%nat 2 3) as
    (T1 & T2 & Hrun1 & Hrun2 & Hshape & Hdata).
  - vm_compute. repeat split.
  - reflexivity.
  - vm_compute. reflexivity.
  - exists T1, T2. split_and!; [exact Hrun1|exact Hrun2|exact Hshape|exact Hdata].
Defined.


Lemma unary_ops_elementwise_witness :
  ∃ t, relu 0%nat signsZ = (inr 1%nat, signsZ ++ [t]) ∧ data_ t = [0; 0; 5].
Proof.
  destruct (unary_ops_elementwise signsZ 0%nat CRelu) as
    (t & Hrun & _ & Hdata & _).
  - vm_compute. repeat split.
  - exists t. split; [exact Hrun|]. rewrite Hdata. reflexivity.
Defined.

Lemma unary_ops_gradient_witness :
  grad_after_backward (bind (relu 0%nat) sum) 0%nat signsZ = Some [0; 0; 1].
Proof.
  change (grad_after_backward (one_branch CRelu 0%nat) 0%nat signsZ =
          Some [0; 0; 1]).
  rewrite unary_ops_gradient.
  - reflexivity.
  - apply graph_okb_correct. vm_compute. reflexivity.
  - apply closures_localb_correct. vm_compute. reflexivity.
  - simpl. lia.
  - vm_compute. repeat split.
Defined.

End CoverageExactZ.

Section CoverageFloat64.
Local Existing Instance binary64_no_libm.
Local Open Scope float_scope.

(** A target [[0; 4]] and a prediction [[1; 2]] that requires a gradient. *)
Definition mse64 : list (@Tensor float) :=
  [mkTensor [0; 4] [] [2%N] 2%N false [] BwNoop;
   mkTensor [1; 2] [0; 0] [2%N] 2%N true [] BwNoop].

Lemma mean_backward_witness :
  grad_after_backward (mean 0%nat) 0%nat leaf64 =
    Some (replicate 6 (0 + (0 + 1 / 6 * 1))).
Proof.
  rewrite mean_backward.
  - reflexivity.
  - apply graph_okb_correct. vm_compute. reflexivity.
  - apply closures_localb_correct. vm_compute. reflexivity.
  - simpl. lia.
  - vm_compute. repeat split.
Defined.

Lemma rmsprop_step_updates_witness :
  ∃ opt' s',
    RMSprop_step (RMSprop_new [0%nat] 0.5 0.5 0.25 param64) param64 = (opt', s') ∧
    square_avg_ opt' !! 0%nat = Some [0.5 * 0 + (1 - 0.5) * 2 * 2] ∧
    data_ (deref s' 0%nat) = [1 - 0.5 * 2 / (sqrt 2 + 0.25)].
Proof.
  destruct rmsprop_step_updates as [Hnew Hstep].
  assert (Hv0 : square_avg_ (RMSprop_new [0%nat] 0.5 0.5 0.25 param64) !! 0%nat =
                Some [0]).
  { apply (Hnew [0%nat] 0.5 0.5 0.25 param64 0%nat).
    by apply list_elem_of_singleton. }
  destruct (RMSprop_step (RMSprop_new [0%nat] 0.5 0.5 0.25 param64) param64)
    as [opt' s'] eqn:Hrun.
  exists opt', s'. split; [done|].
  destruct (Hstep (RMSprop_new [0%nat] 0.5 0.5 0.25 param64) param64 opt' s')
    with (p := 0%nat) as [_ Hupd].
  - apply NoDup_singleton.
  - intros p ->%list_elem_of_singleton. split; [repeat split|].
    by rewrite Hv0.
  - exact Hrun.
  - destruct Hupd as (_ & Hsq & Hdata); [by left|done|].
    rewrite Hsq, Hdata, Hv0. split; reflexivity.
Defined.

Lemma adagrad_step_updates_witness :
  ∃ opt' s',
    AdaGrad_step (AdaGrad_new [0%nat] 0.5 0.25 param64) param64 = (opt', s') ∧
    sum_squares_ opt' !! 0%nat = Some [0 + 2 * 2] ∧
    data_ (deref s' 0%nat) = [1 - 0.5 * 2 / (sqrt 4 + 0.25)].
Proof.
  destruct adagrad_step_updates as [Hnew Hstep].
  assert (Hv0 : sum_squares_ (AdaGrad_new [0%nat] 0.5 0.25 param64) !! 0%nat =
                Some [0]).
  { apply (Hnew [0%nat] 0.5 0.25 param64 0%nat).
    by apply list_elem_of_singleton. }
  destruct (AdaGrad_step (AdaGrad_new [0%nat] 0.5 0.25 param64) param64)
    as [opt' s'] eqn:Hrun.
  exists opt', s'. split; [done|].
  destruct (Hstep (AdaGrad_new [0%nat] 0.5 0.25 param64) param64 opt' s')
    with (p := 0%nat) as [_ Hupd].
  - apply NoDup_singleton.
  - intros p ->%list_elem_of_singleton. split; [repeat split|].
    by rewrite Hv0.
  - exact Hrun.
  - destruct Hupd as (_ & Hsq & Hdata); [by left|done|].
    rewrite Hsq, Hdata, Hv0. split; reflexivity.
Defined.

Lemma mse_loss_value_witness :
  ∃ s1, MSELoss_compute 1%nat 0%nat mse64 = (inr 8%nat, s1) ∧
        shape_ (deref s1 8%nat) = [1%N] ∧ data_ (deref s1 8%nat) = [2.5].
Proof.
  destruct (mse_loss_value mse64 1%nat 0%nat) as [Hsame _].
  - simpl. lia.
  - simpl. lia.
  - vm_compute. repeat split.
  - vm_compute. repeat split.
  - destruct Hsame as (s1 & Hrun & _ & Hshape & Hdata & _); [reflexivity|].
    exists s1. split_and!; [exact Hrun|exact Hshape|].
    etransitivity; [exact Hdata|reflexivity].
Defined.

Lemma mse_loss_gradient_witness :
  grad_after_backward (MSELoss_compute 1%nat 0%nat) 1%nat mse64 = Some [1; -2].
Proof.
  assert (Hok : graph_ok mse64)
    by (apply graph_okb_correct; vm_compute; reflexivity).
  rewrite mse_loss_gradient.
  - reflexivity.
  - exact Hok.
  - apply closures_localb_correct. vm_compute. reflexivity.
  - simpl. lia.
  - simpl. lia.
  - vm_compute. repeat split.
  - vm_compute. repeat split.
  - reflexivity.
  - reflexivity.
  - intros Hreach. apply (reachable_le _ _ _ Hok) in Hreach. lia.
Defined.

End CoverageFloat64.

(** Five samples, in batches of two. *)
Definition samples5 : Dataset :=
  {| dataset_data_ := [10; 11; 12; 13; 14]%nat;
     dataset_labels_ := [20; 21; 22; 23; 24]%nat;
     dataset_size_ := 5%N |}.

Lemma dataloader_epoch_witness :
  ∃ batches l',
    for_batches (λ _, reverse) 4 0
      (DataLoader_new (λ _, reverse) 0 samples5 2%N true) =
      Some (inr batches, l') ∧
    length batches = 3%nat ∧
    concat ((λ batch, zip batch.1 batch.2) <$> batches) ≡ₚ
      [(10, 20); (11, 21); (12, 22); (13, 23); (14, 24)]%nat.
Proof.
  destruct (dataloader_epoch (λ _, reverse) 0 0 samples5 2%N true) as
    (batches & l' & Hrun & Hnum & Hperm & _).
  - intros _ l. apply reverse_Permutation.
  - split; reflexivity.
  - reflexivity.
  - vm_compute. discriminate.
  - assert (Hlen : length batches = 3%nat).
    { assert (Hn : num_batches
                (DataLoader_new (λ _, reverse) 0 samples5 2%N true) = Some 3%N)
        by reflexivity.
      rewrite Hn in Hnum. injection Hnum as Hnum. lia. }
    exists batches, l'. split_and!; [apply Hrun; lia|exact Hlen|exact Hperm].
Defined.

Lemma zero_batch_size_never_ends_witness :
  for_batches (λ _, reverse) 1000 0
    (DataLoader_new (λ _, reverse) 0 samples5 0%N false) = None.
Proof.
  destruct (zero_batch_size_never_ends (λ _, reverse) 0 0 samples5 false) as
    (_ & _ & Hloop).
  - reflexivity.
  - reflexivity.
  - apply Hloop.
Defined.

Lemma add_sample_then_get_witness :
  Dataset_at (add_sample 7%nat 8%nat samples5) 5%N = inr (7%nat, 8%nat) ∧
  Dataset_at (add_sample 7%nat 8%nat samples5) 0%N = inr (10%nat, 20%nat).
Proof.
  destruct (add_sample_then_get samples5 7%nat 8%nat) as
    (_ & _ & Hnew & Hold & _).
  - split; reflexivity.
  - reflexivity.
  - split; [exact Hnew|]. rewrite Hold; reflexivity.
Defined.

(** * Instances for the branches and the reshapes *)

Section BranchesExactZ.
Local Existing Instance exactZ.

(** [x] with data [3, 5], [o1 = x * x] and [o2 = relu(x)]. *)
Definition branchesZ : list (@Tensor Z) :=
  (relu 0%nat (multiply 0%nat 0%nat leafZ).2).2.

Lemma gradients_accumulate_over_branches_witness :
  ∃ G1 G2 : list Z,
    branch_gradients 1%nat 2%nat 0%nat branchesZ =
      Some (G1, G2, zip_with Z.add G1 G2) ∧
    G1 = [6; 10]%Z ∧ G2 = [1; 1]%Z.
Proof.
  assert (Hok : graph_ok branchesZ)
    by (apply graph_okb_correct; vm_compute; reflexivity).
  destruct (gradients_accumulate_over_branches branchesZ 0%nat 1%nat 2%nat) as
    (_ & Hsum & _).
  - exact Hok.
  - apply closures_localb_correct. vm_compute. reflexivity.
  - apply closures_ownb_correct. vm_compute. reflexivity.
  - vm_compute. lia.
  - vm_compute. lia.
  - vm_compute. repeat split.
  - vm_compute. repeat split.
  - reflexivity.
  - discriminate.
  - discriminate.
  - eapply reachable_step; [|constructor]. vm_compute. left.
  - eapply reachable_step; [|constructor]. vm_compute. left.
  - intros t Ht1 Ht2 Hin.
    pose proof (reachable_le _ _ _ Hok Ht1) as Hle.
    destruct t as [|[|t]]; [|clear Hin|lia].
    + vm_compute in Hin. inversion Hin.
    + apply reachable_inv in Ht2 as [Heq|(i & Hi & Hr)]; [discriminate|].
      apply (reachable_le _ _ _ Hok) in Hr.
      vm_compute in Hi. inversion Hi as [|? ? ? Hi']; subst; [lia|inversion Hi'].
  - reflexivity.
  - destruct Hsum as (G1 & G2 & HG).
    + intros a b c. simpl. lia.
    + intros a b. simpl. lia.
    + intros a. simpl. lia.
    + vm_compute. reflexivity.
    + exists G1, G2. split; [exact HG|].
      assert (Hc : branch_gradients 1%nat 2%nat 0%nat branchesZ =
                Some ([6; 10]%Z, [1; 1]%Z, [7; 11]%Z)) by (vm_compute; reflexivity).
      rewrite Hc in HG. injection HG as <- <- _. split; reflexivity.
Defined.

End BranchesExactZ.

Section BranchesFloat64.
Local Existing Instance binary64_no_libm.
Local Open Scope float_scope.

(** [x] with the single element [2^53 + 2], [o1 = x * x] and
    [o2 = relu(x)], on binary64. *)
Definition branches64 : list (@Tensor float) :=
  (relu 0%nat
     (multiply 0%nat 0%nat
        [mkTensor [9007199254740994] [0] [1%N] 1%N true [] BwNoop]).2).2.

(** On binary64 the gradient of [x] from the two branches together is not
    the sum of its gradients from each branch alone: the closure of [relu]
    runs first and adds 1.0, the closure of [multiply] then adds [x] twice,
    and [(1 + x) + x] rounds to [2^54 + 8], whereas [(x + x) + 1] rounds to
    [2^54 + 4]. The store is well formed, and the two branches have no
    consumer of [x] in common. *)
Lemma branches_sum_counterexample :
  graph_ok branches64 ∧ closures_local branches64 ∧ closures_own branches64 ∧
  Forall tensor_ok branches64 ∧
  inputs_ (deref branches64 1%nat) = [0%nat; 0%nat] ∧
  inputs_ (deref branches64 2%nat) = [0%nat] ∧
  fresh_grad branches64 0%nat ∧
  branch_gradients 1%nat 2%nat 0%nat branches64 =
    Some ([18014398509481988], [1], [18014398509481992]) ∧
  zip_with PrimFloat.add [18014398509481988] [1] = [18014398509481988] ∧
  ¬ (∃ G1 G2, branch_gradients 1%nat 2%nat 0%nat branches64 =
                Some (G1, G2, zip_with PrimFloat.add G1 G2)).
Proof.
  assert (Hc : branch_gradients 1%nat 2%nat 0%nat branches64 =
            Some ([18014398509481988], [1], [18014398509481992]))
    by (vm_compute; reflexivity).
  split_and!.
  - apply graph_okb_correct. vm_compute. reflexivity.
  - apply closures_localb_correct. vm_compute. reflexivity.
  - apply closures_ownb_correct. vm_compute. reflexivity.
  - vm_compute. repeat constructor.
  - reflexivity.
  - reflexivity.
  - vm_compute. reflexivity.
  - exact Hc.
  - vm_compute. reflexivity.
  - intros (G1 & G2 & HG). rewrite Hc in HG. injection HG as <- <- Heq.
    apply (f_equal (λ l, match l with
                         | [a] => PrimFloat.eqb a 18014398509481992
                         | _ => false
                         end)) in Heq.
    vm_compute in Heq. discriminate.
Qed.







End BranchesFloat64.
